(** * Scope analysis of a TypeScript syntax tree

    A shallow embedding of [src/index.ts]: the scope tree ([Scope]), the
    scope builder ([findScopes]), the reference resolver
    ([assignReferences]) and the container facade
    ([SourceFileScopesContainer]), followed by the properties proved of
    them. *)

From stdpp Require Import gmap strings list fin_maps.
From Stdlib Require Import ZArith Lia.

Local Open Scope string_scope.
Local Open Scope list_scope.
Local Open Scope nat_scope.
Set Warnings "-register-all".

(** ** The syntax tree handed over by the parser

    The [typescript] package is an external collaborator.  A node is modelled
    by what the analysis reads of it: its identity, its [kind], its [text]
    (identifiers), its [flags] (declaration lists) and the children that
    [ts.forEachChild] enumerates, in that order, each tagged with the
    property of the node it is stored under. *)

Inductive SyntaxKind :=
  | SourceFile | Identifier | Block | CatchClause
  | ImportClause | NamespaceImport | NamedImports | ImportSpecifier
  | FunctionDeclaration | FunctionExpression | ArrowFunction
  | MethodDeclaration | Constructor | GetAccessor | SetAccessor
  | MethodSignature | CallSignature | ConstructSignature | IndexSignature
  | FunctionType | ConstructorType | JSDocFunctionType | JSDocSignature
  | ClassDeclaration | ClassExpression
  | ForStatement | ForInStatement | ForOfStatement
  | VariableDeclaration | VariableDeclarationList
  | ObjectBindingPattern | ArrayBindingPattern | BindingElement
  | ParameterDeclaration | ExpressionStatement | BinaryExpression | EqualsToken
  | ReturnStatement | ThrowStatement
  | PropertyAccessExpression | ElementAccessExpression | CallExpression
  | IfStatement | WhileStatement | SwitchStatement | CaseClause
  | JsxOpeningElement | JsxClosingElement | JsxSelfClosingElement
  | JsxExpression | JsxAttribute | JsxSpreadAttribute
  | PropertyAssignment | ComputedPropertyName
  | OtherTypeNode          (* any other kind in the type-node range *)
  | OtherKind (tag : nat). (* any kind neither pass treats specially *)

(** The properties of a node under which the two passes look up a child. *)
Inductive Field :=
  | FName | FInitializer | FExpression | FStatement | FBody
  | FParameters | FTypeParameters | FType | FElements | FNamedBindings
  | FVariableDeclaration | FCondition | FIncrementor
  | FLeft | FOperatorToken | FRight | FArgumentExpression | FArguments
  | FThenStatement | FElseStatement | FCaseBlock | FStatements
  | FTagName | FAttributes
  | FOther.                (* modifiers, decorators, members, ... *)

#[global] Instance Field_eq_dec : EqDecision Field.
Proof. solve_decision. Defined.

Inductive Node := mkNode {
  nid : nat;               (* object identity of the node *)
  kind : SyntaxKind;
  text : string;
  flags : Z;
  children : list (Field * Node)
}.

(** [ts.forEachChild(node, cb)] with a callback that returns nothing. *)
Definition forEachChild (node : Node) : list Node := (children node).*2.

(** [node.f] for a property holding one node ([None] is [undefined]). *)
Definition prop (f : Field) (node : Node) : option Node :=
  snd <$> head (filter (λ c, c.1 = f) (children node)).

(** [node.f] for a property holding a [NodeArray]. *)
Definition propAll (f : Field) (node : Node) : list Node :=
  snd <$> filter (λ c, c.1 = f) (children node).

Fixpoint height (node : Node) : nat :=
  match node with
  | mkNode _ _ _ _ cs =>
      S ((fix go (l : list (Field * Node)) : nat :=
            match l with
            | [] => 0
            | (_, c) :: l' => Nat.max (height c) (go l')
            end) cs)
  end.

(** The nodes of a tree, root first. *)
Fixpoint subnodes (node : Node) : list Node :=
  node :: match node with
          | mkNode _ _ _ _ cs =>
              (fix go (l : list (Field * Node)) : list Node :=
                 match l with
                 | [] => []
                 | (_, c) :: l' => subnodes c ++ go l'
                 end) cs
          end.

(** Identities of all nodes of a tree, root first. *)
Definition nodeIds (node : Node) : list nat := nid <$> subnodes node.

Section KindPredicates.
Variable node : Node.

Definition isIdentifier := match kind node with Identifier => true | _ => false end.
Definition isBlock := match kind node with Block => true | _ => false end.
Definition isCatchClause := match kind node with CatchClause => true | _ => false end.
Definition isImportClause := match kind node with ImportClause => true | _ => false end.
Definition isNamespaceImport := match kind node with NamespaceImport => true | _ => false end.
Definition isFunctionDeclaration := match kind node with FunctionDeclaration => true | _ => false end.
Definition isFunctionExpression := match kind node with FunctionExpression => true | _ => false end.
Definition isArrowFunction := match kind node with ArrowFunction => true | _ => false end.
Definition isMethodDeclaration := match kind node with MethodDeclaration => true | _ => false end.
Definition isConstructorDeclaration := match kind node with Constructor => true | _ => false end.
Definition isGetAccessorDeclaration := match kind node with GetAccessor => true | _ => false end.
Definition isSetAccessorDeclaration := match kind node with SetAccessor => true | _ => false end.
Definition isFunctionLike :=
  match kind node with
  | MethodSignature | CallSignature | JSDocSignature | ConstructSignature
  | IndexSignature | FunctionType | JSDocFunctionType | ConstructorType
  | MethodDeclaration | Constructor | GetAccessor | SetAccessor
  | FunctionExpression | ArrowFunction | FunctionDeclaration => true
  | _ => false
  end.
Definition isClassLike :=
  match kind node with ClassDeclaration | ClassExpression => true | _ => false end.
Definition isForStatement := match kind node with ForStatement => true | _ => false end.
Definition isForInStatement := match kind node with ForInStatement => true | _ => false end.
Definition isForOfStatement := match kind node with ForOfStatement => true | _ => false end.
Definition isVariableDeclaration := match kind node with VariableDeclaration => true | _ => false end.
Definition isVariableDeclarationList :=
  match kind node with VariableDeclarationList => true | _ => false end.
Definition isObjectBindingPattern := match kind node with ObjectBindingPattern => true | _ => false end.
Definition isArrayBindingPattern := match kind node with ArrayBindingPattern => true | _ => false end.
Definition isBindingElement := match kind node with BindingElement => true | _ => false end.
Definition isParameter := match kind node with ParameterDeclaration => true | _ => false end.
Definition isTypeNode :=
  match kind node with
  | FunctionType | ConstructorType | JSDocFunctionType | OtherTypeNode => true
  | _ => false
  end.
Definition isExpressionStatement := match kind node with ExpressionStatement => true | _ => false end.
Definition isBinaryExpression := match kind node with BinaryExpression => true | _ => false end.
Definition isEqualsToken := match kind node with EqualsToken => true | _ => false end.
Definition isReturnStatement := match kind node with ReturnStatement => true | _ => false end.
Definition isThrowStatement := match kind node with ThrowStatement => true | _ => false end.
Definition isPropertyAccessExpression :=
  match kind node with PropertyAccessExpression => true | _ => false end.
Definition isElementAccessExpression :=
  match kind node with ElementAccessExpression => true | _ => false end.
Definition isCallExpression := match kind node with CallExpression => true | _ => false end.
Definition isIfStatement := match kind node with IfStatement => true | _ => false end.
Definition isWhileStatement := match kind node with WhileStatement => true | _ => false end.
Definition isSwitchStatement := match kind node with SwitchStatement => true | _ => false end.
Definition isCaseClause := match kind node with CaseClause => true | _ => false end.
Definition isJsxOpeningElement := match kind node with JsxOpeningElement => true | _ => false end.
Definition isJsxClosingElement := match kind node with JsxClosingElement => true | _ => false end.
Definition isJsxSelfClosingElement :=
  match kind node with JsxSelfClosingElement => true | _ => false end.
Definition isJsxExpression := match kind node with JsxExpression => true | _ => false end.
Definition isJsxAttribute := match kind node with JsxAttribute => true | _ => false end.
Definition isJsxSpreadAttribute := match kind node with JsxSpreadAttribute => true | _ => false end.
Definition isPropertyAssignment := match kind node with PropertyAssignment => true | _ => false end.
Definition isComputedPropertyName := match kind node with ComputedPropertyName => true | _ => false end.
End KindPredicates.

(** [ts.NodeFlags]: [Const = 2] and [BlockScoped = Let | Const = 3]. *)
Module NodeFlags.
Definition Const : Z := 2.
Definition BlockScoped : Z := 3.
End NodeFlags.

(** ** Data model *)

Inductive Mutability := Mutable | Immutable.
Inductive ScopeKind := LexicalScope | FunctionScope.

#[global] Instance ScopeKind_eq_dec : EqDecision ScopeKind.
Proof. solve_decision. Defined.

(** A [Scope] object.  Its [readonly] scalar fields, among them the link to
    the parent, never change and are the value itself; [scopeId] is the
    object's identity.  The three containers it owns ([bindings],
    [childScopes], [references]) are mutated in place and live in the
    [Store], under that identity. *)
Inductive Scope := mkScope {
  scopeId : nat;
  scopeKind : ScopeKind;
  declaratingNode : Node;
  parentScope : option Scope
}.

(** A binding object: the fields written once by the object literal, and the
    identity [bindingId] under which its growing [references] array is
    stored. *)
Record ScopeBindingDeclaration := mkBinding {
  bindingId : nat;
  declaringNode : Node;
  bindingScopeKind : ScopeKind;
  bindingIdentifier : string;   (* [identifier] *)
  mutability : Mutability
}.

Record ScopeReference := mkReference {
  identifier : Node;
  referenceTo : option (ScopeBindingDeclaration * Scope);  (* binding, scope *)
  referencedFromScope : Scope;
  writeExpr : option Node;
  isInitializer : bool
}.

Record Store := mkStore {
  bindingsOf : gmap nat (gmap string ScopeBindingDeclaration);  (* Scope.bindings *)
  childScopesOf : gmap nat (list Scope);                        (* Scope.childScopes *)
  referencesOf : gmap nat (list ScopeReference);                (* Scope.references *)
  bindingReferencesOf : gmap nat (list ScopeReference);         (* binding.references *)
  scopeCount : nat;        (* scopes constructed so far *)
  bindingCount : nat       (* binding objects created so far *)
}.

Definition emptyStore : Store := mkStore ∅ ∅ ∅ ∅ 0 0.

(** ** Results, and the state-and-exception monad the code runs in *)

Inductive Error :=
  | NoParentFunctionScope  (* 'Could not find parent function scope' *)
  | ScopeNotFound          (* 'Scope not found' *)
  | NoScopeForNode         (* 'No scope could be found for node. ...' *)
  | TypeError.             (* a property of [undefined] is read *)

Inductive Result (A : Type) :=
  | Ok (a : A)
  | Throw (e : Error)
  | OutOfFuel.
Arguments Ok {A} a.
Arguments Throw {A} e.
Arguments OutOfFuel {A}.

Definition M (S A : Type) : Type := S → Result (A * S).

Definition ret {S A} (a : A) : M S A := λ s, Ok (a, s).
Definition throw {S A} (e : Error) : M S A := λ _, Throw e.
Definition outOfFuel {S A} : M S A := λ _, OutOfFuel.
Definition bind {S A B} (m : M S A) (k : A → M S B) : M S B :=
  λ s, match m s with
       | Ok (a, s') => k a s'
       | Throw e => Throw e
       | OutOfFuel => OutOfFuel
       end.
Definition modify {S} (f : S → S) : M S unit := λ s, Ok (tt, f s).
Definition gets {S A} (f : S → A) : M S A := λ s, Ok (f s, s).

#[global] Instance M_ret {S} : MRet (M S) := λ A, ret.
#[global] Instance M_bind {S} : MBind (M S) := λ A B k m, bind m k.

(** [o] where the code dereferences it: reading a property of [undefined]
    raises a [TypeError]. *)
Definition required {S A} (o : option A) : M S A :=
  match o with Some a => ret a | None => throw TypeError end.

(** [l.forEach(f)] *)
Fixpoint forEach {S A} (l : list A) (f : A → M S unit) : M S unit :=
  match l with
  | [] => ret tt
  | a :: l' => f a;; forEach l' f
  end.

(** ** Scope Tree *)

Definition bindings (st : Store) (this : Scope) : gmap string ScopeBindingDeclaration :=
  bindingsOf st !!! scopeId this.
Definition childScopes (st : Store) (this : Scope) : list Scope :=
  childScopesOf st !!! scopeId this.
Definition references (st : Store) (this : Scope) : list ScopeReference :=
  referencesOf st !!! scopeId this.
Definition bindingReferences (st : Store) (b : ScopeBindingDeclaration) : list ScopeReference :=
  bindingReferencesOf st !!! bindingId b.

(** [this.bindings.set(name, declaration)] *)
Definition setBinding (this : Scope) (name : string) (declaration : ScopeBindingDeclaration)
    (st : Store) : Store :=
  mkStore (<[scopeId this := <[name := declaration]> (bindings st this)]> (bindingsOf st))
          (childScopesOf st) (referencesOf st) (bindingReferencesOf st)
          (scopeCount st) (bindingCount st).

(** [new Scope(scopeKind, declaratingNode, parentScope)] *)
Definition newScope (scopeKind : ScopeKind) (declaratingNode : Node)
    (parentScope : option Scope) : M Store Scope :=
  λ st,
    let this := mkScope (scopeCount st) scopeKind declaratingNode parentScope in
    Ok (this,
        mkStore (<[scopeId this := ∅]> (bindingsOf st))
                (<[scopeId this := []]> (childScopesOf st))
                (<[scopeId this := []]> (referencesOf st))
                (bindingReferencesOf st)
                (S (scopeCount st)) (bindingCount st)).

(** The object literal [{ declaringNode, bindingScopeKind, identifier,
    mutability, references: [] }]. *)
Definition newBinding (declaringNode : Node) (bindingScopeKind : ScopeKind)
    (identifier : string) (mutability : Mutability) : M Store ScopeBindingDeclaration :=
  λ st,
    let b := mkBinding (bindingCount st) declaringNode bindingScopeKind identifier mutability in
    Ok (b,
        mkStore (bindingsOf st) (childScopesOf st) (referencesOf st)
                (<[bindingId b := []]> (bindingReferencesOf st))
                (scopeCount st) (S (bindingCount st))).

Fixpoint getBinding (st : Store) (this : Scope) (name : string)
    : option (ScopeBindingDeclaration * Scope) :=
  match bindings st this !! name with
  | Some decl => Some (decl, this)
  | None =>
      match parentScope this with
      | None => None
      | Some parent => getBinding st parent name
      end
  end.

Definition hasBinding (st : Store) (this : Scope) (name : string) : bool :=
  match getBinding st this name with Some _ => true | None => false end.

Definition getParentScope (this : Scope) : option Scope := parentScope this.

Definition getOwnLexicalBinding (st : Store) (this : Scope) (name : string)
    : option ScopeBindingDeclaration :=
  bindings st this !! name.

Fixpoint getOwnFunctionScopeBinding (st : Store) (this : Scope) (name : string)
    : option (ScopeBindingDeclaration * Scope) :=
  match bindings st this !! name with
  | Some decl => Some (decl, this)
  | None =>
      match scopeKind this, parentScope this with
      | FunctionScope, _ | _, None => None
      | _, Some parent => getOwnFunctionScopeBinding st parent name
      end
  end.

Definition newChildScope (this : Scope) (scopeKind : ScopeKind) (declaratingNode : Node)
    : M Store Scope :=
  childScope ← newScope scopeKind declaratingNode (Some this);
  modify (λ st, mkStore (bindingsOf st)
                        (<[scopeId this := childScopes st this ++ [childScope]]> (childScopesOf st))
                        (referencesOf st) (bindingReferencesOf st)
                        (scopeCount st) (bindingCount st));;
  mret childScope.

(** The loop of [addBinding]:
    [while (scope != null && scope.scopeKind !== FunctionScope) scope = scope.parentScope]. *)
Fixpoint functionScopeFrom (scope : Scope) : option Scope :=
  match scopeKind scope with
  | FunctionScope => Some scope
  | LexicalScope =>
      match parentScope scope with
      | None => None
      | Some parent => functionScopeFrom parent
      end
  end.

Definition addBinding (this : Scope) (name : string) (declaration : ScopeBindingDeclaration)
    : M Store unit :=
  match bindingScopeKind declaration with
  | LexicalScope => modify (setBinding this name declaration)
  | FunctionScope =>
      match functionScopeFrom this with
      | None => throw NoParentFunctionScope
      | Some scope => modify (setBinding scope name declaration)
      end
  end.

(** [binding.references.push(reference)] *)
Definition pushBindingReference (binding : ScopeBindingDeclaration)
    (reference : ScopeReference) (st : Store) : Store :=
  mkStore (bindingsOf st) (childScopesOf st) (referencesOf st)
          (<[bindingId binding := bindingReferences st binding ++ [reference]]>
             (bindingReferencesOf st))
          (scopeCount st) (bindingCount st).

(** [this.references.push(reference)] *)
Definition pushReference (this : Scope) (reference : ScopeReference) (st : Store) : Store :=
  mkStore (bindingsOf st) (childScopesOf st)
          (<[scopeId this := references st this ++ [reference]]> (referencesOf st))
          (bindingReferencesOf st) (scopeCount st) (bindingCount st).

Definition addReference (this : Scope) (node : Node) (writeExpr : option Node)
    (isInitializer : bool) : M Store unit :=
  binding ← gets (λ st, getBinding st this (text node));
  let reference := mkReference node binding this writeExpr isInitializer in
  match binding with
  | Some (decl, _) => modify (pushBindingReference decl reference)
  | None => mret tt
  end;;
  modify (pushReference this reference).

(** ** Scope Builder: [findScopes] *)

Record BuildState := mkBuildState {
  store : Store;
  result : gmap nat Scope   (* the [WeakMap<ts.Node, Scope>], keyed by node identity *)
}.

(** Calls into the scope tree leave the map alone. *)
Definition onStore {A} (m : M Store A) : M BuildState A :=
  λ bs, match m (store bs) with
        | Ok (a, st) => Ok (a, mkBuildState st (result bs))
        | Throw e => Throw e
        | OutOfFuel => OutOfFuel
        end.

(** [result.set(node, scope)] *)
Definition resultSet (node : Node) (scope : Scope) : M BuildState unit :=
  modify (λ bs, mkBuildState (store bs) (<[nid node := scope]> (result bs))).

Module FindScopes.

Section BindingNames.
Variable visitBindingName :
  Node → Node → Scope → ScopeKind → Mutability → M Store unit.

Definition visitBindingElement (bindingElement declaringNode : Node) (scope : Scope)
    (scopeKind : ScopeKind) (mutability : Mutability) : M Store unit :=
  name ← required (prop FName bindingElement);
  visitBindingName name declaringNode scope scopeKind mutability.

Definition visitArrayBindingElement (arrayBindingElement declaringNode : Node)
    (scope : Scope) (scopeKind : ScopeKind) (mutability : Mutability) : M Store unit :=
  if isBindingElement arrayBindingElement
  then visitBindingElement arrayBindingElement declaringNode scope scopeKind mutability
  else mret tt.

Definition visitBindingNameBody (bindingName decl : Node) (scope : Scope)
    (scopeKind : ScopeKind) (mutability : Mutability) : M Store unit :=
  if isIdentifier bindingName then
    declaration ← newBinding decl scopeKind (text bindingName) mutability;
    addBinding scope (text bindingName) declaration
  else if isObjectBindingPattern bindingName then
    forEach (propAll FElements bindingName)
      (λ el, visitBindingElement el decl scope scopeKind mutability)
  else if isArrayBindingPattern bindingName then
    forEach (propAll FElements bindingName)
      (λ el, visitArrayBindingElement el decl scope scopeKind mutability)
  else mret tt.
End BindingNames.

Fixpoint visitBindingNameFuel (fuel : nat)
    : Node → Node → Scope → ScopeKind → Mutability → M Store unit :=
  match fuel with
  | 0 => λ _ _ _ _ _, outOfFuel
  | S fuel' => visitBindingNameBody (visitBindingNameFuel fuel')
  end.

(** The recursion follows the pattern downwards, so its height bounds it. *)
Definition visitBindingName (bindingName : Node)
    : Node → Scope → ScopeKind → Mutability → M Store unit :=
  visitBindingNameFuel (height bindingName) bindingName.

Section Visitors.
(** [visitNode parent node scope]: [parent] is what [node.parent] reads. *)
Variable visitNode : option Node → Node → Scope → M BuildState unit.

Definition visitAllChildren (node : Node) (scope : Scope) : M BuildState unit :=
  forEach (forEachChild node) (λ child, visitNode (Some node) child scope).

Definition addAllChildren (node : Node) (scope : Scope) : M BuildState unit :=
  forEach (forEachChild node) (λ child, resultSet child scope).

Definition visitOptionalNode (parent : Node) (node : option Node) (scope : Scope)
    : M BuildState unit :=
  match node with
  | Some node => visitNode (Some parent) node scope
  | None => mret tt
  end.

Definition visitOptionalNodes (parent : Node) (nodes : list Node) (scope : Scope)
    : M BuildState unit :=
  forEach nodes (λ node, visitNode (Some parent) node scope).

Definition visitParameterDeclaration (functionLike paramDecl : Node) (scope : Scope)
    : M BuildState unit :=
  visitNode (Some functionLike) paramDecl scope;;
  name ← required (prop FName paramDecl);
  if isIdentifier name then
    onStore (declaration ← newBinding paramDecl FunctionScope (text name) Mutable;
             addBinding scope (text name) declaration)
  else if isObjectBindingPattern name then
    onStore (forEach (propAll FElements name)
               (λ el, visitBindingElement visitBindingName el paramDecl scope
                        FunctionScope Mutable))
  else
    onStore (forEach (propAll FElements name)
               (λ el, visitArrayBindingElement visitBindingName el paramDecl scope
                        FunctionScope Mutable)).

Definition visitFunctionLike (functionLike : Node) (scope : Scope) : M BuildState unit :=
  addAllChildren functionLike scope;;
  visitOptionalNodes functionLike (propAll FTypeParameters functionLike) scope;;
  visitOptionalNode functionLike (prop FType functionLike) scope;;
  match prop FName functionLike with
  | Some name =>
      resultSet name scope;;
      addAllChildren name scope;;
      if (isFunctionDeclaration functionLike || isFunctionExpression functionLike)
         && isIdentifier name
      then
        onStore (declaration ← newBinding functionLike LexicalScope (text name) Immutable;
                 addBinding scope (text name) declaration)
      else mret tt
  | None => mret tt
  end;;
  functionScope ← onStore (newChildScope scope FunctionScope functionLike);
  forEach (propAll FParameters functionLike)
    (λ node, visitParameterDeclaration functionLike node functionScope);;
  if isConstructorDeclaration functionLike || isMethodDeclaration functionLike
     || isFunctionDeclaration functionLike || isArrowFunction functionLike
     || isFunctionExpression functionLike || isGetAccessorDeclaration functionLike
     || isSetAccessorDeclaration functionLike
  then
    match prop FBody functionLike with
    | None => mret tt
    | Some body =>
        if isBlock body then
          resultSet body functionScope;;
          visitAllChildren body functionScope
        else visitNode (Some functionLike) body functionScope
    end
  else mret tt.

Definition visitNodeBody (parent : option Node) (node : Node) (scope : Scope)
    : M BuildState unit :=
  resultSet node scope;;
  if isBlock node then
    blockScope ← onStore (newChildScope scope LexicalScope node);
    parentNode ← required parent;
    (if isCatchClause parentNode then
       match prop FVariableDeclaration parentNode with
       | Some variableDeclaration =>
           name ← required (prop FName variableDeclaration);
           onStore (visitBindingName name parentNode blockScope LexicalScope Mutable)
       | None => mret tt
       end
     else mret tt);;
    visitAllChildren node blockScope
  else if isImportClause node then
    match prop FName node with
    | Some name =>
        onStore (declaration ← newBinding node FunctionScope (text name) Immutable;
                 addBinding scope (text name) declaration)
    | None => mret tt
    end;;
    match prop FNamedBindings node with
    | Some namedBindings =>
        if isNamespaceImport namedBindings then
          name ← required (prop FName namedBindings);
          onStore (declaration ← newBinding namedBindings FunctionScope (text name) Immutable;
                   addBinding scope (text name) declaration)
        else
          forEach (propAll FElements namedBindings)
            (λ el,
               name ← required (prop FName el);
               onStore (declaration ← newBinding el FunctionScope (text name) Immutable;
                        addBinding scope (text name) declaration))
    | None => mret tt
    end;;
    visitAllChildren node scope
  else if isFunctionLike node then
    visitFunctionLike node scope
  else if isClassLike node then
    match prop FName node with
    | Some name =>
        onStore (declaration ← newBinding node FunctionScope (text name) Immutable;
                 addBinding scope (text name) declaration)
    | None => mret tt
    end;;
    classScope ← onStore (newChildScope scope FunctionScope node);
    onStore (declaration ← newBinding node FunctionScope "this" Immutable;
             addBinding classScope "this" declaration);;
    visitAllChildren node classScope
  else if isForInStatement node || isForOfStatement node || isForStatement node then
    addAllChildren node scope;;
    forScope ← onStore (newChildScope scope LexicalScope node);
    match prop FInitializer node with
    | Some initializer => visitNode (Some node) initializer forScope
    | None => mret tt
    end;;
    (if isForStatement node then
       match prop FCondition node with
       | Some condition => visitNode (Some node) condition forScope
       | None => mret tt
       end;;
       match prop FIncrementor node with
       | Some incrementor => visitNode (Some node) incrementor forScope
       | None => mret tt
       end
     else
       expression ← required (prop FExpression node);
       visitNode (Some node) expression scope);;
    statement ← required (prop FStatement node);
    if isBlock statement then
      resultSet statement forScope;;
      visitAllChildren statement forScope
    else visitNode (Some node) statement forScope
  else
    (if isVariableDeclaration node then
       parentNode ← required parent;
       if isVariableDeclarationList parentNode then
         let scopeKind :=
           if negb (Z.land (flags parentNode) NodeFlags.BlockScoped =? 0)%Z
           then LexicalScope else FunctionScope in
         let mutability :=
           if negb (Z.land (flags parentNode) NodeFlags.Const =? 0)%Z
           then Immutable else Mutable in
         name ← required (prop FName node);
         onStore (visitBindingName name node scope scopeKind mutability)
       else mret tt
     else mret tt);;
    visitAllChildren node scope.
End Visitors.

Fixpoint visitNodeFuel (fuel : nat) : option Node → Node → Scope → M BuildState unit :=
  match fuel with
  | 0 => λ _ _ _, outOfFuel
  | S fuel' => visitNodeBody (visitNodeFuel fuel')
  end.

(** Every call descends to a child of its node: the height bounds the depth. *)
Definition visitNode (parent : option Node) (node : Node) : Scope → M BuildState unit :=
  visitNodeFuel (height node) parent node.

End FindScopes.

Definition findScopes (sourceFile : Node) : M Store (gmap nat Scope) :=
  λ st,
    match (root ← onStore (newScope FunctionScope sourceFile None);
           FindScopes.visitNode None sourceFile root) (mkBuildState st ∅) with
    | Ok (_, bs) => Ok (result bs, store bs)
    | Throw e => Throw e
    | OutOfFuel => OutOfFuel
    end.

(** ** Reference Resolver: [assignReferences] *)

(** What [visitNode] of the resolver accepts:
    [ts.Node | undefined | ts.NodeArray<ts.Node>]. *)
Inductive Visitable :=
  | Undefined
  | One (node : Node)
  | Many (nodes : list Node).

Definition optional (o : option Node) : Visitable :=
  match o with Some node => One node | None => Undefined end.

Module AssignReferences.

Section Visitors.
Variable scopesMap : gmap nat Scope.

Definition getScope (node : Node) : M Store Scope :=
  match scopesMap !! nid node with
  | Some scope => mret scope
  | None => throw ScopeNotFound
  end.

Variable visitNode : Visitable → bool → option Node → M Store unit.

Definition visitNodeBody (node : Visitable) (collectReferences : bool)
    (initializer : option Node) : M Store unit :=
  match node with
  | Undefined => mret tt
  | Many nodes => forEach nodes (λ n, visitNode (One n) collectReferences None)
  | One node =>
    if isTypeNode node then mret tt
    else if isIdentifier node && collectReferences then
      scope ← getScope node;
      if String.eqb (text node) "" then mret tt
      else match initializer with
           | None => addReference scope node None false
           | Some initializer => addReference scope node (Some initializer) true
           end
    else if isVariableDeclaration node then
      match prop FInitializer node with
      | Some initializer => visitNode (One initializer) true None
      | None => mret tt
      end;;
      visitNode (optional (prop FName node)) true (prop FInitializer node)
    else if isExpressionStatement node then
      visitNode (optional (prop FExpression node)) true None
    else if isBinaryExpression node
            && match prop FOperatorToken node with
               | Some operatorToken => isEqualsToken operatorToken
               | None => false
               end then
      left ← required (prop FLeft node);
      (if isIdentifier left then
         scope ← getScope node;
         addReference scope left (prop FRight node) false
       else visitNode (One left) true None);;
      visitNode (optional (prop FRight node)) true None
    else if isReturnStatement node then
      visitNode (optional (prop FExpression node)) true None
    else if isThrowStatement node then
      visitNode (optional (prop FExpression node)) true None
    else if isPropertyAccessExpression node then
      visitNode (optional (prop FExpression node)) collectReferences None;;
      visitNode (optional (prop FName node)) false None
    else if isElementAccessExpression node then
      visitNode (optional (prop FExpression node)) collectReferences None;;
      visitNode (optional (prop FArgumentExpression node)) true None
    else if isCallExpression node then
      visitNode (optional (prop FExpression node)) true None;;
      visitNode (Many (propAll FArguments node)) true None
    else if isArrowFunction node then
      visitNode (Many (propAll FParameters node)) false None;;
      body ← required (prop FBody node);
      visitNode (One body) (negb (isBlock body)) None
    else if isFunctionLike node && collectReferences then
      visitNode (One node) false None
    else if isParameter node then
      visitNode (optional (prop FName node)) false None;;
      visitNode (optional (prop FInitializer node)) true None
    else if isIfStatement node then
      visitNode (optional (prop FExpression node)) true None;;
      visitNode (optional (prop FThenStatement node)) false None;;
      visitNode (optional (prop FElseStatement node)) false None
    else if isForInStatement node || isForOfStatement node then
      visitNode (optional (prop FExpression node)) true None;;
      visitNode (optional (prop FInitializer node)) true (prop FExpression node);;
      visitNode (optional (prop FStatement node)) false None
    else if isForStatement node then
      visitNode (optional (prop FInitializer node)) true None;;
      visitNode (optional (prop FCondition node)) true None;;
      visitNode (optional (prop FIncrementor node)) true None;;
      visitNode (optional (prop FStatement node)) false None
    else if isWhileStatement node then
      visitNode (optional (prop FExpression node)) true None;;
      visitNode (optional (prop FStatement node)) false None
    else if isSwitchStatement node then
      visitNode (optional (prop FExpression node)) true None;;
      visitNode (optional (prop FCaseBlock node)) false None
    else if isCaseClause node then
      visitNode (optional (prop FExpression node)) true None;;
      visitNode (Many (propAll FStatements node)) false None
    else if isJsxOpeningElement node then
      visitNode (optional (prop FTagName node)) true None;;
      visitNode (optional (prop FAttributes node)) false None
    else if isJsxClosingElement node then
      visitNode (optional (prop FTagName node)) true None
    else if isJsxSelfClosingElement node then
      visitNode (optional (prop FTagName node)) true None;;
      visitNode (optional (prop FAttributes node)) false None
    else if isJsxExpression node then
      visitNode (optional (prop FExpression node)) true None
    else if isJsxAttribute node then
      visitNode (optional (prop FName node)) false None;;
      visitNode (optional (prop FInitializer node)) true None
    else if isJsxSpreadAttribute node then
      visitNode (optional (prop FExpression node)) true None
    else if isPropertyAssignment node then
      visitNode (optional (prop FName node)) false None;;
      visitNode (optional (prop FInitializer node)) true None
    else if isComputedPropertyName node then
      visitNode (optional (prop FExpression node)) true None
    else
      forEach (forEachChild node) (λ child, visitNode (One child) collectReferences None)
  end.
End Visitors.

Fixpoint visitNodeFuel (scopesMap : gmap nat Scope) (fuel : nat)
    : Visitable → bool → option Node → M Store unit :=
  match fuel with
  | 0 => λ _ _ _, outOfFuel
  | S fuel' => visitNodeBody scopesMap (visitNodeFuel scopesMap fuel')
  end.

(** A call either descends, or is the second of at most three on one
    level (the array a node holds; a function-like node once more, not
    collecting). *)
Definition visitNode (scopesMap : gmap nat Scope) (node : Node)
    : bool → option Node → M Store unit :=
  visitNodeFuel scopesMap (3 * height node + 2) (One node).

End AssignReferences.

Definition assignReferences (scopesMap : gmap nat Scope) (sourceFile : Node) : M Store unit :=
  AssignReferences.visitNode scopesMap sourceFile false None.

(** ** Scope Container *)

Record SourceFileScopesContainer := mkContainer {
  scopes : gmap nat Scope
}.

(** [new SourceFileScopesContainer(sourceFile)] *)
Definition newSourceFileScopesContainer (sourceFile : Node) : M Store SourceFileScopesContainer :=
  scopes ← findScopes sourceFile;
  assignReferences scopes sourceFile;;
  mret (mkContainer scopes).

Definition getScopeForNode (this : SourceFileScopesContainer) (node : Node) : Result Scope :=
  match scopes this !! nid node with
  | Some scope => Ok scope
  | None => Throw NoScopeForNode
  end.

(** ** Notions the properties are stated with *)

(** [this], [this.parentScope], [this.parentScope.parentScope], ... *)
Fixpoint chain (this : Scope) : list Scope :=
  this :: match parentScope this with
          | Some parent => chain parent
          | None => []
          end.

(** [nearest P this T]: [T] is the first scope on the chain of [this]
    that satisfies [P]. *)
Definition nearest (P : Scope → Prop) (this T : Scope) : Prop :=
  ∃ i, chain this !! i = Some T ∧ P T ∧
       ∀ j U, j < i → chain this !! j = Some U → ¬ P U.


(** [outcome m s Q E]: run from [s], [m] does not run out of fuel; if it
    returns, [Q] holds of the value and the final state; if it throws, [E]
    holds of the error. *)
Definition outcome {S A} (m : M S A) (s : S) (Q : A → S → Prop) (E : Error → Prop) : Prop :=
  match m s with
  | Ok (a, s') => Q a s'
  | Throw e => E e
  | OutOfFuel => False
  end.

(** [m] returns, and [Q] holds then. *)
Definition returns {S A} (m : M S A) (s : S) (Q : A → S → Prop) : Prop :=
  outcome m s Q (λ _, False).

(** [m] returns or throws, and [Q] holds if it returns. *)
Definition mayThrow {S A} (m : M S A) (s : S) (Q : A → S → Prop) : Prop :=
  outcome m s Q (λ _, True).

(** *** Trees the builder can walk

    The declared types of the [typescript] package make some properties
    mandatory; the builder reads them without a check.  [wellFormed] says
    that the nodes of a tree have the ones the builder relies on. *)

Definition defined {A} (o : option A) : bool :=
  match o with Some _ => true | None => false end.

Definition hasName (node : Node) : bool := defined (prop FName node).

Definition wellFormedNode (node : Node) : bool :=
  match kind node with
  | BindingElement | VariableDeclaration => hasName node
  | ObjectBindingPattern => forallb hasName (propAll FElements node)
  | CatchClause =>
      match prop FVariableDeclaration node with
      | Some variableDeclaration => hasName variableDeclaration
      | None => true
      end
  | ImportClause =>
      match prop FNamedBindings node with
      | Some namedBindings =>
          if isNamespaceImport namedBindings then hasName namedBindings
          else forallb hasName (propAll FElements namedBindings)
      | None => true
      end
  | ForInStatement | ForOfStatement =>
      defined (prop FExpression node) && defined (prop FStatement node)
  | ForStatement => defined (prop FStatement node)
  | _ =>
      if isFunctionLike node then forallb hasName (propAll FParameters node) else true
  end.

Definition wellFormed (node : Node) : bool := forallb wellFormedNode (subnodes node).

(** *** What a visit of the builder may change

    [Built N D base s bs bs']: going from [bs] to [bs'], scopes are only added;
    of the binding tables of the scopes older than [base], only those of [s]
    and of the function scope [s] hoists to change, and only at names that
    are the text of a node in [N]; the map changes only at nodes in [N],
    which go to [s] or to a scope not older than [base]; and the scopes
    appended to lists of child scopes are declared by nodes in [D] and not
    older than [base]. *)

Definition tablesTouched (s : Scope) (i : nat) : Prop :=
  i = scopeId s ∨ scopeId <$> functionScopeFrom s = Some i.

Definition created (D : Node → Prop) (base : nat) (t : Scope) : Prop :=
  D (declaratingNode t) ∧ base ≤ scopeId t.

Record Built (N D : Node → Prop) (base : nat) (s : Scope) (bs bs' : BuildState) : Prop := {
  built_count : scopeCount (store bs) ≤ scopeCount (store bs');
  built_bindings : ∀ i k, i < base →
    (bindingsOf (store bs') !!! i) !! k = (bindingsOf (store bs) !!! i) !! k
    ∨ (tablesTouched s i ∧ ∃ x, N x ∧ k = text x);
  built_result : ∀ k,
    result bs' !! k = result bs !! k
    ∨ ∃ x t, N x ∧ k = nid x ∧ result bs' !! k = Some t ∧ (t = s ∨ base ≤ scopeId t);
  built_children_old : ∀ i, i < scopeCount (store bs) →
    ∃ new, childScopesOf (store bs') !!! i = childScopesOf (store bs) !!! i ++ new
           ∧ Forall (created D base) new;
  built_children_new : ∀ i, scopeCount (store bs) ≤ i → i < scopeCount (store bs') →
    Forall (created D base) (childScopesOf (store bs') !!! i)
}.

(** [s'] is [s] or a child of [s] not older than [base]. *)
Definition scopeUnder (base : nat) (s s' : Scope) : Prop :=
  s' = s ∨ (base ≤ scopeId s' ∧ parentScope s' = Some s).

(** What the builder's calls into the scope tree keep, whatever the map. *)
Definition storeBuilt (N D : Node → Prop) (base : nat) (s : Scope) (st st' : Store) : Prop :=
  (∀ r, Built N D base s (mkBuildState st r) (mkBuildState st' r))
  ∧ scopeCount st' = scopeCount st.


(** [visitable parent node]: [node] may be handed to the builder's
    [visitNode] with [parent] for [node.parent]: either it is a child of a
    well-formed [parent], or it is a well-formed root, which is neither a
    block nor a variable declaration (both read their parent). *)
Definition visitable (parent : option Node) (node : Node) : Prop :=
  match parent with
  | Some p => wellFormed p = true ∧ node ∈ forEachChild p
  | None => wellFormed node = true ∧ isBlock node = false ∧ isVariableDeclaration node = false
  end.

(** What is proved of the builder's [visitNode], by induction on the fuel. *)
Definition visitSpec (fuel : nat)
    (visitNode : option Node → Node → Scope → M BuildState unit) : Prop :=
  ∀ parent node s bs,
    height node ≤ fuel → visitable parent node → is_Some (functionScopeFrom s) →
    returns (visitNode parent node s) bs
      (λ _ bs', Built (.∈ subnodes node) (.∈ subnodes node) (scopeCount (store bs)) s bs bs'
                ∧ (NoDup (nodeIds node) → result bs' !! nid node = Some s)).

(** [scopesAdded P st st']: from [st] to [st'] scopes are only added, and
    every scope appended to a list of child scopes satisfies [P]. *)
Definition scopesAdded (P : Scope → Prop) (st st' : Store) : Prop :=
  scopeCount st ≤ scopeCount st'
  ∧ (∀ i, i < scopeCount st →
       ∃ new, childScopesOf st' !!! i = childScopesOf st !!! i ++ new ∧ Forall P new)
  ∧ (∀ i, scopeCount st ≤ i → i < scopeCount st' → Forall P (childScopesOf st' !!! i)).

(** *** Targets of a binding pattern

    [patternTarget n t]: the identifier [t] is bound by the binding name,
    binding pattern or binding element [n]. *)
Inductive patternTarget : Node → Node → Prop :=
  | target_identifier name :
      isIdentifier name = true → patternTarget name name
  | target_element element name t :
      isBindingElement element = true → prop FName element = Some name →
      patternTarget name t → patternTarget element t
  | target_pattern pattern element t :
      isObjectBindingPattern pattern || isArrayBindingPattern pattern = true →
      element ∈ propAll FElements pattern → isBindingElement element = true →
      patternTarget element t → patternTarget pattern t.

(** [t] is bound by the name of a parameter declared in the tree [node]. *)
Definition parameterTarget (node t : Node) : Prop :=
  ∃ parameter name,
    parameter ∈ subnodes node ∧ isParameter parameter = true
    ∧ prop FName parameter = Some name ∧ patternTarget name t.

(** Identities the resolver does not record when it visits [node]. *)
Definition forbidden (node : Node) (collectReferences : bool) (k : nat) : Prop :=
  (∃ t, parameterTarget node t ∧ nid t = k)
  ∨ (collectReferences = false ∧ ∃ t, patternTarget node t ∧ nid t = k).

Definition recordable (v : Visitable) (collectReferences : bool) (x : Node) : Prop :=
  match v with
  | Undefined => False
  | One node => x ∈ subnodes node ∧ ¬ forbidden node collectReferences (nid x)
  | Many nodes =>
      ∃ node, node ∈ nodes ∧ x ∈ subnodes node ∧ ¬ forbidden node collectReferences (nid x)
  end.

(** [recorded P st st']: from [st] to [st'] only references are added, and
    each reference appended to the list of a scope has an identifier in [P]. *)
Definition recorded (P : Node → Prop) (st st' : Store) : Prop :=
  bindingsOf st' = bindingsOf st ∧ childScopesOf st' = childScopesOf st
  ∧ scopeCount st' = scopeCount st ∧ bindingCount st' = bindingCount st
  ∧ ∀ i, ∃ new, referencesOf st' !!! i = referencesOf st !!! i ++ new
               ∧ Forall (λ r, P (identifier r)) new.

(** A bound on the calls of the resolver's [visitNode] that one call nests. *)
Definition weight (v : Visitable) (collectReferences : bool) : nat :=
  match v with
  | Undefined => 0
  | One node => 3 * height node + (if collectReferences then 1 else 0)
  | Many nodes => 3 * max_list (height <$> nodes) + 2
  end.

Definition uniqueIds (v : Visitable) : Prop :=
  match v with
  | Undefined => True
  | One node => NoDup (nodeIds node)
  | Many nodes => ∀ node, node ∈ nodes → NoDup (nodeIds node)
  end.

(** What is proved of the resolver's [visitNode], by induction on the fuel. *)
Definition resolverSpec (fuel : nat)
    (visitNode : Visitable → bool → option Node → M Store unit) : Prop :=
  ∀ v collectReferences initializer st,
    weight v collectReferences < fuel → uniqueIds v →
    mayThrow (visitNode v collectReferences initializer) st
      (λ _ st', recorded (recordable v collectReferences) st st').

(** ** Example programs

    The trees the parser builds for a few programs, with the children that
    [ts.forEachChild] enumerates.  Node identities are numbered in the order
    of the source text. *)

Module Examples.

(** Kinds that neither pass treats specially. *)
Definition VariableStatement := OtherKind 0.
Definition EndOfFileToken := OtherKind 1.
Definition Decorator := OtherKind 2.
Definition ParenthesizedExpression := OtherKind 3.
Definition EqualsGreaterThanToken := OtherKind 4.

Definition leaf (i : nat) (k : SyntaxKind) : Node := mkNode i k "" 0 [].
Definition ident (i : nat) (name : string) : Node := mkNode i Identifier name 0 [].
Definition tree (i : nat) (k : SyntaxKind) (cs : list (Field * Node)) : Node :=
  mkNode i k "" 0 cs.

(** The state in which a pass-1 visit below the root starts: the root scope
    exists and nothing is mapped yet. *)
Definition rootOf (sourceFile : Node) : Scope := mkScope 0 FunctionScope sourceFile None.
Definition rootState : BuildState := mkBuildState (mkStore ∅ ∅ ∅ ∅ 1 0) ∅.

(** [const a = b;] *)
Definition a_of_const_a_b := ident 4 "a".
Definition b_of_const_a_b := ident 5 "b".
Definition decl_const_a_b :=
  tree 3 VariableDeclaration [(FName, a_of_const_a_b); (FInitializer, b_of_const_a_b)].
Definition const_a_b :=
  tree 0 SourceFile
    [(FStatements,
      tree 1 VariableStatement
        [(FOther, mkNode 2 VariableDeclarationList "" NodeFlags.Const
                    [(FOther, decl_const_a_b)])]);
     (FOther, leaf 6 EndOfFileToken)].

(** [x = y;] *)
Definition x_of_assignment := ident 3 "x".
Definition y_of_assignment := ident 5 "y".
Definition assignment :=
  tree 2 BinaryExpression
    [(FLeft, x_of_assignment); (FOperatorToken, leaf 4 EqualsToken);
     (FRight, y_of_assignment)].
Definition x_assign_y :=
  tree 0 SourceFile
    [(FStatements, tree 1 ExpressionStatement [(FExpression, assignment)]);
     (FOther, leaf 6 EndOfFileToken)].

(** [class A { @dec m() {} }] *)
Definition dec_of_decorated := ident 5 "dec".
Definition class_A :=
  tree 1 ClassDeclaration
    [(FName, ident 2 "A");
     (FOther,
      tree 3 MethodDeclaration
        [(FOther, tree 4 Decorator [(FExpression, dec_of_decorated)]);
         (FName, ident 6 "m");
         (FBody, leaf 7 Block)])].
Definition decorated_method :=
  tree 0 SourceFile [(FStatements, class_A); (FOther, leaf 8 EndOfFileToken)].

(** [( = y);]: the parser puts an identifier with no text where the left
    operand is missing. *)
Definition missing_of_assignment := ident 4 "".
Definition assign_to_missing :=
  tree 0 SourceFile
    [(FStatements,
      tree 1 ExpressionStatement
        [(FExpression,
          tree 2 ParenthesizedExpression
            [(FExpression,
              tree 3 BinaryExpression
                [(FLeft, missing_of_assignment); (FOperatorToken, leaf 5 EqualsToken);
                 (FRight, ident 6 "y")])])]);
     (FOther, leaf 7 EndOfFileToken)].

(** [const {a} = obj;] *)
Definition a_of_const_pattern := ident 6 "a".
Definition pattern_of_const_pattern :=
  tree 4 ObjectBindingPattern
    [(FElements, tree 5 BindingElement [(FName, a_of_const_pattern)])].
Definition const_pattern :=
  tree 0 SourceFile
    [(FStatements,
      tree 1 VariableStatement
        [(FOther, mkNode 2 VariableDeclarationList "" NodeFlags.Const
                    [(FOther,
                      tree 3 VariableDeclaration
                        [(FName, pattern_of_const_pattern);
                         (FInitializer, ident 7 "obj")])])]);
     (FOther, leaf 8 EndOfFileToken)].

(** [function f({a, b: [c]}) {}] *)
Definition a_of_f := ident 6 "a".
Definition c_of_f := ident 11 "c".
Definition pattern_of_f :=
  tree 4 ObjectBindingPattern
    [(FElements, tree 5 BindingElement [(FName, a_of_f)]);
     (FElements,
      tree 7 BindingElement
        [(FOther, ident 8 "b");
         (FName,
          tree 9 ArrayBindingPattern
            [(FElements, tree 10 BindingElement [(FName, c_of_f)])])])].
Definition parameter_of_f := tree 3 ParameterDeclaration [(FName, pattern_of_f)].
Definition function_f :=
  tree 1 FunctionDeclaration
    [(FName, ident 2 "f"); (FParameters, parameter_of_f); (FBody, leaf 12 Block)].
Definition f_with_pattern :=
  tree 0 SourceFile [(FStatements, function_f); (FOther, leaf 13 EndOfFileToken)].

(** [for (const x of (y => y)) {}] *)
Definition body_of_arrow := ident 10 "y".
Definition arrow_of_loop :=
  tree 6 ArrowFunction
    [(FParameters, tree 7 ParameterDeclaration [(FName, ident 8 "y")]);
     (FOther, leaf 9 EqualsGreaterThanToken);
     (FBody, body_of_arrow)].
Definition expression_of_arrow_loop :=
  tree 5 ParenthesizedExpression [(FExpression, arrow_of_loop)].
Definition arrow_loop :=
  tree 1 ForOfStatement
    [(FInitializer,
      mkNode 2 VariableDeclarationList "" NodeFlags.Const
        [(FOther, tree 3 VariableDeclaration [(FName, ident 4 "x")])]);
     (FExpression, expression_of_arrow_loop);
     (FStatement, leaf 11 Block)].
Definition for_of_arrow :=
  tree 0 SourceFile [(FStatements, arrow_loop); (FOther, leaf 12 EndOfFileToken)].

(** [for (let i of xs) { capture(i) }] *)
Definition xs_of_loop := ident 5 "xs".
Definition body_of_loop :=
  tree 6 Block
    [(FStatements,
      tree 7 ExpressionStatement
        [(FExpression,
          tree 8 CallExpression
            [(FExpression, ident 9 "capture"); (FArguments, ident 10 "i")])])].
Definition decl_of_loop := tree 3 VariableDeclaration [(FName, ident 4 "i")].
Definition capture_loop :=
  tree 1 ForOfStatement
    [(FInitializer, mkNode 2 VariableDeclarationList "" 1 [(FOther, decl_of_loop)]);
     (FExpression, xs_of_loop);
     (FStatement, body_of_loop)].
Definition for_let_i :=
  tree 0 SourceFile [(FStatements, capture_loop); (FOther, leaf 11 EndOfFileToken)].



(** [class A {}] and [function f() {}] *)
Definition name_of_empty_class := ident 2 "A".
Definition empty_class := tree 1 ClassDeclaration [(FName, name_of_empty_class)].
Definition name_of_empty_function := ident 2 "f".
Definition empty_function :=
  tree 1 FunctionDeclaration [(FName, name_of_empty_function); (FBody, leaf 3 Block)].

(** A block scope inside a function scope inside the root scope. *)
Definition outerScope := mkScope 0 FunctionScope (leaf 0 SourceFile) None.
Definition functionScope := mkScope 1 FunctionScope (leaf 1 FunctionDeclaration) (Some outerScope).
Definition blockScope := mkScope 2 LexicalScope (leaf 2 Block) (Some functionScope).
Definition var_v := mkBinding 0 (leaf 3 VariableDeclaration) FunctionScope "v" Mutable.

End Examples.

(** Both passes over [sourceFile], from the empty store. *)
Definition analysed (sourceFile : Node) : SourceFileScopesContainer * Store :=
  match newSourceFileScopesContainer sourceFile emptyStore with
  | Ok r => r
  | _ => (mkContainer ∅, emptyStore)
  end.

(** Pass 1 alone. *)
Definition built (sourceFile : Node) : gmap nat Scope * Store :=
  match findScopes sourceFile emptyStore with
  | Ok r => r
  | _ => (∅, emptyStore)
  end.

(** ** The remaining accessors of [Scope] *)

Definition hasOwnLexicalBinding (st : Store) (this : Scope) (name : string) : bool :=
  match getOwnLexicalBinding st this name with Some _ => true | None => false end.

Definition hasOwnFunctionScopeBinding (st : Store) (this : Scope) (name : string) : bool :=
  match getOwnFunctionScopeBinding st this name with Some _ => true | None => false end.

Definition getReferences (st : Store) (this : Scope) : list ScopeReference :=
  references st this.

Definition getChildScopes (st : Store) (this : Scope) : list Scope := childScopes st this.

Definition getDeclaringNode (this : Scope) : Node := declaratingNode this.

(** The scopes [getOwnFunctionScopeBinding] looks at: [this] and its
    ancestors through scopes of kind [LexicalScope], up to and including the
    first scope of kind [FunctionScope]. *)
Fixpoint boundary (this : Scope) : list Scope :=
  this :: match scopeKind this, parentScope this with
          | LexicalScope, Some parent => boundary parent
          | _, _ => []
          end.

(** [getAllReferencesRecursively]: the references of the scope, then those
    of its child scopes, recursively.  The recursion follows the lists of
    child scopes, which the store holds; [None] stands for a run that does
    not come back within the fuel. *)
Fixpoint getAllReferencesRecursivelyFuel (fuel : nat) (st : Store) (this : Scope)
    : option (list ScopeReference) :=
  match fuel with
  | 0 => None
  | S fuel' =>
      rest ← mapM (getAllReferencesRecursivelyFuel fuel' st) (getChildScopes st this);
      Some (getReferences st this ++ mjoin rest)
  end.

(** A scope tree is no deeper than the number of scopes constructed. *)
Definition getAllReferencesRecursively (st : Store) (this : Scope)
    : option (list ScopeReference) :=
  getAllReferencesRecursivelyFuel (S (scopeCount st)) st this.

(** *** The identifiers a binding name declares *)

(** [bindingLeaf n t]: the builder's [visitBindingName] reaches the
    identifier [t] from the binding name [n]: [n] itself when it is an
    identifier, otherwise through the names of the elements of an object
    pattern, or of the elements of an array pattern that are binding elements
    (the others are holes). *)
Inductive bindingLeaf : Node → Node → Prop :=
  | leaf_identifier name :
      isIdentifier name = true → bindingLeaf name name
  | leaf_object pattern element name t :
      isObjectBindingPattern pattern = true → element ∈ propAll FElements pattern →
      prop FName element = Some name → bindingLeaf name t → bindingLeaf pattern t
  | leaf_array pattern element name t :
      isArrayBindingPattern pattern = true → element ∈ propAll FElements pattern →
      isBindingElement element = true → prop FName element = Some name →
      bindingLeaf name t → bindingLeaf pattern t.

(** The binding object the builder makes for the name [n]. *)
Definition declaredAs (decl : Node) (k : ScopeKind) (mut : Mutability) (n : string)
    (b : ScopeBindingDeclaration) : Prop :=
  declaringNode b = decl ∧ bindingScopeKind b = k
  ∧ mutability b = mut ∧ bindingIdentifier b = n.

(** [declares decl k mut T L st st']: from [st] to [st'] only the table
    of [T] changes, only at the texts of nodes in [L], and only to bindings
    made for [decl]. *)
Definition declares (decl : Node) (k : ScopeKind) (mut : Mutability) (T : Scope)
    (L : Node → Prop) (st st' : Store) : Prop :=
  scopeCount st' = scopeCount st ∧ childScopesOf st' = childScopesOf st
  ∧ referencesOf st' = referencesOf st
  ∧ bindingCount st ≤ bindingCount st'
  ∧ (∀ other, scopeId other ≠ scopeId T → bindings st' other = bindings st other)
  ∧ ∀ n, bindings st' T !! n = bindings st T !! n
         ∨ ((∃ t, L t ∧ text t = n)
            ∧ ∃ b, bindings st' T !! n = Some b ∧ declaredAs decl k mut n b).

(** Where a binding of kind [k] added through [sc] is stored. *)
Definition storedIn (sc : Scope) (k : ScopeKind) (T : Scope) : Prop :=
  match k with
  | LexicalScope => T = sc
  | FunctionScope => functionScopeFrom sc = Some T
  end.

(** *** Partial correctness *)

(** [triple P m Q]: when [m] runs from a state in [P] and returns, [Q] holds
    of the value and the final state. *)
Definition triple {S A} (P : S → Prop) (m : M S A) (Q : A → S → Prop) : Prop :=
  ∀ s, P s → match m s with Ok (a, s') => Q a s' | _ => True end.

(** *** The links between references and bindings *)

(** A reference of a scope's list names an identifier, holds what
    [getBinding] finds for it from the scope it was met in, and is in the
    list of the binding it refers to. *)
Definition linked (st : Store) (r : ScopeReference) : Prop :=
  isIdentifier (identifier r) = true
  ∧ referenceTo r = getBinding st (referencedFromScope r) (text (identifier r))
  ∧ match referenceTo r with
    | Some (b, _) => r ∈ bindingReferences st b
    | None => True
    end.

(** [referencesLinked scopesMap st0 st]: from [st0] to [st] no binding
    table changes; the references added to the list of a scope were met in
    that scope, which the map gives for some node, and are [linked]; the
    references added to the list of a binding refer to that binding and are
    in the list of the scope they were met in. *)
Definition referencesLinked (scopesMap : gmap nat Scope) (st0 st : Store) : Prop :=
  bindingsOf st = bindingsOf st0
  ∧ (∀ i, ∃ new,
       referencesOf st !!! i = referencesOf st0 !!! i ++ new
       ∧ Forall (λ r, scopeId (referencedFromScope r) = i
                      ∧ (∃ x, scopesMap !! nid x = Some (referencedFromScope r))
                      ∧ linked st r) new)
  ∧ (∀ j, ∃ new,
       bindingReferencesOf st !!! j = bindingReferencesOf st0 !!! j ++ new
       ∧ Forall (λ r, (∃ b s, referenceTo r = Some (b, s) ∧ bindingId b = j)
                      ∧ r ∈ references st (referencedFromScope r)) new).

(** *** Nodes that pass 1 reaches

    A function-like node maps its children to the current scope and then
    visits its type parameters, its type, its parameters and its body; of its
    name it maps the children.  A loop maps its children and visits its
    initializer, its condition and incrementor or its expression, and its
    statement.  [covered] says that a tree has nothing below the children
    that are only mapped. *)

Definition isLeaf (node : Node) : bool :=
  match forEachChild node with [] => true | _ => false end.

(** The function-like nodes whose body [visitFunctionLike] looks at. *)
Definition hasBody (functionLike : Node) : bool :=
  isConstructorDeclaration functionLike || isMethodDeclaration functionLike
  || isFunctionDeclaration functionLike || isArrowFunction functionLike
  || isFunctionExpression functionLike || isGetAccessorDeclaration functionLike
  || isSetAccessorDeclaration functionLike.

Definition visitedByFunctionLike (functionLike : Node) : list Node :=
  propAll FTypeParameters functionLike ++ option_list (prop FType functionLike)
  ++ propAll FParameters functionLike
  ++ (if hasBody functionLike then option_list (prop FBody functionLike) else []).

Definition visitedByLoop (node : Node) : list Node :=
  option_list (prop FInitializer node)
  ++ (if isForStatement node
      then option_list (prop FCondition node) ++ option_list (prop FIncrementor node)
      else option_list (prop FExpression node))
  ++ option_list (prop FStatement node).

Definition coveredNode (node : Node) : bool :=
  if isBlock node || isImportClause node then true
  else if isFunctionLike node then
    forallb (λ c, isLeaf c
                  || bool_decide (nid c ∈ nid <$> visitedByFunctionLike node)
                  || (bool_decide (nid <$> prop FName node = Some (nid c))
                      && forallb isLeaf (forEachChild c)))
            (forEachChild node)
  else if isClassLike node then true
  else if isForInStatement node || isForOfStatement node || isForStatement node then
    forallb (λ c, isLeaf c || bool_decide (nid c ∈ nid <$> visitedByLoop node))
            (forEachChild node)
  else true.

Definition covered (node : Node) : bool := forallb coveredNode (subnodes node).

(** [node] is a key of the map. *)
Definition mapped (bs : BuildState) (node : Node) : Prop :=
  is_Some (result bs !! nid node).

(** [wp m Φ bs]: if [m] returns when run from [bs], then [Φ] holds of the
    value and the final state. *)
Definition wp {S A} (m : M S A) (Φ : A → S → Prop) (s : S) : Prop :=
  match m s with Ok (a, s') => Φ a s' | _ => True end.

(** What is proved of the builder's [visitNode] about the keys of the map. *)
Definition coversSpec (visitNode : option Node → Node → Scope → M BuildState unit) : Prop :=
  ∀ parent node s (K : Node → Prop) bs,
    covered node = true → NoDup (nodeIds node) →
    (∀ x, K x → mapped bs x) →
    wp (visitNode parent node s)
       (λ _ bs', ∀ x, K x ∨ x ∈ subnodes node → mapped bs' x) bs.

(** *** What the steps of pass 1 guarantee *)

(** A call into the scope tree that only makes bindings: scopes, child
    scopes and references are as before, and the bindings made have no
    reference yet. *)
Definition bindingOnly (st st' : Store) : Prop :=
  scopeCount st' = scopeCount st ∧ childScopesOf st' = childScopesOf st
  ∧ referencesOf st' = referencesOf st
  ∧ bindingCount st ≤ bindingCount st'
  ∧ (∀ j, j < bindingCount st ∨ bindingCount st' ≤ j →
       bindingReferencesOf st' !!! j = bindingReferencesOf st !!! j)
  ∧ (∀ j, bindingCount st ≤ j → j < bindingCount st' →
       bindingReferencesOf st' !!! j = []).

(** [guaranteed G V X m]: run from a state in which the scopes of [X] are
    valid, [m] makes a [G] step. *)
Definition guaranteed (G : BuildState → BuildState → Prop) (V : Scope → BuildState → Prop)
    (X : list Scope) (m : M BuildState unit) : Prop :=
  ∀ bs, Forall (λ s, V s bs) X → wp m (λ _ bs', G bs bs') bs.

(** From [st] to [st'] no reference is recorded: the lists of the scopes and
    bindings that existed are as before, and those of the scopes and bindings
    made since are empty. *)
Definition noReferenceRecorded (st st' : Store) : Prop :=
  scopeCount st ≤ scopeCount st' ∧ bindingCount st ≤ bindingCount st'
  ∧ (∀ i, i < scopeCount st ∨ scopeCount st' ≤ i →
       referencesOf st' !!! i = referencesOf st !!! i)
  ∧ (∀ i, scopeCount st ≤ i → i < scopeCount st' → referencesOf st' !!! i = [])
  ∧ (∀ j, j < bindingCount st ∨ bindingCount st' ≤ j →
       bindingReferencesOf st' !!! j = bindingReferencesOf st !!! j)
  ∧ (∀ j, bindingCount st ≤ j → j < bindingCount st' →
       bindingReferencesOf st' !!! j = []).

(** *** The tree of scopes *)

(** The scopes that [getChildScopes] reaches from [root]. *)
Inductive reachable (st : Store) (root : Scope) : Scope → Prop :=
  | reachable_root : reachable st root root
  | reachable_child s c :
      reachable st root s → c ∈ childScopes st s → reachable st root c.

(** [scopeTree root bs]: the scopes reached from [root] form a tree with
    consistent links: a child scope has the scope that lists it for parent
    and was made after it; the scopes of the tree are exactly the scopes
    made since [root], one for each; a scope lists no child twice; and the
    map holds scopes of the tree only. *)
Definition scopeTree (root : Scope) (bs : BuildState) : Prop :=
  (∀ s c, reachable (store bs) root s → c ∈ childScopes (store bs) s →
     parentScope c = Some s ∧ scopeId s < scopeId c)
  ∧ (∀ s, reachable (store bs) root s →
       scopeId root ≤ scopeId s ∧ scopeId s < scopeCount (store bs))
  ∧ (∀ s s', reachable (store bs) root s → reachable (store bs) root s' →
       scopeId s = scopeId s' → s = s')
  ∧ (∀ j, scopeId root ≤ j → j < scopeCount (store bs) →
       ∃ s, reachable (store bs) root s ∧ scopeId s = j)
  ∧ (∀ s, reachable (store bs) root s → NoDup (scopeId <$> childScopes (store bs) s))
  ∧ (∀ k t, result bs !! k = Some t → reachable (store bs) root t).

(** *** Imports *)

(** [imported node t d]: the import clause [node] imports the name [t], and
    the builder declares it for [d]: the clause for the default import, the
    namespace import for its name, the specifier for a named import. *)
Definition imported (node t d : Node) : Prop :=
  (prop FName node = Some t ∧ d = node)
  ∨ ∃ namedBindings,
      prop FNamedBindings node = Some namedBindings
      ∧ if isNamespaceImport namedBindings
        then prop FName namedBindings = Some t ∧ d = namedBindings
        else d ∈ propAll FElements namedBindings ∧ prop FName d = Some t.

(** [importsOnly L T st st']: from [st] to [st'] only the table of [T]
    changes, and only at the texts of names in [L], to [Immutable] bindings of
    kind [FunctionScope] made for the node that goes with the name. *)
Definition importsOnly (L : Node → Node → Prop) (T : Scope) (st st' : Store) : Prop :=
  scopeCount st' = scopeCount st ∧ childScopesOf st' = childScopesOf st
  ∧ referencesOf st' = referencesOf st
  ∧ (∀ other, scopeId other ≠ scopeId T → bindings st' other = bindings st other)
  ∧ ∀ n, bindings st' T !! n = bindings st T !! n
         ∨ ∃ t d b, L t d ∧ text t = n ∧ bindings st' T !! n = Some b
                    ∧ declaredAs d FunctionScope Immutable n b.

(** The name [t] has a binding in the table of [T] that was made for an
    import of [node] with the same text. *)
Definition importBound (node : Node) (T : Scope) (st : Store) (t : Node) : Prop :=
  ∃ t' d b, imported node t' d ∧ text t' = text t
            ∧ bindings st T !! text t = Some b
            ∧ declaredAs d FunctionScope Immutable (text t) b.

(** [below node x]: [x] is a node of the subtree of a child of [node]. *)
Definition below (node x : Node) : Prop := ∃ c, c ∈ forEachChild node ∧ x ∈ subnodes c.

(** *** The references pass 2 makes *)

(** [called scopesMap scope node w i]: how the resolver calls
    [scope.addReference(node, w, i)].  Either [node] is an identifier with a
    text, [scope] is what the map holds for it, and there is a write
    expression exactly when the reference is an initializer; or [node] is the
    left operand of an assignment, [w] its right operand, [scope] what the map
    holds for the assignment, and the reference is no initializer. *)
Definition called (scopesMap : gmap nat Scope) (scope : Scope) (node : Node)
    (w : option Node) (i : bool) : Prop :=
  (text node ≠ "" ∧ scopesMap !! nid node = Some scope
   ∧ if i then is_Some w else w = None)
  ∨ (i = false
     ∧ ∃ assignment operatorToken,
         isBinaryExpression assignment = true
         ∧ prop FOperatorToken assignment = Some operatorToken
         ∧ isEqualsToken operatorToken = true
         ∧ prop FLeft assignment = Some node ∧ w = prop FRight assignment
         ∧ scopesMap !! nid assignment = Some scope).

Definition shaped (scopesMap : gmap nat Scope) (r : ScopeReference) : Prop :=
  isIdentifier (identifier r) = true
  ∧ called scopesMap (referencedFromScope r) (identifier r) (writeExpr r) (isInitializer r).

(** [referencesShaped scopesMap st0 st]: the references added to the lists
    of scopes from [st0] to [st] are [shaped]. *)
Definition referencesShaped (scopesMap : gmap nat Scope) (st0 st : Store) : Prop :=
  ∀ i, ∃ new, referencesOf st !!! i = referencesOf st0 !!! i ++ new
              ∧ Forall (shaped scopesMap) new.

(** *** When pass 2 returns *)

(** The properties that pass 2 reads and that the declared types make
    mandatory: the left operand of an assignment, the body of an arrow
    function. *)
Definition resolvableNode (node : Node) : bool :=
  (if isBinaryExpression node
      && match prop FOperatorToken node with
         | Some operatorToken => isEqualsToken operatorToken
         | None => false
         end
   then defined (prop FLeft node) else true)
  && (if isArrowFunction node then defined (prop FBody node) else true).

Definition resolvable (node : Node) : bool := forallb resolvableNode (subnodes node).

(** What the resolver is handed lies in the tree of [root]. *)
Definition within (root : Node) (v : Visitable) : Prop :=
  match v with
  | Undefined => True
  | One node => node ∈ subnodes root
  | Many nodes => ∀ node, node ∈ nodes → node ∈ subnodes root
  end.

(** [m] does not throw, whatever the state. *)
Definition noThrow {S A} (m : M S A) : Prop :=
  ∀ s, match m s with Throw _ => False | _ => True end.

(** *** Tables and their bindings *)

(** [tablesKeyed st]: a table holds a binding under the binding's own
    identifier; every binding in a table was made by [newBinding]; and no
    binding is in two places, in one table or in two. *)
Definition tablesKeyed (st : Store) : Prop :=
  (∀ i n b, (bindingsOf st !!! i) !! n = Some b →
     bindingIdentifier b = n ∧ bindingId b < bindingCount st)
  ∧ ∀ i n b i' n' b',
      (bindingsOf st !!! i) !! n = Some b → (bindingsOf st !!! i') !! n' = Some b' →
      bindingId b = bindingId b' → i = i' ∧ n = n'.

(** *** References recorded once *)

(** [recordedOnce P st0 st]: from [st0] to [st] the list of references of
    every scope has only grown; the references added name identifiers in [P],
    and no two of them, in one list or in two, name the same node. *)
Definition recordedOnce (P : Node → Prop) (st0 st : Store) : Prop :=
  ∃ news : nat → list ScopeReference,
    (∀ i, referencesOf st !!! i = referencesOf st0 !!! i ++ news i)
    ∧ (∀ i r, r ∈ news i → P (identifier r))
    ∧ ∀ i j p q r r', news i !! p = Some r → news j !! q = Some r' →
        nid (identifier r) = nid (identifier r') → i = j ∧ p = q.

(** The nodes of what the resolver is handed. *)
Definition inside (v : Visitable) (x : Node) : Prop :=
  match v with
  | Undefined => False
  | One node => x ∈ subnodes node
  | Many nodes => ∃ node, node ∈ nodes ∧ x ∈ subnodes node
  end.

(** What the resolver is handed has no node twice. *)
Definition distinctNodes (v : Visitable) : Prop :=
  match v with
  | Undefined => True
  | One node => NoDup (nodeIds node)
  | Many nodes => NoDup (mjoin (nodeIds <$> nodes))
  end.

(** The nodes below the children that [node] holds in the properties [fs]. *)
Definition inFields (node : Node) (fs : list Field) (x : Node) : Prop :=
  ∃ f c, f ∈ fs ∧ (f, c) ∈ children node ∧ x ∈ subnodes c.

(** What is proved of the resolver's [visitNode] about the references of
    one node. *)
Definition onceSpec (visitNode : Visitable → bool → option Node → M Store unit) : Prop :=
  ∀ v c init st, distinctNodes v →
    triple (λ s, s = st) (visitNode v c init) (λ _ st', recordedOnce (inside v) st st').

(** *** Scopes follow the tree *)

(** [t] is [s] or a child scope of [s]. *)
Definition related (s t : Scope) : Prop := t = s ∨ parentScope t = Some s.

(** In the subtree of [node], a child that has a scope has the scope of its
    parent or a child scope of it. *)
Definition nestedIn (node : Node) (m : gmap nat Scope) : Prop :=
  ∀ p c sp sc, p ∈ subnodes node → c ∈ forEachChild p →
    m !! nid p = Some sp → m !! nid c = Some sc → related sp sc.

(** Nothing below [node] has a scope yet. *)
Definition freshBelow (node : Node) (m : gmap nat Scope) : Prop :=
  ∀ x, below node x → m !! nid x = None.

Definition sameOutside (node : Node) (m m' : gmap nat Scope) : Prop :=
  ∀ k, (∀ x, x ∈ subnodes node → nid x ≠ k) → m' !! k = m !! k.

(** What a visit of [node] under [s] makes of the map [m]. *)
Definition visited (node : Node) (s : Scope) (m m' : gmap nat Scope) : Prop :=
  m' !! nid node = Some s ∧ nestedIn node m' ∧ sameOutside node m m'.

Definition visitLike (node : Node) (s : Scope) (g : M BuildState unit) : Prop :=
  ∀ bs0, freshBelow node (result bs0) →
    triple (λ bs, bs = bs0) g (λ _ bs', visited node s (result bs0) (result bs')).

(** What is proved of the builder's [visitNode] about the scopes of parent
    and child. *)
Definition nestSpec (visitNode : option Node → Node → Scope → M BuildState unit) : Prop :=
  ∀ parent node s, NoDup (nodeIds node) → visitLike node s (visitNode parent node s).

(** [stage node s m0 V m]: on the way from [m0] through a visit of [node]
    under [s]; the children in the properties of [V] have been dealt with,
    nothing lies below the others yet. *)
Definition stage (node : Node) (s : Scope) (m0 : gmap nat Scope) (V : list Field)
    (m : gmap nat Scope) : Prop :=
  m !! nid node = Some s ∧ sameOutside node m0 m
  ∧ ∀ f c, (f, c) ∈ children node →
      (∀ t, m !! nid c = Some t → related s t) ∧ nestedIn c m
      ∧ (f ∉ V → freshBelow c m).

(** [staging node s m0 V F l m]: as [stage], while the children [l], held
    in the properties of [F], are dealt with one after the other. *)
Definition staging (node : Node) (s : Scope) (m0 : gmap nat Scope) (V F : list Field)
    (l : list Node) (m : gmap nat Scope) : Prop :=
  m !! nid node = Some s ∧ sameOutside node m0 m
  ∧ ∀ f c, (f, c) ∈ children node →
      (∀ t, m !! nid c = Some t → related s t) ∧ nestedIn c m
      ∧ (f ∉ F ++ V → freshBelow c m) ∧ (c ∈ l → freshBelow c m).

(** The nodes for which pass 1 makes a scope. *)
Definition makesScope (node : Node) : bool :=
  isBlock node || isFunctionLike node || isClassLike node
  || isForInStatement node || isForOfStatement node || isForStatement node.

(** [begun P st st']: from [st] to [st'] scopes are only added; every scope
    appended to a list of child scopes satisfies [P]; and every scope made
    is one of them: it satisfies [P] and has been appended to the child
    scopes of its parent, an older scope. *)
Definition begun (P : Scope → Prop) (st st' : Store) : Prop :=
  scopesAdded P st st'
  ∧ ∀ j, scopeCount st ≤ j → j < scopeCount st' →
      ∃ t p new,
        scopeId t = j ∧ P t ∧ parentScope t = Some p ∧ scopeId p < j
        ∧ childScopes st' p
          = (if decide (scopeId p < scopeCount st) then childScopes st p else []) ++ new
        ∧ t ∈ new.

(** *** Bindings that last *)




(** *** Names that are no references *)

(** The nodes that hold a name beside an expression: [e.name], the JSX
    attribute [name={e}], the property [name: e] of an object literal. *)
Definition holdsName (p : Node) : bool :=
  isPropertyAccessExpression p || isJsxAttribute p || isPropertyAssignment p.

(** [x] is such a name in the tree of [root]. *)
Definition nameIn (root x : Node) : Prop :=
  ∃ p, p ∈ subnodes root ∧ holdsName p = true ∧ prop FName p = Some x.

(** The nodes the resolver is handed, themselves. *)
Definition heads (v : Visitable) (x : Node) : Prop :=
  match v with
  | Undefined => False
  | One node => x = node
  | Many nodes => x ∈ nodes
  end.

(** What is proved of the resolver's [visitNode] about names. *)
Definition namesSpec (root : Node) (st0 : Store)
    (visitNode : Visitable → bool → option Node → M Store unit) : Prop :=
  ∀ v c init,
    within root v → (c = true → ∀ x, heads v x → ¬ nameIn root x) →
    triple (recorded (λ x, ¬ nameIn root x) st0) (visitNode v c init)
      (λ _, recorded (λ x, ¬ nameIn root x) st0).

(** ** More example trees *)

Module MoreExamples.
Import Examples.

(** [var v] in a declaration list, as met inside a block. *)
Definition var_decl := tree 11 VariableDeclaration [(FName, ident 12 "v")].
Definition var_list := mkNode 10 VariableDeclarationList "" 0 [(FOther, var_decl)].

(** Three scopes exist and nothing is mapped yet. *)
Definition nestedState : BuildState := mkBuildState (mkStore ∅ ∅ ∅ ∅ 3 0) ∅.

(** [catch (e) { e }] *)
Definition catch_name := ident 22 "e".
Definition catch_use := ident 25 "e".
Definition catch_block :=
  tree 23 Block [(FStatements, tree 24 ExpressionStatement [(FExpression, catch_use)])].
Definition catch_clause :=
  tree 20 CatchClause
    [(FVariableDeclaration, tree 21 VariableDeclaration [(FName, catch_name)]);
     (FOther, catch_block)].

(** [import d, { a as b } from 'm'] (the import clause) *)
Definition import_default := ident 31 "d".
Definition import_b := ident 35 "b".
Definition import_specifier :=
  tree 33 ImportSpecifier [(FOther, ident 34 "a"); (FName, import_b)].
Definition import_clause :=
  tree 30 ImportClause
    [(FName, import_default);
     (FNamedBindings, tree 32 NamedImports [(FElements, import_specifier)])].

(** [for (; i; ) {}] *)
Definition for_i_body := leaf 54 Block.
Definition for_i_loop :=
  tree 52 ForStatement [(FCondition, ident 53 "i"); (FStatement, for_i_body)].

(** [a.b;] *)
Definition a_of_access := ident 3 "a".
Definition b_of_access := ident 4 "b".
Definition access_a_b :=
  tree 0 SourceFile
    [(FStatements,
      tree 1 ExpressionStatement
        [(FExpression,
          tree 2 PropertyAccessExpression
            [(FExpression, a_of_access); (FName, b_of_access)])]);
     (FOther, leaf 5 EndOfFileToken)].

End MoreExamples.

(** ** Reasoning about runs *)

Section Outcome.
Context {S : Type} (E : Error → Prop).

Lemma outcome_ret {A} (a : A) (s : S) Q : Q a s → outcome (mret a) s Q E.
Proof. done. Qed.

Lemma outcome_bind {A B} (m : M S A) (k : A → M S B) s Q :
  outcome m s (λ a s', outcome (k a) s' Q E) E → outcome (m ≫= k) s Q E.
Proof.
  unfold outcome, mbind, M_bind, bind. by destruct (m s) as [[a s']| |].
Qed.

Lemma outcome_mono {A} (m : M S A) s (Q Q' : A → S → Prop) :
  outcome m s Q E → (∀ a s', Q a s' → Q' a s') → outcome m s Q' E.
Proof. unfold outcome. destruct (m s) as [[a s']| |]; auto. Qed.

Lemma outcome_modify (f : S → S) s Q : Q tt (f s) → outcome (modify f) s Q E.
Proof. done. Qed.

Lemma outcome_gets {A} (f : S → A) s Q : Q (f s) s → outcome (gets f) s Q E.
Proof. done. Qed.

Lemma outcome_required {A} (o : option A) a (s : S) Q :
  o = Some a → Q a s → outcome (required o) s Q E.
Proof. by intros ->. Qed.

(** A loop keeps what every one of its steps keeps. *)
Lemma outcome_forEach {A} (I : S → Prop) (l : list A) (f : A → M S unit) s :
  I s →
  (∀ a s1, a ∈ l → I s1 → outcome (f a) s1 (λ _ s2, I s2) E) →
  outcome (forEach l f) s (λ _ s', I s') E.
Proof.
  revert s. induction l as [|a l IH]; intros s Hs Hstep; simpl.
  - by apply outcome_ret.
  - apply outcome_bind. eapply outcome_mono.
    + apply Hstep; [by left | done].
    + intros [] s1 Hs1. apply IH; [done|].
      intros b s2 Hb. apply Hstep. by right.
Qed.
End Outcome.

Lemma outcome_onStore {A} (E : Error → Prop) (m : M Store A) (bs : BuildState) Q :
  outcome m (store bs) (λ a st', Q a (mkBuildState st' (result bs))) E →
  outcome (onStore m) bs Q E.
Proof. unfold outcome, onStore. by destruct (m (store bs)) as [[a s']| |]. Qed.

Lemma returns_Ok {S A} (m : M S A) s Q :
  returns m s Q ↔ ∃ a s', m s = Ok (a, s') ∧ Q a s'.
Proof.
  unfold returns, outcome. destruct (m s) as [[a s']| |]; split; try done.
  - eauto.
  - by intros (? & ? & [= <- <-] & ?).
  - by intros (? & ? & ? & ?).
  - by intros (? & ? & ? & ?).
Qed.

Lemma mayThrow_Ok {S A} (m : M S A) s Q a s' :
  mayThrow m s Q → m s = Ok (a, s') → Q a s'.
Proof. unfold mayThrow, outcome. intros H Heq. by rewrite Heq in H. Qed.

(** ** The syntax tree *)

Lemma subnodes_unfold node :
  subnodes node = node :: mjoin (subnodes <$> forEachChild node).
Proof.
  destruct node as [i k t fl cs]. unfold forEachChild. simpl. f_equal.
  induction cs as [|[f c] cs IH]; [done|]. simpl. by rewrite IH.
Qed.

Lemma height_unfold node :
  height node = S (max_list (height <$> forEachChild node)).
Proof.
  destruct node as [i k t fl cs]. unfold forEachChild. simpl. f_equal.
  induction cs as [|[f c] cs IH]; [done|]. simpl. by rewrite IH.
Qed.

Lemma subnodes_self node : node ∈ subnodes node.
Proof. rewrite subnodes_unfold. by left. Qed.

Lemma subnodes_child node child x :
  child ∈ forEachChild node → x ∈ subnodes child → x ∈ subnodes node.
Proof.
  intros Hc Hx. rewrite subnodes_unfold. right.
  apply list_elem_of_join. exists (subnodes child). split; [done|].
  by apply list_elem_of_fmap_2.
Qed.

Lemma subnodes_inv node x :
  x ∈ subnodes node → x = node ∨ ∃ child, child ∈ forEachChild node ∧ x ∈ subnodes child.
Proof.
  rewrite subnodes_unfold. intros [->|Hx]%elem_of_cons; [by left|]. right.
  apply list_elem_of_join in Hx as (l & Hx & Hl).
  apply list_elem_of_fmap in Hl as (child & -> & Hc). eauto.
Qed.

Lemma height_child node child : child ∈ forEachChild node → height child < height node.
Proof.
  intros Hc. rewrite (height_unfold node).
  assert (height child ≤ max_list (height <$> forEachChild node)); [|lia].
  apply max_list_elem_of_le. by apply list_elem_of_fmap_2.
Qed.

Lemma prop_child f node child : prop f node = Some child → child ∈ forEachChild node.
Proof.
  unfold prop, forEachChild. intros H.
  destruct (head _) as [[f' c]|] eqn:Hh; [|done]. injection H as <-.
  apply head_Some_elem_of in Hh. apply list_elem_of_filter in Hh as [_ Hh].
  by apply (list_elem_of_fmap_2 snd) in Hh.
Qed.

Lemma propAll_child f node child : child ∈ propAll f node → child ∈ forEachChild node.
Proof.
  unfold propAll, forEachChild. intros H.
  apply list_elem_of_fmap in H as ([f' c] & -> & Hc).
  apply list_elem_of_filter in Hc as [_ Hc].
  by apply (list_elem_of_fmap_2 snd) in Hc.
Qed.

(** *** Unique node identities *)

Lemma fmap_join {A B} (f : A → B) (ls : list (list A)) :
  f <$> mjoin ls = mjoin (fmap f <$> ls).
Proof. induction ls as [|l ls IH]; [done|]. simpl. by rewrite fmap_app, IH. Qed.

Lemma nodeIds_unfold node :
  nodeIds node = nid node :: mjoin (nodeIds <$> forEachChild node).
Proof.
  unfold nodeIds at 1. rewrite subnodes_unfold, fmap_cons, fmap_join. f_equal.
  by rewrite <- list_fmap_compose.
Qed.

Lemma NoDup_join_lookup (ls : list (list nat)) i j li lj x :
  NoDup (mjoin ls) → ls !! i = Some li → ls !! j = Some lj → x ∈ li → x ∈ lj → i = j.
Proof.
  revert i j. induction ls as [|l ls IH]; intros i j Hnd Hi Hj Hxi Hxj; [done|].
  simpl in Hnd. apply NoDup_app in Hnd as (_ & Hdisj & Hnd).
  assert (Hin : ∀ k lk, ls !! k = Some lk → x ∈ lk → x ∈ mjoin ls).
  { intros k lk Hk Hx. apply list_elem_of_join. exists lk. split; [done|].
    by eapply list_elem_of_lookup_2. }
  destruct i as [|i], j as [|j]; simpl in *.
  - done.
  - injection Hi as <-. exfalso. eapply Hdisj; [done|]. by eapply Hin.
  - injection Hj as <-. exfalso. eapply Hdisj; [done|]. by eapply Hin.
  - f_equal. by eapply IH.
Qed.

Lemma unique_child_nid node child x :
  NoDup (nodeIds node) → child ∈ forEachChild node → x ∈ subnodes child → nid x ≠ nid node.
Proof.
  rewrite nodeIds_unfold. intros [Hnot _]%NoDup_cons Hc Hx Heq. apply Hnot.
  rewrite <- Heq. apply list_elem_of_join. exists (nodeIds child). split.
  - unfold nodeIds. by apply list_elem_of_fmap_2.
  - by apply list_elem_of_fmap_2.
Qed.

Lemma unique_child node child :
  NoDup (nodeIds node) → child ∈ forEachChild node → NoDup (nodeIds child).
Proof.
  rewrite nodeIds_unfold. intros [_ Hnd]%NoDup_cons Hc.
  apply list_elem_of_lookup_1 in Hc as [i Hi].
  revert i Hi. induction (forEachChild node) as [|c l IH]; intros i Hi; [done|].
  simpl in Hnd. apply NoDup_app in Hnd as (Hc & _ & Hl).
  destruct i as [|i]; simpl in Hi; [by injection Hi as <-|]. by eapply IH.
Qed.

Lemma unique_siblings node i j ci cj x y :
  NoDup (nodeIds node) →
  forEachChild node !! i = Some ci → forEachChild node !! j = Some cj →
  x ∈ subnodes ci → y ∈ subnodes cj → nid x = nid y → i = j.
Proof.
  rewrite nodeIds_unfold. intros [_ Hnd]%NoDup_cons Hi Hj Hx Hy Heq.
  eapply (NoDup_join_lookup _ i j (nodeIds ci) (nodeIds cj) (nid x)); [done| | | |].
  - by rewrite list_lookup_fmap, Hi.
  - by rewrite list_lookup_fmap, Hj.
  - unfold nodeIds. by apply list_elem_of_fmap_2.
  - rewrite Heq. unfold nodeIds. by apply list_elem_of_fmap_2.
Qed.

Lemma prop_lookup f node child :
  prop f node = Some child → ∃ i, children node !! i = Some (f, child).
Proof.
  unfold prop. intros H. destruct (head _) as [[f' c]|] eqn:Hh; [|done].
  injection H as <-. apply head_Some_elem_of in Hh.
  apply list_elem_of_filter in Hh as [Hf Hh]. simpl in Hf. subst f'.
  by apply list_elem_of_lookup_1.
Qed.

Lemma propAll_lookup f node child :
  child ∈ propAll f node → ∃ i, children node !! i = Some (f, child).
Proof.
  unfold propAll. intros ([f' c] & -> & Hc)%list_elem_of_fmap.
  apply list_elem_of_filter in Hc as [Hf Hc]. simpl in Hf. subst f'.
  by apply list_elem_of_lookup_1.
Qed.

Lemma children_forEachChild node i f child :
  children node !! i = Some (f, child) → forEachChild node !! i = Some child.
Proof. intros H. unfold forEachChild. by rewrite list_lookup_fmap, H. Qed.

(** Children stored under different properties share no node identity. *)
Lemma unique_fields node i j f g cf cg x y :
  NoDup (nodeIds node) →
  children node !! i = Some (f, cf) → children node !! j = Some (g, cg) → f ≠ g →
  x ∈ subnodes cf → y ∈ subnodes cg → nid x ≠ nid y.
Proof.
  intros Hnd Hi Hj Hfg Hx Hy Heq.
  assert (i = j) as ->.
  { eapply unique_siblings; eauto using children_forEachChild. }
  congruence.
Qed.

Lemma unique_props node f g cf cg x y :
  NoDup (nodeIds node) → prop f node = Some cf → prop g node = Some cg → f ≠ g →
  x ∈ subnodes cf → y ∈ subnodes cg → nid x ≠ nid y.
Proof.
  intros Hnd [i Hi]%prop_lookup [j Hj]%prop_lookup. by eapply unique_fields.
Qed.

(** * Properties *)

(** ** The monad *)

Lemma bind_Ok {S A B} (m : M S A) (k : A → M S B) s a s' :
  m s = Ok (a, s') → (m ≫= k) s = k a s'.
Proof. intros H. unfold mbind, M_bind, bind. by rewrite H. Qed.

Lemma bind_Ok_inv {S A B} (m : M S A) (k : A → M S B) s b s'' :
  (m ≫= k) s = Ok (b, s'') → ∃ a s', m s = Ok (a, s') ∧ k a s' = Ok (b, s'').
Proof.
  unfold mbind, M_bind, bind. destruct (m s) as [[a s']| |]; [eauto|done..].
Qed.

(** ** The chain of a scope *)

Lemma Scope_chain_ind (P : Scope → Prop) :
  (∀ this, (∀ parent, parentScope this = Some parent → P parent) → P this) →
  ∀ this, P this.
Proof.
  intros step. fix IH 1. intros [i k n [p|]]; apply step; simpl.
  - intros q [= <-]. apply IH.
  - intros q [=].
Qed.

Lemma chain_unfold this :
  chain this = this :: from_option chain [] (parentScope this).
Proof. destruct this as [i k n [p|]]; reflexivity. Qed.

Lemma nearest_here (P : Scope → Prop) this : P this → nearest P this this.
Proof.
  intros HP. exists 0. rewrite chain_unfold. split; [done|]. split; [done|]. lia.
Qed.

Lemma nearest_parent (P : Scope → Prop) this parent T :
  parentScope this = Some parent → ¬ P this →
  nearest P this T ↔ nearest P parent T.
Proof.
  intros Hp Hn. unfold nearest. rewrite (chain_unfold this), Hp. simpl. split.
  - intros ([|i] & Hi & HT & Hmin).
    + simpl in Hi. injection Hi as <-. done.
    + exists i. split; [done|]. split; [done|].
      intros j U Hj HU. apply (Hmin (S j) U); [lia | done].
  - intros (i & Hi & HT & Hmin). exists (S i). split; [done|]. split; [done|].
    intros [|j] U Hj HU.
    + simpl in HU. injection HU as <-. done.
    + apply (Hmin j U); [lia | done].
Qed.

Lemma nearest_root (P : Scope → Prop) this T :
  parentScope this = None → ¬ P this → ¬ nearest P this T.
Proof.
  intros Hp Hn ([|i] & Hi & HT & _); rewrite chain_unfold, Hp in Hi; simpl in Hi.
  - injection Hi as <-. done.
  - done.
Qed.

(** ** Scope Tree *)

Lemma bindings_setBinding_eq this name declaration st :
  bindings (setBinding this name declaration st) this = <[name := declaration]> (bindings st this).
Proof. unfold bindings, setBinding. simpl. by rewrite lookup_total_insert_eq. Qed.

Lemma bindings_setBinding_ne this other name declaration st :
  scopeId other ≠ scopeId this →
  bindings (setBinding this name declaration st) other = bindings st other.
Proof. intros Hne. unfold bindings, setBinding. simpl. by rewrite lookup_total_insert_ne. Qed.

Lemma functionScopeFrom_nearest this T :
  functionScopeFrom this = Some T ↔ nearest (λ s, scopeKind s = FunctionScope) this T.
Proof.
  induction this as [this IH] using Scope_chain_ind.
  destruct this as [i k n p]; destruct k; simpl in *.
  - destruct p as [p|].
    + rewrite (IH p eq_refl). symmetry. by apply nearest_parent.
    + split; [done|]. intros H. by eapply nearest_root in H.
  - split.
    + intros [= <-]. by apply nearest_here.
    + intros ([|j] & Hj & HT & Hmin).
      * simpl in Hj. by injection Hj as <-.
      * exfalso. eapply (Hmin 0); [lia| |]; done.
Qed.

Lemma functionScopeFrom_root this root :
  last (chain this) = Some root → scopeKind root = FunctionScope →
  is_Some (functionScopeFrom this).
Proof.
  induction this as [this IH] using Scope_chain_ind.
  destruct this as [i k n p]; destruct k; simpl in *; [|eauto].
  destruct p as [p|]; simpl.
  - intros Hl Hk. apply (IH p eq_refl); [|done].
    rewrite (chain_unfold p) in Hl |- *. exact Hl.
  - intros [= <-]. done.
Qed.

(** C1. [addBinding] stores a [LexicalScope] binding in the table of the
    receiver, and a [FunctionScope] binding in the table of the nearest scope
    of kind [FunctionScope] on the chain receiver, parent, ... (receiver
    included); only that table entry changes.  When the root of the chain has
    kind [FunctionScope] such a scope exists and 'Could not find parent
    function scope' is not thrown. *)
Theorem addBinding_placement (this : Scope) (name : string)
    (declaration : ScopeBindingDeclaration) (st : Store) :
  (bindingScopeKind declaration = LexicalScope →
     addBinding this name declaration st = Ok (tt, setBinding this name declaration st))
  ∧ (bindingScopeKind declaration = FunctionScope →
     ∀ T, nearest (λ s, scopeKind s = FunctionScope) this T →
       addBinding this name declaration st = Ok (tt, setBinding T name declaration st))
  ∧ (∀ T, bindings (setBinding T name declaration st) T !! name = Some declaration
          ∧ (∀ other, scopeId other ≠ scopeId T →
               bindings (setBinding T name declaration st) other = bindings st other)
          ∧ (∀ name', name' ≠ name →
               bindings (setBinding T name declaration st) T !! name' = bindings st T !! name'))
  ∧ (∀ root, last (chain this) = Some root → scopeKind root = FunctionScope →
       (∃ T, nearest (λ s, scopeKind s = FunctionScope) this T)
       ∧ addBinding this name declaration st ≠ Throw NoParentFunctionScope).
Proof.
  repeat split.
  - intros Hk. unfold addBinding. by rewrite Hk.
  - intros Hk T HT. apply functionScopeFrom_nearest in HT.
    unfold addBinding. by rewrite Hk, HT.
  - rewrite bindings_setBinding_eq. apply lookup_insert_eq.
  - intros other Hne. by apply bindings_setBinding_ne.
  - intros name' Hne. rewrite bindings_setBinding_eq. by apply lookup_insert_ne.
  - destruct (functionScopeFrom_root this root) as [T HT]; [done..|].
    exists T. by apply functionScopeFrom_nearest.
  - destruct (functionScopeFrom_root this root) as [T HT]; [done..|].
    unfold addBinding. rewrite HT. by destruct (bindingScopeKind declaration).
Qed.

(** C3. [getBinding] returns the binding and its owner for the nearest scope
    on the chain that has the name in its own table, and [null] exactly when
    no scope on the chain has it; a binding of the scope itself therefore
    shadows any of the same name further out. *)
Theorem getBinding_nearest (st : Store) (S : Scope) (n : string) :
  (∀ d T, getBinding st S n = Some (d, T) ↔
          nearest (λ U, is_Some (bindings st U !! n)) S T ∧ bindings st T !! n = Some d)
  ∧ (getBinding st S n = None ↔ ∀ T, T ∈ chain S → bindings st T !! n = None)
  ∧ (∀ d, bindings st S !! n = Some d → getBinding st S n = Some (d, S)).
Proof.
  induction S as [S IH] using Scope_chain_ind.
  destruct S as [i k nd p]. simpl in *.
  destruct (bindings st (mkScope i k nd p) !! n) as [d0|] eqn:Hown.
  - repeat split.
    + injection H as <- <-. apply nearest_here. by rewrite Hown.
    + by injection H as <- <-.
    + intros [([|j] & Hj & _ & Hmin) Hd].
      * simpl in Hj. injection Hj as <-. congruence.
      * exfalso. eapply (Hmin 0); [lia|done|]. by rewrite Hown.
    + done.
    + intros Hall. rewrite Hall in Hown; [done|]. apply elem_of_cons. by left.
    + by intros d [= <-].
  - assert (Hnot : ¬ is_Some (bindings st (mkScope i k nd p) !! n)).
    { rewrite Hown. by intros [? ?]. }
    destruct p as [p|].
    + destruct (IH p eq_refl) as (IH1 & IH2 & _). repeat split.
      * apply IH1 in H as [H _]. by apply (nearest_parent _ _ p).
      * by apply IH1 in H as [_ H].
      * intros [Hn Hd]. apply IH1. split; [|done].
        by apply (nearest_parent _ _ p) in Hn.
      * intros Hg T HT. simpl in HT.
        apply elem_of_cons in HT as [->|HT]; [done|]. by apply IH2.
      * intros Hall. apply IH2. intros T HT. apply Hall.
        apply elem_of_cons. by right.
      * done.
    + repeat split; try done.
      * intros [Hn _]. by eapply nearest_root in Hn.
      * intros _ T HT. simpl in HT.
        apply list_elem_of_singleton in HT as ->. done.
Qed.

(** What one call of [addReference] does to the store. *)
Lemma addReference_effect (S : Scope) (id : Node) (writeExpr : option Node)
    (isInitializer : bool) (st : Store) :
  let r := mkReference id (getBinding st S (text id)) S writeExpr isInitializer in
  ∃ st', addReference S id writeExpr isInitializer st = Ok (tt, st')
    ∧ referencesOf st' = <[scopeId S := references st S ++ [r]]> (referencesOf st)
    ∧ bindingReferencesOf st' =
        match getBinding st S (text id) with
        | Some (binding, _) =>
            <[bindingId binding := bindingReferences st binding ++ [r]]> (bindingReferencesOf st)
        | None => bindingReferencesOf st
        end
    ∧ bindingsOf st' = bindingsOf st ∧ childScopesOf st' = childScopesOf st
    ∧ scopeCount st' = scopeCount st ∧ bindingCount st' = bindingCount st.
Proof.
  intros r. unfold addReference, mbind, M_bind, bind, gets, modify, mret, M_ret, ret.
  fold r. destruct (getBinding st S (text id)) as [[binding T]|]; eexists; (split; [reflexivity|]); done.
Qed.

(** C4. [addReference] never fails and appends exactly one reference to the
    list of the receiver, resolved or not; [referenceTo] is what
    [getBinding] finds for the identifier's text; the same reference is
    appended to the list of the binding found, and no binding's list changes
    when none is found. *)
Theorem addReference_records (S : Scope) (id : Node) (writeExpr : option Node)
    (isInitializer : bool) (st : Store) :
  let r := mkReference id (getBinding st S (text id)) S writeExpr isInitializer in
  ∃ st', addReference S id writeExpr isInitializer st = Ok (tt, st')
    ∧ references st' S = references st S ++ [r]
    ∧ (∀ other, scopeId other ≠ scopeId S → references st' other = references st other)
    ∧ match getBinding st S (text id) with
      | Some (binding, _) =>
          bindingReferences st' binding = bindingReferences st binding ++ [r]
          ∧ ∀ other, bindingId other ≠ bindingId binding →
                     bindingReferences st' other = bindingReferences st other
      | None => ∀ other, bindingReferences st' other = bindingReferences st other
      end
    ∧ bindingsOf st' = bindingsOf st ∧ childScopesOf st' = childScopesOf st
    ∧ scopeCount st' = scopeCount st ∧ bindingCount st' = bindingCount st.
Proof.
  intros r.
  destruct (addReference_effect S id writeExpr isInitializer st)
    as (st' & Hrun & Hrefs & Hbrefs & Hrest).
  exists st'. split; [done|]. unfold references, bindingReferences in *.
  rewrite Hrefs, Hbrefs. split; [by rewrite lookup_total_insert_eq|].
  split; [intros other Hne; by rewrite lookup_total_insert_ne|].
  split; [|done].
  destruct (getBinding st S (text id)) as [[binding T]|]; [|done].
  split; [by rewrite lookup_total_insert_eq|].
  intros other Hne. by rewrite lookup_total_insert_ne.
Qed.

(** ** Reference Resolver: single constructs *)

Lemma getBinding_bindingsOf st st' this name :
  bindingsOf st' = bindingsOf st → getBinding st' this name = getBinding st this name.
Proof.
  intros Heq. induction this as [this IH] using Scope_chain_ind.
  destruct this as [i k n p]. simpl. unfold bindings. rewrite Heq.
  destruct (_ !! name); [done|]. destruct p as [p|]; [|done]. by apply IH.
Qed.

Lemma resolver_visitNodeFuel_S scopesMap fuel :
  AssignReferences.visitNodeFuel scopesMap (S fuel) =
  AssignReferences.visitNodeBody scopesMap (AssignReferences.visitNodeFuel scopesMap fuel).
Proof. reflexivity. Qed.

Ltac kind_of H :=
  match type of H with
  | ?p ?n = true =>
      unfold p in H;
      let K := fresh "Hkind" in
      destruct (kind n) eqn:K; try discriminate H; clear H
  end.

Lemma visit_identifier scopesMap fuel (id : Node) (initializer : option Node) scope st :
  isIdentifier id = true → text id ≠ "" → scopesMap !! nid id = Some scope →
  AssignReferences.visitNodeFuel scopesMap (S fuel) (One id) true initializer st =
  addReference scope id initializer (bool_decide (initializer ≠ None)) st.
Proof.
  intros Hid Htext Hscope. kind_of Hid. simpl.
  unfold isTypeNode, isIdentifier. rewrite Hkind. simpl.
  unfold AssignReferences.getScope. rewrite Hscope.
  apply String.eqb_neq in Htext.
  unfold mbind, M_bind, bind, mret, M_ret, ret. rewrite Htext.
  by destruct initializer.
Qed.

(** C6. Resolving a variable declaration whose name is a plain identifier [a]
    and whose initializer is an identifier [b] (as in [const a = b;]) records
    exactly two references: first, in the scope of [b], a read of [b]
    ([writeExpr] null, [isInitializer] false); then, in the scope of [a], a
    reference for [a] with [writeExpr] the initializer [b] and
    [isInitializer] true. *)
Theorem variableDeclaration_references (scopesMap : gmap nat Scope) (fuel : nat)
    (node a b : Node) (sa sb : Scope) (collectReferences : bool)
    (initializer : option Node) (st : Store) :
  isVariableDeclaration node = true →
  prop FName node = Some a → prop FInitializer node = Some b →
  isIdentifier a = true → isIdentifier b = true → text a ≠ "" → text b ≠ "" →
  scopesMap !! nid a = Some sa → scopesMap !! nid b = Some sb →
  ∃ st',
    AssignReferences.visitNodeFuel scopesMap (S (S fuel)) (One node)
      collectReferences initializer st = Ok (tt, st')
    ∧ ∀ s, references st' s =
           references st s
           ++ (if decide (scopeId s = scopeId sb)
               then [mkReference b (getBinding st sb (text b)) sb None false] else [])
           ++ (if decide (scopeId s = scopeId sa)
               then [mkReference a (getBinding st sa (text a)) sa (Some b) true] else []).
Proof.
  intros Hnode Hname Hinit Ha Hb Hta Htb Hsa Hsb.
  kind_of Hnode.
  rewrite resolver_visitNodeFuel_S. unfold AssignReferences.visitNodeBody.
  unfold isTypeNode, isIdentifier at 1, isVariableDeclaration. rewrite Hkind.
  cbn [andb]. rewrite Hinit, Hname. cbn [optional].
  destruct (addReference_effect sb b None false st) as (st1 & Hrun1 & Hrefs1 & _ & Hb1 & _).
  destruct (addReference_effect sa a (Some b) true st1) as (st2 & Hrun2 & Hrefs2 & _).
  exists st2. split.
  { etrans; [apply bind_Ok; rewrite (visit_identifier _ _ b None sb) by done; exact Hrun1|].
    rewrite (visit_identifier _ _ a (Some b) sa) by done. exact Hrun2. }
  intros s. unfold references in *. rewrite Hrefs2, Hrefs1.
  rewrite (getBinding_bindingsOf st st1) by done.
  rewrite !lookup_total_insert.
  destruct (decide (scopeId s = scopeId sb)) as [Eb|Nb],
           (decide (scopeId s = scopeId sa)) as [Ea|Na];
    repeat (case_decide; try congruence); simpl;
    rewrite <- ?app_assoc, ?app_nil_r; try done;
    first [by rewrite Eb | by rewrite Ea].
Qed.

Lemma builder_visitNodeFuel_S fuel :
  FindScopes.visitNodeFuel (S fuel) = FindScopes.visitNodeBody (FindScopes.visitNodeFuel fuel).
Proof. reflexivity. Qed.

(** A node of a kind the builder does not treat specially: it is mapped to
    the current scope and its children are visited under it. *)
Lemma builder_visit_plain fuel parent (node : Node) scope :
  isBlock node = false → isImportClause node = false → isFunctionLike node = false →
  isClassLike node = false → isForInStatement node = false → isForOfStatement node = false →
  isForStatement node = false → isVariableDeclaration node = false →
  FindScopes.visitNodeFuel (S fuel) parent node scope =
  (resultSet node scope;;
   (mret tt;; FindScopes.visitAllChildren (FindScopes.visitNodeFuel fuel) node scope)).
Proof.
  intros H1 H2 H3 H4 H5 H6 H7 H8. rewrite builder_visitNodeFuel_S.
  unfold FindScopes.visitNodeBody. by rewrite H1, H2, H3, H4, H5, H6, H7, H8.
Qed.

Lemma builder_visit_leaf fuel parent (node : Node) scope bs :
  isBlock node = false → isImportClause node = false → isFunctionLike node = false →
  isClassLike node = false → isForInStatement node = false → isForOfStatement node = false →
  isForStatement node = false → isVariableDeclaration node = false →
  children node = [] →
  FindScopes.visitNodeFuel (S fuel) parent node scope bs =
  Ok (tt, mkBuildState (store bs) (<[nid node := scope]> (result bs))).
Proof.
  intros H1 H2 H3 H4 H5 H6 H7 H8 Hleaf. rewrite builder_visit_plain by done.
  unfold FindScopes.visitAllChildren, forEachChild. rewrite Hleaf. reflexivity.
Qed.

(** C7. Resolving a simple assignment [x = y] whose left side is the bare
    identifier [x] records, in the scope of the assignment, a reference for
    [x] with [writeExpr] the right-hand side [y] and [isInitializer] false,
    then a read of [y] in the scope of [y], and nothing else; no binding
    table changes and no binding object is created, neither by the resolver
    nor by the builder when it visits the assignment. *)
Theorem assignment_references (scopesMap : gmap nat Scope) (fuel : nat)
    (node x op y : Node) (s sy : Scope) (collectReferences : bool)
    (initializer : option Node) (st : Store) :
  isBinaryExpression node = true →
  children node = [(FLeft, x); (FOperatorToken, op); (FRight, y)] →
  isEqualsToken op = true → isIdentifier x = true → isIdentifier y = true →
  children x = [] → children op = [] → children y = [] →
  text y ≠ "" →
  scopesMap !! nid node = Some s → scopesMap !! nid y = Some sy →
  (∃ st',
     AssignReferences.visitNodeFuel scopesMap (S (S fuel)) (One node)
       collectReferences initializer st = Ok (tt, st')
     ∧ (∀ t, references st' t =
             references st t
             ++ (if decide (scopeId t = scopeId s)
                 then [mkReference x (getBinding st s (text x)) s (Some y) false] else [])
             ++ (if decide (scopeId t = scopeId sy)
                 then [mkReference y (getBinding st sy (text y)) sy None false] else []))
     ∧ bindingsOf st' = bindingsOf st ∧ bindingCount st' = bindingCount st)
  ∧ (∀ parent scope bs, ∃ bs',
       FindScopes.visitNodeFuel (S (S fuel)) parent node scope bs = Ok (tt, bs')
       ∧ store bs' = store bs).
Proof.
  intros Hnode Hch Hop Hx Hy Hlx Hlop Hly Hty Hs Hsy.
  kind_of Hnode.
  assert (Hleft : prop FLeft node = Some x) by (unfold prop; by rewrite Hch).
  assert (Hopt : prop FOperatorToken node = Some op) by (unfold prop; by rewrite Hch).
  assert (Hright : prop FRight node = Some y) by (unfold prop; by rewrite Hch).
  split.
  - rewrite resolver_visitNodeFuel_S. unfold AssignReferences.visitNodeBody.
    unfold isTypeNode, isIdentifier at 1, isVariableDeclaration, isExpressionStatement,
      isBinaryExpression.
    rewrite Hkind, Hleft, Hopt, Hright, Hop. cbn [andb optional].
    destruct (addReference_effect s x (Some y) false st)
      as (st1 & Hrun1 & Hrefs1 & _ & Hb1 & _ & _ & Hc1).
    destruct (addReference_effect sy y None false st1)
      as (st2 & Hrun2 & Hrefs2 & _ & Hb2 & _ & _ & Hc2).
    exists st2. split.
    { etrans; [apply bind_Ok; reflexivity|]. cbn beta. rewrite Hx.
      unfold AssignReferences.getScope. rewrite Hs.
      etrans; [apply bind_Ok; etrans; [apply bind_Ok; reflexivity|exact Hrun1]|].
      cbn beta. rewrite (visit_identifier _ _ y None sy) by done. exact Hrun2. }
    split; [|split; congruence].
    intros t. unfold references in *. rewrite Hrefs2, Hrefs1.
    rewrite (getBinding_bindingsOf st st1) by done.
    rewrite !lookup_total_insert.
    destruct (decide (scopeId t = scopeId s)) as [Eb|Nb],
             (decide (scopeId t = scopeId sy)) as [Ea|Na];
      repeat (case_decide; try congruence); simpl;
      rewrite <- ?app_assoc, ?app_nil_r; try done;
      first [by rewrite Eb | by rewrite Ea].
  - intros parent scope bs. eexists. split; [|shelve].
    rewrite builder_visit_plain by (unfold isBlock, isImportClause, isFunctionLike, isClassLike,
      isForInStatement, isForOfStatement, isForStatement, isVariableDeclaration;
      by rewrite Hkind).
    unfold FindScopes.visitAllChildren, forEachChild. rewrite Hch. simpl.
    kind_of Hx. kind_of Hy. kind_of Hop.
    etrans; [apply bind_Ok; reflexivity|]. cbn beta.
    etrans; [apply bind_Ok; reflexivity|]. cbn beta.
    etrans; [apply bind_Ok; apply builder_visit_leaf;
             (done || (unfold isBlock, isImportClause, isFunctionLike, isClassLike,
               isForInStatement, isForOfStatement, isForStatement, isVariableDeclaration;
               by rewrite ?Hkind0, ?Hkind1, ?Hkind2))|]. cbn beta.
    etrans; [apply bind_Ok; apply builder_visit_leaf;
             (done || (unfold isBlock, isImportClause, isFunctionLike, isClassLike,
               isForInStatement, isForOfStatement, isForStatement, isVariableDeclaration;
               by rewrite ?Hkind0, ?Hkind1, ?Hkind2))|]. cbn beta.
    etrans; [apply bind_Ok; apply builder_visit_leaf;
             (done || (unfold isBlock, isImportClause, isFunctionLike, isClassLike,
               isForInStatement, isForOfStatement, isForStatement, isVariableDeclaration;
               by rewrite ?Hkind0, ?Hkind1, ?Hkind2))|]. cbn beta.
    reflexivity.
    Unshelve. reflexivity.
Qed.

(** ** Scope Builder: what a visit changes *)

Lemma Built_refl N D base s bs : Built N D base s bs bs.
Proof.
  split; try done.
  - by left.
  - by left.
  - intros i _. exists []. by rewrite app_nil_r.
  - lia.
Qed.

Lemma Built_trans N D base s bs1 bs2 bs3 :
  Built N D base s bs1 bs2 → Built N D base s bs2 bs3 → Built N D base s bs1 bs3.
Proof.
  intros [c1 b1 r1 o1 n1] [c2 b2 r2 o2 n2]. split.
  - lia.
  - intros i k Hi. destruct (b2 i k Hi) as [->|?]; [|by right]. by apply b1.
  - intros k. destruct (r2 k) as [->|?]; [|by right]. by apply r1.
  - intros i Hi. destruct (o1 i Hi) as (new1 & E1 & F1).
    destruct (o2 i) as (new2 & E2 & F2); [lia|].
    exists (new1 ++ new2). rewrite E2, E1, app_assoc. split; [done|].
    by apply Forall_app.
  - intros i Hlo Hhi. destruct (decide (i < scopeCount (store bs2))) as [Hlt|Hge].
    + destruct (o2 i Hlt) as (new2 & -> & F2). apply Forall_app. split; [|done].
      by apply n1.
    + apply n2; [lia|done].
Qed.

Lemma tablesTouched_under base s s' i :
  scopeUnder base s s' → i < base → tablesTouched s' i → tablesTouched s i.
Proof.
  intros [->|[Hid Hp]] Hi; [done|]. intros [->|Hfs]; [lia|].
  destruct s' as [i' k' n' p']. simpl in *. subst p'. destruct k'; simpl in Hfs.
  - by right.
  - injection Hfs as <-. lia.
Qed.

Lemma Built_weaken N N' D D' base base' s s' bs1 bs2 :
  Built N' D' base' s' bs1 bs2 →
  (∀ x, N' x → N x) → (∀ x, D' x → D x) → base ≤ base' → scopeUnder base s s' →
  Built N D base s bs1 bs2.
Proof.
  intros [c b r o n] HN HD Hb Hs.
  assert (Hcr : ∀ l, Forall (created D' base') l → Forall (created D base) l).
  { intros l Hl. eapply Forall_impl; [done|]. intros t [? ?]. split; [auto|lia]. }
  split.
  - done.
  - intros i k Hi. destruct (b i k) as [?|[Ht (x & Hx & ->)]]; [lia|by left|].
    right. split; [by eapply tablesTouched_under|]. eauto.
  - intros k. destruct (r k) as [?|(x & t & Hx & -> & Hr & Ht)]; [by left|].
    right. exists x, t. repeat split; [auto..|].
    destruct Ht as [->|?]; [|right; lia]. destruct Hs as [->|[? _]]; [by left|by right].
  - intros i Hi. destruct (o i Hi) as (new & E & F). exists new. auto.
  - intros i Hlo Hhi. auto.
Qed.

Lemma scopeUnder_functionScopeFrom base s s' :
  scopeUnder base s s' → is_Some (functionScopeFrom s) → is_Some (functionScopeFrom s').
Proof.
  intros [->|[_ Hp]]; [done|]. destruct s' as [i k n p]. simpl in *. subst p.
  destruct k; simpl; eauto.
Qed.

(** [result.set(x, t)] *)
Lemma resultSet_returns N D base s bs x t :
  N x → (t = s ∨ base ≤ scopeId t) →
  returns (resultSet x t) bs (λ _ bs', Built N D base s bs bs'
    ∧ store bs' = store bs ∧ result bs' = <[nid x := t]> (result bs)).
Proof.
  intros Hx Ht. unfold resultSet. apply outcome_modify. split; [|done].
  split; simpl; try done.
  - by left.
  - intros k. destruct (decide (k = nid x)) as [->|Hne].
    + right. exists x, t. by rewrite lookup_insert_eq.
    + left. by rewrite lookup_insert_ne.
  - intros i _. exists []. by rewrite app_nil_r.
  - lia.
Qed.

(** [for each child: result.set(child, t)] *)
Lemma addAllChildren_returns N D base s bs node t :
  (∀ x, x ∈ forEachChild node → N x) → (t = s ∨ base ≤ scopeId t) →
  returns (FindScopes.addAllChildren node t) bs (λ _ bs', Built N D base s bs bs'
    ∧ store bs' = store bs
    ∧ (∀ k, k ∉ nid <$> forEachChild node → result bs' !! k = result bs !! k)
    ∧ (∀ x, x ∈ forEachChild node → result bs' !! nid x = Some t)).
Proof.
  intros HN Ht. unfold FindScopes.addAllChildren.
  generalize (forEachChild node) HN. clear HN. intros l. revert bs.
  induction l as [|c l IH]; intros bs HN; simpl.
  - apply outcome_ret. split; [apply Built_refl|]. split; [done|]. split; [done|].
    intros x Hx. by apply elem_of_nil in Hx.
  - apply outcome_bind. eapply outcome_mono.
    { apply (resultSet_returns N D base s bs c t); [apply HN; by left|done]. }
    intros [] bs1 (B1 & S1 & R1). eapply outcome_mono.
    { apply IH. intros x Hx. apply HN. by right. }
    intros [] bs2 (B2 & S2 & R2 & R2'). split; [by eapply Built_trans|].
    split; [congruence|]. split.
    + intros k Hk. apply not_elem_of_cons in Hk as [Hk1 Hk2].
      rewrite R2, R1 by done. by apply lookup_insert_ne.
    + intros x [->|Hx]%elem_of_cons; [|by apply R2'].
      destruct (decide (nid c ∈ nid <$> l)) as [Hin|Hnin].
      * apply list_elem_of_fmap in Hin as (y & Hy & Hin). rewrite Hy. by apply R2'.
      * rewrite R2 by done. rewrite R1. apply lookup_insert_eq.
Qed.

Lemma wellFormed_node node x : wellFormed node = true → x ∈ subnodes node → wellFormedNode x = true.
Proof.
  unfold wellFormed. rewrite forallb_forall. intros H Hx. apply H. by apply list_elem_of_In.
Qed.

Lemma subnodes_trans node x y : x ∈ subnodes node → y ∈ subnodes x → y ∈ subnodes node.
Proof.
  remember (height node) as h eqn:Hh. revert node Hh x y.
  induction h as [h IH] using lt_wf_ind. intros node -> x y Hx Hy.
  apply subnodes_inv in Hx as [->|(c & Hc & Hx)]; [done|].
  eapply subnodes_child; [done|]. eapply (IH (height c)); [by apply height_child|done..].
Qed.

Lemma wellFormed_sub node x : wellFormed node = true → x ∈ subnodes node → wellFormed x = true.
Proof.
  intros H Hx. unfold wellFormed. apply forallb_forall. intros y Hy%list_elem_of_In.
  apply (wellFormed_node node); [done|]. by eapply subnodes_trans.
Qed.

Lemma wellFormed_child node child :
  wellFormed node = true → child ∈ forEachChild node → wellFormed child = true.
Proof.
  intros H Hc. apply (wellFormed_sub node); [done|].
  eapply subnodes_child; [done|apply subnodes_self].
Qed.

Lemma forallb_elem_of {A} (f : A → bool) l x : forallb f l = true → x ∈ l → f x = true.
Proof. rewrite forallb_forall. intros H Hx. apply H. by apply list_elem_of_In. Qed.

Lemma defined_Some {A} (o : option A) : defined o = true → ∃ a, o = Some a.
Proof. destruct o; [eauto|done]. Qed.

(** [scope.newChildScope(kind, node)] *)
Lemma newChildScope_returns N D base s bs this kind node :
  D node → base ≤ scopeCount (store bs) →
  returns (onStore (newChildScope this kind node)) bs (λ c bs',
    c = mkScope (scopeCount (store bs)) kind node (Some this)
    ∧ Built N D base s bs bs'
    ∧ result bs' = result bs
    ∧ scopeCount (store bs') = S (scopeCount (store bs))
    ∧ bindingCount (store bs') = bindingCount (store bs)
    ∧ bindingsOf (store bs') = <[scopeCount (store bs) := ∅]> (bindingsOf (store bs))
    ∧ childScopesOf (store bs') =
        <[scopeId this := (<[scopeCount (store bs) := []]> (childScopesOf (store bs))
                             !!! scopeId this) ++ [c]]>
          (<[scopeCount (store bs) := []]> (childScopesOf (store bs)))).
Proof.
  intros HN Hbase. apply outcome_onStore. unfold newChildScope.
  apply outcome_bind. unfold newScope at 1. unfold outcome at 1. cbn beta iota zeta.
  apply outcome_bind. apply outcome_modify. apply outcome_ret.
  split; [done|].
  split; [|done]. destruct bs as [st r]. simpl in *.
  split; simpl.
  - lia.
  - intros i k Hi. left. rewrite lookup_total_insert_ne; [done|lia].
  - by left.
  - intros i Hi. unfold childScopes. simpl.
    destruct (decide (scopeId this = i)) as [<-|Hne].
    + eexists [_]. rewrite lookup_total_insert_eq. rewrite lookup_total_insert_ne by lia.
      split; [done|]. apply Forall_singleton. split; [done|simpl; lia].
    + exists []. rewrite lookup_total_insert_ne by done.
      rewrite lookup_total_insert_ne by lia. by rewrite app_nil_r.
  - intros i Hlo Hhi. assert (i = scopeCount st) as -> by lia.
    unfold childScopes. simpl. destruct (decide (scopeId this = scopeCount st)) as [->|Hne].
    + rewrite !lookup_total_insert_eq. apply Forall_singleton. split; [done|simpl; lia].
    + rewrite lookup_total_insert_ne by done. by rewrite lookup_total_insert_eq.
Qed.

(** [scope.addBinding(name, { declaringNode, bindingScopeKind, identifier: name,
    mutability, references: [] })] *)
Lemma declare_returns st sc dn kind name mut :
  (kind = FunctionScope → is_Some (functionScopeFrom sc)) →
  returns (newBinding dn kind name mut ≫= λ d, addBinding sc name d) st (λ _ st',
    scopeCount st' = scopeCount st ∧ childScopesOf st' = childScopesOf st
    ∧ bindingCount st' = S (bindingCount st)
    ∧ ∃ target,
        match kind with
        | LexicalScope => target = sc
        | FunctionScope => functionScopeFrom sc = Some target
        end
        ∧ bindingsOf st' =
            <[scopeId target :=
                <[name := mkBinding (bindingCount st) dn kind name mut]>
                  (bindingsOf st !!! scopeId target)]> (bindingsOf st)).
Proof.
  intros Hfs. apply outcome_bind.
  unfold newBinding at 1. unfold outcome at 1. cbn beta iota zeta.
  unfold addBinding. simpl. destruct kind.
  - apply outcome_modify. simpl. repeat split; try done. by exists sc.
  - destruct Hfs as [target Htarget]; [done|]. rewrite Htarget.
    apply outcome_modify. simpl. repeat split; try done. by exists target.
Qed.

Lemma Built_declare N D base s st st' r sc target name b :
  scopeCount st' = scopeCount st → childScopesOf st' = childScopesOf st →
  bindingsOf st' =
    <[scopeId target := <[name := b]> (bindingsOf st !!! scopeId target)]> (bindingsOf st) →
  (target = sc ∨ functionScopeFrom sc = Some target) →
  (scopeUnder base s sc ∧ (∃ x, N x ∧ name = text x)) ∨ base ≤ scopeId target →
  Built N D base s (mkBuildState st r) (mkBuildState st' r).
Proof.
  intros Hc Hch Hb Ht Hwhy. split; simpl.
  - lia.
  - intros i k Hi. rewrite Hb.
    destruct (decide (scopeId target = i)) as [<-|Hne];
      [|left; by rewrite lookup_total_insert_ne].
    rewrite lookup_total_insert_eq.
    destruct (decide (name = k)) as [<-|Hnk]; [|left; by rewrite lookup_insert_ne].
    destruct Hwhy as [[Hu Hx]|?]; [|lia]. right. split; [|done].
    eapply tablesTouched_under; [done..|].
    destruct Ht as [->|Ht]; [by left|right; by rewrite Ht].
  - by left.
  - intros i Hi. exists []. by rewrite Hch, app_nil_r.
  - lia.
Qed.

Lemma storeBuilt_refl N D base s st : storeBuilt N D base s st st.
Proof. split; [|done]. intros r. apply Built_refl. Qed.

Lemma storeBuilt_trans N D base s st1 st2 st3 :
  storeBuilt N D base s st1 st2 → storeBuilt N D base s st2 st3 → storeBuilt N D base s st1 st3.
Proof.
  intros [B1 C1] [B2 C2]. split; [|congruence]. intros r. by eapply Built_trans.
Qed.

Lemma declare_storeBuilt N D base s st sc dn kind name mut :
  is_Some (functionScopeFrom sc) →
  (scopeUnder base s sc ∧ (∃ x, N x ∧ name = text x))
    ∨ (base ≤ scopeId sc ∧ (kind = LexicalScope ∨ scopeKind sc = FunctionScope)) →
  returns (newBinding dn kind name mut ≫= λ d, addBinding sc name d) st
    (λ _ st', storeBuilt N D base s st st').
Proof.
  intros Hfs Hwhy. eapply outcome_mono.
  { apply (declare_returns st sc dn kind name mut). by intros _. }
  intros [] st' (Hc & Hch & _ & target & Ht & Hb). split; [|done]. intros r.
  eapply Built_declare; try done.
  - destruct kind; [by left|by right].
  - destruct Hwhy as [?|[? Hk]]; [by left|right].
    destruct kind; [by subst target|]. destruct Hk as [|Hk]; [done|].
    destruct sc as [i k n p]. simpl in *. subst k. simpl in Ht. by injection Ht as <-.
Qed.

Lemma visitBindingName_returns N D base s sc kind fuel :
  ∀ name decl mut st,
    height name ≤ fuel → wellFormed name = true →
    is_Some (functionScopeFrom sc) →
    (scopeUnder base s sc ∧ (∀ x, x ∈ subnodes name → N x))
      ∨ (base ≤ scopeId sc ∧ (kind = LexicalScope ∨ scopeKind sc = FunctionScope)) →
    returns (FindScopes.visitBindingNameFuel fuel name decl sc kind mut) st
      (λ _ st', storeBuilt N D base s st st').
Proof.
  induction fuel as [|fuel IH]; intros name decl mut st Hh Hwf Hfs Hwhy.
  { rewrite height_unfold in Hh. lia. }
  assert (Helement : ∀ el st1,
    el ∈ propAll FElements name → hasName el = true →
    returns (FindScopes.visitBindingElement (FindScopes.visitBindingNameFuel fuel)
               el decl sc kind mut) st1
      (λ _ st', storeBuilt N D base s st1 st')).
  { intros el st1 Hel Hname. apply propAll_child in Hel.
    apply defined_Some in Hname as [nm Hnm].
    pose proof (prop_child _ _ _ Hnm) as Hnmc.
    unfold FindScopes.visitBindingElement. rewrite Hnm.
    apply outcome_bind, outcome_ret. apply IH.
    - pose proof (height_child _ _ Hel). pose proof (height_child _ _ Hnmc). lia.
    - eapply wellFormed_child; [|done]. by eapply wellFormed_child.
    - done.
    - destruct Hwhy as [[Hu HN]|?]; [left|by right]. split; [done|].
      intros x Hx. apply HN. eapply subnodes_child; [done|]. by eapply subnodes_child. }
  simpl. unfold FindScopes.visitBindingNameBody.
  destruct (isIdentifier name) eqn:Hid.
  - apply declare_storeBuilt; [done|].
    destruct Hwhy as [[Hu HN]|?]; [left|by right]. split; [done|].
    exists name. split; [|done]. apply HN, subnodes_self.
  - destruct (isObjectBindingPattern name) eqn:Hobj.
    + apply (outcome_forEach _ (λ st', storeBuilt N D base s st st')).
      { apply storeBuilt_refl. }
      intros el st1 Hel B1.
      assert (hasName el = true) as Hname.
      { pose proof (wellFormed_node name name Hwf (subnodes_self _)) as Hn.
        unfold wellFormedNode in Hn. kind_of Hobj. by eapply forallb_elem_of. }
      eapply outcome_mono; [by apply Helement|].
      intros [] st2 B2. by eapply storeBuilt_trans.
    + destruct (isArrayBindingPattern name) eqn:Harr.
      * apply (outcome_forEach _ (λ st', storeBuilt N D base s st st')).
        { apply storeBuilt_refl. }
        intros el st1 Hel B1. unfold FindScopes.visitArrayBindingElement.
        destruct (isBindingElement el) eqn:Hbe; [|by apply outcome_ret].
        assert (hasName el = true) as Hname.
        { assert (wellFormedNode el = true) as Hn.
          { apply (wellFormed_node name); [done|].
            eapply subnodes_child; [by eapply propAll_child|apply subnodes_self]. }
          unfold wellFormedNode in Hn. by kind_of Hbe. }
        eapply outcome_mono; [by apply Helement|].
        intros [] st2 B2. by eapply storeBuilt_trans.
      * apply outcome_ret, storeBuilt_refl.
Qed.

Lemma outcome_onStore_Built N D base s (m : M Store unit) bs :
  returns m (store bs) (λ _ st', storeBuilt N D base s (store bs) st') →
  returns (onStore m) bs (λ _ bs', Built N D base s bs bs' ∧ result bs' = result bs
                                   ∧ scopeCount (store bs') = scopeCount (store bs)).
Proof.
  intros H. apply outcome_onStore. eapply outcome_mono; [done|].
  intros [] st' [B C]. destruct bs as [st r]. split; [apply B|done].
Qed.

Lemma visitable_wellFormed parent node : visitable parent node → wellFormed node = true.
Proof.
  destruct parent as [p|]; simpl; [|tauto]. intros [Hp Hc]. by eapply wellFormed_child.
Qed.

Lemma scopeUnder_refl base s : scopeUnder base s s.
Proof. by left. Qed.

Lemma scopeUnder_child base s i kind node : base ≤ i → scopeUnder base s (mkScope i kind node (Some s)).
Proof. by right. Qed.

Lemma functionScopeFrom_child s i kind node :
  is_Some (functionScopeFrom s) → is_Some (functionScopeFrom (mkScope i kind node (Some s))).
Proof. destruct kind; simpl; eauto. Qed.

Section BuilderStep.
Variable fuel : nat.
Variable visitNode : option Node → Node → Scope → M BuildState unit.
Hypothesis IH : visitSpec fuel visitNode.

(** A visit of a child, seen from the visit it is part of. *)
Lemma visit_sub N D base s sc bs0 bs p child :
  Built N D base s bs0 bs → base ≤ scopeCount (store bs0) →
  wellFormed p = true → child ∈ forEachChild p → height child ≤ fuel →
  scopeUnder base s sc → is_Some (functionScopeFrom sc) →
  (∀ x, x ∈ subnodes child → N x ∧ D x) →
  returns (visitNode (Some p) child sc) bs (λ _ bs', Built N D base s bs0 bs').
Proof.
  intros Hacc Hbase Hp Hc Hh Hu Hfs HN. eapply outcome_mono.
  { apply IH; [done| |done]. by split. }
  intros [] bs' [HB _]. eapply Built_trans; [done|].
  eapply Built_weaken; [done|apply HN|apply HN| |done].
  destruct Hacc. lia.
Qed.

Lemma visitAll_sub N D base s sc bs0 bs p (l : list Node) :
  Built N D base s bs0 bs → base ≤ scopeCount (store bs0) →
  wellFormed p = true →
  (∀ c, c ∈ l → c ∈ forEachChild p ∧ height c ≤ fuel ∧ ∀ x, x ∈ subnodes c → N x ∧ D x) →
  scopeUnder base s sc → is_Some (functionScopeFrom sc) →
  returns (forEach l (λ child, visitNode (Some p) child sc)) bs
    (λ _ bs', Built N D base s bs0 bs').
Proof.
  intros Hacc Hbase Hp Hl Hu Hfs.
  apply (outcome_forEach _ (λ bs', Built N D base s bs0 bs')); [done|].
  intros c bs1 Hc Hacc1. destruct (Hl c Hc) as (Hch & Hh & HN).
  by eapply visit_sub.
Qed.

Lemma visitAllChildren_sub N D base s sc bs0 bs p :
  Built N D base s bs0 bs → base ≤ scopeCount (store bs0) →
  wellFormed p = true → height p ≤ S fuel →
  (∀ c, c ∈ forEachChild p → ∀ x, x ∈ subnodes c → N x ∧ D x) →
  scopeUnder base s sc → is_Some (functionScopeFrom sc) →
  returns (FindScopes.visitAllChildren visitNode p sc) bs
    (λ _ bs', Built N D base s bs0 bs').
Proof.
  intros Hacc Hbase Hp Hh HN Hu Hfs. unfold FindScopes.visitAllChildren.
  eapply visitAll_sub; try done.
  intros c Hc. split; [done|]. split.
  - pose proof (height_child _ _ Hc). lia.
  - by apply HN.
Qed.

(** A call into the scope tree, seen from the visit it is part of. *)
Lemma store_sub N D base s bs0 bs (m : M Store unit) :
  Built N D base s bs0 bs →
  returns m (store bs) (λ _ st', storeBuilt N D base s (store bs) st') →
  returns (onStore m) bs (λ _ bs', Built N D base s bs0 bs').
Proof.
  intros Hacc H. eapply outcome_mono; [by apply outcome_onStore_Built|].
  intros [] bs' (B & _). by eapply Built_trans.
Qed.

Lemma resultSet_sub N D base s bs0 bs (k : M BuildState unit) x t :
  Built N D base s bs0 bs → N x → (t = s ∨ base ≤ scopeId t) →
  (∀ bs1, Built N D base s bs0 bs1 → returns k bs1 (λ _ bs', Built N D base s bs0 bs')) →
  returns (resultSet x t;; k) bs (λ _ bs', Built N D base s bs0 bs').
Proof.
  intros Hacc Hx Ht Hk. apply outcome_bind. eapply outcome_mono.
  { by apply (resultSet_returns N D base s bs x t). }
  intros [] bs1 (B & _). apply Hk. by eapply Built_trans.
Qed.

Lemma seq_sub N D base s bs0 bs (m k : M BuildState unit) :
  returns m bs (λ _ bs', Built N D base s bs0 bs') →
  (∀ bs1, Built N D base s bs0 bs1 → returns k bs1 (λ _ bs', Built N D base s bs0 bs')) →
  returns (m;; k) bs (λ _ bs', Built N D base s bs0 bs').
Proof.
  intros Hm Hk. apply outcome_bind. eapply outcome_mono; [done|].
  intros [] bs1 B. by apply Hk.
Qed.

Lemma newChildScope_sub N D base s bs0 bs this kind node (k : Scope → M BuildState unit) :
  Built N D base s bs0 bs → base ≤ scopeCount (store bs0) → D node →
  (∀ bs1, Built N D base s bs0 bs1 → base ≤ scopeCount (store bs) →
     returns (k (mkScope (scopeCount (store bs)) kind node (Some this))) bs1
       (λ _ bs', Built N D base s bs0 bs')) →
  returns (onStore (newChildScope this kind node) ≫= k) bs
    (λ _ bs', Built N D base s bs0 bs').
Proof.
  intros Hacc Hbase HN Hk. apply outcome_bind. eapply outcome_mono.
  { apply (newChildScope_returns N D base s bs this kind node); [done|].
    destruct Hacc. lia. }
  intros c bs1 (-> & B & _). apply Hk; [by eapply Built_trans|].
  destruct Hacc. lia.
Qed.


Lemma bindingElements_sub N D base s bs0 bs pattern
    (visitElement : Node → M Store unit) :
  Built N D base s bs0 bs →
  (∀ el st, el ∈ propAll FElements pattern →
     returns (visitElement el) st (λ _ st', storeBuilt N D base s st st')) →
  returns (onStore (forEach (propAll FElements pattern) visitElement)) bs
    (λ _ bs', Built N D base s bs0 bs').
Proof.
  clear IH. intros Hacc Hel. apply store_sub; [done|].
  apply (outcome_forEach _ (λ st', storeBuilt N D base s (store bs) st')).
  { apply storeBuilt_refl. }
  intros el st1 Hin B1. eapply outcome_mono; [by apply Hel|].
  intros [] st2 B2. by eapply storeBuilt_trans.
  Unshelve. all: done.
Qed.

Lemma visitBindingElement_top N D base s sc el decl kind mut st :
  wellFormed el = true → hasName el = true → is_Some (functionScopeFrom sc) →
  (scopeUnder base s sc ∧ (∀ x, x ∈ subnodes el → N x))
    ∨ (base ≤ scopeId sc ∧ (kind = LexicalScope ∨ scopeKind sc = FunctionScope)) →
  returns (FindScopes.visitBindingElement FindScopes.visitBindingName el decl sc kind mut) st
    (λ _ st', storeBuilt N D base s st st').
Proof.
  clear IH. intros Hwf Hname Hfs Hwhy.
  apply defined_Some in Hname as [nm Hnm]. pose proof (prop_child _ _ _ Hnm) as Hc.
  unfold FindScopes.visitBindingElement. rewrite Hnm.
  apply outcome_bind, outcome_ret. unfold FindScopes.visitBindingName.
  apply visitBindingName_returns; [done|by eapply wellFormed_child|done|].
  destruct Hwhy as [[Hu HN]|?]; [left|by right]. split; [done|].
  intros x Hx. apply HN. by eapply subnodes_child.
Qed.

Lemma visitParameterDeclaration_sub N D base s sc bs0 bs functionLike paramDecl :
  Built N D base s bs0 bs → base ≤ scopeCount (store bs0) →
  wellFormed functionLike = true → paramDecl ∈ forEachChild functionLike →
  hasName paramDecl = true → height paramDecl ≤ fuel →
  scopeUnder base s sc → is_Some (functionScopeFrom sc) →
  (∀ x, x ∈ subnodes paramDecl → N x ∧ D x) →
  returns (FindScopes.visitParameterDeclaration visitNode functionLike paramDecl sc) bs
    (λ _ bs', Built N D base s bs0 bs').
Proof.
  intros Hacc Hbase Hwf Hc Hname Hh Hu Hfs HN.
  pose proof (wellFormed_child _ _ Hwf Hc) as Hwfp.
  unfold FindScopes.visitParameterDeclaration.
  apply seq_sub; [by eapply visit_sub|]. intros bs1 Hacc1.
  apply defined_Some in Hname as [name Hnm]. pose proof (prop_child _ _ _ Hnm) as Hnc.
  rewrite Hnm. apply outcome_bind, outcome_ret.
  pose proof (wellFormed_child _ _ Hwfp Hnc) as Hwfn.
  assert (HNn : ∀ x, x ∈ subnodes name → N x).
  { intros x Hx. apply HN. by eapply subnodes_child. }
  destruct (isIdentifier name) eqn:Hid.
  { apply store_sub; [done|]. apply declare_storeBuilt; [done|]. left. split; [done|].
    exists name. split; [|done]. apply HNn, subnodes_self. }
  destruct (isObjectBindingPattern name) eqn:Hobj.
  { eapply bindingElements_sub; [done..|]. intros el st Hel.
    pose proof (propAll_child _ _ _ Hel) as Helc.
    apply visitBindingElement_top; [by eapply wellFormed_child| |done|].
    - pose proof (wellFormed_node name name Hwfn (subnodes_self _)) as Hn.
      unfold wellFormedNode in Hn. kind_of Hobj. by eapply forallb_elem_of.
    - left. split; [done|]. intros x Hx. apply HNn. by eapply subnodes_child. }
  eapply bindingElements_sub; [done..|]. intros el st Hel.
  pose proof (propAll_child _ _ _ Hel) as Helc.
  unfold FindScopes.visitArrayBindingElement.
  destruct (isBindingElement el) eqn:Hbe; [|apply outcome_ret, storeBuilt_refl].
  apply visitBindingElement_top; [by eapply wellFormed_child| |done|].
  - pose proof (wellFormed_node el el (wellFormed_child _ _ Hwfn Helc) (subnodes_self _)) as Hn.
    unfold wellFormedNode in Hn. by kind_of Hbe.
  - left. split; [done|]. intros x Hx. apply HNn. by eapply subnodes_child.
Qed.

(** The parameters and the body of a function-like node, under its scope. *)
Lemma functionBody_sub N D base s sc bs0 bs functionLike :
  Built N D base s bs0 bs → base ≤ scopeCount (store bs0) →
  wellFormed functionLike = true → isFunctionLike functionLike = true →
  height functionLike ≤ S fuel →
  scopeUnder base s sc → is_Some (functionScopeFrom sc) →
  (∀ c, c ∈ forEachChild functionLike → ∀ x, x ∈ subnodes c → N x ∧ D x) →
  returns
    (forEach (propAll FParameters functionLike)
       (λ node, FindScopes.visitParameterDeclaration visitNode functionLike node sc);;
     if isConstructorDeclaration functionLike || isMethodDeclaration functionLike
        || isFunctionDeclaration functionLike || isArrowFunction functionLike
        || isFunctionExpression functionLike || isGetAccessorDeclaration functionLike
        || isSetAccessorDeclaration functionLike
     then
       match prop FBody functionLike with
       | None => mret tt
       | Some body =>
           if isBlock body then
             resultSet body sc;;
             FindScopes.visitAllChildren visitNode body sc
           else visitNode (Some functionLike) body sc
       end
     else mret tt) bs
    (λ _ bs', Built N D base s bs0 bs').
Proof.
  intros Hacc Hbase Hwf Hfl Hh Hu Hfs HNc.
  assert (Hhc : ∀ c, c ∈ forEachChild functionLike → height c ≤ fuel).
  { intros c Hc. pose proof (height_child _ _ Hc). lia. }
  assert (Hsc : sc = s ∨ base ≤ scopeId sc).
  { destruct Hu as [?|[? _]]; [by left|by right]. }
  apply seq_sub.
  { apply (outcome_forEach _ (λ bs', Built N D base s bs0 bs')); [done|].
    intros p bs1 Hp Hacc1. pose proof (propAll_child _ _ _ Hp) as Hpc.
    apply visitParameterDeclaration_sub; try done; [|by apply Hhc|by apply HNc].
    pose proof (wellFormed_node _ _ Hwf (subnodes_self _)) as Hn.
    unfold wellFormedNode in Hn. rewrite Hfl in Hn.
    kind_of Hfl; by eapply forallb_elem_of. }
  intros bs1 Hacc1.
  destruct (_ || _); [|by apply outcome_ret].
  destruct (prop FBody functionLike) as [body|] eqn:Hbody; [|by apply outcome_ret].
  pose proof (prop_child _ _ _ Hbody) as Hbc.
  destruct (isBlock body).
  - apply resultSet_sub; [done| |done|].
    { apply (HNc body Hbc), subnodes_self. }
    intros bs2 Hacc2. apply visitAllChildren_sub; try done.
    + by eapply wellFormed_child.
    + pose proof (height_child _ _ Hbc). lia.
    + intros c Hc x Hx. apply (HNc body Hbc). by eapply subnodes_child.
  - eapply visit_sub; try done; [by apply Hhc|by apply HNc].
Qed.

Lemma visitFunctionLike_sub N D base s bs0 bs functionLike :
  Built N D base s bs0 bs → base ≤ scopeCount (store bs0) →
  wellFormed functionLike = true → isFunctionLike functionLike = true →
  height functionLike ≤ S fuel → is_Some (functionScopeFrom s) →
  (∀ c, c ∈ forEachChild functionLike → ∀ x, x ∈ subnodes c → N x ∧ D x) →
  D functionLike →
  returns (FindScopes.visitFunctionLike visitNode functionLike s) bs
    (λ _ bs', Built N D base s bs0 bs').
Proof.
  intros Hacc Hbase Hwf Hfl Hh Hfs HNc HD.
  assert (Hhc : ∀ c, c ∈ forEachChild functionLike → height c ≤ fuel).
  { intros c Hc. pose proof (height_child _ _ Hc). lia. }
  unfold FindScopes.visitFunctionLike.
  apply seq_sub.
  { eapply outcome_mono.
    { apply (addAllChildren_returns N D base s bs functionLike s); [|by left].
      intros x Hx. apply (HNc x Hx), subnodes_self. }
    intros [] bs1 (B & _). by eapply Built_trans. }
  intros bs1 Hacc1. apply seq_sub.
  { unfold FindScopes.visitOptionalNodes. eapply visitAll_sub; try done; [|by left].
    intros c Hc%propAll_child. split; [done|]. split; [by apply Hhc|by apply HNc]. }
  intros bs2 Hacc2. apply seq_sub.
  { unfold FindScopes.visitOptionalNode.
    destruct (prop FType functionLike) as [ty|] eqn:Hty; [|by apply outcome_ret].
    pose proof (prop_child _ _ _ Hty) as Htc.
    eapply visit_sub; try done; [by apply Hhc|by left|by apply HNc]. }
  intros bs3 Hacc3. apply seq_sub.
  { destruct (prop FName functionLike) as [name|] eqn:Hname; [|by apply outcome_ret].
    pose proof (prop_child _ _ _ Hname) as Hnc.
    apply resultSet_sub; [done| |by left|].
    { apply (HNc name Hnc), subnodes_self. }
    intros bs4 Hacc4. apply seq_sub.
    { eapply outcome_mono.
      { apply (addAllChildren_returns N D base s bs4 name s); [|by left].
        intros x Hx. apply (HNc name Hnc). eapply subnodes_child; [done|apply subnodes_self]. }
      intros [] bs5 (B & _). by eapply Built_trans. }
    intros bs5 Hacc5. destruct (_ && _); [|by apply outcome_ret].
    apply store_sub; [done|]. apply declare_storeBuilt; [done|]. left.
    split; [by left|]. exists name. split; [|done]. apply (HNc name Hnc), subnodes_self. }
  intros bs4 Hacc4.
  apply newChildScope_sub; [done..|].
  intros bs5 Hacc5 Hb5.
  apply functionBody_sub;
    first [done | by right | by apply functionScopeFrom_child].
Qed.

Theorem visitNodeBody_spec : visitSpec (S fuel) (FindScopes.visitNodeBody visitNode).
Proof.
  intros parent node s bs0 Hh Hpre Hfs.
  pose proof (visitable_wellFormed _ _ Hpre) as Hwf.
  pose proof (wellFormed_node node node Hwf (subnodes_self _)) as Hwfn.
  set (N := λ x, ∃ c, c ∈ forEachChild node ∧ x ∈ subnodes c).
  set (D := (.∈ subnodes node)). set (base := scopeCount (store bs0)).
  assert (Hself : D node) by apply subnodes_self.
  assert (HNc : ∀ c, c ∈ forEachChild node → ∀ x, x ∈ subnodes c → N x ∧ D x).
  { intros c Hc x Hx. split; [by exists c|by eapply subnodes_child]. }
  assert (Hhc : ∀ c, c ∈ forEachChild node → height c ≤ fuel).
  { intros c Hc. pose proof (height_child _ _ Hc). lia. }
  unfold FindScopes.visitNodeBody.
  apply outcome_bind, outcome_modify.
  set (bs := mkBuildState (store bs0) (<[nid node := s]> (result bs0))).
  assert (Hfirst : Built D D base s bs0 bs).
  { split; simpl; try done.
    - by left.
    - intros k. destruct (decide (k = nid node)) as [->|Hne].
      + right. exists node, s. rewrite lookup_insert_eq. split_and!; [done..|by left].
      + left. by rewrite lookup_insert_ne.
    - intros i _. exists []. by rewrite app_nil_r.
    - lia. }
  eapply (outcome_mono _ _ _ (λ _ bs', Built N D base s bs bs')); cycle 1.
  { intros [] bs' HB. split.
    - eapply Built_trans; [exact Hfirst|].
      eapply Built_weaken; [exact HB| |done|done|by left].
      intros x (c & Hc & Hx). by eapply subnodes_child.
    - intros Hnd. destruct (built_result _ _ _ _ _ _ HB (nid node)) as [->|Hx].
      + subst bs. simpl. apply lookup_insert_eq.
      + destruct Hx as (x & t & (c & Hc & Hx) & Heq & _).
        exfalso. by eapply (unique_child_nid node c x). }
  assert (Hacc0 : Built N D base s bs bs) by apply Built_refl.
  assert (Hbase : base ≤ scopeCount (store bs)) by done.
  assert (Hdecl : ∀ bs1 decl kind mut name,
    Built N D base s bs bs1 → N name →
    returns (onStore (newBinding decl kind (text name) mut
                        ≫= λ d, addBinding s (text name) d)) bs1
      (λ _ bs', Built N D base s bs bs')).
  { intros bs1 decl kind mut name Hacc1 Hname. apply store_sub; [done|].
    apply declare_storeBuilt; [done|]. left. split; [by left|]. by exists name. }
  match goal with
  | |- outcome ?m bs ?Q ?E =>
      cut (∀ bs1, Built N D base s bs bs1 → outcome m bs1 Q E);
        [intros Hgen; by apply Hgen|]
  end.
  intros bs1 Hacc1.
  destruct (isBlock node) eqn:HBlock.
  { (* a block *)
    apply newChildScope_sub; [done..|]. intros bs2 Hacc2 Hb2.
    destruct parent as [p|]; [|destruct Hpre as (_ & Hb & _); congruence].
    destruct Hpre as [Hp Hc].
    apply outcome_bind, outcome_ret. apply seq_sub.
    - destruct (isCatchClause p) eqn:Hcatch; [|by apply outcome_ret].
      destruct (prop FVariableDeclaration p) as [vd|] eqn:Hvd; [|by apply outcome_ret].
      pose proof (prop_child _ _ _ Hvd) as Hvdc.
      assert (hasName vd = true) as [name Hname]%defined_Some.
      { pose proof (wellFormed_node p p Hp (subnodes_self _)) as Hn.
        unfold wellFormedNode in Hn. kind_of Hcatch. by rewrite Hvd in Hn. }
      pose proof (prop_child _ _ _ Hname) as Hnc.
      rewrite Hname. apply outcome_bind, outcome_ret.
      apply store_sub; [done|]. unfold FindScopes.visitBindingName.
      apply visitBindingName_returns; [done| |by apply functionScopeFrom_child|].
      + apply (wellFormed_child vd name); [|done]. by apply (wellFormed_child p vd).
      + right. simpl. split; [done|by left].
    - intros bs3 Hacc3.
      apply visitAllChildren_sub;
        first [done | by right | by apply functionScopeFrom_child]. }
  destruct (isImportClause node) eqn:HImport.
  { (* an import clause *)
    apply seq_sub.
    { destruct (prop FName node) as [name|] eqn:Hname; [|by apply outcome_ret].
      apply Hdecl; [done|]. apply (HNc name); [by eapply prop_child|apply subnodes_self]. }
    intros bs2 Hacc2. apply seq_sub.
    { destruct (prop FNamedBindings node) as [nb|] eqn:Hnb; [|by apply outcome_ret].
      pose proof (prop_child _ _ _ Hnb) as Hnbc.
      unfold wellFormedNode in Hwfn. kind_of HImport. rewrite Hnb in Hwfn.
      destruct (isNamespaceImport nb).
      - apply defined_Some in Hwfn as [name Hname]. rewrite Hname.
        apply outcome_bind, outcome_ret. apply Hdecl; [done|].
        apply (HNc nb Hnbc). eapply subnodes_child; [by eapply prop_child|apply subnodes_self].
      - apply (outcome_forEach _ (λ bs', Built N D base s bs bs')); [done|].
        intros el bs3 Hel Hacc3.
        assert (hasName el = true) as [name Hname]%defined_Some
          by (by eapply forallb_elem_of).
        rewrite Hname. apply outcome_bind, outcome_ret. apply Hdecl; [done|].
        apply (HNc nb Hnbc). eapply subnodes_child; [by eapply propAll_child|].
        eapply subnodes_child; [by eapply prop_child|apply subnodes_self]. }
    intros bs3 Hacc3. apply visitAllChildren_sub; try done. by left. }
  destruct (isFunctionLike node) eqn:HFunction.
  { by apply visitFunctionLike_sub. }
  destruct (isClassLike node) eqn:HClass.
  { (* a class *)
    apply seq_sub.
    { destruct (prop FName node) as [name|] eqn:Hname; [|by apply outcome_ret].
      apply Hdecl; [done|]. apply (HNc name); [by eapply prop_child|apply subnodes_self]. }
    intros bs2 Hacc2.
    apply newChildScope_sub; [done..|]. intros bs3 Hacc3 Hb3.
    apply seq_sub.
    { apply store_sub; [done|]. apply declare_storeBuilt.
      - by apply functionScopeFrom_child.
      - right. simpl. split; [done|by right]. }
    intros bs4 Hacc4.
    apply visitAllChildren_sub;
      first [done | by right | by apply functionScopeFrom_child]. }
  destruct (isForInStatement node || isForOfStatement node || isForStatement node) eqn:HFor.
  { (* a loop *)
    apply seq_sub.
    { eapply outcome_mono.
      { apply (addAllChildren_returns N D base s bs1 node s); [|by left].
        intros x Hx. apply (HNc x Hx), subnodes_self. }
      intros [] bs2 (B & _). by eapply Built_trans. }
    intros bs2 Hacc2.
    apply newChildScope_sub; [done..|]. intros bs3 Hacc3 Hb3.
    set (forScope := mkScope _ _ _ _).
    assert (Hunder : scopeUnder base s forScope) by (by right).
    assert (Hfsf : is_Some (functionScopeFrom forScope)) by (by apply functionScopeFrom_child).
    assert (Hvisit : ∀ f (sc : Scope) bs4,
      scopeUnder base s sc → is_Some (functionScopeFrom sc) → Built N D base s bs bs4 →
      returns (match prop f node with
               | Some child => visitNode (Some node) child sc
               | None => mret tt
               end) bs4 (λ _ bs', Built N D base s bs bs')).
    { intros f sc bs4 Hu Hf Hacc4.
      destruct (prop f node) as [child|] eqn:Hchild; [|by apply outcome_ret].
      pose proof (prop_child _ _ _ Hchild) as Hcc.
      eapply visit_sub; try done; [by apply Hhc|by apply HNc]. }
    assert (defined (prop FStatement node) = true
            ∧ (isForStatement node = false → defined (prop FExpression node) = true))
      as [Hst Hexpression].
    { unfold wellFormedNode in Hwfn. unfold isForInStatement, isForOfStatement, isForStatement in *.
      destruct (kind node); try discriminate HFor;
        first [by apply andb_true_iff in Hwfn as [? ?] | done]. }
    apply defined_Some in Hst as [statement Hstatement].
    apply seq_sub; [by apply Hvisit|]. intros bs4 Hacc4.
    apply seq_sub.
    { destruct (isForStatement node) eqn:HFS.
      - apply seq_sub; [by apply Hvisit|]. intros bs5 Hacc5. by apply Hvisit.
      - destruct (defined_Some _ (Hexpression eq_refl)) as [expression Hexpr].
        rewrite Hexpr. apply outcome_bind, outcome_ret.
        pose proof (prop_child _ _ _ Hexpr) as Hec.
        eapply visit_sub; try done; [by apply Hhc|by left|by apply HNc]. }
    intros bs5 Hacc5. rewrite Hstatement. apply outcome_bind, outcome_ret.
    pose proof (prop_child _ _ _ Hstatement) as Hsc.
    destruct (isBlock statement).
    - apply resultSet_sub; [done| |by right|].
      { apply (HNc statement Hsc), subnodes_self. }
      intros bs6 Hacc6. apply visitAllChildren_sub; try done.
      + by eapply wellFormed_child.
      + pose proof (height_child _ _ Hsc). lia.
      + intros c Hc x Hx. apply (HNc statement Hsc). by eapply subnodes_child.
    - eapply visit_sub; try done; [by apply Hhc|by apply HNc]. }
  (* a variable declaration, or any other node *)
  apply seq_sub.
  { destruct (isVariableDeclaration node) eqn:HVar; [|by apply outcome_ret].
    destruct parent as [p|]; [|destruct Hpre as (_ & _ & Hv); congruence].
    apply outcome_bind, outcome_ret.
    destruct (isVariableDeclarationList p); [|by apply outcome_ret].
    assert (hasName node = true) as [name Hname]%defined_Some.
    { unfold wellFormedNode in Hwfn. by kind_of HVar. }
    pose proof (prop_child _ _ _ Hname) as Hnc.
    rewrite Hname. apply outcome_bind, outcome_ret.
    apply store_sub; [done|]. unfold FindScopes.visitBindingName.
    apply visitBindingName_returns; [done|by eapply wellFormed_child|done|].
    left. split; [by left|]. by apply HNc. }
  intros bs2 Hacc2. apply visitAllChildren_sub; try done. by left.
Qed.
End BuilderStep.

(** The builder's [visitNode] returns on every well-formed tree, under every
    scope that has a function scope at or above it, and changes the state
    only as [Built] allows. *)
Theorem builder_visitNode_spec fuel : visitSpec fuel (FindScopes.visitNodeFuel fuel).
Proof.
  induction fuel as [|fuel IH].
  - intros parent node s bs Hh. rewrite height_unfold in Hh. lia.
  - simpl. by apply visitNodeBody_spec.
Qed.

Lemma onStore_returns {A} (m : M Store A) (bs : BuildState) (P : A → Store → Prop) :
  returns m (store bs) P →
  returns (onStore m) bs (λ a bs', P a (store bs') ∧ result bs' = result bs).
Proof. intros H. apply outcome_onStore. eapply outcome_mono; [done|]. by intros. Qed.

Lemma returns_unit {S} (m : M S unit) s (Q : S → Prop) :
  returns m s (λ _ s', Q s') → ∃ s', m s = Ok (tt, s') ∧ Q s'.
Proof. intros ([] & s' & ? & ?)%returns_Ok. eauto. Qed.

Lemma ex_comm_unit {S B} (m : M S unit) s (P : S → B → Prop) :
  (∃ s', m s = Ok (tt, s') ∧ ∃ b, P s' b) → ∃ s' b, m s = Ok (tt, s') ∧ P s' b.
Proof. intros (s' & ? & b & ?). eauto. Qed.

(** C9. A named class-like node binds its name through the containing scope
    with an [Immutable] binding of kind [FunctionScope], which is therefore
    stored in the function scope the containing scope hoists to (the
    containing scope itself when that is a function scope); it gets a fresh
    child scope of kind [FunctionScope] whose table holds exactly the
    [Immutable] binding ['this'] when the members are about to be visited,
    and still holds it afterwards unless a node of the class has the text
    ['this'].  A function declaration or function expression named by an
    identifier binds its name with an [Immutable] binding of kind
    [LexicalScope], stored in the containing scope's own table. *)
Theorem class_and_function_names (fuel : nat) (parent : option Node) (node name : Node)
    (scope functionScope : Scope) (bs : BuildState) :
  height node ≤ S fuel → wellFormed node = true → prop FName node = Some name →
  functionScopeFrom scope = Some functionScope →
  scopeId scope < scopeCount (store bs) → scopeId functionScope < scopeCount (store bs) →
  (isClassLike node = true →
     let classScope := mkScope (scopeCount (store bs)) FunctionScope node (Some scope) in
     let this := mkBinding (S (bindingCount (store bs))) node FunctionScope "this" Immutable in
     ∃ bs',
       FindScopes.visitNodeFuel (S fuel) parent node scope bs = Ok (tt, bs')
       ∧ bindings (store bs') functionScope !! text name =
           Some (mkBinding (bindingCount (store bs)) node FunctionScope (text name) Immutable)
       ∧ classScope ∈ childScopes (store bs') scope
       ∧ (∃ bs3, bindings (store bs3) classScope = {[ "this" := this ]}
                 ∧ FindScopes.visitAllChildren (FindScopes.visitNodeFuel fuel) node classScope bs3
                   = Ok (tt, bs'))
       ∧ ((∀ x, x ∈ subnodes node → text x ≠ "this") →
          bindings (store bs') classScope !! "this" = Some this))
  ∧ (isFunctionDeclaration node = true ∨ isFunctionExpression node = true →
     isIdentifier name = true →
     ∃ bs' b,
       FindScopes.visitNodeFuel (S fuel) parent node scope bs = Ok (tt, bs')
       ∧ bindings (store bs') scope !! text name = Some b
       ∧ declaringNode b = node ∧ bindingScopeKind b = LexicalScope
       ∧ mutability b = Immutable ∧ bindingIdentifier b = text name).
Proof.
  intros Hh Hwf Hname Hfs Hscope Hfscope.
  pose proof (builder_visitNode_spec fuel) as IH.
  assert (Hsome : is_Some (functionScopeFrom scope)) by eauto.
  set (N := (.∈ subnodes node)). set (D := (.∈ subnodes node)).
  assert (HN : ∀ c, c ∈ forEachChild node → ∀ x, x ∈ subnodes c → N x ∧ D x).
  { intros c Hc x Hx. split; by eapply subnodes_child. }
  split.
  - intros Hclass classScope this.
    apply returns_unit.
    assert (isBlock node = false ∧ isImportClause node = false ∧ isFunctionLike node = false)
      as (HB & HI & HF).
    { unfold isClassLike, isBlock, isImportClause, isFunctionLike in *.
      by destruct (kind node). }
    rewrite builder_visitNodeFuel_S. unfold FindScopes.visitNodeBody.
    rewrite HB, HI, HF, Hclass, Hname.
    apply outcome_bind, outcome_modify.
    set (bs1 := mkBuildState _ _).
    apply outcome_bind. eapply outcome_mono.
    { apply onStore_returns.
      apply (declare_returns (store bs1) scope node FunctionScope (text name) Immutable).
      by intros _. }
    intros [] bs2 ((Hc2 & Hch2 & Hbc2 & target & Ht & Hb2) & Hr2).
    rewrite Hfs in Ht. injection Ht as <-.
    apply outcome_bind. eapply outcome_mono.
    { apply (newChildScope_returns N D (scopeCount (store bs2)) scope bs2 scope FunctionScope node);
        [apply subnodes_self|done]. }
    intros c bs3 (-> & _ & Hr3 & Hc3 & Hbc3 & Hb3 & Hch3).
    apply outcome_bind. eapply outcome_mono.
    { apply onStore_returns.
      apply (declare_returns (store bs3) _ node FunctionScope "this" Immutable).
      by intros _. }
    intros [] bs4 ((Hc4 & Hch4 & Hbc4 & target & Ht & Hb4) & Hr4).
    simpl in Ht. injection Ht as <-.
    simpl in Hc2, Hbc2, Hb2, Hch2. rewrite Hc2 in *. fold classScope in Hb4, Hch3 |- *.
    assert (Hthis : bindings (store bs4) classScope = {[ "this" := this ]}).
    { unfold bindings. rewrite Hb4, Hb3. simpl. rewrite !lookup_total_insert_eq.
      subst this. rewrite Hbc3, Hbc2. by rewrite insert_empty. }
    assert (Hcls : bindings (store bs4) functionScope !! text name =
                   Some (mkBinding (bindingCount (store bs)) node FunctionScope (text name) Immutable)).
    { unfold bindings. rewrite Hb4, Hb3, Hb2. simpl.
      rewrite !(lookup_total_insert_ne _ (scopeCount (store bs))) by lia.
      rewrite lookup_total_insert_eq. apply lookup_insert_eq. }
    assert (Hchild : classScope ∈ childScopes (store bs4) scope).
    { unfold childScopes. rewrite Hch4, Hch3. rewrite lookup_total_insert_eq.
      apply elem_of_app. right. by left. }
    assert (Hall : returns
      (FindScopes.visitAllChildren (FindScopes.visitNodeFuel fuel) node classScope) bs4
      (λ _ bs', Built N D (S (scopeCount (store bs))) classScope bs4 bs')).
    { apply (visitAllChildren_sub fuel _ IH); try done.
      - apply Built_refl.
      - lia.
      - by left. }
    apply returns_unit in Hall as (bs' & Hrun & HB').
    unfold outcome. rewrite Hrun.
    assert (Hkeep : ∀ i k, i < S (scopeCount (store bs)) →
              (i = scopeCount (store bs) → ∀ x, x ∈ subnodes node → k ≠ text x) →
              (bindingsOf (store bs') !!! i) !! k = (bindingsOf (store bs4) !!! i) !! k).
    { intros i k Hi Hk. destruct (built_bindings _ _ _ _ _ _ HB' i k Hi) as [?|[Ht (x & Hx & ->)]];
        [done|].
      exfalso. destruct Ht as [->|[= <-]]; by eapply Hk. }
    split.
    { rewrite <- Hcls. unfold bindings. apply Hkeep; lia. }
    split.
    { destruct (built_children_old _ _ _ _ _ _ HB' (scopeId scope)) as (new & Hnew & _); [lia|].
      unfold childScopes in *. rewrite Hnew. apply elem_of_app. by left. }
    split; [by exists bs4|].
    intros Hno. rewrite <- (lookup_singleton_eq "this" this), <- Hthis.
    unfold bindings. apply Hkeep; [simpl; lia|].
    intros _ x Hx Heq. by eapply Hno.
  - intros Hkind Hid. apply ex_comm_unit.
    assert (isBlock node = false ∧ isImportClause node = false ∧ isFunctionLike node = true)
      as (HB & HI & HF).
    { unfold isFunctionDeclaration, isFunctionExpression, isBlock, isImportClause,
        isFunctionLike in *. destruct (kind node); destruct Hkind; done. }
    assert (Hcond : (isFunctionDeclaration node || isFunctionExpression node)
                    && isIdentifier name = true).
    { rewrite Hid, andb_true_r. apply orb_true_iff. done. }
    assert (Hhc : ∀ c, c ∈ forEachChild node → height c ≤ fuel).
    { intros c Hc. pose proof (height_child _ _ Hc). lia. }
    pose proof (prop_child _ _ _ Hname) as Hnc.
    set (base := scopeCount (store bs)).
    apply returns_unit.
    rewrite builder_visitNodeFuel_S. unfold FindScopes.visitNodeBody.
    rewrite HB, HI, HF. unfold FindScopes.visitFunctionLike. rewrite Hname, Hcond.
    apply outcome_bind. eapply outcome_mono.
    { apply (resultSet_returns N D base scope bs node scope); [apply subnodes_self|by left]. }
    intros [] bs1 (B1 & _).
    apply outcome_bind. eapply outcome_mono.
    { apply (addAllChildren_returns N D base scope bs1 node scope); [|by left].
      intros x Hx. apply (HN x Hx), subnodes_self. }
    intros [] bs2 (B2 & _). pose proof (Built_trans _ _ _ _ _ _ _ B1 B2) as A2.
    apply outcome_bind. eapply outcome_mono.
    { unfold FindScopes.visitOptionalNodes.
      apply (visitAll_sub fuel _ IH N D base scope scope bs bs2 node); try done; [|by left].
      intros c Hc%propAll_child. split; [done|]. split; [by apply Hhc|by apply HN]. }
    intros [] bs3 A3.
    apply outcome_bind. eapply outcome_mono.
    { unfold FindScopes.visitOptionalNode.
      instantiate (1 := λ _ bs', Built N D base scope bs bs').
      destruct (prop FType node) as [ty|] eqn:Hty; [|by apply outcome_ret].
      pose proof (prop_child _ _ _ Hty) as Htc.
      eapply (visit_sub fuel _ IH); try done; [by apply Hhc|by left|by apply HN]. }
    intros [] bs4 A4.
    apply outcome_bind. apply outcome_bind. eapply outcome_mono.
    { apply (resultSet_returns N D base scope bs4 name scope); [|by left].
      apply (HN name Hnc), subnodes_self. }
    intros [] bs5 (B5 & _). pose proof (Built_trans _ _ _ _ _ _ _ A4 B5) as A5.
    apply outcome_bind. eapply outcome_mono.
    { apply (addAllChildren_returns N D base scope bs5 name scope); [|by left].
      intros x Hx. apply (HN name Hnc). eapply subnodes_child; [done|apply subnodes_self]. }
    intros [] bs6 (B6 & _). pose proof (Built_trans _ _ _ _ _ _ _ A5 B6) as A6.
    eapply outcome_mono.
    { apply onStore_returns.
      apply (declare_returns (store bs6) scope node LexicalScope (text name) Immutable).
      by intros _. }
    intros [] bs7 ((Hc7 & Hch7 & Hbc7 & target & -> & Hb7) & Hr7).
    apply outcome_bind. eapply outcome_mono.
    { apply (newChildScope_returns N D (scopeCount (store bs7)) scope bs7 scope FunctionScope node);
        [apply subnodes_self|done]. }
    intros c bs8 (-> & _ & Hr8 & Hc8 & Hbc8 & Hb8 & Hch8).
    set (c := mkScope _ _ _ _).
    assert (Hcount : base ≤ scopeCount (store bs7)).
    { destruct A6. unfold base. lia. }
    eapply outcome_mono.
    { apply (functionBody_sub fuel _ IH N D (S (scopeCount (store bs7))) c c bs8 bs8 node);
        try done.
      - apply Built_refl.
      - lia.
      - by left. }
    intros [] bs' HB'.
    exists (mkBinding (bindingCount (store bs6)) node LexicalScope (text name) Immutable).
    split; [|done]. unfold bindings.
    destruct (built_bindings _ _ _ _ _ _ HB' (scopeId scope) (text name)) as [->|[Ht _]].
    + unfold base in *. lia.
    + rewrite Hb8, Hb7. rewrite lookup_total_insert_ne by (unfold base in *; lia).
      rewrite lookup_total_insert_eq. apply lookup_insert_eq.
    + exfalso. unfold base in *. destruct Ht as [Ht|[= Ht]]; simpl in Ht; lia.
Qed.

Lemma scopesAdded_refl P st : scopesAdded P st st.
Proof.
  split; [done|]. split.
  - intros i _. exists []. by rewrite app_nil_r.
  - lia.
Qed.

Lemma scopesAdded_trans P st1 st2 st3 :
  scopesAdded P st1 st2 → scopesAdded P st2 st3 → scopesAdded P st1 st3.
Proof.
  intros (c1 & o1 & n1) (c2 & o2 & n2). split; [lia|]. split.
  - intros i Hi. destruct (o1 i Hi) as (new1 & E1 & F1).
    destruct (o2 i) as (new2 & E2 & F2); [lia|].
    exists (new1 ++ new2). rewrite E2, E1, app_assoc. split; [done|]. by apply Forall_app.
  - intros i Hlo Hhi. destruct (decide (i < scopeCount st2)) as [Hlt|Hge].
    + destruct (o2 i Hlt) as (new2 & -> & F2). apply Forall_app. split; [|done]. by apply n1.
    + apply n2; [lia|done].
Qed.

Lemma Built_scopesAdded N D base s bs bs' (P : Scope → Prop) :
  Built N D base s bs bs' → (∀ t, D (declaratingNode t) → base ≤ scopeId t → P t) →
  scopesAdded P (store bs) (store bs').
Proof.
  intros [c _ _ o n] HP.
  assert (Hcr : ∀ l, Forall (created D base) l → Forall P l).
  { intros l Hl. eapply Forall_impl; [done|]. intros t [? ?]. by apply HP. }
  split; [done|]. split.
  - intros i Hi. destruct (o i Hi) as (new & E & F). exists new. auto.
  - intros i Hlo Hhi. auto.
Qed.

(** ** Reference Resolver: what a visit records *)

Lemma recorded_refl P st : recorded P st st.
Proof. repeat split; try done. intros i. exists []. by rewrite app_nil_r. Qed.

Lemma recorded_trans P st1 st2 st3 :
  recorded P st1 st2 → recorded P st2 st3 → recorded P st1 st3.
Proof.
  intros (b1 & c1 & s1 & n1 & r1) (b2 & c2 & s2 & n2 & r2).
  repeat split; try congruence.
  intros i. destruct (r1 i) as (new1 & E1 & F1). destruct (r2 i) as (new2 & E2 & F2).
  exists (new1 ++ new2). rewrite E2, E1, app_assoc. split; [done|]. by apply Forall_app.
Qed.

Lemma recorded_mono (P Q : Node → Prop) st st' :
  recorded P st st' → (∀ x, P x → Q x) → recorded Q st st'.
Proof.
  intros (b & c & s & n & r) HPQ. repeat split; try done.
  intros i. destruct (r i) as (new & E & F). exists new. split; [done|].
  eapply Forall_impl; [done|]. auto.
Qed.

Lemma addReference_recorded (P : Node → Prop) E this node writeExpr isInitializer st :
  P node →
  outcome (addReference this node writeExpr isInitializer) st
    (λ _ st', recorded P st st') E.
Proof.
  intros HP. destruct (addReference_effect this node writeExpr isInitializer st)
    as (st' & Hrun & Hrefs & _ & Hb & Hc & Hs & Hn).
  unfold outcome. rewrite Hrun. repeat split; try done.
  intros i. rewrite Hrefs. destruct (decide (scopeId this = i)) as [<-|Hne].
  - rewrite lookup_total_insert_eq. eexists. split; [done|]. by apply Forall_singleton.
  - rewrite lookup_total_insert_ne by done. exists []. by rewrite app_nil_r.
Qed.

Lemma unique_children node c1 c2 x y :
  NoDup (nodeIds node) → c1 ∈ forEachChild node → c2 ∈ forEachChild node →
  x ∈ subnodes c1 → y ∈ subnodes c2 → nid x = nid y → c1 = c2.
Proof.
  intros Hnd [i Hi]%list_elem_of_lookup_1 [j Hj]%list_elem_of_lookup_1 Hx Hy Heq.
  assert (i = j) as -> by (by eapply unique_siblings). congruence.
Qed.

Lemma patternTarget_subnodes n t : patternTarget n t → t ∈ subnodes n.
Proof.
  induction 1 as [name _|element name t _ Hname _ IH|pattern element t _ Hel _ _ IH].
  - apply subnodes_self.
  - eapply subnodes_child; [by eapply prop_child|done].
  - eapply subnodes_child; [by eapply propAll_child|done].
Qed.

Lemma patternTarget_inv n t :
  patternTarget n t →
  (isIdentifier n = true ∧ t = n)
  ∨ (isBindingElement n = true ∧ ∃ name, prop FName n = Some name ∧ patternTarget name t)
  ∨ (isObjectBindingPattern n || isArrayBindingPattern n = true
     ∧ ∃ element, element ∈ propAll FElements n ∧ patternTarget element t).
Proof. destruct 1; eauto 10. Qed.

(** A target of a parameter of the tree [node] is strictly below [node]. *)
Lemma parameterTarget_inv node t :
  parameterTarget node t →
  (isParameter node = true ∧ ∃ name, prop FName node = Some name ∧ patternTarget name t)
  ∨ ∃ child, child ∈ forEachChild node ∧ parameterTarget child t.
Proof.
  intros (p & name & Hp & Hpar & Hname & Ht).
  apply subnodes_inv in Hp as [->|(c & Hc & Hp)]; [left; eauto|].
  right. exists c. split; [done|]. by exists p, name.
Qed.

Lemma parameterTarget_below node t :
  parameterTarget node t → ∃ child, child ∈ forEachChild node ∧ t ∈ subnodes child.
Proof.
  intros (p & name & Hp & _ & Hname & Ht%patternTarget_subnodes).
  pose proof (prop_child _ _ _ Hname) as Hnc.
  apply subnodes_inv in Hp as [->|(c & Hc & Hp)].
  - by exists name.
  - exists c. split; [done|]. eapply subnodes_trans; [done|]. by eapply subnodes_child.
Qed.

Lemma parameterTarget_nid node t : NoDup (nodeIds node) → parameterTarget node t → nid t ≠ nid node.
Proof.
  intros Hnd (c & Hc & Ht)%parameterTarget_below. by eapply unique_child_nid.
Qed.

(** What a visit of a child may record, the visit of the node may record. *)
Lemma recordable_child node collect child c' x :
  NoDup (nodeIds node) → child ∈ forEachChild node → isParameter node = false →
  (collect = false →
     c' = false ∨ (isBindingElement node = false ∧ isObjectBindingPattern node = false
                   ∧ isArrayBindingPattern node = false)) →
  recordable (One child) c' x → recordable (One node) collect x.
Proof.
  intros Hnd Hc Hpar Hflag [Hx Hok]. split; [by eapply subnodes_child|].
  intros [(t & Ht & Heq)|(-> & t & Ht & Heq)].
  - apply parameterTarget_inv in Ht as [[Hp _]|(c2 & Hc2 & Ht)]; [congruence|].
    destruct (parameterTarget_below _ _ Ht) as (c3 & Hc3 & Ht3).
    assert (c2 = child) as ->.
    { eapply (unique_children node c2 child t x); try done. by eapply subnodes_child. }
    apply Hok. left. eauto.
  - apply patternTarget_inv in Ht
      as [[Hid ->]|[(Hbe & name & Hname & Ht')|(Hpat & element & Hel & Ht')]].
    + symmetry in Heq. by eapply (unique_child_nid node child x).
    + destruct (Hflag eq_refl) as [->|(? & _)]; [|congruence].
      pose proof (prop_child _ _ _ Hname) as Hnc.
      assert (name = child) as ->.
      { eapply (unique_children node name child t x); try done.
        by apply patternTarget_subnodes. }
      apply Hok. right. eauto.
    + destruct (Hflag eq_refl) as [->|(_ & Ho & Ha)];
        [|rewrite Ho, Ha in Hpat; discriminate].
      pose proof (propAll_child _ _ _ Hel) as Hec.
      assert (element = child) as ->.
      { eapply (unique_children node element child t x); try done.
        by apply patternTarget_subnodes. }
      apply Hok. right. eauto.
Qed.

(** The same for the two children a parameter is visited through. *)
Lemma recordable_parameter node collect child f c' x :
  NoDup (nodeIds node) → isParameter node = true → prop f node = Some child →
  (f = FName ∧ c' = false) ∨ f ≠ FName →
  recordable (One child) c' x → recordable (One node) collect x.
Proof.
  intros Hnd Hpar Hchild Hf [Hx Hok].
  pose proof (prop_child _ _ _ Hchild) as Hc.
  split; [by eapply subnodes_child|].
  intros [(t & Ht & Heq)|(-> & t & Ht & Heq)].
  - apply parameterTarget_inv in Ht as [[_ (name & Hname & Ht)]|(c2 & Hc2 & Ht)].
    + pose proof (patternTarget_subnodes _ _ Ht) as Hsub.
      destruct Hf as [[-> ->]|Hne].
      * rewrite Hname in Hchild. injection Hchild as ->. apply Hok. right. eauto.
      * by eapply (unique_props node FName f name child t x).
    + destruct (parameterTarget_below _ _ Ht) as (c3 & Hc3 & Ht3).
      assert (c2 = child) as ->.
      { eapply (unique_children node c2 child t x); try done. by eapply subnodes_child. }
      apply Hok. left. eauto.
  - unfold isParameter in Hpar.
    apply patternTarget_inv in Ht as [[Hk _]|[(Hk & _)|(Hk & _)]];
      unfold isIdentifier, isBindingElement, isObjectBindingPattern,
        isArrayBindingPattern in *; by destruct (kind node).
Qed.

(** A node that is visited as a read site may itself be recorded. *)
Lemma recordable_self node : NoDup (nodeIds node) → recordable (One node) true node.
Proof.
  intros Hnd. split; [apply subnodes_self|].
  intros [(t & Ht & Heq)|[[=] _]]. by eapply parameterTarget_nid.
Qed.

Section ResolverStep.
Variable scopesMap : gmap nat Scope.
Variable fuel : nat.
Variable visitNode : Visitable → bool → option Node → M Store unit.
Hypothesis IH : resolverSpec fuel visitNode.

Lemma recorded_seq P st0 st (m k : M Store unit) :
  mayThrow m st (λ _ st', recorded P st0 st') →
  (∀ st1, recorded P st0 st1 → mayThrow k st1 (λ _ st', recorded P st0 st')) →
  mayThrow (m;; k) st (λ _ st', recorded P st0 st').
Proof.
  clear IH. intros Hm Hk. apply outcome_bind. eapply outcome_mono; [done|].
  intros [] st1 H1. by apply Hk.
Qed.

Lemma getScope_mayThrow node st (Q : Scope → Store → Prop) :
  (∀ scope, Q scope st) → mayThrow (AssignReferences.getScope scopesMap node) st Q.
Proof.
  clear IH. intros HQ. unfold AssignReferences.getScope.
  destruct (scopesMap !! nid node); [apply outcome_ret, HQ|done].
Qed.

Lemma required_mayThrow {A} (o : option A) (st : Store) (Q : A → Store → Prop) :
  (∀ a, o = Some a → Q a st) → mayThrow (required o) st Q.
Proof. clear IH. intros HQ. destruct o; [by apply outcome_ret, HQ|done]. Qed.

Section Node.
Variables (node : Node) (collect : bool).
Hypothesis Hnd : NoDup (nodeIds node).
Hypothesis Hfuel : 3 * height node ≤ fuel.

Let P := recordable (One node) collect.

Lemma sub_visit child c' init st0 st :
  recorded P st0 st → child ∈ forEachChild node →
  (∀ x, recordable (One child) c' x → P x) →
  mayThrow (visitNode (One child) c' init) st (λ _ st', recorded P st0 st').
Proof.
  intros Hacc Hc Hlift. eapply outcome_mono.
  - apply IH.
    + pose proof (height_child _ _ Hc). unfold weight. destruct c'; lia.
    + simpl. by eapply unique_child.
  - intros [] st' Hrec. eapply recorded_trans; [done|]. by eapply recorded_mono.
Qed.

Lemma sub_many (l : list Node) c' init st0 st :
  recorded P st0 st → (∀ child, child ∈ l → child ∈ forEachChild node) →
  (∀ child x, child ∈ l → recordable (One child) c' x → P x) →
  mayThrow (visitNode (Many l) c' init) st (λ _ st', recorded P st0 st').
Proof.
  intros Hacc Hl Hlift. eapply outcome_mono.
  - apply IH.
    + unfold weight. assert (max_list (height <$> l) < height node); [|lia].
      clear Hlift. induction l as [|c l' IHl]; simpl.
      * rewrite height_unfold. lia.
      * apply Nat.max_lub_lt.
        -- apply height_child, Hl. by left.
        -- apply IHl. intros ? ?. apply Hl. by right.
    + simpl. intros c Hc. eapply unique_child; [done|]. by apply Hl.
  - intros [] st' Hrec. eapply recorded_trans; [done|].
    eapply recorded_mono; [done|]. intros x (c & Hc & Hx). by eapply Hlift.
Qed.

Section Plain.
(** Every node but a parameter: what its children record, it records,
    provided binding patterns pass on that they do not collect. *)
Hypothesis Hpar : isParameter node = false.

Lemma sub_optional f c' init st0 st :
  recorded P st0 st →
  (collect = false →
     c' = false ∨ (isBindingElement node = false ∧ isObjectBindingPattern node = false
                   ∧ isArrayBindingPattern node = false)) →
  mayThrow (visitNode (optional (prop f node)) c' init) st
    (λ _ st', recorded P st0 st').
Proof.
  intros Hacc Hflag. destruct (prop f node) as [child|] eqn:Hchild; simpl.
  - pose proof (prop_child _ _ _ Hchild) as Hc.
    apply sub_visit; [done..|]. intros x. by apply recordable_child.
  - eapply outcome_mono.
    + apply IH; [pose proof (height_unfold node); unfold weight; lia|done].
    + intros [] st' Hrec. eapply recorded_trans; [done|].
      eapply recorded_mono; [done|]. by intros x [].
Qed.

Lemma sub_array f c' init st0 st :
  recorded P st0 st →
  (collect = false →
     c' = false ∨ (isBindingElement node = false ∧ isObjectBindingPattern node = false
                   ∧ isArrayBindingPattern node = false)) →
  mayThrow (visitNode (Many (propAll f node)) c' init) st
    (λ _ st', recorded P st0 st').
Proof.
  intros Hacc Hflag. apply sub_many; [done| |].
  - intros child. apply propAll_child.
  - intros child x Hc%propAll_child. by apply recordable_child.
Qed.

Lemma sub_one child c' init st0 st :
  recorded P st0 st → child ∈ forEachChild node →
  (collect = false →
     c' = false ∨ (isBindingElement node = false ∧ isObjectBindingPattern node = false
                   ∧ isArrayBindingPattern node = false)) →
  mayThrow (visitNode (One child) c' init) st (λ _ st', recorded P st0 st').
Proof.
  intros Hacc Hc Hflag. apply sub_visit; [done..|]. intros x. by apply recordable_child.
Qed.
End Plain.

Section OfParameter.
(** A parameter: its name is visited without collecting. *)
Hypothesis Hpar : isParameter node = true.

Lemma sub_optional_parameter f c' init st0 st :
  recorded P st0 st → (f = FName ∧ c' = false) ∨ f ≠ FName →
  mayThrow (visitNode (optional (prop f node)) c' init) st
    (λ _ st', recorded P st0 st').
Proof.
  intros Hacc Hf. destruct (prop f node) as [child|] eqn:Hchild; simpl.
  - pose proof (prop_child _ _ _ Hchild) as Hc.
    apply sub_visit; [done..|]. intros x. by apply (recordable_parameter _ _ _ f).
  - eapply outcome_mono.
    + apply IH; [pose proof (height_unfold node); unfold weight; lia|done].
    + intros [] st' Hrec. eapply recorded_trans; [done|].
      eapply recorded_mono; [done|]. by intros x [].
Qed.
End OfParameter.
End Node.

Ltac special_kind H node :=
  assert (isParameter node = false ∧ isBindingElement node = false
          ∧ isObjectBindingPattern node = false ∧ isArrayBindingPattern node = false)
    as (Hpar & Hplain)
    by (revert H;
        unfold isParameter, isBindingElement, isObjectBindingPattern, isArrayBindingPattern,
          isVariableDeclaration, isExpressionStatement, isBinaryExpression,
          isReturnStatement, isThrowStatement, isPropertyAccessExpression,
          isElementAccessExpression, isCallExpression, isArrowFunction, isFunctionLike,
          isIfStatement, isForInStatement, isForOfStatement, isForStatement,
          isWhileStatement, isSwitchStatement, isCaseClause, isJsxOpeningElement,
          isJsxClosingElement, isJsxSelfClosingElement, isJsxExpression, isJsxAttribute,
          isJsxSpreadAttribute, isPropertyAssignment, isComputedPropertyName;
        destruct (kind node); done).

Theorem visitNodeBody_resolverSpec :
  resolverSpec (S fuel) (AssignReferences.visitNodeBody scopesMap visitNode).
Proof.
  intros v collect init st Hw Hu. destruct v as [|node|nodes]; simpl in Hu.
  { apply outcome_ret, recorded_refl. }
  2: { (* an array of nodes *)
    simpl. apply (outcome_forEach _ (λ st', recorded (recordable (Many nodes) collect) st st')).
    { apply recorded_refl. }
    intros n st1 Hn Hacc1. eapply outcome_mono.
    - apply IH; [|by apply Hu]. unfold weight in *.
      assert (height n ≤ max_list (height <$> nodes)).
      { apply max_list_elem_of_le. by apply list_elem_of_fmap_2. }
      destruct collect; lia.
    - intros [] st2 Hrec. eapply recorded_trans; [done|].
      eapply recorded_mono; [done|]. intros x Hx. by exists n. }
  assert (Hfuel : 3 * height node ≤ fuel) by (unfold weight in Hw; destruct collect; lia).
  set (P := recordable (One node) collect).
  pose proof (recorded_refl P st) as Hacc.
  assert (Hopt : ∀ f c' i st1, isParameter node = false →
    isBindingElement node = false ∧ isObjectBindingPattern node = false
      ∧ isArrayBindingPattern node = false →
    recorded P st st1 →
    mayThrow (visitNode (optional (prop f node)) c' i) st1 (λ _ st', recorded P st st')).
  { intros f c' i st1 Hpar Hplain Hacc1. apply sub_optional; try done. by right. }
  assert (Harr : ∀ f c' i st1, isParameter node = false →
    isBindingElement node = false ∧ isObjectBindingPattern node = false
      ∧ isArrayBindingPattern node = false →
    recorded P st st1 →
    mayThrow (visitNode (Many (propAll f node)) c' i) st1 (λ _ st', recorded P st st')).
  { intros f c' i st1 Hpar Hplain Hacc1. apply sub_array; try done. by right. }
  unfold AssignReferences.visitNodeBody.
  destruct (isTypeNode node) eqn:HType; [by apply outcome_ret|].
  destruct (isIdentifier node && collect) eqn:HIdent.
  { apply andb_true_iff in HIdent as [Hid ->].
    apply outcome_bind, getScope_mayThrow. intros scope.
    destruct (String.eqb _ _); [by apply outcome_ret|].
    destruct init; apply addReference_recorded; by apply recordable_self. }
  destruct (isVariableDeclaration node) eqn:HVar.
  { special_kind HVar node. apply recorded_seq; [|by auto].
    destruct (prop FInitializer node) as [i|] eqn:Hi; [|by apply outcome_ret].
    apply sub_one; try done; [by eapply prop_child|by right]. }
  destruct (isExpressionStatement node) eqn:HExpr.
  { special_kind HExpr node. by auto. }
  destruct (isBinaryExpression node && _) eqn:HBin.
  { apply andb_true_iff in HBin as [HBin _]. special_kind HBin node.
    apply outcome_bind, required_mayThrow. intros left Hleft.
    pose proof (prop_child _ _ _ Hleft) as Hlc.
    apply recorded_seq; [|by auto].
    destruct (isIdentifier left).
    - apply outcome_bind, getScope_mayThrow. intros scope.
      apply addReference_recorded.
      apply (recordable_child node collect left true); try done; [by right|].
      apply recordable_self. by eapply unique_child.
    - apply sub_one; try done. by right. }
  destruct (isReturnStatement node) eqn:HRet.
  { special_kind HRet node. by auto. }
  destruct (isThrowStatement node) eqn:HThrow.
  { special_kind HThrow node. by auto. }
  destruct (isPropertyAccessExpression node) eqn:HPA.
  { special_kind HPA node. apply recorded_seq; by auto. }
  destruct (isElementAccessExpression node) eqn:HEA.
  { special_kind HEA node. apply recorded_seq; by auto. }
  destruct (isCallExpression node) eqn:HCall.
  { special_kind HCall node. apply recorded_seq; by auto. }
  destruct (isArrowFunction node) eqn:HArrow.
  { special_kind HArrow node. apply recorded_seq; [by auto|]. intros st1 Hacc1.
    apply outcome_bind, required_mayThrow. intros body Hbody.
    apply sub_one; try done; [by eapply prop_child|by right]. }
  destruct (isFunctionLike node && collect) eqn:HFun.
  { apply andb_true_iff in HFun as [_ ->]. eapply outcome_mono.
    - apply IH; [unfold weight in *; lia|done].
    - intros [] st' Hrec. eapply recorded_mono; [done|].
      intros x [Hx Hok]. split; [done|]. intros [?|[[=] _]]. apply Hok. by left. }
  destruct (isParameter node) eqn:HParam.
  { apply recorded_seq.
    - apply sub_optional_parameter; try done. by left.
    - intros st1 Hacc1. apply sub_optional_parameter; try done. by right. }
  destruct (isIfStatement node) eqn:HIf.
  { special_kind HIf node. apply recorded_seq; [by auto|]. intros st1 Hacc1.
    apply recorded_seq; by auto. }
  destruct (isForInStatement node || isForOfStatement node) eqn:HForIn.
  { assert (isParameter node = false ∧ isBindingElement node = false
            ∧ isObjectBindingPattern node = false ∧ isArrayBindingPattern node = false)
      as (Hpar & Hplain).
    { revert HForIn. unfold isForInStatement, isForOfStatement, isParameter,
        isBindingElement, isObjectBindingPattern, isArrayBindingPattern.
      destruct (kind node); done. }
    apply recorded_seq; [by auto|]. intros st1 Hacc1. apply recorded_seq; by auto. }
  destruct (isForStatement node) eqn:HForS.
  { special_kind HForS node. apply recorded_seq; [by auto|]. intros st1 Hacc1.
    apply recorded_seq; [by auto|]. intros st2 Hacc2. apply recorded_seq; by auto. }
  destruct (isWhileStatement node) eqn:HWhile.
  { special_kind HWhile node. apply recorded_seq; by auto. }
  destruct (isSwitchStatement node) eqn:HSwitch.
  { special_kind HSwitch node. apply recorded_seq; by auto. }
  destruct (isCaseClause node) eqn:HCase.
  { special_kind HCase node. apply recorded_seq; by auto. }
  destruct (isJsxOpeningElement node) eqn:HJO.
  { special_kind HJO node. apply recorded_seq; by auto. }
  destruct (isJsxClosingElement node) eqn:HJC.
  { special_kind HJC node. by auto. }
  destruct (isJsxSelfClosingElement node) eqn:HJS.
  { special_kind HJS node. apply recorded_seq; by auto. }
  destruct (isJsxExpression node) eqn:HJE.
  { special_kind HJE node. by auto. }
  destruct (isJsxAttribute node) eqn:HJA.
  { special_kind HJA node. apply recorded_seq; by auto. }
  destruct (isJsxSpreadAttribute node) eqn:HJSA.
  { special_kind HJSA node. by auto. }
  destruct (isPropertyAssignment node) eqn:HPAs.
  { special_kind HPAs node. apply recorded_seq; by auto. }
  destruct (isComputedPropertyName node) eqn:HCPN.
  { special_kind HCPN node. by auto. }
  (* any other node: its children, collecting as the node does *)
  apply (outcome_forEach _ (λ st', recorded P st st')); [done|].
  intros child st1 Hc Hacc1. apply sub_one; try done. intros ->. by left.
Qed.
End ResolverStep.

(** The resolver's [visitNode] does not run out of fuel, and records only
    what [recordable] allows. *)
Theorem resolver_visitNode_spec scopesMap fuel :
  resolverSpec fuel (AssignReferences.visitNodeFuel scopesMap fuel).
Proof.
  induction fuel as [|fuel IH].
  - intros v c i st Hw. lia.
  - simpl. by apply visitNodeBody_resolverSpec.
Qed.

(** ** Binding targets and the resolver *)

(** C5 (amended). Pass 2 over a source file whose nodes are distinct objects
    does not run out of fuel, and when it returns, no reference appended to
    the list of any scope has as its identifier a target of a parameter
    declaration's name (the name itself when it is an identifier, the
    identifiers a destructuring pattern binds otherwise).  In particular,
    from a store without references, no list holds a reference for such a
    target.  (Nothing is said of the targets of a variable declaration's
    pattern.) *)
Theorem parameter_targets_not_recorded (scopesMap : gmap nat Scope)
    (sourceFile : Node) (st : Store) :
  NoDup (nodeIds sourceFile) →
  assignReferences scopesMap sourceFile st ≠ OutOfFuel
  ∧ ∀ st', assignReferences scopesMap sourceFile st = Ok (tt, st') →
      ∀ parameter name target,
        parameter ∈ subnodes sourceFile → isParameter parameter = true →
        prop FName parameter = Some name → patternTarget name target →
        (∀ s, ∃ new, references st' s = references st s ++ new
                     ∧ Forall (λ r, nid (identifier r) ≠ nid target) new)
        ∧ ((∀ s, references st s = []) →
           ∀ s r, r ∈ references st' s → identifier r ≠ target).
Proof.
  intros Hnd.
  pose proof (resolver_visitNode_spec scopesMap (3 * height sourceFile + 2)
                (One sourceFile) false None st) as Hspec.
  unfold mayThrow, outcome in Hspec.
  unfold assignReferences, AssignReferences.visitNode.
  destruct (AssignReferences.visitNodeFuel _ _ _ _ _ st) as [[[] st1]|e|].
  - split; [done|]. intros st' [= <-] parameter name target Hin Hpar Hname Htarget.
    destruct Hspec as (_ & _ & _ & _ & Hrefs); [unfold weight; lia|done|].
    assert (Hnew : ∀ s, ∃ new, references st1 s = references st s ++ new
                     ∧ Forall (λ r, nid (identifier r) ≠ nid target) new).
    { intros s. destruct (Hrefs (scopeId s)) as (new & Hnew & Hall).
      exists new. split; [done|]. eapply Forall_impl; [done|].
      intros r [_ Hnot] Heq. apply Hnot. left. exists target. split; [|done].
      by exists parameter, name. }
    split; [done|]. intros Hempty s r Hr Heq.
    destruct (Hnew s) as (new & Hs & Hall). rewrite Hs, Hempty in Hr.
    rewrite Forall_forall in Hall. apply (Hall _ Hr). by rewrite Heq.
  - done.
  - exfalso. apply Hspec; [unfold weight; lia|done].
Qed.

(** ** The properties at the example programs *)

Import Examples.

(** Membership in a list that computes. *)
Ltac in_list :=
  vm_compute; repeat first [apply list_elem_of_here | apply list_elem_of_further].
Ltac first_element :=
  eapply target_pattern;
    [reflexivity | cbv; apply list_elem_of_here | reflexivity
    | eapply target_element; [reflexivity | reflexivity |]].
Ltac second_element :=
  eapply target_pattern;
    [reflexivity | cbv; apply list_elem_of_further, list_elem_of_here | reflexivity
    | eapply target_element; [reflexivity | reflexivity |]].
Ltac by_decision := apply (bool_decide_unpack _); vm_compute; exact I.

Lemma addBinding_placement_witness :
  addBinding blockScope "v" var_v emptyStore
  = Ok (tt, setBinding functionScope "v" var_v emptyStore).
Proof.
  destruct (addBinding_placement blockScope "v" var_v emptyStore) as (_ & Hfunction & _).
  apply Hfunction; [reflexivity|].
  exists 1. split; [reflexivity|]. split; [reflexivity|].
  intros j U Hj HU. assert (j = 0) as -> by lia.
  injection HU as <-. discriminate.
Defined.

Lemma variableDeclaration_references_witness :
  ∃ st',
    AssignReferences.visitNodeFuel (built const_a_b).1 2 (One decl_const_a_b) false None
      (built const_a_b).2 = Ok (tt, st')
    ∧ references st' (rootOf const_a_b) =
        [ mkReference b_of_const_a_b None (rootOf const_a_b) None false;
          mkReference a_of_const_a_b
            (Some (mkBinding 0 decl_const_a_b LexicalScope "a" Immutable, rootOf const_a_b))
            (rootOf const_a_b) (Some b_of_const_a_b) true ].
Proof.
  destruct (variableDeclaration_references (built const_a_b).1 0 decl_const_a_b
              a_of_const_a_b b_of_const_a_b (rootOf const_a_b) (rootOf const_a_b)
              false None (built const_a_b).2)
    as (st' & Hrun & Hrefs);
    [reflexivity | reflexivity | reflexivity | reflexivity | reflexivity
    | discriminate | discriminate | vm_compute; reflexivity | vm_compute; reflexivity |].
  exists st'. split; [exact Hrun|]. rewrite Hrefs. vm_compute. reflexivity.
Defined.

Lemma assignment_references_witness :
  ∃ st',
    AssignReferences.visitNodeFuel (built x_assign_y).1 2 (One assignment) true None
      (built x_assign_y).2 = Ok (tt, st')
    ∧ references st' (rootOf x_assign_y) =
        [ mkReference x_of_assignment None (rootOf x_assign_y) (Some y_of_assignment) false;
          mkReference y_of_assignment None (rootOf x_assign_y) None false ]
    ∧ bindingsOf st' = bindingsOf (built x_assign_y).2
    ∧ bindingCount st' = bindingCount (built x_assign_y).2.
Proof.
  destruct (assignment_references (built x_assign_y).1 0 assignment
              x_of_assignment (leaf 4 EqualsToken) y_of_assignment
              (rootOf x_assign_y) (rootOf x_assign_y) true None (built x_assign_y).2)
    as [(st' & Hrun & Hrefs & Hbindings & Hcount) _];
    [reflexivity | reflexivity | reflexivity | reflexivity | reflexivity
    | reflexivity | reflexivity | reflexivity
    | discriminate | vm_compute; reflexivity | vm_compute; reflexivity |].
  exists st'. split; [exact Hrun|]. split; [|by split].
  rewrite Hrefs. vm_compute. reflexivity.
Defined.

Lemma parameter_targets_not_recorded_witness :
  assignReferences (built f_with_pattern).1 f_with_pattern (built f_with_pattern).2
    = Ok (tt, (built f_with_pattern).2)
  ∧ (∀ s r, r ∈ references (built f_with_pattern).2 s →
       identifier r ≠ a_of_f ∧ identifier r ≠ c_of_f).
Proof.
  assert (Hrun : assignReferences (built f_with_pattern).1 f_with_pattern
                   (built f_with_pattern).2 = Ok (tt, (built f_with_pattern).2))
    by (vm_compute; reflexivity).
  split; [exact Hrun|].
  destruct (parameter_targets_not_recorded (built f_with_pattern).1 f_with_pattern
              (built f_with_pattern).2) as [_ Hnone].
  { by_decision. }
  assert (Hparameter : parameter_of_f ∈ subnodes f_with_pattern) by in_list.
  assert (Hempty : ∀ s, references (built f_with_pattern).2 s = []).
  { intros s. unfold references.
    assert (Hrefs : referencesOf (built f_with_pattern).2 = <[0 := []]> (<[1 := []]> ∅))
      by (vm_compute; reflexivity).
    rewrite Hrefs.
    destruct (decide (scopeId s = 0)) as [->|H0];
      [by rewrite lookup_total_insert_eq|rewrite lookup_total_insert_ne by done].
    destruct (decide (scopeId s = 1)) as [->|H1];
      [by rewrite lookup_total_insert_eq|rewrite lookup_total_insert_ne by done].
    by rewrite lookup_total_empty. }
  intros s r Hr. split.
  - refine (proj2 (Hnone _ Hrun parameter_of_f pattern_of_f a_of_f Hparameter eq_refl eq_refl _)
              Hempty s r Hr).
    first_element. by apply target_identifier.
  - refine (proj2 (Hnone _ Hrun parameter_of_f pattern_of_f c_of_f Hparameter eq_refl eq_refl _)
              Hempty s r Hr).
    second_element. first_element. by apply target_identifier.
Defined.

Lemma variable_pattern_target_recorded :
  ∃ declaration,
    declaration ∈ subnodes const_pattern
    ∧ isVariableDeclaration declaration = true
    ∧ prop FName declaration = Some pattern_of_const_pattern
    ∧ patternTarget pattern_of_const_pattern a_of_const_pattern
    ∧ newSourceFileScopesContainer const_pattern emptyStore = Ok (analysed const_pattern)
    ∧ identifier <$> references (analysed const_pattern).2 (rootOf const_pattern)
      = [ident 7 "obj"; a_of_const_pattern].
Proof.
  exists (tree 3 VariableDeclaration
            [(FName, pattern_of_const_pattern); (FInitializer, ident 7 "obj")]).
  split; [in_list|].
  split; [reflexivity|]. split; [reflexivity|]. split.
  - first_element. by apply target_identifier.
  - split; vm_compute; reflexivity.
Qed.

Lemma class_and_function_names_witness :
  (∃ bs',
     FindScopes.visitNodeFuel 2 None empty_class outerScope rootState = Ok (tt, bs')
     ∧ bindings (store bs') outerScope !! "A"
       = Some (mkBinding 0 empty_class FunctionScope "A" Immutable)
     ∧ bindings (store bs') (mkScope 1 FunctionScope empty_class (Some outerScope)) !! "this"
       = Some (mkBinding 1 empty_class FunctionScope "this" Immutable))
  ∧ (∃ bs' b,
       FindScopes.visitNodeFuel 2 None empty_function outerScope rootState = Ok (tt, bs')
       ∧ bindings (store bs') outerScope !! "f" = Some b
       ∧ declaringNode b = empty_function ∧ bindingScopeKind b = LexicalScope
       ∧ mutability b = Immutable).
Proof.
  split.
  - destruct (class_and_function_names 1 None empty_class name_of_empty_class
                outerScope outerScope rootState) as [Hclass _];
      [vm_compute; lia | reflexivity | reflexivity | reflexivity
      | vm_compute; lia | vm_compute; lia |].
    destruct (Hclass eq_refl) as (bs' & Hrun & Hname & _ & _ & Hthis).
    exists bs'. split; [exact Hrun|]. split; [exact Hname|].
    apply Hthis. intros x Hx.
    apply elem_of_cons in Hx as [->|Hx]; [discriminate|].
    apply elem_of_cons in Hx as [->|Hx]; [discriminate|].
    by apply elem_of_nil in Hx.
  - destruct (class_and_function_names 1 None empty_function name_of_empty_function
                outerScope outerScope rootState) as [_ Hfunction];
      [vm_compute; lia | reflexivity | reflexivity | reflexivity
      | vm_compute; lia | vm_compute; lia |].
    destruct (Hfunction (or_introl eq_refl) eq_refl)
      as (bs' & b & Hrun & Hname & Hnode & Hkind & Hmutable & _).
    by exists bs', b.
Defined.

(** ** Where the code departs from what is said of it *)

(** C2. Both passes over [class A { @dec m() {} }] succeed, and the
    identifier [dec] of the decorator, a node of the analysed tree, is not in
    the map: [getScopeForNode] throws for it.  (A function-like node maps its
    children to the current scope and then visits only its type parameters,
    type, parameters and body.) *)
Theorem decorator_expression_unmapped :
  dec_of_decorated ∈ subnodes decorated_method
  ∧ NoDup (nodeIds decorated_method)
  ∧ wellFormed decorated_method = true
  ∧ newSourceFileScopesContainer decorated_method emptyStore = Ok (analysed decorated_method)
  ∧ getScopeForNode (analysed decorated_method).1 dec_of_decorated = Throw NoScopeForNode.
Proof.
  split; [in_list|]. split; [by_decision|].
  split; [vm_compute; reflexivity|].
  split; vm_compute; reflexivity.
Qed.

(** C10. Both passes over [( = y);] succeed, and the list of the root scope
    then holds a reference whose identifier has the empty text: the left
    operand of the assignment, recorded by the branch for assignments, which
    does not look at the text. *)
Theorem missing_assignment_target_recorded :
  newSourceFileScopesContainer assign_to_missing emptyStore = Ok (analysed assign_to_missing)
  ∧ references (analysed assign_to_missing).2 (rootOf assign_to_missing)
    = [ mkReference missing_of_assignment None (rootOf assign_to_missing)
          (Some (ident 6 "y")) false;
        mkReference (ident 6 "y") None (rootOf assign_to_missing) None false ]
  ∧ text missing_of_assignment = "".
Proof.
  split; [vm_compute; reflexivity|].
  split; vm_compute; reflexivity.
Qed.

(** * Further properties *)

(** ** Lookups that stop at the function boundary *)

Lemma boundary_unfold this :
  boundary this
  = this :: match scopeKind this, parentScope this with
            | LexicalScope, Some parent => boundary parent
            | _, _ => []
            end.
Proof. by destruct this. Qed.

(** X1. [getOwnFunctionScopeBinding] looks through the scopes of [boundary]: a
    prefix of the chain that ends with the first function scope (or the
    root), all scopes before being lexical.  It returns null exactly when
    none of these scopes has the name in its own table, even when a scope
    beyond the function boundary has it; what it finds is what [getBinding]
    finds; and a binding of the scope itself is found by
    [getOwnLexicalBinding], by [getOwnFunctionScopeBinding] and by
    [getBinding] alike. *)
Theorem getOwnFunctionScopeBinding_boundary (st : Store) (S : Scope) (n : string) :
  (∃ i, boundary S = take (Datatypes.S i) (chain S)
        ∧ (∀ j U, j < i → chain S !! j = Some U → scopeKind U = LexicalScope)
        ∧ (∀ U, chain S !! i = Some U →
             scopeKind U = FunctionScope ∨ parentScope U = None))
  ∧ (getOwnFunctionScopeBinding st S n = None ↔
       ∀ T, T ∈ boundary S → bindings st T !! n = None)
  ∧ (∀ d T, getOwnFunctionScopeBinding st S n = Some (d, T) →
       T ∈ boundary S ∧ bindings st T !! n = Some d
       ∧ getBinding st S n = Some (d, T))
  ∧ (∀ d, getOwnLexicalBinding st S n = Some d →
       getOwnFunctionScopeBinding st S n = Some (d, S)
       ∧ getBinding st S n = Some (d, S)
       ∧ hasOwnLexicalBinding st S n = true
       ∧ hasOwnFunctionScopeBinding st S n = true ∧ hasBinding st S n = true).
Proof.
  split; [|split; [|split]].
  - induction S as [S IH] using Scope_chain_ind.
    destruct S as [i [] nd [p|]]; simpl in *.
    + destruct (IH p eq_refl) as (k & Hk & Hlex & Hlast).
      exists (Datatypes.S k). split; [by rewrite Hk|]. split.
      * intros [|j] U Hj HU; simpl in HU; [by injection HU as <-|].
        apply (Hlex j U); [lia|done].
      * intros U HU. simpl in HU. by apply Hlast.
    + exists 0. split; [done|]. split; [lia|].
      intros U [= <-]. by right.
    + exists 0. split; [done|]. split; [lia|].
      intros U [= <-]. by left.
    + exists 0. split; [done|]. split; [lia|].
      intros U [= <-]. by left.
  - induction S as [S IH] using Scope_chain_ind.
    destruct S as [i k nd p]. simpl in *.
    destruct (bindings st (mkScope i k nd p) !! n) as [d0|] eqn:Hown.
    + split; [done|]. intros Hall. rewrite Hall in Hown; [done|].
      apply elem_of_cons. by left.
    + destruct k, p as [p|]; simpl.
      * rewrite (IH p eq_refl). split.
        -- intros Hall T HT. apply elem_of_cons in HT as [->|HT]; [done|]. by apply Hall.
        -- intros Hall T HT. apply Hall. apply elem_of_cons. by right.
      * split; [|done]. intros _ T HT. by apply list_elem_of_singleton in HT as ->.
      * split; [|done]. intros _ T HT. by apply list_elem_of_singleton in HT as ->.
      * split; [|done]. intros _ T HT. by apply list_elem_of_singleton in HT as ->.
  - induction S as [S IH] using Scope_chain_ind.
    destruct S as [i k nd p]. intros d T. simpl in *.
    destruct (bindings st (mkScope i k nd p) !! n) as [d0|] eqn:Hown.
    + intros [= <- <-]. split; [apply elem_of_cons; by left|done].
    + destruct k, p as [p|]; simpl; try done.
      intros H. destruct (IH p eq_refl d T H) as (HT & Hd & Hg).
      split; [apply elem_of_cons; by right|done].
  - intros d Hd. unfold hasOwnLexicalBinding, hasOwnFunctionScopeBinding, hasBinding.
    unfold getOwnLexicalBinding in *.
    destruct S as [i k nd p]. simpl in *. by rewrite Hd.
Qed.

(** ** What a new binding changes for lookups *)

Lemma getBinding_setBinding_other T name d st U n :
  (∀ V, V ∈ chain U → scopeId V ≠ scopeId T) ∨ n ≠ name →
  getBinding (setBinding T name d st) U n = getBinding st U n.
Proof.
  induction U as [U IH] using Scope_chain_ind.
  destruct U as [i k nd p]. simpl. intros Hout.
  assert (Hown : bindings (setBinding T name d st) (mkScope i k nd p) !! n
                 = bindings st (mkScope i k nd p) !! n).
  { destruct (decide (scopeId (mkScope i k nd p) = scopeId T)) as [Heq|Hne].
    - destruct Hout as [Hout|Hn].
      + exfalso. apply (Hout (mkScope i k nd p)); [apply elem_of_cons; by left|done].
      + unfold bindings, setBinding in *. simpl in *. rewrite Heq.
        rewrite lookup_total_insert_eq. by rewrite lookup_insert_ne.
    - by rewrite bindings_setBinding_ne. }
  rewrite Hown. destruct (bindings st (mkScope i k nd p) !! n); [done|].
  destruct p as [p|]; [|done]. simpl in *. apply (IH p eq_refl).
  destruct Hout as [Hout|Hn]; [left|by right].
  intros V HV. apply Hout. apply elem_of_cons. by right.
Qed.

Lemma getBinding_setBinding_below T name d st U i :
  chain U !! i = Some T →
  (∀ j V, j < i → chain U !! j = Some V →
     scopeId V ≠ scopeId T ∧ bindings st V !! name = None) →
  getBinding (setBinding T name d st) U name = Some (d, T).
Proof.
  revert i. induction U as [U IH] using Scope_chain_ind.
  destruct U as [k sk nd p]. intros [|i] Hi Hbelow; simpl in *.
  - injection Hi as <-. rewrite bindings_setBinding_eq. simpl.
    by rewrite lookup_insert_eq.
  - destruct (Hbelow 0 (mkScope k sk nd p)) as [Hne Hnone]; [lia|done|].
    rewrite bindings_setBinding_ne by done. rewrite Hnone.
    destruct p as [p|]; [|done]. simpl in *. apply (IH p eq_refl i Hi).
    intros j V Hj HV. apply (Hbelow (Datatypes.S j) V); [lia|done].
Qed.

(** X2. After [addBinding] has stored a binding in the scope [T] (the receiver
    for a [LexicalScope] binding, the function scope the receiver hoists to
    otherwise), a lookup of the name from a scope whose chain reaches [T]
    finds that binding, unless a scope before [T] on the chain has the name
    itself; lookups from scopes whose chain does not pass through [T], and
    lookups of other names, find what they found before: a binding of a
    block is invisible outside the block. *)
Theorem addBinding_visibility (this : Scope) (name : string)
    (d : ScopeBindingDeclaration) (st st' : Store) :
  addBinding this name d st = Ok (tt, st') →
  ∃ T,
    T ∈ chain this
    ∧ (bindingScopeKind d = LexicalScope → T = this)
    ∧ (bindingScopeKind d = FunctionScope → functionScopeFrom this = Some T)
    ∧ (∀ U i, chain U !! i = Some T →
         (∀ j V, j < i → chain U !! j = Some V →
            scopeId V ≠ scopeId T ∧ bindings st V !! name = None) →
         getBinding st' U name = Some (d, T))
    ∧ (∀ U n, (∀ V, V ∈ chain U → scopeId V ≠ scopeId T) →
         getBinding st' U n = getBinding st U n)
    ∧ (∀ U n, n ≠ name → getBinding st' U n = getBinding st U n).
Proof.
  unfold addBinding. intros Hrun.
  assert (∃ T, st' = setBinding T name d st ∧ T ∈ chain this
               ∧ (bindingScopeKind d = LexicalScope → T = this)
               ∧ (bindingScopeKind d = FunctionScope → functionScopeFrom this = Some T))
    as (T & -> & HT & Hlex & Hfun).
  { destruct (bindingScopeKind d).
    - injection Hrun as <-. exists this. split; [done|].
      split; [rewrite chain_unfold; apply elem_of_cons; by left|done].
    - destruct (functionScopeFrom this) as [T|] eqn:HT; [|done].
      injection Hrun as <-. exists T. split; [done|]. split; [|done].
      apply functionScopeFrom_nearest in HT as (i & Hi & _).
      by eapply list_elem_of_lookup_2. }
  exists T. split; [done|]. split; [done|]. split; [done|]. split; [|split].
  - intros U i. apply getBinding_setBinding_below.
  - intros U n Hout. apply getBinding_setBinding_other. by left.
  - intros U n Hn. apply getBinding_setBinding_other. by right.
Qed.

Lemma addBinding_visibility_witness :
  ∃ st', addBinding blockScope "v" var_v emptyStore = Ok (tt, st')
    ∧ getBinding st' blockScope "v" = Some (var_v, functionScope)
    ∧ getBinding st' functionScope "v" = Some (var_v, functionScope)
    ∧ getBinding st' outerScope "v" = None.
Proof.
  destruct (addBinding_visibility blockScope "v" var_v emptyStore
              (setBinding functionScope "v" var_v emptyStore) eq_refl)
    as (T & _ & _ & HT & Hbelow & Houtside & _).
  injection (HT eq_refl) as <-.
  exists (setBinding functionScope "v" var_v emptyStore). split; [reflexivity|].
  split; [|split].
  - apply (Hbelow blockScope 1); [reflexivity|].
    intros j V Hj HV. assert (j = 0) as -> by lia. injection HV as <-.
    split; [discriminate|reflexivity].
  - apply (Hbelow functionScope 0); [reflexivity|]. intros j V Hj. lia.
  - rewrite (Houtside outerScope "v"); [reflexivity|].
    intros V HV. apply list_elem_of_singleton in HV as ->. discriminate.
Defined.

(** ** A new child scope *)

Lemma getBinding_chain_ext st st' U n :
  (∀ V, V ∈ chain U → bindings st' V = bindings st V) →
  getBinding st' U n = getBinding st U n.
Proof.
  induction U as [U IH] using Scope_chain_ind.
  destruct U as [i k nd p]. simpl. intros Hsame.
  rewrite (Hsame (mkScope i k nd p)) by (apply elem_of_cons; by left).
  destruct (bindings st (mkScope i k nd p) !! n); [done|].
  destruct p as [p|]; [|done]. simpl in *. apply (IH p eq_refl).
  intros V HV. apply Hsame. apply elem_of_cons. by right.
Qed.

(** X3. [newChildScope] always returns.  The child has the receiver for parent
    and is the last of the receiver's child scopes; it has no child, no
    reference and no binding of its own; the child lists of the other scopes
    are as before; and, the scopes on the receiver's chain being scopes of
    the store, every name resolves from the child as it resolves from the
    receiver. *)
Theorem newChildScope_inherits (this : Scope) (k : ScopeKind) (node : Node) (st : Store) :
  (∀ V, V ∈ chain this → scopeId V < scopeCount st) →
  let child := mkScope (scopeCount st) k node (Some this) in
  ∃ st',
    newChildScope this k node st = Ok (child, st')
    ∧ getParentScope child = Some this ∧ getDeclaringNode child = node
    ∧ scopeKind child = k
    ∧ getChildScopes st' this = getChildScopes st this ++ [child]
    ∧ (∀ other, scopeId other ≠ scopeId this → scopeId other ≠ scopeId child →
         getChildScopes st' other = getChildScopes st other)
    ∧ getChildScopes st' child = [] ∧ getReferences st' child = []
    ∧ scopeCount st' = S (scopeCount st)
    ∧ (∀ n, getOwnLexicalBinding st' child n = None
            ∧ getBinding st' child n = getBinding st this n).
Proof.
  intros Hvalid child.
  assert (Hthis : scopeId this < scopeCount st).
  { apply Hvalid. rewrite chain_unfold. apply elem_of_cons. by left. }
  eexists. split; [reflexivity|].
  unfold getChildScopes, getReferences, getOwnLexicalBinding, childScopes, references,
    bindings. simpl.
  split; [done|]. split; [done|]. split; [done|].
  split; [rewrite lookup_total_insert_eq, lookup_total_insert_ne by lia; done|].
  split; [intros other H1 H2; by rewrite !lookup_total_insert_ne|].
  split; [rewrite lookup_total_insert_ne, lookup_total_insert_eq by lia; done|].
  split; [by rewrite lookup_total_insert_eq|]. split; [done|].
  intros n. rewrite lookup_total_insert_eq, lookup_empty. split; [done|].
  unfold bindings. simpl. rewrite lookup_total_insert_eq, lookup_empty.
  apply getBinding_chain_ext. intros V HV. unfold bindings. simpl.
  apply lookup_total_insert_ne. specialize (Hvalid V HV). lia.
Qed.

Lemma newChildScope_inherits_witness :
  ∃ st',
    newChildScope functionScope LexicalScope (leaf 2 Block)
      (setBinding functionScope "v" var_v (mkStore ∅ ∅ ∅ ∅ 2 1)) = Ok (blockScope, st')
    ∧ getChildScopes st' functionScope = [blockScope]
    ∧ getBinding st' blockScope "v" = Some (var_v, functionScope).
Proof.
  destruct (newChildScope_inherits functionScope LexicalScope (leaf 2 Block)
              (setBinding functionScope "v" var_v (mkStore ∅ ∅ ∅ ∅ 2 1)))
    as (st' & Hrun & _ & _ & _ & Hchildren & _ & _ & _ & _ & Hnames).
  { intros V HV. apply elem_of_cons in HV as [->|HV]; [simpl; lia|].
    apply list_elem_of_singleton in HV as ->. simpl. lia. }
  exists st'. split; [exact Hrun|]. split; [exact Hchildren|].
  destruct (Hnames "v") as [_ Hv]. exact Hv.
Defined.

(** ** What pass 1 returns *)

Lemma findScopes_spec (sourceFile : Node) (st : Store) :
  wellFormed sourceFile = true → kind sourceFile = SourceFile →
  let root := mkScope (scopeCount st) FunctionScope sourceFile None in
  ∃ scopes st',
    findScopes sourceFile st = Ok (scopes, st')
    ∧ scopeCount st < scopeCount st'
    ∧ (NoDup (nodeIds sourceFile) → scopes !! nid sourceFile = Some root)
    ∧ (∀ k t, scopes !! k = Some t →
         ∃ x, x ∈ subnodes sourceFile ∧ k = nid x ∧ (t = root ∨ scopeCount st < scopeId t)).
Proof.
  intros Hwf Hkind root.
  set (st0 := mkStore (<[scopeCount st := ∅]> (bindingsOf st))
                (<[scopeCount st := []]> (childScopesOf st))
                (<[scopeCount st := []]> (referencesOf st))
                (bindingReferencesOf st) (S (scopeCount st)) (bindingCount st)).
  pose proof (builder_visitNode_spec (height sourceFile) None sourceFile root
                (mkBuildState st0 ∅)) as Hspec.
  unfold returns, outcome in Hspec.
  unfold findScopes, FindScopes.visitNode, mbind, M_bind, bind, onStore, newScope. simpl.
  fold st0. fold root.
  destruct (FindScopes.visitNodeFuel (height sourceFile) None sourceFile root
              (mkBuildState st0 ∅)) as [[[] bs']|e|].
  - destruct Hspec as [HB Hroot]; [done| |by eexists|].
    { split; [done|]. unfold isBlock, isVariableDeclaration. by rewrite Hkind. }
    exists (result bs'), (store bs'). split; [done|].
    split; [pose proof (built_count _ _ _ _ _ _ HB) as Hc; simpl in Hc; lia|].
    split; [done|].
    intros k t Hk. destruct (built_result _ _ _ _ _ _ HB k) as [Hsame|(x & t' & Hx & -> & Ht & Hs)].
    + simpl in Hsame. rewrite lookup_empty in Hsame. congruence.
    + exists x. split; [done|]. split; [done|].
      rewrite Hk in Ht. injection Ht as <-. simpl in Hs.
      destruct Hs as [->|Hs]; [by left|right; lia].
  - exfalso. apply Hspec; [done| |by eexists].
    split; [done|]. unfold isBlock, isVariableDeclaration. by rewrite Hkind.
  - exfalso. apply Hspec; [done| |by eexists].
    split; [done|]. unfold isBlock, isVariableDeclaration. by rewrite Hkind.
Qed.

(** X4. Pass 1 over a source file whose nodes have the properties their declared
    types make mandatory returns: it throws neither 'Could not find parent
    function scope' nor a type error.  At least one scope is created; the
    source file is mapped to the root scope, a function scope without parent;
    and every key of the map is a node of the tree, mapped to the root scope
    or to a scope created after it. *)
Theorem findScopes_returns (sourceFile : Node) (st : Store) :
  wellFormed sourceFile = true → kind sourceFile = SourceFile →
  let root := mkScope (scopeCount st) FunctionScope sourceFile None in
  ∃ scopes st',
    findScopes sourceFile st = Ok (scopes, st')
    ∧ scopeCount st < scopeCount st'
    ∧ (NoDup (nodeIds sourceFile) → scopes !! nid sourceFile = Some root)
    ∧ (∀ k t, scopes !! k = Some t →
         ∃ x, x ∈ subnodes sourceFile ∧ k = nid x ∧ (t = root ∨ scopeCount st < scopeId t)).
Proof. apply findScopes_spec. Qed.

Lemma findScopes_returns_witness :
  ∃ scopes st',
    findScopes for_let_i emptyStore = Ok (scopes, st')
    ∧ scopes !! nid for_let_i = Some (rootOf for_let_i).
Proof.
  destruct (findScopes_returns for_let_i emptyStore) as (scopes & st' & Hrun & _ & Hroot & _);
    [reflexivity|reflexivity|].
  exists scopes, st'. split; [exact Hrun|]. apply Hroot. by_decision.
Defined.

(** ** The container *)

(** X5. When the construction of the container succeeds, [getScopeForNode]
    returns the root scope for the source file and throws 'No scope could be
    found for node' for every node that is not a node of the analysed
    tree. *)
Theorem getScopeForNode_foreign (sourceFile : Node) (st st' : Store)
    (this : SourceFileScopesContainer) :
  wellFormed sourceFile = true → kind sourceFile = SourceFile →
  newSourceFileScopesContainer sourceFile st = Ok (this, st') →
  (NoDup (nodeIds sourceFile) →
     getScopeForNode this sourceFile
     = Ok (mkScope (scopeCount st) FunctionScope sourceFile None))
  ∧ (∀ node, nid node ∉ nodeIds sourceFile →
       getScopeForNode this node = Throw NoScopeForNode).
Proof.
  intros Hwf Hkind Hrun.
  destruct (findScopes_spec sourceFile st Hwf Hkind) as (scopes & st1 & Hfind & _ & Hroot & Hkeys).
  unfold newSourceFileScopesContainer in Hrun.
  apply bind_Ok_inv in Hrun as (scopes' & st1' & Hfind' & Hrun).
  rewrite Hfind in Hfind'. injection Hfind' as <- <-.
  apply bind_Ok_inv in Hrun as ([] & st2 & _ & Hrun).
  injection Hrun as <- <-. unfold getScopeForNode. simpl. split.
  - intros Hnd. by rewrite Hroot.
  - intros node Hnode. destruct (scopes !! nid node) as [t|] eqn:Ht; [|done].
    destruct (Hkeys _ _ Ht) as (x & Hx & Heq & _). exfalso. apply Hnode.
    rewrite Heq. unfold nodeIds. by apply list_elem_of_fmap_2.
Qed.

Lemma getScopeForNode_foreign_witness :
  getScopeForNode (analysed const_a_b).1 const_a_b = Ok (rootOf const_a_b)
  ∧ getScopeForNode (analysed const_a_b).1 (ident 7 "c") = Throw NoScopeForNode.
Proof.
  destruct (getScopeForNode_foreign const_a_b emptyStore (analysed const_a_b).2
              (analysed const_a_b).1) as [Hroot Hforeign];
    [reflexivity | reflexivity | vm_compute; reflexivity |].
  split; [apply Hroot; by_decision|].
  apply Hforeign. vm_compute. intros Hin.
  repeat (apply elem_of_cons in Hin as [Hin|Hin]; [discriminate|]).
  by apply elem_of_nil in Hin.
Defined.

(** ** Binding names *)

Lemma outcome_forEach_each {S A} (E : Error → Prop) (I : S → Prop) (R : A → S → Prop)
    (l : list A) (f : A → M S unit) s :
  I s →
  (∀ a s1, a ∈ l → I s1 →
     outcome (f a) s1 (λ _ s2, I s2 ∧ R a s2 ∧ ∀ b, R b s1 → R b s2) E) →
  outcome (forEach l f) s (λ _ s', I s' ∧ ∀ a, a ∈ l → R a s') E.
Proof.
  intros Hs Hstep.
  cut (∀ (seen : A → Prop), (∀ a, seen a → R a s) →
         outcome (forEach l f) s (λ _ s', I s' ∧ ∀ a, seen a ∨ a ∈ l → R a s') E).
  { intros H. eapply outcome_mono; [apply (H (λ _, False)); by intros|].
    intros [] s' [HI HR]. split; [done|]. intros a Ha. apply HR. by right. }
  revert s Hs Hstep. induction l as [|a l IH]; intros s Hs Hstep seen Hseen; simpl.
  - apply outcome_ret. split; [done|]. intros a [Ha|Ha]; [by apply Hseen|].
    by apply elem_of_nil in Ha.
  - apply outcome_bind. eapply outcome_mono.
    + apply Hstep; [by left|done].
    + intros [] s1 (HI1 & HR1 & Hkeep). eapply outcome_mono.
      * apply (IH s1 HI1) with (seen := λ b, seen b ∨ b = a).
        -- intros b s2 Hb. apply Hstep. by right.
        -- intros b [Hb| ->]; [apply Hkeep; by apply Hseen|done].
      * intros [] s2 [HI2 HR2]. split; [done|]. intros b [Hb|Hb].
        -- apply HR2. left. by left.
        -- apply elem_of_cons in Hb as [->|Hb]; apply HR2; [left; by right|by right].
Qed.

Lemma bindingLeaf_inv n t :
  bindingLeaf n t →
  (isIdentifier n = true ∧ t = n)
  ∨ (∃ element name,
       (isObjectBindingPattern n = true
        ∨ (isArrayBindingPattern n = true ∧ isBindingElement element = true))
       ∧ element ∈ propAll FElements n ∧ prop FName element = Some name
       ∧ bindingLeaf name t).
Proof.
  intros H. destruct H as [name Hid|pattern element name t Hk Hel Hname Ht
                           |pattern element name t Hk Hel Hbe Hname Ht].
  - by left.
  - right. exists element, name. split; [by left|done].
  - right. exists element, name. split; [by right|done].
Qed.

Section Declares.
Variables (decl : Node) (k : ScopeKind) (mut : Mutability) (sc T : Scope).
Hypothesis Hstored : storedIn sc k T.

(** The name has a binding made for [decl] in the table of [T]. *)
Let bound (st : Store) (t : Node) : Prop :=
  ∃ b, bindings st T !! text t = Some b ∧ declaredAs decl k mut (text t) b.

Lemma declares_refl L st : declares decl k mut T L st st.
Proof. unfold declares. repeat split; try done. intros n. by left. Qed.

Lemma declares_trans (L1 L2 L : Node → Prop) st1 st2 st3 :
  (∀ t, L1 t → L t) → (∀ t, L2 t → L t) →
  declares decl k mut T L1 st1 st2 → declares decl k mut T L2 st2 st3 →
  declares decl k mut T L st1 st3.
Proof.
  intros H1 H2 (Hc1 & Hch1 & Hr1 & Hb1 & Ho1 & Hn1) (Hc2 & Hch2 & Hr2 & Hb2 & Ho2 & Hn2).
  split; [congruence|]. split; [congruence|]. split; [congruence|]. split; [lia|].
  split; [intros other Hne; rewrite Ho2, Ho1; done|].
  intros n. destruct (Hn2 n) as [Hsame|[(t & Ht & Htext) Hb]].
  - rewrite Hsame. destruct (Hn1 n) as [?|[(t & Ht & Htext) Hb]]; [by left|right].
    split; [|done]. exists t. auto.
  - right. split; [|done]. exists t. auto.
Qed.

Lemma declares_bound L st st' t :
  declares decl k mut T L st st' → bound st t → bound st' t.
Proof.
  intros (_ & _ & _ & _ & _ & Hn) (b & Hb & Has). unfold bound.
  destruct (Hn (text t)) as [Hsame|[_ Hnew]]; [|done].
  exists b. by rewrite Hsame.
Qed.

Lemma declare_declares st t :
  returns (newBinding decl k (text t) mut ≫= λ d, addBinding sc (text t) d) st
    (λ _ st', declares decl k mut T (λ x, x = t) st st' ∧ bound st' t).
Proof.
  assert (Hset : ∀ b st0,
    declaredAs decl k mut (text t) b → bindingCount st ≤ bindingCount st0 →
    scopeCount st0 = scopeCount st → childScopesOf st0 = childScopesOf st →
    referencesOf st0 = referencesOf st → bindingsOf st0 = bindingsOf st →
    declares decl k mut T (λ x, x = t) st (setBinding T (text t) b st0)
    ∧ bound (setBinding T (text t) b st0) t).
  { intros b st0 Has Hbc Hc Hch Hr Hb. split.
    - split; [done|]. split; [done|]. split; [done|]. split; [done|].
      split.
      + intros other Hne. rewrite bindings_setBinding_ne by done.
        unfold bindings. by rewrite Hb.
      + intros n. rewrite bindings_setBinding_eq.
        destruct (decide (n = text t)) as [->|Hn].
        * right. split; [by exists t|]. exists b. by rewrite lookup_insert_eq.
        * left. rewrite lookup_insert_ne by done. unfold bindings. by rewrite Hb.
    - exists b. rewrite bindings_setBinding_eq. by rewrite lookup_insert_eq. }
  unfold returns, outcome, mbind, M_bind, bind, newBinding, addBinding. simpl.
  unfold storedIn in Hstored. destruct k.
  - subst T. simpl. apply Hset; simpl; try done. lia.
  - rewrite Hstored. simpl. apply Hset; simpl; try done. lia.
Qed.

Lemma visitBindingName_declares fuel :
  ∀ name st,
    height name ≤ fuel → wellFormed name = true →
    returns (FindScopes.visitBindingNameFuel fuel name decl sc k mut) st
      (λ _ st', declares decl k mut T (bindingLeaf name) st st'
                ∧ ∀ t, bindingLeaf name t → bound st' t).
Proof.
  induction fuel as [|fuel IH]; intros name st Hh Hwf.
  { rewrite height_unfold in Hh. lia. }
  (* one element whose name is visited *)
  assert (Helement : ∀ el st0 st1,
    el ∈ propAll FElements name → hasName el = true →
    (∀ nm t, prop FName el = Some nm → bindingLeaf nm t → bindingLeaf name t) →
    declares decl k mut T (bindingLeaf name) st0 st1 →
    returns (FindScopes.visitBindingElement (FindScopes.visitBindingNameFuel fuel)
               el decl sc k mut) st1
      (λ _ st2, declares decl k mut T (bindingLeaf name) st0 st2
                ∧ (∀ nm t, prop FName el = Some nm → bindingLeaf nm t → bound st2 t)
                ∧ ∀ x, bound st1 x → bound st2 x)).
  { intros el st0 st1 Hel Hname Hleaf H01. apply propAll_child in Hel.
    apply defined_Some in Hname as [nm Hnm].
    pose proof (prop_child _ _ _ Hnm) as Hnmc.
    unfold FindScopes.visitBindingElement. rewrite Hnm.
    apply outcome_bind, outcome_ret. eapply outcome_mono.
    - apply IH.
      + pose proof (height_child _ _ Hel). pose proof (height_child _ _ Hnmc). lia.
      + eapply wellFormed_child; [|done]. by eapply wellFormed_child.
    - intros [] st2 [H12 Hb]. split; [|split].
      + eapply (declares_trans (bindingLeaf name) (bindingLeaf nm)); [done| |done..].
        intros t. by apply Hleaf.
      + intros nm' t [= <-]. apply Hb.
      + intros x. by apply (declares_bound (bindingLeaf nm) st1 st2). }
  simpl. unfold FindScopes.visitBindingNameBody.
  destruct (isIdentifier name) eqn:Hid.
  { eapply outcome_mono; [apply (declare_declares st name)|].
    intros [] st' [Hd Hb]. split.
    - eapply (declares_trans _ _ _ st st); [| |apply declares_refl|done].
      + done.
      + intros t ->. by apply leaf_identifier.
    - intros t Ht. apply bindingLeaf_inv in Ht as [[_ ->]|(el & nm & Hk & _)]; [done|].
      exfalso. destruct Hk as [Hk|[Hk _]]; revert Hid Hk;
        unfold isIdentifier, isObjectBindingPattern, isArrayBindingPattern;
        by destruct (kind name). }
  destruct (isObjectBindingPattern name) eqn:Hobj.
  { eapply outcome_mono.
    - apply (outcome_forEach_each _
               (λ st', declares decl k mut T (bindingLeaf name) st st')
               (λ el st', ∀ nm t, prop FName el = Some nm → bindingLeaf nm t → bound st' t)).
      { apply declares_refl. }
      intros el st1 Hel H01. eapply outcome_mono.
      + apply (Helement el st st1); [done| |by intros; eapply leaf_object|done].
        pose proof (wellFormed_node name name Hwf (subnodes_self _)) as Hn.
        unfold wellFormedNode in Hn. kind_of Hobj. by eapply forallb_elem_of.
      + intros [] st2 (H02 & Hel2 & Hkeep). split; [done|]. split; [done|].
        intros b Hb nm t Hnm Ht. apply Hkeep. by eapply Hb.
    - intros [] st' [Hd Hall]. split; [done|].
      intros t Ht. apply bindingLeaf_inv in Ht as [[Hid' _]|(el & nm & _ & Hel & Hnm & Ht)].
      + congruence.
      + by eapply Hall. }
  destruct (isArrayBindingPattern name) eqn:Harr.
  { eapply outcome_mono.
    - apply (outcome_forEach_each _
               (λ st', declares decl k mut T (bindingLeaf name) st st')
               (λ el st', isBindingElement el = true →
                          ∀ nm t, prop FName el = Some nm → bindingLeaf nm t → bound st' t)).
      { apply declares_refl. }
      intros el st1 Hel H01. unfold FindScopes.visitArrayBindingElement.
      destruct (isBindingElement el) eqn:Hbe.
      + eapply outcome_mono.
        * apply (Helement el st st1); [done| |by intros; eapply leaf_array|done].
          assert (wellFormedNode el = true) as Hn.
          { apply (wellFormed_node name); [done|].
            eapply subnodes_child; [by eapply propAll_child|apply subnodes_self]. }
          unfold wellFormedNode in Hn. by kind_of Hbe.
        * intros [] st2 (H02 & Hel2 & Hkeep). split; [done|]. split; [done|].
          intros b Hb Hbb nm t Hnm Ht. apply Hkeep. by eapply Hb.
      + apply outcome_ret. split; [done|]. split; [done|]. done.
    - intros [] st' [Hd Hall]. split; [done|].
      intros t Ht. apply bindingLeaf_inv in Ht as [[Hid' _]|(el & nm & Hk & Hel & Hnm & Ht)].
      + congruence.
      + destruct Hk as [Hk|[_ Hbe]]; [congruence|]. by eapply Hall. }
  apply outcome_ret. split; [apply declares_refl|].
  intros t Ht. apply bindingLeaf_inv in Ht as [[Hid' _]|(el & nm & Hk & _)]; [congruence|].
  destruct Hk as [Hk|[Hk _]]; congruence.
Qed.
End Declares.

(** X6. [visitBindingName] on a binding name whose elements have their names
    returns.  Afterwards every identifier the name declares (the name itself,
    or the leaves of a destructuring pattern, nested patterns included) has a
    binding made for the declaration, with the given scope kind and
    mutability, in the table of the scope the kind selects (the scope itself
    for [LexicalScope], the function scope it hoists to for
    [FunctionScope]); the entries of that table at all other names, the
    tables of all other scopes, the child scopes and the references are as
    before. *)
Theorem visitBindingName_binds (bindingName decl : Node) (scope T : Scope)
    (scopeKind : ScopeKind) (mutability : Mutability) (st : Store) :
  wellFormed bindingName = true → storedIn scope scopeKind T →
  ∃ st',
    FindScopes.visitBindingName bindingName decl scope scopeKind mutability st = Ok (tt, st')
    ∧ (∀ t, bindingLeaf bindingName t →
         ∃ b, bindings st' T !! text t = Some b
              ∧ declaredAs decl scopeKind mutability (text t) b)
    ∧ (∀ n, (∀ t, bindingLeaf bindingName t → text t ≠ n) →
         bindings st' T !! n = bindings st T !! n)
    ∧ (∀ other, scopeId other ≠ scopeId T → bindings st' other = bindings st other)
    ∧ scopeCount st' = scopeCount st ∧ childScopesOf st' = childScopesOf st
    ∧ referencesOf st' = referencesOf st.
Proof.
  intros Hwf Hstored.
  pose proof (visitBindingName_declares decl scopeKind mutability scope T Hstored
                (height bindingName) bindingName st (le_n _) Hwf) as Hspec.
  apply returns_Ok in Hspec as ([] & st' & Hrun & (Hc & Hch & Hr & _ & Ho & Hn) & Hb).
  exists st'. split; [done|]. split; [done|]. split; [|done].
  intros n Hnot. destruct (Hn n) as [?|[(t & Ht & Htext) _]]; [done|].
  by destruct (Hnot t Ht).
Qed.

Lemma visitBindingName_binds_witness :
  ∃ st',
    FindScopes.visitBindingName pattern_of_f parameter_of_f functionScope FunctionScope
      Mutable (mkStore ∅ ∅ ∅ ∅ 2 0) = Ok (tt, st')
    ∧ (∃ b, bindings st' functionScope !! "a" = Some b
            ∧ declaredAs parameter_of_f FunctionScope Mutable "a" b)
    ∧ (∃ b, bindings st' functionScope !! "c" = Some b
            ∧ declaredAs parameter_of_f FunctionScope Mutable "c" b)
    ∧ bindings st' functionScope !! "b" = None.
Proof.
  destruct (visitBindingName_binds pattern_of_f parameter_of_f functionScope functionScope
              FunctionScope Mutable (mkStore ∅ ∅ ∅ ∅ 2 0))
    as (st' & Hrun & Hleaves & Hothers & _); [reflexivity|reflexivity|].
  exists st'. split; [exact Hrun|]. split; [|split].
  - apply (Hleaves a_of_f).
    eapply leaf_object; [reflexivity|cbv; apply list_elem_of_here|reflexivity|].
    by apply leaf_identifier.
  - apply (Hleaves c_of_f).
    eapply leaf_object;
      [reflexivity|cbv; apply list_elem_of_further, list_elem_of_here|reflexivity|].
    eapply leaf_array; [reflexivity|cbv; apply list_elem_of_here|reflexivity|reflexivity|].
    by apply leaf_identifier.
  - rewrite Hothers; [reflexivity|].
    intros t Ht Htext.
    apply bindingLeaf_inv in Ht as [[Hid _]|(el & nm & _ & Hel & Hnm & Ht)]; [discriminate|].
    apply elem_of_cons in Hel as [->|Hel].
    + injection Hnm as <-.
      apply bindingLeaf_inv in Ht as [[_ ->]|(el & nm & [Hk|[Hk _]] & _)]; discriminate.
    + apply list_elem_of_singleton in Hel as ->. injection Hnm as <-.
      apply bindingLeaf_inv in Ht as [[Hid _]|(el & nm & _ & Hel & Hnm & Ht)]; [discriminate|].
      apply list_elem_of_singleton in Hel as ->. injection Hnm as <-.
      apply bindingLeaf_inv in Ht as [[_ ->]|(el & nm & [Hk|[Hk _]] & _)]; discriminate.
Defined.

(** ** What pass 2 leaves alone *)

(** X7. Pass 2 over a source file whose nodes are distinct objects does not run
    out of fuel, and when it returns it has created no binding and no scope:
    the binding tables, the lists of child scopes and the two counters are as
    before.  The list of references of every scope has only grown, by
    references whose identifier is a node of the source file. *)
Theorem assignReferences_preserves (scopesMap : gmap nat Scope) (sourceFile : Node)
    (st : Store) :
  NoDup (nodeIds sourceFile) →
  assignReferences scopesMap sourceFile st ≠ OutOfFuel
  ∧ ∀ st', assignReferences scopesMap sourceFile st = Ok (tt, st') →
      bindingsOf st' = bindingsOf st ∧ childScopesOf st' = childScopesOf st
      ∧ scopeCount st' = scopeCount st ∧ bindingCount st' = bindingCount st
      ∧ ∀ s, ∃ new, getReferences st' s = getReferences st s ++ new
                    ∧ Forall (λ r, identifier r ∈ subnodes sourceFile) new.
Proof.
  intros Hnd.
  pose proof (resolver_visitNode_spec scopesMap (3 * height sourceFile + 2)
                (One sourceFile) false None st) as Hspec.
  unfold mayThrow, outcome in Hspec.
  unfold assignReferences, AssignReferences.visitNode.
  destruct (AssignReferences.visitNodeFuel _ _ _ _ _ st) as [[[] st1]|e|].
  - split; [done|]. intros st' [= <-].
    destruct Hspec as (Hb & Hch & Hc & Hbc & Hrefs); [unfold weight; lia|done|].
    split; [done|]. split; [done|]. split; [done|]. split; [done|].
    intros s. destruct (Hrefs (scopeId s)) as (new & Hnew & Hall).
    exists new. split; [done|]. eapply Forall_impl; [done|]. by intros r [Hr _].
  - done.
  - exfalso. apply Hspec; [unfold weight; lia|done].
Qed.

Lemma assignReferences_preserves_witness :
  ∃ st',
    assignReferences (built const_a_b).1 const_a_b (built const_a_b).2 = Ok (tt, st')
    ∧ bindingsOf st' = bindingsOf (built const_a_b).2
    ∧ childScopesOf st' = childScopesOf (built const_a_b).2.
Proof.
  destruct (assignReferences_preserves (built const_a_b).1 const_a_b (built const_a_b).2)
    as [_ Hkeep]; [by_decision|].
  eexists. split; [vm_compute; reflexivity|].
  destruct (Hkeep (analysed const_a_b).2) as (Hb & Hch & _); [vm_compute; reflexivity|].
  split; [exact Hb|exact Hch].
Defined.

(** ** Partial correctness *)

Section Triple.
Context {S : Type}.

Lemma triple_ret {A} (P : S → Prop) (a : A) (Q : A → S → Prop) :
  (∀ s, P s → Q a s) → triple P (mret a) Q.
Proof. intros H s Hs. by apply H. Qed.

Lemma triple_bind {A B} (P : S → Prop) (R : A → S → Prop) (m : M S A) (k : A → M S B) Q :
  triple P m R → (∀ a, triple (R a) (k a) Q) → triple P (m ≫= k) Q.
Proof.
  intros Hm Hk s Hs. specialize (Hm s Hs).
  unfold mbind, M_bind, bind. destruct (m s) as [[a s']| |]; [|done..].
  by apply Hk.
Qed.

Lemma triple_conseq {A} (P P' : S → Prop) (m : M S A) (Q Q' : A → S → Prop) :
  triple P' m Q' → (∀ s, P s → P' s) → (∀ a s, Q' a s → Q a s) → triple P m Q.
Proof.
  intros Hm HP HQ s Hs. specialize (Hm s (HP s Hs)).
  destruct (m s) as [[a s']| |]; auto.
Qed.

(** A step that keeps [I], followed by steps that keep [I]. *)
Lemma triple_seq {A B} (I : S → Prop) (V : A → Prop) (m : M S A) (k : A → M S B) Q :
  triple I m (λ a s, V a ∧ I s) → (∀ a, V a → triple I (k a) Q) → triple I (m ≫= k) Q.
Proof.
  intros Hm Hk. eapply triple_bind; [done|]. intros a s [Ha Hs]. by apply Hk.
Qed.

Lemma triple_then {A B} (I : S → Prop) (m : M S A) (k : A → M S B) Q :
  triple I m (λ _, I) → (∀ a, triple I (k a) Q) → triple I (m ≫= k) Q.
Proof. intros Hm Hk. eapply triple_bind; [done|]. intros a. apply Hk. Qed.

Lemma triple_required {A} (I : S → Prop) (o : option A) :
  triple I (required o) (λ a s, o = Some a ∧ I s).
Proof. intros s Hs. by destruct o. Qed.

Lemma triple_modify (P : S → Prop) (f : S → S) (Q : unit → S → Prop) :
  (∀ s, P s → Q tt (f s)) → triple P (modify f) Q.
Proof. intros H s Hs. by apply H. Qed.

Lemma triple_forEach {A} (I : S → Prop) (l : list A) (f : A → M S unit) :
  (∀ a, a ∈ l → triple I (f a) (λ _, I)) → triple I (forEach l f) (λ _, I).
Proof.
  induction l as [|a l IH]; intros Hstep; simpl.
  - by apply triple_ret.
  - apply triple_then; [apply Hstep; by left|].
    intros []. apply IH. intros b Hb. apply Hstep. by right.
Qed.
End Triple.

Lemma triple_onStore {A} (P : BuildState → Prop) (m : M Store A) (Q : A → BuildState → Prop) :
  (∀ bs, P bs → triple (λ st, st = store bs) m (λ a st', Q a (mkBuildState st' (result bs)))) →
  triple P (onStore m) Q.
Proof.
  intros H bs Hbs. specialize (H bs Hbs (store bs) eq_refl).
  unfold onStore. by destruct (m (store bs)) as [[a st']| |].
Qed.

(** ** What the resolver does to the store *)

Lemma getScope_triple scopesMap (I : Store → Prop) node :
  triple I (AssignReferences.getScope scopesMap node)
    (λ scope st, scopesMap !! nid node = Some scope ∧ I st).
Proof.
  intros st Hst. unfold AssignReferences.getScope.
  by destruct (scopesMap !! nid node).
Qed.

(** The resolver changes the store only by calls of [addReference] for an
    identifier, on a scope that the map gives for a node. *)
Lemma resolver_keeps scopesMap (I : Store → Prop) :
  (∀ scope node w i,
     isIdentifier node = true → (∃ x, scopesMap !! nid x = Some scope) →
     triple I (addReference scope node w i) (λ _, I)) →
  ∀ fuel v c init,
    triple I (AssignReferences.visitNodeFuel scopesMap fuel v c init) (λ _, I).
Proof.
  intros Hadd. induction fuel as [|fuel IH]; intros v c init; [done|].
  rewrite resolver_visitNodeFuel_S. unfold AssignReferences.visitNodeBody.
  destruct v as [|node|nodes].
  - by apply triple_ret.
  - destruct (isTypeNode node); [by apply triple_ret|].
    destruct (isIdentifier node && c) eqn:HIdent.
    { apply andb_true_iff in HIdent as [Hid _].
      eapply triple_seq; [apply getScope_triple|]. intros scope Hscope. simpl in Hscope.
      destruct (String.eqb _ _); [by apply triple_ret|].
      destruct init; apply Hadd; eauto. }
    destruct (isVariableDeclaration node).
    { apply triple_then; [|intros []; apply IH].
      destruct (prop FInitializer node); [apply IH|by apply triple_ret]. }
    destruct (isExpressionStatement node); [apply IH|].
    destruct (isBinaryExpression node && _).
    { eapply triple_seq; [apply triple_required|]. intros left Hleft.
      apply triple_then; [|intros []; apply IH].
      destruct (isIdentifier left) eqn:Hid; [|apply IH].
      eapply triple_seq; [apply getScope_triple|]. intros scope Hscope. simpl in Hscope.
      apply Hadd; eauto. }
    repeat lazymatch goal with
    | |- triple _ (if ?b then _ else _) _ => destruct b
    | |- triple _ (forEach _ _) _ => apply triple_forEach; intros ? ?
    | |- triple _ (required _ ≫= _) _ =>
        eapply triple_seq; [apply triple_required|intros ? ?]
    | |- triple _ (_ ≫= _) _ => apply triple_then; [|intros []]
    | |- triple _ (AssignReferences.visitNodeFuel _ _ _ _ _) _ => apply IH
    end.
  - apply triple_forEach. intros n Hn. apply IH.
Qed.

(** ** References and bindings point at each other *)

Lemma referencesLinked_refl scopesMap st : referencesLinked scopesMap st st.
Proof.
  split; [done|]. split; intros i; exists []; by rewrite app_nil_r.
Qed.

Lemma addReference_linked scopesMap st0 scope node w i :
  isIdentifier node = true → (∃ x, scopesMap !! nid x = Some scope) →
  triple (referencesLinked scopesMap st0) (addReference scope node w i)
    (λ _, referencesLinked scopesMap st0).
Proof.
  intros Hid Hmap st1 (Hb1 & Hrefs1 & Hbrefs1).
  destruct (addReference_effect scope node w i st1) as (st2 & Hrun & Hr2 & Hbr2 & Hb2 & _).
  rewrite Hrun. clear Hrun.
  set (r := mkReference node (getBinding st1 scope (text node)) scope w i) in *.
  assert (Hmono : ∀ s x, x ∈ references st1 s → x ∈ references st2 s).
  { intros s x Hx. unfold references in *. rewrite Hr2.
    destruct (decide (scopeId scope = scopeId s)) as [Heq|Hne].
    - rewrite Heq, lookup_total_insert_eq. apply elem_of_app. by left.
    - by rewrite lookup_total_insert_ne. }
  assert (Hbmono : ∀ b x, x ∈ bindingReferences st1 b → x ∈ bindingReferences st2 b).
  { intros b x Hx. unfold bindingReferences in *. rewrite Hbr2.
    destruct (getBinding st1 scope (text node)) as [[b' T]|]; [|done].
    destruct (decide (bindingId b' = bindingId b)) as [Heq|Hne].
    - rewrite Heq, lookup_total_insert_eq. apply elem_of_app. by left.
    - by rewrite lookup_total_insert_ne. }
  assert (Hlinked : ∀ x, linked st1 x → linked st2 x).
  { intros x (Hx1 & Hx2 & Hx3). split; [done|].
    split; [by rewrite (getBinding_bindingsOf st1 st2)|].
    destruct (referenceTo x) as [[b T]|]; [|done]. by apply Hbmono. }
  assert (Hr : r ∈ references st2 scope).
  { unfold references. rewrite Hr2, lookup_total_insert_eq.
    apply elem_of_app. right. by left. }
  split; [congruence|]. split.
  - intros k. destruct (Hrefs1 k) as (new & Hnew & Hall).
    assert (Hall2 : Forall (λ x, scopeId (referencedFromScope x) = k
                       ∧ (∃ y, scopesMap !! nid y = Some (referencedFromScope x))
                       ∧ linked st2 x) new).
    { eapply Forall_impl; [done|]. intros x (? & ? & ?). auto. }
    rewrite Hr2. destruct (decide (scopeId scope = k)) as [<-|Hne].
    + exists (new ++ [r]). rewrite lookup_total_insert_eq. unfold references.
      rewrite Hnew, <- app_assoc. split; [done|].
      apply Forall_app. split; [done|]. apply Forall_singleton.
      split; [done|]. split; [done|]. split; [done|]. simpl.
      split; [by rewrite (getBinding_bindingsOf st1 st2)|].
      destruct (getBinding st1 scope (text node)) as [[b T]|] eqn:Hg; [|done].
      unfold bindingReferences. rewrite Hbr2, lookup_total_insert_eq.
      apply elem_of_app. right. by left.
    + exists new. by rewrite lookup_total_insert_ne.
  - intros j. destruct (Hbrefs1 j) as (new & Hnew & Hall).
    assert (Hall2 : Forall (λ x, (∃ b s, referenceTo x = Some (b, s) ∧ bindingId b = j)
                       ∧ x ∈ references st2 (referencedFromScope x)) new).
    { eapply Forall_impl; [done|]. intros x (? & ?). auto. }
    rewrite Hbr2. destruct (getBinding st1 scope (text node)) as [[b T]|] eqn:Hg; [|by exists new].
    destruct (decide (bindingId b = j)) as [<-|Hne].
    + exists (new ++ [r]). rewrite lookup_total_insert_eq. unfold bindingReferences.
      rewrite Hnew, <- app_assoc. split; [done|].
      apply Forall_app. split; [done|]. apply Forall_singleton.
      split; [|done]. by exists b, T.
    + exists new. by rewrite lookup_total_insert_ne.
Qed.

(** X8. When pass 2 returns, every reference it has added to the list of a
    scope names an identifier, was met in that scope (a scope of the map),
    holds what [getBinding] finds for the identifier's text from that scope
    in the final store (null when nothing is found) and is in the list of
    the binding it refers to; and every reference added to the list of a
    binding refers to that binding and is in the list of the scope it was
    met in.  No binding table has changed, so a reference to a name declared
    further down in the text resolves like any other. *)
Theorem assignReferences_linked (scopesMap : gmap nat Scope) (sourceFile : Node)
    (st st' : Store) :
  assignReferences scopesMap sourceFile st = Ok (tt, st') →
  referencesLinked scopesMap st st'
  ∧ ((∀ s, getReferences st s = []) →
     ∀ s r, r ∈ getReferences st' s →
       scopeId (referencedFromScope r) = scopeId s ∧ linked st' r).
Proof.
  intros Hrun.
  pose proof (resolver_keeps scopesMap (referencesLinked scopesMap st)
                (addReference_linked scopesMap st) (3 * height sourceFile + 2)
                (One sourceFile) false None st (referencesLinked_refl _ _)) as Hkeep.
  unfold assignReferences, AssignReferences.visitNode in Hrun. rewrite Hrun in Hkeep.
  split; [done|]. intros Hempty s r Hr.
  destruct Hkeep as (_ & Hrefs & _). destruct (Hrefs (scopeId s)) as (new & Hnew & Hall).
  unfold getReferences, references in *. rewrite Hnew, Hempty in Hr.
  rewrite Forall_forall in Hall. destruct (Hall r Hr) as (? & _ & ?). done.
Qed.

Lemma assignReferences_linked_witness :
  Forall (linked (analysed const_a_b).2)
    (getReferences (analysed const_a_b).2 (rootOf const_a_b)).
Proof.
  destruct (assignReferences_linked (built const_a_b).1 const_a_b (built const_a_b).2
              (analysed const_a_b).2) as [_ Hall]; [vm_compute; reflexivity|].
  assert (Hempty : ∀ s, getReferences (built const_a_b).2 s = []).
  { intros s. unfold getReferences, references.
    assert (Hrefs : referencesOf (built const_a_b).2 = <[0 := []]> ∅)
      by (vm_compute; reflexivity).
    rewrite Hrefs.
    destruct (decide (scopeId s = 0)) as [->|H0];
      [by rewrite lookup_total_insert_eq|rewrite lookup_total_insert_ne by done].
    by rewrite lookup_total_empty. }
  apply Forall_forall. intros r Hr. apply (Hall Hempty (rootOf const_a_b) r Hr).
Defined.

(** ** The nodes that pass 1 maps *)

Lemma wp_ret {S A} (a : A) (Φ : A → S → Prop) s : Φ a s → wp (mret a) Φ s.
Proof. done. Qed.

Lemma wp_bind {S A B} (m : M S A) (k : A → M S B) Φ s :
  wp m (λ a s', wp (k a) Φ s') s → wp (m ≫= k) Φ s.
Proof. unfold wp, mbind, M_bind, bind. by destruct (m s) as [[a s']| |]. Qed.

Lemma wp_mono {S A} (m : M S A) (Φ Ψ : A → S → Prop) s :
  wp m Φ s → (∀ a s', Φ a s' → Ψ a s') → wp m Ψ s.
Proof. unfold wp. destruct (m s) as [[a s']| |]; auto. Qed.

(** One step that extends what is known to be mapped, then the rest. *)
Lemma wp_step {A B} (m : M BuildState A) (k : A → M BuildState B) (K' : Node → Prop) Φ bs :
  wp m (λ _ bs1, ∀ x, K' x → mapped bs1 x) bs →
  (∀ a bs1, (∀ x, K' x → mapped bs1 x) → wp (k a) Φ bs1) →
  wp (m ≫= k) Φ bs.
Proof.
  intros Hm Hk. apply wp_bind. eapply wp_mono; [done|]. intros a bs1 H. by apply Hk.
Qed.

Lemma wp_forEach {S A} (I : S → Prop) (l : list A) (f : A → M S unit) s :
  I s → (∀ a s1, a ∈ l → I s1 → wp (f a) (λ _, I) s1) →
  wp (forEach l f) (λ _, I) s.
Proof.
  revert s. induction l as [|a l IH]; intros s Hs Hstep; simpl; [done|].
  apply wp_bind. eapply wp_mono; [apply Hstep; [by left|done]|].
  intros [] s1 Hs1. apply IH; [done|]. intros b s2 Hb. apply Hstep. by right.
Qed.

Section Mapped.
Variable K : Node → Prop.

Lemma mapped_resultSet node scope bs :
  (∀ x, K x → mapped bs x) →
  wp (resultSet node scope) (λ _ bs', ∀ x, K x ∨ x = node → mapped bs' x) bs.
Proof.
  intros HK x [Hx| ->]; unfold mapped; simpl.
  - destruct (decide (nid node = nid x)) as [->|Hne];
      [by rewrite lookup_insert_eq|rewrite lookup_insert_ne by done]. by apply HK.
  - by rewrite lookup_insert_eq.
Qed.

Lemma mapped_onStore {A} (m : M Store A) bs :
  (∀ x, K x → mapped bs x) → wp (onStore m) (λ _ bs', ∀ x, K x → mapped bs' x) bs.
Proof.
  intros HK. unfold wp, onStore. by destruct (m (store bs)) as [[a st]| |].
Qed.

Lemma mapped_addAllChildren node scope bs :
  (∀ x, K x → mapped bs x) →
  wp (FindScopes.addAllChildren node scope)
     (λ _ bs', ∀ x, K x ∨ x ∈ forEachChild node → mapped bs' x) bs.
Proof.
  intros HK. unfold FindScopes.addAllChildren.
  cut (∀ (seen : Node → Prop) l bs,
         (∀ x, K x ∨ seen x → mapped bs x) →
         wp (forEach l (λ child, resultSet child scope))
            (λ _ bs', ∀ x, K x ∨ seen x ∨ x ∈ l → mapped bs' x) bs).
  { intros H. eapply wp_mono; [apply (H (λ _, False)); intros x [?|[]]; auto|].
    intros [] bs' H' x [?|?]; apply H'; auto. }
  clear. intros seen l. revert seen. induction l as [|c l IH]; intros seen bs Hseen; simpl.
  - intros x [?|[?|Hx]]; [auto..|]. by apply elem_of_nil in Hx.
  - apply wp_bind. unfold wp at 1. simpl.
    eapply wp_mono.
    + apply (IH (λ x, seen x ∨ x = c)). intros x Hx. unfold mapped. simpl.
      destruct (decide (nid c = nid x)) as [->|Hne];
        [by rewrite lookup_insert_eq|rewrite lookup_insert_ne by done].
      destruct Hx as [?|[?| ->]]; [apply Hseen; auto..|done].
    + intros [] bs' H x [?|[?|Hx]]; [apply H; auto..|].
      apply elem_of_cons in Hx as [->|?]; apply H; auto.
Qed.
End Mapped.

Lemma unique_children_nid node c c' :
  NoDup (nodeIds node) → c ∈ forEachChild node → c' ∈ forEachChild node →
  nid c = nid c' → c = c'.
Proof.
  intros Hnd [i Hi]%list_elem_of_lookup_1 [j Hj]%list_elem_of_lookup_1 Heq.
  assert (i = j) as ->.
  { eapply (unique_siblings node i j c c' c c'); eauto using subnodes_self. }
  congruence.
Qed.

Lemma covered_node node x : covered node = true → x ∈ subnodes node → coveredNode x = true.
Proof.
  unfold covered. rewrite forallb_forall. intros H Hx. apply H. by apply list_elem_of_In.
Qed.

Lemma covered_sub node x : covered node = true → x ∈ subnodes node → covered x = true.
Proof.
  intros H Hx. unfold covered. apply forallb_forall. intros y Hy%list_elem_of_In.
  apply (covered_node node); [done|]. by eapply subnodes_trans.
Qed.

Lemma covered_child node child :
  covered node = true → child ∈ forEachChild node → covered child = true.
Proof.
  intros H Hc. apply (covered_sub node); [done|].
  eapply subnodes_child; [done|apply subnodes_self].
Qed.

Lemma isLeaf_subnodes c x : isLeaf c = true → x ∈ subnodes c → x = c.
Proof.
  unfold isLeaf. intros Hleaf Hx. apply subnodes_inv in Hx as [->|(g & Hg & _)]; [done|].
  destruct (forEachChild c); [|done]. by apply elem_of_nil in Hg.
Qed.

Lemma elem_of_option_list {A} (o : option A) (x : A) : x ∈ option_list o → o = Some x.
Proof.
  destruct o as [a|]; simpl; [|by intros ?%elem_of_nil].
  by intros ->%list_elem_of_singleton.
Qed.

Lemma visitedByFunctionLike_child f c : c ∈ visitedByFunctionLike f → c ∈ forEachChild f.
Proof.
  unfold visitedByFunctionLike. rewrite !elem_of_app.
  intros [H|[H|[H|H]]].
  - by eapply propAll_child.
  - apply elem_of_option_list in H. by eapply prop_child.
  - by eapply propAll_child.
  - destruct (hasBody f); [|by apply elem_of_nil in H].
    apply elem_of_option_list in H. by eapply prop_child.
Qed.

Lemma visitedByLoop_child n c : c ∈ visitedByLoop n → c ∈ forEachChild n.
Proof.
  unfold visitedByLoop. rewrite !elem_of_app.
  intros [H|[H|H]].
  - apply elem_of_option_list in H. by eapply prop_child.
  - destruct (isForStatement n).
    + apply elem_of_app in H as [H|H]; apply elem_of_option_list in H; by eapply prop_child.
    + apply elem_of_option_list in H. by eapply prop_child.
  - apply elem_of_option_list in H. by eapply prop_child.
Qed.

Lemma nid_elem_of_children node (l : list Node) c :
  NoDup (nodeIds node) → (∀ c', c' ∈ l → c' ∈ forEachChild node) →
  c ∈ forEachChild node → nid c ∈ nid <$> l → c ∈ l.
Proof.
  intros Hnd Hl Hc (c' & Heq & Hc')%list_elem_of_fmap.
  by rewrite (unique_children_nid node c c' Hnd Hc (Hl c' Hc') Heq).
Qed.

(** What [coveredNode] says of a child of a function-like node. *)
Lemma functionLike_covered f c :
  coveredNode f = true → isFunctionLike f = true → NoDup (nodeIds f) →
  c ∈ forEachChild f →
  isLeaf c = true ∨ c ∈ visitedByFunctionLike f
  ∨ (prop FName f = Some c ∧ ∀ g, g ∈ forEachChild c → isLeaf g = true).
Proof.
  intros Hcov Hf Hnd Hc. unfold coveredNode in Hcov.
  assert (isBlock f || isImportClause f = false) as Hn.
  { revert Hf. unfold isFunctionLike, isBlock, isImportClause. by destruct (kind f). }
  rewrite Hn, Hf in Hcov.
  pose proof (forallb_elem_of _ _ _ Hcov Hc) as H. simpl in H.
  apply orb_true_iff in H as [H|H]; [apply orb_true_iff in H as [H|H]|].
  - by left.
  - right. left. apply bool_decide_eq_true in H.
    eapply nid_elem_of_children; eauto using visitedByFunctionLike_child.
  - right. right. apply andb_true_iff in H as [H Hleaves].
    apply bool_decide_eq_true in H.
    destruct (prop FName f) as [nm|] eqn:Hnm; [|done]. simpl in H. injection H as H.
    pose proof (prop_child _ _ _ Hnm) as Hnmc.
    rewrite (unique_children_nid f c nm Hnd Hc Hnmc) by done.
    rewrite (unique_children_nid f c nm Hnd Hc Hnmc) in Hleaves by done.
    split; [done|]. intros g Hg. by eapply forallb_elem_of.
Qed.

(** What [coveredNode] says of a child of a loop. *)
Lemma loop_covered n c :
  coveredNode n = true →
  isForInStatement n || isForOfStatement n || isForStatement n = true →
  NoDup (nodeIds n) → c ∈ forEachChild n →
  isLeaf c = true ∨ c ∈ visitedByLoop n.
Proof.
  intros Hcov Hk Hnd Hc. unfold coveredNode in Hcov.
  assert (isBlock n || isImportClause n = false ∧ isFunctionLike n = false
          ∧ isClassLike n = false) as (H1 & H2 & H3).
  { revert Hk. unfold isForInStatement, isForOfStatement, isForStatement, isFunctionLike,
      isClassLike, isBlock, isImportClause. by destruct (kind n). }
  rewrite H1, H2, H3, Hk in Hcov.
  pose proof (forallb_elem_of _ _ _ Hcov Hc) as H. simpl in H.
  apply orb_true_iff in H as [H|H]; [by left|right].
  apply bool_decide_eq_true in H.
  eapply nid_elem_of_children; eauto using visitedByLoop_child.
Qed.

Section CoversStep.
Variable visitNode : option Node → Node → Scope → M BuildState unit.
Hypothesis IH : coversSpec visitNode.

Lemma mapped_visitList (K : Node → Prop) p (l : list Node) s bs :
  (∀ c, c ∈ l → covered c = true ∧ NoDup (nodeIds c)) →
  (∀ x, K x → mapped bs x) →
  wp (forEach l (λ c, visitNode p c s))
     (λ _ bs', ∀ x, K x ∨ (∃ c, c ∈ l ∧ x ∈ subnodes c) → mapped bs' x) bs.
Proof.
  intros Hl HK.
  cut (∀ (seen : Node → Prop) l bs,
         (∀ c, c ∈ l → covered c = true ∧ NoDup (nodeIds c)) →
         (∀ x, K x ∨ seen x → mapped bs x) →
         wp (forEach l (λ c, visitNode p c s))
            (λ _ bs', ∀ x, K x ∨ seen x ∨ (∃ c, c ∈ l ∧ x ∈ subnodes c) → mapped bs' x) bs).
  { intros H. eapply wp_mono; [apply (H (λ _, False)); [done|]; intros x [?|[]]; auto|].
    intros [] bs' H' x [?|?]; apply H'; auto. }
  clear l bs Hl HK. intros seen l. revert seen.
  induction l as [|c l IHl]; intros seen bs Hl Hseen; simpl.
  - intros x [?|[?|(c & Hc & _)]]; [auto..|]. by apply elem_of_nil in Hc.
  - destruct (Hl c) as [Hcov Hnd]; [by left|].
    apply wp_bind. eapply wp_mono; [by apply (IH p c s (λ x, K x ∨ seen x) bs)|].
    intros [] bs1 H1. eapply wp_mono.
    + apply (IHl (λ x, seen x ∨ x ∈ subnodes c)).
      * intros c' Hc'. apply Hl. by right.
      * intros x [?|[?|?]]; apply H1; auto.
    + intros [] bs' H x [?|[?|(c' & Hc' & Hx)]]; [apply H; auto..|].
      apply elem_of_cons in Hc' as [->|?]; apply H; [auto|]. right. right. eauto.
Qed.

Lemma mapped_visitAllChildren (K : Node → Prop) node s bs :
  covered node = true → NoDup (nodeIds node) →
  (∀ x, K x → mapped bs x) →
  wp (FindScopes.visitAllChildren visitNode node s)
     (λ _ bs', ∀ x, K x ∨ (∃ c, c ∈ forEachChild node ∧ x ∈ subnodes c) → mapped bs' x) bs.
Proof.
  intros Hcov Hnd HK. apply mapped_visitList; [|done].
  intros c Hc. split; [by eapply covered_child|by eapply unique_child].
Qed.

Lemma mapped_visitOptional (K : Node → Prop) p (o : option Node) s bs :
  (∀ c, o = Some c → covered c = true ∧ NoDup (nodeIds c)) →
  (∀ x, K x → mapped bs x) →
  wp (match o with Some c => visitNode (Some p) c s | None => mret tt end)
     (λ _ bs', ∀ x, K x ∨ (∃ c, o = Some c ∧ x ∈ subnodes c) → mapped bs' x) bs.
Proof.
  intros Ho HK. destruct o as [c|].
  - destruct (Ho c eq_refl) as [Hcov Hnd].
    eapply wp_mono; [by apply (IH (Some p) c s K bs)|].
    intros [] bs' H x [?|(c' & [= <-] & ?)]; apply H; auto.
  - apply wp_ret. intros x [?|(c & [=] & _)]. auto.
Qed.

(** A body or statement: a block shares the scope, anything else is
    visited. *)
Lemma mapped_body (K : Node → Prop) p body s bs :
  covered body = true → NoDup (nodeIds body) →
  (∀ x, K x → mapped bs x) →
  wp (if isBlock body
      then resultSet body s;; FindScopes.visitAllChildren visitNode body s
      else visitNode (Some p) body s)
     (λ _ bs', ∀ x, K x ∨ x ∈ subnodes body → mapped bs' x) bs.
Proof.
  intros Hcov Hnd HK. destruct (isBlock body); [|by apply IH].
  eapply wp_step; [by apply mapped_resultSet|]. intros [] bs1 H1.
  eapply wp_mono; [by apply mapped_visitAllChildren|].
  intros [] bs' H x [?|Hx]; [apply H; auto|].
  apply subnodes_inv in Hx as [->|?]; apply H; auto.
Qed.

Lemma mapped_parameter (K : Node → Prop) f param s bs :
  covered param = true → NoDup (nodeIds param) →
  (∀ x, K x → mapped bs x) →
  wp (FindScopes.visitParameterDeclaration visitNode f param s)
     (λ _ bs', ∀ x, K x ∨ x ∈ subnodes param → mapped bs' x) bs.
Proof.
  intros Hcov Hnd HK. unfold FindScopes.visitParameterDeclaration.
  eapply wp_step; [by apply IH|]. intros [] bs1 H1.
  apply wp_bind. unfold required. destruct (prop FName param) as [name|]; [|done].
  unfold wp at 1. simpl.
  destruct (isIdentifier name); [|destruct (isObjectBindingPattern name)];
    by apply mapped_onStore.
Qed.

Lemma mapped_parameters (K : Node → Prop) f (l : list Node) s bs :
  (∀ c, c ∈ l → covered c = true ∧ NoDup (nodeIds c)) →
  (∀ x, K x → mapped bs x) →
  wp (forEach l (λ param, FindScopes.visitParameterDeclaration visitNode f param s))
     (λ _ bs', ∀ x, K x ∨ (∃ c, c ∈ l ∧ x ∈ subnodes c) → mapped bs' x) bs.
Proof.
  intros Hl HK.
  cut (∀ (seen : Node → Prop) l bs,
         (∀ c, c ∈ l → covered c = true ∧ NoDup (nodeIds c)) →
         (∀ x, K x ∨ seen x → mapped bs x) →
         wp (forEach l (λ param, FindScopes.visitParameterDeclaration visitNode f param s))
            (λ _ bs', ∀ x, K x ∨ seen x ∨ (∃ c, c ∈ l ∧ x ∈ subnodes c) → mapped bs' x) bs).
  { intros H. eapply wp_mono; [apply (H (λ _, False)); [done|]; intros x [?|[]]; auto|].
    intros [] bs' H' x [?|?]; apply H'; auto. }
  clear l bs Hl HK. intros seen l. revert seen.
  induction l as [|c l IHl]; intros seen bs Hl Hseen; simpl.
  - intros x [?|[?|(c & Hc & _)]]; [auto..|]. by apply elem_of_nil in Hc.
  - destruct (Hl c) as [Hcov Hnd]; [by left|].
    apply wp_bind. eapply wp_mono; [by apply (mapped_parameter (λ x, K x ∨ seen x))|].
    intros [] bs1 H1. eapply wp_mono.
    + apply (IHl (λ x, seen x ∨ x ∈ subnodes c)).
      * intros c' Hc'. apply Hl. by right.
      * intros x [?|[?|?]]; apply H1; auto.
    + intros [] bs' H x [?|[?|(c' & Hc' & Hx)]]; [apply H; auto..|].
      apply elem_of_cons in Hc' as [->|?]; apply H; [auto|]. right. right. eauto.
Qed.
End CoversStep.

Ltac known :=
  match goal with
  | H : ∀ x, _ → mapped ?bs x |- ∀ x, _ → mapped ?bs x => exact H
  end.

Section CoversBody.
Variable visitNode : option Node → Node → Scope → M BuildState unit.
Hypothesis IH : coversSpec visitNode.

Lemma child_facts node c :
  covered node = true → NoDup (nodeIds node) → c ∈ forEachChild node →
  covered c = true ∧ NoDup (nodeIds c).
Proof. intros. split; [by eapply covered_child|by eapply unique_child]. Qed.

Lemma prop_facts node f c :
  covered node = true → NoDup (nodeIds node) → prop f node = Some c →
  covered c = true ∧ NoDup (nodeIds c).
Proof. intros ? ? Hc%prop_child. by eapply child_facts. Qed.

Lemma propAll_facts node f c :
  covered node = true → NoDup (nodeIds node) → c ∈ propAll f node →
  covered c = true ∧ NoDup (nodeIds c).
Proof. intros ? ? Hc%propAll_child. by eapply child_facts. Qed.

Lemma mapped_functionLike (K : Node → Prop) f s bs :
  covered f = true → NoDup (nodeIds f) → isFunctionLike f = true →
  (∀ x, K x → mapped bs x) →
  wp (FindScopes.visitFunctionLike visitNode f s)
     (λ _ bs', ∀ x, K x ∨ (∃ c, c ∈ forEachChild f ∧ x ∈ subnodes c) → mapped bs' x) bs.
Proof.
  intros Hcov Hnd Hf HK. unfold FindScopes.visitFunctionLike.
  eapply wp_step; [apply mapped_addAllChildren; known|]. intros [] bs1 H1.
  eapply wp_step.
  { unfold FindScopes.visitOptionalNodes.
    eapply (mapped_visitList _ IH); [|exact H1].
    intros c Hc. by eapply propAll_facts. }
  intros [] bs2 H2.
  eapply wp_step.
  { unfold FindScopes.visitOptionalNode.
    eapply (mapped_visitOptional _ IH); [|exact H2].
    intros c Hc. by eapply prop_facts. }
  intros [] bs3 H3.
  eapply (wp_step _ _ (λ x, (((K x ∨ x ∈ forEachChild f)
                             ∨ ∃ c, c ∈ propAll FTypeParameters f ∧ x ∈ subnodes c)
                            ∨ ∃ c, prop FType f = Some c ∧ x ∈ subnodes c)
                           ∨ ∃ nm, prop FName f = Some nm ∧ x ∈ forEachChild nm)).
  { destruct (prop FName f) as [name|] eqn:Hname.
    - eapply wp_step; [apply mapped_resultSet; known|]. intros [] bs4 H4.
      eapply wp_step; [apply mapped_addAllChildren; known|]. intros [] bs5 H5.
      destruct (_ && _).
      + eapply wp_mono; [apply mapped_onStore; known|].
        intros [] bs6 H6 x [Hx|(nm & [= <-] & Hx)]; apply H6; simpl; tauto.
      + apply wp_ret. intros x [Hx|(nm & [= <-] & Hx)]; apply H5; simpl; tauto.
    - apply wp_ret. intros x [Hx|(nm & [=] & _)]. by apply H3. }
  intros [] bs6 H6.
  eapply wp_step; [apply mapped_onStore; known|]. intros functionScope bs7 H7.
  eapply wp_step.
  { eapply (mapped_parameters _ IH); [|exact H7].
    intros c Hc. by eapply propAll_facts. }
  intros [] bs8 H8.
  assert (Hbody : wp
    (if hasBody f
     then match prop FBody f with
          | None => mret tt
          | Some body =>
              if isBlock body
              then resultSet body functionScope;;
                   FindScopes.visitAllChildren visitNode body functionScope
              else visitNode (Some f) body functionScope
          end
     else mret tt)
    (λ _ bs', (∀ x, (λ x, (((((K x ∨ x ∈ forEachChild f)
                 ∨ ∃ c, c ∈ propAll FTypeParameters f ∧ x ∈ subnodes c)
                ∨ ∃ c, prop FType f = Some c ∧ x ∈ subnodes c)
               ∨ ∃ nm, prop FName f = Some nm ∧ x ∈ forEachChild nm))
              ∨ ∃ c, c ∈ propAll FParameters f ∧ x ∈ subnodes c) x → mapped bs' x)
              ∧ (hasBody f = true → ∀ body x, prop FBody f = Some body →
                   x ∈ subnodes body → mapped bs' x)) bs8).
  { destruct (hasBody f); [|by apply wp_ret].
    destruct (prop FBody f) as [body|] eqn:Hbody; [|by apply wp_ret].
    destruct (prop_facts f FBody body Hcov Hnd Hbody) as [Hcb Hnb].
    eapply wp_mono; [by apply (mapped_body _ IH _ f body functionScope bs8 Hcb Hnb H8)|].
    intros [] bs' H. split; [intros x Hx; apply H; by left|].
    intros _ body' x [= <-] Hx. apply H. by right. }
  eapply wp_mono; [exact Hbody|]. clear Hbody.
  intros [] bs' [Hall Hb] x [Hx|(c & Hc & Hx)].
  { apply Hall. tauto. }
  pose proof (covered_node f f Hcov (subnodes_self f)) as Hcn.
  destruct (functionLike_covered f c Hcn Hf Hnd Hc) as [Hleaf|[Hv|[Hname Hleaves]]].
  - rewrite (isLeaf_subnodes c x Hleaf Hx). apply Hall. tauto.
  - unfold visitedByFunctionLike in Hv. rewrite !elem_of_app in Hv.
    destruct Hv as [Hv|[Hv|[Hv|Hv]]].
    + apply Hall. left. left. left. right. eauto.
    + apply elem_of_option_list in Hv. apply Hall. left. left. right. eauto.
    + apply Hall. right. eauto.
    + destruct (hasBody f) eqn:Hhas; [|by apply elem_of_nil in Hv].
      apply elem_of_option_list in Hv. by eapply Hb.
  - apply subnodes_inv in Hx as [->|(g & Hg & Hx)].
    + apply Hall. tauto.
    + rewrite (isLeaf_subnodes g x (Hleaves g Hg) Hx). apply Hall. left. right. eauto.
Qed.

(** The steps before the children are visited change the store only. *)
Lemma mapped_pure (K : Node → Prop) (m : M BuildState unit) bs :
  (∀ bs1, (∀ x, K x → mapped bs1 x) → wp m (λ _ bs', ∀ x, K x → mapped bs' x) bs1) →
  (∀ x, K x → mapped bs x) → wp m (λ _ bs', ∀ x, K x → mapped bs' x) bs.
Proof. auto. Qed.

Theorem visitNodeBody_covers : coversSpec (FindScopes.visitNodeBody visitNode).
Proof.
  intros parent node s K bs Hcov Hnd HK. unfold FindScopes.visitNodeBody.
  eapply wp_step; [apply mapped_resultSet; known|]. intros [] bs1 H1.
  assert (Hdone : ∀ bs' : BuildState,
    (∀ x, (K x ∨ x = node) ∨ (∃ c, c ∈ forEachChild node ∧ x ∈ subnodes c) → mapped bs' x) →
    ∀ x, K x ∨ x ∈ subnodes node → mapped bs' x).
  { intros bs' H x [Hx|Hx]; [apply H; tauto|].
    apply subnodes_inv in Hx as [->|Hx]; apply H; tauto. }
  destruct (isBlock node) eqn:HBlock.
  { eapply wp_step; [apply mapped_onStore; known|]. intros blockScope bs2 H2.
    apply wp_bind. unfold required. destruct parent as [parentNode|]; [|done].
    unfold wp at 1. simpl.
    eapply (wp_step _ _ (λ x, K x ∨ x = node)).
    { destruct (isCatchClause parentNode); [|by apply wp_ret].
      destruct (prop FVariableDeclaration parentNode) as [vd|]; [|by apply wp_ret].
      apply wp_bind. unfold required. destruct (prop FName vd); [|done].
      unfold wp at 1. simpl. apply mapped_onStore; known. }
    intros [] bs3 H3.
    eapply wp_mono; [eapply (mapped_visitAllChildren _ IH); [done|done|known]|].
    intros [] bs'. apply Hdone. }
  destruct (isImportClause node) eqn:HImport.
  { eapply (wp_step _ _ (λ x, K x ∨ x = node)).
    { destruct (prop FName node); [apply mapped_onStore; known|by apply wp_ret]. }
    intros [] bs2 H2.
    eapply (wp_step _ _ (λ x, K x ∨ x = node)).
    { destruct (prop FNamedBindings node) as [nb|]; [|by apply wp_ret].
      destruct (isNamespaceImport nb).
      - apply wp_bind. unfold required. destruct (prop FName nb); [|done].
        unfold wp at 1. simpl. apply mapped_onStore; known.
      - apply (wp_forEach (λ bs', ∀ x, K x ∨ x = node → mapped bs' x)); [done|].
        intros el bs3 _ H3. apply wp_bind. unfold required.
        destruct (prop FName el); [|done]. unfold wp at 1. simpl.
        apply mapped_onStore; known. }
    intros [] bs3 H3.
    eapply wp_mono; [eapply (mapped_visitAllChildren _ IH); [done|done|known]|].
    intros [] bs'. apply Hdone. }
  destruct (isFunctionLike node) eqn:HFun.
  { eapply wp_mono; [apply mapped_functionLike; [done|done|done|known]|]. intros [] bs'. apply Hdone. }
  destruct (isClassLike node) eqn:HClass.
  { eapply (wp_step _ _ (λ x, K x ∨ x = node)).
    { destruct (prop FName node); [apply mapped_onStore; known|by apply wp_ret]. }
    intros [] bs2 H2.
    eapply wp_step; [apply mapped_onStore; known|]. intros classScope bs3 H3.
    eapply wp_step; [apply mapped_onStore; known|]. intros [] bs4 H4.
    eapply wp_mono; [eapply (mapped_visitAllChildren _ IH); [done|done|known]|].
    intros [] bs'. apply Hdone. }
  destruct (isForInStatement node || isForOfStatement node || isForStatement node) eqn:HFor.
  { eapply wp_step; [apply mapped_addAllChildren; known|]. intros [] bs2 H2.
    eapply wp_step; [apply mapped_onStore; known|]. intros forScope bs3 H3.
    eapply wp_step.
    { eapply (mapped_visitOptional _ IH); [|exact H3].
      intros c Hc. by eapply prop_facts. }
    intros [] bs4 H4.
    eapply (wp_step _ _ (λ x, (((K x ∨ x = node) ∨ x ∈ forEachChild node)
                              ∨ ∃ c, prop FInitializer node = Some c ∧ x ∈ subnodes c)
                             ∨ ∃ c, c ∈ (if isForStatement node
                                         then option_list (prop FCondition node)
                                              ++ option_list (prop FIncrementor node)
                                         else option_list (prop FExpression node))
                                    ∧ x ∈ subnodes c)).
    { destruct (isForStatement node).
      - eapply wp_step.
        { eapply (mapped_visitOptional _ IH); [|exact H4].
          intros c Hc. by eapply prop_facts. }
        intros [] bs5 H5.
        eapply wp_mono.
        { eapply (mapped_visitOptional _ IH); [|exact H5].
          intros c Hc. by eapply prop_facts. }
        intros [] bs6 H6 x [Hx|(c & Hc & Hx)]; [apply H6; tauto|].
        apply elem_of_app in Hc as [Hc|Hc]; apply elem_of_option_list in Hc; apply H6; eauto.
      - apply wp_bind. unfold required.
        destruct (prop FExpression node) as [expression|] eqn:Hexpr; [|done].
        unfold wp at 1. simpl.
        destruct (prop_facts node FExpression expression Hcov Hnd Hexpr) as [Hce Hne].
        eapply wp_mono; [by apply (IH (Some node) expression s _ bs4 Hce Hne H4)|].
        intros [] bs5 H5 x [Hx|(c & Hc & Hx)]; [apply H5; tauto|].
        apply list_elem_of_singleton in Hc as ->. apply H5. tauto. }
    intros [] bs5 H5.
    apply wp_bind. unfold required.
    destruct (prop FStatement node) as [statement|] eqn:Hstmt; [|done].
    unfold wp at 1. simpl.
    destruct (prop_facts node FStatement statement Hcov Hnd Hstmt) as [Hcs Hns].
    eapply wp_mono; [by apply (mapped_body _ IH _ node statement forScope bs5 Hcs Hns H5)|].
    intros [] bs' H. apply Hdone. intros x [Hx|(c & Hc & Hx)]; [apply H; tauto|].
    pose proof (covered_node node node Hcov (subnodes_self node)) as Hcn.
    destruct (loop_covered node c Hcn HFor Hnd Hc) as [Hleaf|Hv].
    - rewrite (isLeaf_subnodes c x Hleaf Hx). apply H. tauto.
    - unfold visitedByLoop in Hv. rewrite !elem_of_app in Hv.
      destruct Hv as [Hv|[Hv|Hv]].
      + apply elem_of_option_list in Hv. apply H. left. left. right. eauto.
      + apply H. left. right. eauto.
      + apply elem_of_option_list in Hv. rewrite Hstmt in Hv. injection Hv as <-.
        apply H. by right. }
  eapply (wp_step _ _ (λ x, K x ∨ x = node)).
  { destruct (isVariableDeclaration node); [|by apply wp_ret].
    apply wp_bind. unfold required. destruct parent as [parentNode|]; [|done].
    unfold wp at 1. simpl.
    destruct (isVariableDeclarationList parentNode); [|by apply wp_ret].
    apply wp_bind. unfold required. destruct (prop FName node); [|done].
    unfold wp at 1. simpl. apply mapped_onStore; known. }
  intros [] bs2 H2.
  eapply wp_mono; [eapply (mapped_visitAllChildren _ IH); [done|done|known]|].
  intros [] bs'. apply Hdone.
Qed.
End CoversBody.

Lemma builder_covers fuel : coversSpec (FindScopes.visitNodeFuel fuel).
Proof.
  induction fuel as [|fuel IH]; [done|].
  rewrite builder_visitNodeFuel_S. by apply visitNodeBody_covers.
Qed.

Lemma findScopes_covers (sourceFile : Node) (st : Store) scopes st' :
  covered sourceFile = true → NoDup (nodeIds sourceFile) →
  findScopes sourceFile st = Ok (scopes, st') →
  ∀ x, x ∈ subnodes sourceFile → is_Some (scopes !! nid x).
Proof.
  intros Hcov Hnd Hrun x Hx. unfold findScopes in Hrun.
  unfold mbind, M_bind, bind, onStore, newScope in Hrun. simpl in Hrun.
  match type of Hrun with
  | match FindScopes.visitNode ?p ?n ?s ?bs with _ => _ end = _ =>
      pose proof (builder_covers (height sourceFile) p n s (λ _, False) bs Hcov Hnd) as H;
      unfold wp in H; unfold FindScopes.visitNode in Hrun;
      destruct (FindScopes.visitNodeFuel (height sourceFile) p n s bs) as [[[] bs']|e|];
        [|done..]
  end.
  injection Hrun as <- <-. apply H; [done|]. by right.
Qed.

(** X9. Pass 1 maps every node of a source file in which nothing lies below the
    children that function-like nodes and loops only map (no decorator or
    modifier with an expression, no computed name more than one level deep):
    on such a tree, with the properties the declared types make mandatory
    and with distinct nodes, [findScopes] returns a map that has every node
    of the tree for key, and when the construction of the container
    succeeds, [getScopeForNode] returns a scope for every node of the
    tree. *)
Theorem covered_tree_total (sourceFile : Node) (st : Store) :
  wellFormed sourceFile = true → kind sourceFile = SourceFile →
  covered sourceFile = true → NoDup (nodeIds sourceFile) →
  (∃ scopes st',
     findScopes sourceFile st = Ok (scopes, st')
     ∧ ∀ x, x ∈ subnodes sourceFile → is_Some (scopes !! nid x))
  ∧ (∀ this st',
       newSourceFileScopesContainer sourceFile st = Ok (this, st') →
       ∀ x, x ∈ subnodes sourceFile → ∃ scope, getScopeForNode this x = Ok scope).
Proof.
  intros Hwf Hkind Hcov Hnd.
  destruct (findScopes_spec sourceFile st Hwf Hkind) as (scopes & st1 & Hfind & _).
  pose proof (findScopes_covers sourceFile st scopes st1 Hcov Hnd Hfind) as Hall.
  split; [by exists scopes, st1|].
  intros this st' Hrun x Hx. unfold newSourceFileScopesContainer in Hrun.
  apply bind_Ok_inv in Hrun as (scopes' & st1' & Hfind' & Hrun).
  rewrite Hfind in Hfind'. injection Hfind' as <- <-.
  apply bind_Ok_inv in Hrun as ([] & st2 & _ & Hrun). injection Hrun as <- <-.
  destruct (Hall x Hx) as [scope Hscope]. exists scope.
  unfold getScopeForNode. simpl. by rewrite Hscope.
Qed.

Lemma covered_tree_total_witness :
  Forall (λ x, ∃ scope, getScopeForNode (analysed f_with_pattern).1 x = Ok scope)
    (subnodes f_with_pattern)
  ∧ covered decorated_method = false.
Proof.
  destruct (covered_tree_total f_with_pattern emptyStore) as [_ Hall];
    [reflexivity|reflexivity|reflexivity|by_decision|].
  split; [|reflexivity]. apply Forall_forall.
  apply (Hall (analysed f_with_pattern).1 (analysed f_with_pattern).2).
  vm_compute. reflexivity.
Defined.

(** ** What the steps of pass 1 guarantee *)

Lemma bindingOnly_refl st : bindingOnly st st.
Proof. unfold bindingOnly. repeat split; try done. intros j ? ?. lia. Qed.

Lemma bindingOnly_trans st1 st2 st3 :
  bindingOnly st1 st2 → bindingOnly st2 st3 → bindingOnly st1 st3.
Proof.
  intros (Hc1 & Hch1 & Hr1 & Hb1 & Ho1 & Hn1) (Hc2 & Hch2 & Hr2 & Hb2 & Ho2 & Hn2).
  split; [congruence|]. split; [congruence|]. split; [congruence|]. split; [lia|].
  split.
  - intros j Hj. rewrite Ho2, Ho1; [done|lia..].
  - intros j H1 H3. destruct (decide (j < bindingCount st2)).
    + rewrite Ho2 by lia. by apply Hn1.
    + apply Hn2; lia.
Qed.

Lemma bindingOnly_declare dn k name mut sc st :
  wp (newBinding dn k name mut ≫= λ d, addBinding sc name d) (λ _ st', bindingOnly st st') st.
Proof.
  assert (Hset : ∀ T b, bindingOnly st
    (setBinding T name b
       (mkStore (bindingsOf st) (childScopesOf st) (referencesOf st)
          (<[bindingCount st := []]> (bindingReferencesOf st))
          (scopeCount st) (S (bindingCount st))))).
  { intros T b. unfold bindingOnly. simpl.
    split; [done|]. split; [done|]. split; [done|]. split; [lia|]. split.
    - intros j Hj. apply lookup_total_insert_ne. lia.
    - intros j H1 H2. assert (j = bindingCount st) as -> by lia.
      apply lookup_total_insert_eq. }
  unfold wp, mbind, M_bind, bind, newBinding, addBinding. simpl.
  destruct k; simpl; [apply Hset|].
  destruct (functionScopeFrom sc); simpl; [apply Hset|done].
Qed.

Section Guaranteed.
Variable G : BuildState → BuildState → Prop.
Variable V : Scope → BuildState → Prop.
Variable B : Store → Store → Prop.
Hypothesis B_refl : ∀ st, B st st.
Hypothesis B_trans : ∀ st1 st2 st3, B st1 st2 → B st2 st3 → B st1 st3.
Hypothesis B_declare : ∀ dn k name mut sc st,
  wp (newBinding dn k name mut ≫= λ d, addBinding sc name d) (λ _ st', B st st') st.
Hypothesis G_refl : ∀ bs, G bs bs.
Hypothesis G_trans : ∀ bs1 bs2 bs3, G bs1 bs2 → G bs2 bs3 → G bs1 bs3.
Hypothesis V_mono : ∀ s bs bs', G bs bs' → V s bs → V s bs'.
Hypothesis G_set : ∀ bs node s,
  V s bs → G bs (mkBuildState (store bs) (<[nid node := s]> (result bs))).
Hypothesis G_store : ∀ bs st',
  B (store bs) st' → G bs (mkBuildState st' (result bs)).
Hypothesis G_child : ∀ bs s k node c bs',
  makesScope node = true → V s bs → onStore (newChildScope s k node) bs = Ok (c, bs') →
  G bs bs' ∧ V c bs'.

(** The calls into the scope tree that make the bindings of a name. *)
Lemma store_visitBindingName fuel :
  ∀ name decl sc k mut st,
    wp (FindScopes.visitBindingNameFuel fuel name decl sc k mut)
       (λ _ st', B st st') st.
Proof.
  induction fuel as [|fuel IH]; intros name decl sc k mut st; [done|].
  assert (Helement : ∀ el st0 st1, B st0 st1 →
    wp (FindScopes.visitBindingElement (FindScopes.visitBindingNameFuel fuel) el decl sc k mut)
       (λ _ st2, B st0 st2) st1).
  { intros el st0 st1 H01. unfold FindScopes.visitBindingElement.
    apply wp_bind. unfold required. destruct (prop FName el) as [nm|]; [|done].
    unfold wp at 1. simpl. eapply wp_mono; [apply IH|].
    intros [] st2 H12. by eapply B_trans. }
  simpl. unfold FindScopes.visitBindingNameBody.
  destruct (isIdentifier name); [apply B_declare|].
  destruct (isObjectBindingPattern name).
  { apply (wp_forEach (λ st', B st st')); [apply B_refl|].
    intros el st1 _ H1. by apply Helement. }
  destruct (isArrayBindingPattern name); [|apply wp_ret, B_refl].
  apply (wp_forEach (λ st', B st st')); [apply B_refl|].
  intros el st1 _ H1. unfold FindScopes.visitArrayBindingElement.
  destruct (isBindingElement el); [by apply Helement|by apply wp_ret].
Qed.

Lemma ok_ret X : guaranteed G V X (mret tt).
Proof. intros bs _. apply wp_ret, G_refl. Qed.

Lemma ok_seq X (m k : M BuildState unit) : guaranteed G V X m → guaranteed G V X k → guaranteed G V X (m;; k).
Proof.
  intros Hm Hk bs HX. apply wp_bind. eapply wp_mono; [by apply Hm|].
  intros [] bs1 H1. eapply wp_mono.
  - apply Hk. eapply Forall_impl; [done|]. intros s. by apply V_mono.
  - intros [] bs2 H2. by eapply G_trans.
Qed.

Lemma ok_set X node s : s ∈ X → guaranteed G V X (resultSet node s).
Proof. intros Hs bs HX. apply G_set. rewrite Forall_forall in HX. by apply HX. Qed.

Lemma ok_store X (m : M Store unit) :
  (∀ st, wp m (λ _ st', B st st') st) → guaranteed G V X (onStore m).
Proof.
  intros Hm bs _. specialize (Hm (store bs)). unfold wp, onStore in *.
  destruct (m (store bs)) as [[[] st']| |]; [|done..]. by apply G_store.
Qed.

Lemma ok_required {A} X (o : option A) (k : A → M BuildState unit) :
  (∀ a, guaranteed G V X (k a)) → guaranteed G V X (required o ≫= k).
Proof.
  intros Hk bs HX. apply wp_bind. unfold required. destruct o as [a|]; [|done].
  unfold wp at 1. simpl. by apply Hk.
Qed.

Lemma ok_child X s k node (K : Scope → M BuildState unit) :
  s ∈ X → makesScope node = true → (∀ c, guaranteed G V (c :: X) (K c)) →
  guaranteed G V X (onStore (newChildScope s k node) ≫= K).
Proof.
  intros Hs Hnode HK bs HX. apply wp_bind. unfold wp at 1.
  destruct (onStore (newChildScope s k node) bs) as [[c bs1]| |] eqn:Hrun; [|done..].
  destruct (G_child bs s k node c bs1) as [HG HV]; [done| |done|].
  { rewrite Forall_forall in HX. by apply HX. }
  eapply wp_mono.
  - apply (HK c). apply Forall_cons. split; [done|].
    eapply Forall_impl; [done|]. intros s'. by apply V_mono.
  - intros [] bs2 H2. by eapply G_trans.
Qed.

Lemma ok_forEach {A} X (l : list A) (f : A → M BuildState unit) :
  (∀ a, a ∈ l → guaranteed G V X (f a)) → guaranteed G V X (forEach l f).
Proof.
  induction l as [|a l IH]; intros Hf; simpl; [apply ok_ret|].
  apply ok_seq; [apply Hf; by left|]. apply IH. intros b Hb. apply Hf. by right.
Qed.

Lemma ok_weaken X Y m : (∀ s, s ∈ X → s ∈ Y) → guaranteed G V X m → guaranteed G V Y m.
Proof.
  intros Hsub Hm bs HY. apply Hm. rewrite Forall_forall in *. auto.
Qed.

Ltac ok_store_step :=
  apply ok_store; intros ?;
  first [ apply B_declare
        | apply store_visitBindingName
        | apply (wp_forEach (λ st', B _ st')); [apply B_refl|];
          intros ? ? _ ?;
          unfold FindScopes.visitArrayBindingElement, FindScopes.visitBindingElement;
          repeat lazymatch goal with
          | |- wp (if ?b then _ else _) _ _ => destruct b
          | |- wp (mret _) _ _ => by apply wp_ret
          | |- wp (required ?o ≫= _) _ _ =>
              apply wp_bind; unfold required; destruct o; [unfold wp at 1; simpl|done]
          | |- wp (FindScopes.visitBindingName _ _ _ _ _) _ _ =>
              eapply wp_mono; [apply store_visitBindingName|];
              intros [] ? ?; by eapply B_trans
          end ].

Section Step.
Variable visitNode : option Node → Node → Scope → M BuildState unit.
Hypothesis IH : ∀ X p c s, s ∈ X → guaranteed G V X (visitNode p c s).

Ltac ok_member := repeat first [apply list_elem_of_here | apply list_elem_of_further].

(** The node of the branch is one that makes a scope. *)
Ltac scope_node :=
  unfold makesScope;
  repeat (match goal with H : ?b = _ |- context [?b] => rewrite H end; simpl);
  reflexivity.

Ltac ok_step :=
  lazymatch goal with
  | |- guaranteed _ _ _ (mret _) => apply ok_ret
  | |- guaranteed _ _ _ (resultSet _ _) => apply ok_set; ok_member
  | |- guaranteed _ _ _ (onStore (newChildScope _ _ _) ≫= _) =>
      apply ok_child; [ok_member|scope_node|intros ?]
  | |- guaranteed _ _ _ (required _ ≫= _) => apply ok_required; intros ?
  | |- guaranteed _ _ _ (_ ≫= _) => apply ok_seq
  | |- guaranteed _ _ _ (if ?b then _ else _) => destruct b eqn:?
  | |- guaranteed _ _ _ (match ?o with Some _ => _ | None => _ end) => destruct o
  | |- guaranteed _ _ _ (forEach _ _) => apply ok_forEach; intros ? _
  | |- guaranteed _ _ _ (onStore _) => ok_store_step
  | |- guaranteed _ _ _ (visitNode _ _ _) => apply IH; ok_member
  | |- guaranteed _ _ _ (FindScopes.visitAllChildren _ _ _) =>
      unfold FindScopes.visitAllChildren
  | |- guaranteed _ _ _ (FindScopes.addAllChildren _ _) =>
      unfold FindScopes.addAllChildren
  | |- guaranteed _ _ _ (FindScopes.visitOptionalNode _ _ _ _) =>
      unfold FindScopes.visitOptionalNode
  | |- guaranteed _ _ _ (FindScopes.visitOptionalNodes _ _ _ _) =>
      unfold FindScopes.visitOptionalNodes
  | |- guaranteed _ _ _ (FindScopes.visitParameterDeclaration _ _ _ _) =>
      unfold FindScopes.visitParameterDeclaration
  | |- guaranteed _ _ _ (FindScopes.visitFunctionLike _ _ _) =>
      unfold FindScopes.visitFunctionLike
  end.

Lemma visitNodeBody_guaranteed X p node s :
  s ∈ X → guaranteed G V X (FindScopes.visitNodeBody visitNode p node s).
Proof.
  intros Hs. apply (ok_weaken [s]).
  { intros s' ->%list_elem_of_singleton. done. }
  clear X Hs. unfold FindScopes.visitNodeBody. repeat ok_step.
Qed.
End Step.

Lemma builder_guaranteed fuel :
  ∀ X p node s, s ∈ X → guaranteed G V X (FindScopes.visitNodeFuel fuel p node s).
Proof.
  induction fuel as [|fuel IH]; intros X p node s Hs; [done|].
  rewrite builder_visitNodeFuel_S. by apply visitNodeBody_guaranteed.
Qed.
End Guaranteed.

(** ** Pass 1 records no reference *)

Lemma noReferenceRecorded_refl st : noReferenceRecorded st st.
Proof. unfold noReferenceRecorded. repeat split; try done; intros; lia. Qed.

Lemma noReferenceRecorded_trans st1 st2 st3 :
  noReferenceRecorded st1 st2 → noReferenceRecorded st2 st3 → noReferenceRecorded st1 st3.
Proof.
  intros (Hc1 & Hb1 & Hr1 & Hn1 & Hbr1 & Hbn1) (Hc2 & Hb2 & Hr2 & Hn2 & Hbr2 & Hbn2).
  split; [lia|]. split; [lia|]. split; [|split; [|split]].
  - intros i Hi. rewrite Hr2, Hr1; [done|lia..].
  - intros i H1 H3. destruct (decide (i < scopeCount st2)).
    + rewrite Hr2 by lia. by apply Hn1.
    + apply Hn2; lia.
  - intros j Hj. rewrite Hbr2, Hbr1; [done|lia..].
  - intros j H1 H3. destruct (decide (j < bindingCount st2)).
    + rewrite Hbr2 by lia. by apply Hbn1.
    + apply Hbn2; lia.
Qed.

Lemma noReferenceRecorded_newScope st :
  noReferenceRecorded st
    (mkStore (<[scopeCount st := ∅]> (bindingsOf st))
       (<[scopeCount st := []]> (childScopesOf st))
       (<[scopeCount st := []]> (referencesOf st))
       (bindingReferencesOf st) (S (scopeCount st)) (bindingCount st)).
Proof.
  unfold noReferenceRecorded. simpl. split; [lia|]. split; [lia|]. split; [|split; [|split]].
  - intros i Hi. apply lookup_total_insert_ne. lia.
  - intros i H1 H2. assert (i = scopeCount st) as -> by lia. apply lookup_total_insert_eq.
  - done.
  - intros. lia.
Qed.

Lemma builder_noReference fuel p node s bs :
  wp (FindScopes.visitNodeFuel fuel p node s)
     (λ _ bs', noReferenceRecorded (store bs) (store bs')) bs.
Proof.
  apply (builder_guaranteed (λ bs bs', noReferenceRecorded (store bs) (store bs'))
           (λ _ _, True) bindingOnly bindingOnly_refl bindingOnly_trans bindingOnly_declare)
    with (X := [s]).
  - intros bs1. apply noReferenceRecorded_refl.
  - intros bs1 bs2 bs3. apply noReferenceRecorded_trans.
  - done.
  - intros bs1 n s1 _. apply noReferenceRecorded_refl.
  - intros bs1 st' (Hc & Hch & Hr & Hb & Ho & Hn). simpl.
    split; [lia|]. split; [lia|]. rewrite Hr, Hc. repeat split; try done. intros. lia.
  - intros bs1 s1 k n c bs' _ _ Hrun. split; [|done].
    unfold onStore, newChildScope, mbind, M_bind, bind, newScope, modify, mret, M_ret, ret in Hrun.
    simpl in Hrun. injection Hrun as <- <-. simpl.
    eapply noReferenceRecorded_trans; [apply noReferenceRecorded_newScope|].
    unfold noReferenceRecorded. simpl. repeat split; try done; intros; lia.
  - apply list_elem_of_here.
  - by apply Forall_singleton.
Qed.

(** X10. When [findScopes] returns, it has recorded no reference: the reference
    lists of the scopes and bindings that existed before are unchanged, and
    every scope and every binding it has made has an empty list.  Run from
    the empty store, it leaves every list of references empty. *)
Theorem findScopes_records_nothing (sourceFile : Node) (st : Store)
    (scopes : gmap nat Scope) (st' : Store) :
  findScopes sourceFile st = Ok (scopes, st') →
  noReferenceRecorded st st'
  ∧ (st = emptyStore →
     ∀ s b, getReferences st' s = [] ∧ bindingReferences st' b = []).
Proof.
  intros Hrun.
  assert (Hno : noReferenceRecorded st st').
  { unfold findScopes in Hrun.
    unfold mbind, M_bind, bind, onStore, newScope in Hrun. simpl in Hrun.
    match type of Hrun with
    | match FindScopes.visitNode ?p ?n ?s ?bs with _ => _ end = _ =>
        pose proof (builder_noReference (height sourceFile) p n s bs) as H;
        unfold wp in H; unfold FindScopes.visitNode in Hrun;
        destruct (FindScopes.visitNodeFuel (height sourceFile) p n s bs) as [[[] bs']|e|];
          [|done..]
    end.
    injection Hrun as <- <-. simpl in H.
    eapply noReferenceRecorded_trans; [|exact H].
    apply noReferenceRecorded_newScope. }
  split; [done|]. intros -> s b.
  destruct Hno as (_ & _ & Hr & Hn & Hbr & Hbn).
  unfold getReferences, references, bindingReferences. simpl in *. split.
  - destruct (decide (scopeId s < scopeCount st')).
    + apply Hn; lia.
    + rewrite Hr by lia. by rewrite lookup_total_empty.
  - destruct (decide (bindingId b < bindingCount st')).
    + apply Hbn; lia.
    + rewrite Hbr by lia. by rewrite lookup_total_empty.
Qed.

Lemma findScopes_records_nothing_witness :
  noReferenceRecorded emptyStore (built for_of_arrow).2.
Proof.
  apply (findScopes_records_nothing for_of_arrow emptyStore (built for_of_arrow).1).
  vm_compute. reflexivity.
Defined.

(** ** Bindings that last through pass 1 *)













(** ** The scopes of a loop over the items of an expression *)





(** ** The tree of scopes *)

Lemma reachable_ext st st' root t :
  childScopesOf st' = childScopesOf st → reachable st root t → reachable st' root t.
Proof.
  intros Heq H. induction H as [|s c Hs IH Hc]; [constructor|].
  apply (reachable_child _ _ s); [done|]. unfold childScopes in *. by rewrite Heq.
Qed.

Lemma scopeTree_ext root st st' r :
  childScopesOf st' = childScopesOf st → scopeCount st' = scopeCount st →
  scopeTree root (mkBuildState st r) → scopeTree root (mkBuildState st' r).
Proof.
  intros Hch Hc (I1 & I2 & I3 & I4 & I5 & I6).
  assert (Hback : ∀ t, reachable st' root t → reachable st root t).
  { intros t. by apply reachable_ext. }
  assert (Hlist : ∀ s, childScopes st' s = childScopes st s).
  { intros s. unfold childScopes. by rewrite Hch. }
  simpl in *. split; [|split; [|split; [|split; [|split]]]]; simpl.
  - intros s c Hs Hc'. rewrite Hlist in Hc'. apply I1; [by apply Hback|done].
  - intros s Hs. rewrite Hc. apply I2. by apply Hback.
  - intros s s' Hs Hs'. apply I3; by apply Hback.
  - intros j H1 H2. rewrite Hc in H2. destruct (I4 j H1 H2) as (s & Hs & Hj).
    exists s. split; [by apply (reachable_ext st)|done].
  - intros s Hs. rewrite Hlist. apply I5. by apply Hback.
  - intros k t Hk. apply (reachable_ext st); [done|]. by eapply I6.
Qed.

(** A new child scope keeps the tree a tree. *)
Lemma scopeTree_newChildScope root bs s k node c bs' :
  scopeTree root bs → reachable (store bs) root s →
  onStore (newChildScope s k node) bs = Ok (c, bs') →
  scopeTree root bs' ∧ reachable (store bs') root c
  ∧ ∀ t, reachable (store bs) root t → reachable (store bs') root t.
Proof.
  intros (I1 & I2 & I3 & I4 & I5 & I6) Hs Hrun.
  unfold onStore, newChildScope, mbind, M_bind, bind, newScope, modify, mret, M_ret, ret in Hrun.
  simpl in Hrun. injection Hrun as <- <-.
  set (c := mkScope (scopeCount (store bs)) k node (Some s)).
  set (st' := mkStore _ _ _ _ _ _).
  destruct (I2 s Hs) as [Hs1 Hs2].
  assert (Hlist_s : childScopes st' s = childScopes (store bs) s ++ [c]).
  { unfold st', childScopes. simpl. rewrite lookup_total_insert_eq.
    by rewrite lookup_total_insert_ne by lia. }
  assert (Hlist_c : childScopes st' c = []).
  { unfold st', childScopes. simpl. rewrite lookup_total_insert_ne by lia.
    by rewrite lookup_total_insert_eq. }
  assert (Hlist_o : ∀ u, scopeId u ≠ scopeId s → scopeId u ≠ scopeCount (store bs) →
            childScopes st' u = childScopes (store bs) u).
  { intros u H1 H2. unfold st', childScopes. simpl. by rewrite !lookup_total_insert_ne. }
  assert (Hmono : ∀ t, reachable (store bs) root t → reachable st' root t).
  { intros t H. induction H as [|u t Hu IH Ht]; [constructor|].
    apply (reachable_child _ _ u); [done|].
    destruct (decide (scopeId u = scopeId s)) as [Heq|Hne].
    - rewrite (I3 u s Hu Hs Heq), Hlist_s. apply elem_of_app. left.
      by rewrite <- (I3 u s Hu Hs Heq).
    - rewrite Hlist_o; [done..|]. destruct (I2 u Hu). lia. }
  assert (Hc : reachable st' root c).
  { apply (reachable_child _ _ s); [by apply Hmono|]. rewrite Hlist_s.
    apply elem_of_app. right. by left. }
  assert (Hinv : ∀ t, reachable st' root t → reachable (store bs) root t ∨ t = c).
  { intros t H. induction H as [|u t Hu IH Ht]; [left; constructor|].
    destruct IH as [IH| ->]; [|rewrite Hlist_c in Ht; by apply elem_of_nil in Ht].
    destruct (decide (scopeId u = scopeId s)) as [Heq|Hne].
    - rewrite (I3 u s IH Hs Heq), Hlist_s in Ht.
      apply elem_of_app in Ht as [Ht|Ht]; [left|right].
      + by apply (reachable_child _ _ s).
      + by apply list_elem_of_singleton in Ht.
    - rewrite Hlist_o in Ht; [|done|destruct (I2 u IH); lia].
      left. by apply (reachable_child _ _ u). }
  split; [|done]. split; [|split; [|split; [|split; [|split]]]]; simpl.
  - intros u t Hu Ht. destruct (Hinv u Hu) as [Hu'| ->];
      [|rewrite Hlist_c in Ht; by apply elem_of_nil in Ht].
    destruct (decide (scopeId u = scopeId s)) as [Heq|Hne].
    + pose proof (I3 u s Hu' Hs Heq) as ->. rewrite Hlist_s in Ht.
      apply elem_of_app in Ht as [Ht|Ht]; [by apply I1|].
      apply list_elem_of_singleton in Ht as ->. split; [done|]. simpl. lia.
    + rewrite Hlist_o in Ht; [by apply I1|done|destruct (I2 u Hu'); lia].
  - intros u Hu. destruct (Hinv u Hu) as [Hu'| ->].
    + destruct (I2 u Hu'). lia.
    + simpl. lia.
  - intros u u' Hu Hu' Heq.
    destruct (Hinv u Hu) as [H| ->], (Hinv u' Hu') as [H'| ->].
    + by apply I3.
    + destruct (I2 u H). simpl in Heq. lia.
    + destruct (I2 u' H'). simpl in Heq. lia.
    + done.
  - intros j H1 H2. destruct (decide (j = scopeCount (store bs))) as [->|Hne].
    + by exists c.
    + destruct (I4 j H1) as (u & Hu & Hj); [lia|]. exists u. auto.
  - intros u Hu. destruct (Hinv u Hu) as [Hu'| ->]; [|rewrite Hlist_c; constructor].
    destruct (decide (scopeId u = scopeId s)) as [Heq|Hne].
    + pose proof (I3 u s Hu' Hs Heq) as ->. rewrite Hlist_s, fmap_app.
      apply NoDup_app. split; [by apply I5|]. split; [|apply NoDup_singleton].
      intros j (t & -> & Ht)%list_elem_of_fmap Hj.
      apply list_elem_of_singleton in Hj. simpl in Hj.
      destruct (I2 t); [by apply (reachable_child _ _ s)|]. lia.
    + rewrite Hlist_o; [by apply I5|done|destruct (I2 u Hu'); lia].
  - intros key t Hk. apply Hmono. by eapply I6.
Qed.

Lemma builder_scopeTree root fuel p node s bs :
  scopeTree root bs → reachable (store bs) root s →
  wp (FindScopes.visitNodeFuel fuel p node s) (λ _ bs', scopeTree root bs') bs.
Proof.
  intros Htree Hs.
  pose proof (builder_guaranteed
    (λ bs bs', scopeTree root bs →
               scopeTree root bs' ∧ ∀ t, reachable (store bs) root t → reachable (store bs') root t)
    (λ s bs, scopeTree root bs ∧ reachable (store bs) root s)
    bindingOnly bindingOnly_refl bindingOnly_trans bindingOnly_declare) as H.
  eapply wp_mono.
  - apply (H) with (X := [s]) (fuel := fuel) (p := p) (node := node) (s := s).
    + intros bs1 H1. done.
    + intros bs1 bs2 bs3 H12 H23 H1. destruct (H12 H1) as [H2 Hm2].
      destruct (H23 H2) as [H3 Hm3]. split; [done|]. auto.
    + intros s1 bs1 bs2 H12 [H1 Hr]. destruct (H12 H1). auto.
    + intros bs1 n s1 [_ Hr] (I1 & I2 & I3 & I4 & I5 & I6). split; [|done].
      split; [done|]. split; [done|]. split; [done|]. split; [done|]. split; [done|].
      simpl. intros key t Hk.
      destruct (decide (nid n = key)) as [<-|Hne].
      * rewrite lookup_insert_eq in Hk. by injection Hk as <-.
      * rewrite lookup_insert_ne in Hk by done. by eapply I6.
    + intros bs1 st' (Hc & Hch & _) H1. split.
      * destruct bs1 as [st1 r1]. by apply (scopeTree_ext root st1).
      * intros t. by apply reachable_ext.
    + intros bs1 s1 k n c bs' _ [H1 Hr] Hrun.
      destruct (scopeTree_newChildScope root bs1 s1 k n c bs' H1 Hr Hrun) as (H' & Hc & Hm).
      split; [by intros _|done].
    + apply list_elem_of_here.
    + by apply Forall_singleton.
  - intros [] bs' H'. by apply H'.
Qed.

Lemma findScopes_tree (sourceFile : Node) (st : Store)
    (scopes : gmap nat Scope) (st' : Store) :
  findScopes sourceFile st = Ok (scopes, st') →
  scopeTree (mkScope (scopeCount st) FunctionScope sourceFile None)
    (mkBuildState st' scopes).
Proof.
  intros Hrun. set (root := mkScope _ _ _ _).
  unfold findScopes in Hrun.
  unfold mbind, M_bind, bind, onStore, newScope in Hrun. simpl in Hrun.
  match type of Hrun with
  | match FindScopes.visitNode ?p ?n ?s ?bs with _ => _ end = _ =>
      pose proof (builder_scopeTree root (height sourceFile) p n s bs) as H;
      unfold wp in H; unfold FindScopes.visitNode in Hrun;
      destruct (FindScopes.visitNodeFuel (height sourceFile) p n s bs) as [[[] bs']|e|];
        [|done..]
  end.
  injection Hrun as <- <-. destruct bs' as [st2 r2]. apply H; [|constructor].
  assert (Hlist : ∀ t, reachable
    (mkStore (<[scopeCount st := ∅]> (bindingsOf st))
       (<[scopeCount st := []]> (childScopesOf st))
       (<[scopeCount st := []]> (referencesOf st))
       (bindingReferencesOf st) (S (scopeCount st)) (bindingCount st)) root t → t = root).
  { intros t Ht. induction Ht as [|u t Hu IH Ht]; [done|]. subst u.
    unfold childScopes in Ht. simpl in Ht. rewrite lookup_total_insert_eq in Ht.
    by apply elem_of_nil in Ht. }
  split; [|split; [|split; [|split; [|split]]]]; simpl.
  - intros u t Hu Ht. apply Hlist in Hu as ->.
    unfold childScopes in Ht. simpl in Ht. rewrite lookup_total_insert_eq in Ht.
    by apply elem_of_nil in Ht.
  - intros u Hu. apply Hlist in Hu as ->. simpl. lia.
  - intros u u' Hu Hu' _. apply Hlist in Hu as ->. by apply Hlist in Hu' as ->.
  - intros j H1 H2. exists root. split; [constructor|]. simpl. lia.
  - intros u Hu. apply Hlist in Hu as ->. unfold childScopes. simpl.
    rewrite lookup_total_insert_eq. constructor.
  - intros key t Hk. by rewrite lookup_empty in Hk.
Qed.

(** X11. When [findScopes] returns, the scopes reached from the root scope
    through the lists of child scopes form a tree: every scope in such a list
    has the scope owning the list for parent and was created after it; no
    two scopes of the tree share an identity and no list holds a scope twice;
    every scope created by the call is in the tree; and every scope that the
    map gives for a node is in the tree. *)
Theorem findScopes_scope_tree (sourceFile : Node) (st : Store)
    (scopes : gmap nat Scope) (st' : Store) :
  findScopes sourceFile st = Ok (scopes, st') →
  scopeTree (mkScope (scopeCount st) FunctionScope sourceFile None)
    (mkBuildState st' scopes).
Proof. apply findScopes_tree. Qed.

Lemma findScopes_scope_tree_witness :
  scopeTree (rootOf for_of_arrow)
    (mkBuildState (built for_of_arrow).2 (built for_of_arrow).1).
Proof.
  assert (Hrun : findScopes for_of_arrow emptyStore
                 = Ok ((built for_of_arrow).1, (built for_of_arrow).2))
    by (vm_compute; reflexivity).
  exact (findScopes_scope_tree for_of_arrow emptyStore _ _ Hrun).
Defined.

(** ** All references of a scope tree *)

Lemma reachable_first st s c t :
  c ∈ childScopes st s → reachable st c t → reachable st s t.
Proof.
  intros Hc H. induction H as [|u t Hu IH Ht].
  - apply (reachable_child _ _ s); [constructor|done].
  - by apply (reachable_child _ _ u).
Qed.

Lemma reachable_inv_first st s t :
  reachable st s t → t = s ∨ ∃ c, c ∈ childScopes st s ∧ reachable st c t.
Proof.
  intros H. induction H as [|u t Hu IH Ht]; [by left|right].
  destruct IH as [->|(c & Hc & Hcu)].
  - exists t. split; [done|constructor].
  - exists c. split; [done|]. by apply (reachable_child _ _ u).
Qed.

Lemma reachable_trans st root s t :
  reachable st root s → reachable st s t → reachable st root t.
Proof.
  intros Hs H. induction H as [|u t Hu IH Ht]; [done|].
  by apply (reachable_child _ _ u).
Qed.

Lemma getAllReferencesRecursivelyFuel_collects root bs fuel :
  scopeTree root bs →
  ∀ s, reachable (store bs) root s → scopeCount (store bs) - scopeId s ≤ fuel →
    ∃ l, getAllReferencesRecursivelyFuel fuel (store bs) s = Some l
         ∧ (∃ rest, l = getReferences (store bs) s ++ rest)
         ∧ ∀ r, r ∈ l ↔ ∃ t, reachable (store bs) s t ∧ r ∈ getReferences (store bs) t.
Proof.
  intros (I1 & I2 & _). induction fuel as [|fuel IH]; intros s Hs Hfuel.
  { destruct (I2 s Hs). lia. }
  simpl.
  assert (Hchildren : ∀ cs, (∀ c, c ∈ cs → c ∈ childScopes (store bs) s) →
    ∃ ys : list (list ScopeReference),
      mapM (getAllReferencesRecursivelyFuel fuel (store bs)) cs = Some ys
          ∧ ∀ r, r ∈ mjoin ys ↔
                 ∃ c t, c ∈ cs ∧ reachable (store bs) c t ∧ r ∈ getReferences (store bs) t).
  { induction cs as [|c cs IHcs]; intros Hcs.
    - exists []. split; [done|]. intros r. split.
      + by intros ?%elem_of_nil.
      + by intros (c & t & ?%elem_of_nil & _).
    - destruct (IHcs) as (ys & Hys & Hin); [intros c' Hc'; apply Hcs; by right|].
      assert (Hc : c ∈ childScopes (store bs) s) by (apply Hcs; by left).
      destruct (IH c) as (lc & Hlc & _ & Hinc).
      { by apply (reachable_child _ _ s). }
      { destruct (I1 s c Hs Hc). lia. }
      exists (lc :: ys). split.
      { simpl. rewrite Hlc. simpl. by rewrite Hys. }
      intros r. simpl. rewrite elem_of_app, Hinc, Hin. split.
      + intros [(t & Ht & Hr)|(c' & t & Hc' & Ht & Hr)].
        * exists c, t. split; [by left|done].
        * exists c', t. split; [by right|done].
      + intros (c' & t & Hc' & Ht & Hr). apply elem_of_cons in Hc' as [->|Hc'].
        * left. eauto.
        * right. eauto. }
  destruct (Hchildren (getChildScopes (store bs) s)) as (ys & Hys & Hin); [done|].
  rewrite Hys. simpl. eexists. split; [done|]. split; [by eexists|].
  intros r. rewrite elem_of_app, Hin. split.
  - intros [Hr|(c & t & Hc & Ht & Hr)].
    + exists s. split; [constructor|done].
    + exists t. split; [|done]. by eapply reachable_first.
  - intros (t & Ht & Hr). apply reachable_inv_first in Ht as [->|(c & Hc & Ht)].
    + by left.
    + right. eauto.
Qed.

(** X12. On a tree of scopes, [getAllReferencesRecursively] comes back: it
    returns the references of the scope followed by others, and a reference
    is in the result exactly when it is in the list of the scope or of one of
    its descendants. *)
Theorem getAllReferencesRecursively_collects (root : Scope) (st : Store)
    (scopes : gmap nat Scope) (s : Scope) :
  scopeTree root (mkBuildState st scopes) → reachable st root s →
  ∃ l, getAllReferencesRecursively st s = Some l
       ∧ (∃ rest, l = getReferences st s ++ rest)
       ∧ ∀ r, r ∈ l ↔ ∃ t, reachable st s t ∧ r ∈ getReferences st t.
Proof.
  intros Htree Hs.
  apply (getAllReferencesRecursivelyFuel_collects root (mkBuildState st scopes));
    [done..|]. simpl. lia.
Qed.

Lemma getAllReferencesRecursively_collects_witness :
  ∃ l, getAllReferencesRecursively (analysed for_of_arrow).2 (rootOf for_of_arrow) = Some l
       ∧ (∃ rest, l = getReferences (analysed for_of_arrow).2 (rootOf for_of_arrow) ++ rest)
       ∧ ∀ r, r ∈ l ↔
              ∃ t, reachable (analysed for_of_arrow).2 (rootOf for_of_arrow) t
                   ∧ r ∈ getReferences (analysed for_of_arrow).2 t.
Proof.
  assert (Hrun : findScopes for_of_arrow emptyStore
                 = Ok ((built for_of_arrow).1, (built for_of_arrow).2))
    by (vm_compute; reflexivity).
  assert (Hchildren : childScopesOf (analysed for_of_arrow).2
                      = childScopesOf (built for_of_arrow).2)
    by (vm_compute; reflexivity).
  assert (Hcount : scopeCount (analysed for_of_arrow).2 = scopeCount (built for_of_arrow).2)
    by (vm_compute; reflexivity).
  pose proof (findScopes_tree for_of_arrow emptyStore _ _ Hrun) as Htree.
  exact (getAllReferencesRecursively_collects _ _ _ (rootOf for_of_arrow)
           (scopeTree_ext _ _ _ _ Hchildren Hcount Htree) (reachable_root _ _)).
Defined.

(** ** All references of an analysed source file *)

Lemma assignReferences_keeps_tree scopesMap sourceFile st st' :
  assignReferences scopesMap sourceFile st = Ok (tt, st') →
  childScopesOf st' = childScopesOf st ∧ scopeCount st' = scopeCount st.
Proof.
  intros Hrun.
  assert (Hadd : ∀ scope node w i,
    isIdentifier node = true → (∃ x, scopesMap !! nid x = Some scope) →
    triple (λ st1, childScopesOf st1 = childScopesOf st ∧ scopeCount st1 = scopeCount st)
      (addReference scope node w i)
      (λ _ st1, childScopesOf st1 = childScopesOf st ∧ scopeCount st1 = scopeCount st)).
  { intros scope node w i _ _ st1 [H1 H2].
    destruct (addReference_effect scope node w i st1) as (st2 & -> & _ & _ & _ & Hch & Hc & _).
    split; congruence. }
  pose proof (resolver_keeps scopesMap _ Hadd (3 * height sourceFile + 2) (One sourceFile)
                false None st (conj eq_refl eq_refl)) as H.
  unfold assignReferences, AssignReferences.visitNode in Hrun. by rewrite Hrun in H.
Qed.

(** X13. When the construction of the container succeeds, the scopes reached
    from the root scope form a tree, [getAllReferencesRecursively] on the
    root scope comes back, and a reference is in its result exactly when it
    is in the list of a scope of the tree; so the references of the scope of
    any node of the map are among them. *)
Theorem container_all_references (sourceFile : Node) (st st' : Store)
    (this : SourceFileScopesContainer) :
  newSourceFileScopesContainer sourceFile st = Ok (this, st') →
  let root := mkScope (scopeCount st) FunctionScope sourceFile None in
  scopeTree root (mkBuildState st' (scopes this))
  ∧ ∃ l, getAllReferencesRecursively st' root = Some l
         ∧ (∀ r, r ∈ l ↔ ∃ t, reachable st' root t ∧ r ∈ getReferences st' t)
         ∧ (∀ node scope r, getScopeForNode this node = Ok scope →
              r ∈ getReferences st' scope → r ∈ l).
Proof.
  intros Hrun root. unfold newSourceFileScopesContainer in Hrun.
  apply bind_Ok_inv in Hrun as (scopesMap & st1 & Hfind & Hrun).
  apply bind_Ok_inv in Hrun as ([] & st2 & Hassign & Hrun). injection Hrun as <- <-.
  simpl. pose proof (findScopes_tree sourceFile st scopesMap st1 Hfind) as Htree1.
  destruct (assignReferences_keeps_tree _ _ _ _ Hassign) as [Hch Hc].
  pose proof (scopeTree_ext root st1 st2 scopesMap Hch Hc Htree1) as Htree.
  split; [done|].
  destruct (getAllReferencesRecursivelyFuel_collects root (mkBuildState st2 scopesMap)
              (S (scopeCount st2)) Htree root (reachable_root _ _))
    as (l & Hl & _ & Hin); [simpl; lia|].
  exists l. split; [done|]. split; [done|].
  intros node scope r Hscope Hr. apply Hin. exists scope. split; [|done].
  destruct Htree as (_ & _ & _ & _ & _ & Hmap).
  unfold getScopeForNode in Hscope. simpl in *.
  destruct (scopesMap !! nid node) as [t|] eqn:Ht; [|done]. injection Hscope as <-.
  by eapply Hmap.
Qed.

Lemma container_all_references_witness :
  ∃ l, getAllReferencesRecursively (analysed for_of_arrow).2 (rootOf for_of_arrow) = Some l
       ∧ ∀ r, r ∈ l ↔
              ∃ t, reachable (analysed for_of_arrow).2 (rootOf for_of_arrow) t
                   ∧ r ∈ getReferences (analysed for_of_arrow).2 t.
Proof.
  assert (Hrun : newSourceFileScopesContainer for_of_arrow emptyStore
                 = Ok ((analysed for_of_arrow).1, (analysed for_of_arrow).2))
    by (vm_compute; reflexivity).
  destruct (container_all_references for_of_arrow emptyStore _ _ Hrun)
    as (_ & l & Hl & Hin & _).
  exists l. split; [exact Hl|exact Hin].
Defined.

(** ** The scopes that a visit begins *)

Lemma scopesAdded_and (P Q : Scope → Prop) st st' :
  scopesAdded P st st' → scopesAdded Q st st' → scopesAdded (λ t, P t ∧ Q t) st st'.
Proof.
  intros (Hc & Hold & Hnew) (_ & Hold' & Hnew'). split; [done|]. split.
  - intros i Hi. destruct (Hold i Hi) as (new & Heq & HP).
    destruct (Hold' i Hi) as (new' & Heq' & HQ).
    rewrite Heq in Heq'. apply app_inv_head in Heq' as <-.
    exists new. split; [done|]. apply Forall_and. by split.
  - intros i Hlo Hhi. apply Forall_and. split; auto.
Qed.

Lemma scopesAdded_mono (P Q : Scope → Prop) st st' :
  (∀ t, P t → Q t) → scopesAdded P st st' → scopesAdded Q st st'.
Proof.
  intros HPQ (Hc & Hold & Hnew). split; [done|]. split.
  - intros i Hi. destruct (Hold i Hi) as (new & Heq & HP). exists new.
    split; [done|]. by eapply Forall_impl.
  - intros i Hlo Hhi. eapply Forall_impl; [by apply Hnew|done].
Qed.

Lemma begun_refl P st : begun P st st.
Proof. split; [apply scopesAdded_refl|]. intros j ? ?. lia. Qed.

Lemma begun_trans P st1 st2 st3 : begun P st1 st2 → begun P st2 st3 → begun P st1 st3.
Proof.
  intros [H12 N12] [H23 N23]. split; [by eapply scopesAdded_trans|].
  destruct H12 as (Hc12 & Hold12 & Hnew12). destruct H23 as (Hc23 & Hold23 & _).
  intros j Hlo Hhi. destruct (decide (j < scopeCount st2)) as [Hlt|Hge].
  - destruct (N12 j Hlo Hlt) as (t & p & new & Hid & HP & Hp & Hlt' & Hlist & Hin).
    destruct (Hold23 (scopeId p)) as (new' & Hnew' & _); [lia|].
    exists t, p, (new ++ new'). split_and!; try done.
    + unfold childScopes in *. by rewrite Hnew', Hlist, app_assoc.
    + apply elem_of_app. by left.
  - destruct (N23 j) as (t & p & new & Hid & HP & Hp & Hlt' & Hlist & Hin); [lia|done|].
    unfold childScopes in *.
    destruct (decide (scopeId p < scopeCount st2)) as [Hp2|Hp2].
    + destruct (decide (scopeId p < scopeCount st1)) as [Hp1|Hp1].
      * destruct (Hold12 (scopeId p) Hp1) as (new' & Hnew' & _).
        exists t, p, (new' ++ new). split_and!; try done.
        -- rewrite decide_True by done. by rewrite Hlist, Hnew', app_assoc.
        -- apply elem_of_app. by right.
      * exists t, p, (childScopesOf st2 !!! scopeId p ++ new). split_and!; try done.
        -- by rewrite decide_False by done.
        -- apply elem_of_app. by right.
    + exists t, p, new. split_and!; try done.
      by rewrite decide_False by lia.
Qed.

(** What holds of the scopes appended holds of the scopes made. *)
Lemma begun_and (P Q : Scope → Prop) st st' :
  begun P st st' → scopesAdded Q st st' → begun (λ t, P t ∧ Q t) st st'.
Proof.
  intros [HP HN] HQ. split; [by apply scopesAdded_and|].
  intros j Hlo Hhi.
  destruct (HN j Hlo Hhi) as (t & p & new & Hid & HPt & Hp & Hlt & Hlist & Hin).
  exists t, p, new. split_and!; try done.
  destruct HQ as (_ & Hold & Hnew). unfold childScopes in *.
  destruct (decide (scopeId p < scopeCount st)) as [Hp1|Hp1].
  - destruct (Hold (scopeId p) Hp1) as (new' & Hnew' & HF).
    rewrite Hnew' in Hlist. apply app_inv_head in Hlist as ->.
    by apply (proj1 (Forall_forall _ _) HF).
  - assert (HF : Forall Q (childScopesOf st' !!! scopeId p)) by (apply Hnew; lia).
    rewrite Hlist in HF. by apply (proj1 (Forall_forall _ _) HF).
Qed.

Lemma begun_mono (P Q : Scope → Prop) st st' :
  (∀ t, P t → Q t) → begun P st st' → begun Q st st'.
Proof.
  intros HPQ [HP HN]. split; [by eapply scopesAdded_mono|].
  intros j Hlo Hhi.
  destruct (HN j Hlo Hhi) as (t & p & new & Hid & HPt & Hrest).
  exists t, p, new. split; [done|]. split; [by apply HPQ|done].
Qed.

(** Every scope that the builder makes is declared by a block, a
    function-like node, a class-like node or a loop. *)
Lemma builder_begun fuel p node s bs :
  scopeId s < scopeCount (store bs) →
  wp (FindScopes.visitNodeFuel fuel p node s)
     (λ _ bs', begun (λ t, makesScope (declaratingNode t) = true) (store bs) (store bs')) bs.
Proof.
  intros Hs.
  apply (builder_guaranteed
           (λ bs bs', begun (λ t, makesScope (declaratingNode t) = true) (store bs) (store bs'))
           (λ s bs, scopeId s < scopeCount (store bs))
           bindingOnly bindingOnly_refl bindingOnly_trans bindingOnly_declare)
    with (X := [s]).
  - intros bs1. apply begun_refl.
  - intros bs1 bs2 bs3. apply begun_trans.
  - intros s1 bs1 bs2 [(Hc & _) _] H1. lia.
  - intros bs1 n s1 _. apply begun_refl.
  - intros bs1 st' (Hc & Hch & _). simpl. split.
    + split; [lia|]. split.
      * intros i _. exists []. by rewrite Hch, app_nil_r.
      * intros i ? ?. lia.
    + intros j ? ?. lia.
  - intros bs1 s1 k n c bs' Hn H1 Hrun.
    unfold onStore, newChildScope, mbind, M_bind, bind, newScope, modify, mret, M_ret, ret in Hrun.
    simpl in Hrun. injection Hrun as <- <-. simpl. split; [|lia].
    unfold childScopes. simpl. rewrite (lookup_total_insert_ne _ _ (scopeId s1)) by lia.
    split.
    + split; [simpl; lia|]. simpl. split.
      * intros i Hi. destruct (decide (i = scopeId s1)) as [->|Hne].
        -- exists [mkScope (scopeCount (store bs1)) k n (Some s1)].
           rewrite lookup_total_insert_eq. split; [done|]. by apply Forall_singleton.
        -- exists []. rewrite lookup_total_insert_ne by done.
           rewrite lookup_total_insert_ne by lia. by rewrite app_nil_r.
      * intros i Hlo Hhi. assert (i = scopeCount (store bs1)) as -> by lia.
        rewrite lookup_total_insert_ne by lia. by rewrite lookup_total_insert_eq.
    + simpl. intros j Hlo Hhi. assert (j = scopeCount (store bs1)) as -> by lia.
      exists (mkScope (scopeCount (store bs1)) k n (Some s1)), s1,
        [mkScope (scopeCount (store bs1)) k n (Some s1)].
      split_and!; try done; [|by apply list_elem_of_singleton].
      unfold childScopes. simpl. rewrite lookup_total_insert_eq.
      by rewrite decide_True by done.
  - apply list_elem_of_here.
  - by apply Forall_singleton.
Qed.

(** The scopes made while a node is visited, from what the visit may
    change. *)
Lemma visit_begun fuel p node s bs bs' (N D : Node → Prop) base t :
  scopeId s < scopeCount (store bs) →
  FindScopes.visitNodeFuel fuel p node s bs = Ok (tt, bs') →
  Built N D base t bs bs' →
  begun (λ t, makesScope (declaratingNode t) = true ∧ D (declaratingNode t))
    (store bs) (store bs').
Proof.
  intros Hs Hrun HB. pose proof (builder_begun fuel p node s bs Hs) as Hbegun.
  unfold wp in Hbegun. rewrite Hrun in Hbegun.
  apply begun_and; [done|]. eapply Built_scopesAdded; [done|]. by intros t0 Ht _.
Qed.

Import MoreExamples.

(** ** Declarations, blocks and imports in pass 1 *)

Lemma seq_Ok {S} (m k : M S unit) s s1 s2 :
  m s = Ok (tt, s1) → k s1 = Ok (tt, s2) → (m;; k) s = Ok (tt, s2).
Proof. intros Hm Hk. by rewrite (bind_Ok m _ s tt s1). Qed.

Lemma storedIn_exists sc k :
  is_Some (functionScopeFrom sc) → ∃ T, storedIn sc k T.
Proof. intros [T HT]. destruct k; simpl; eauto. Qed.

(** The children of a node, visited under [sc] one after the other. *)
Lemma visitAllChildren_returns fuel node sc bs :
  wellFormed node = true → height node ≤ S fuel → is_Some (functionScopeFrom sc) →
  ∃ bs', FindScopes.visitAllChildren (FindScopes.visitNodeFuel fuel) node sc bs = Ok (tt, bs').
Proof.
  intros Hwf Hh Hfs.
  pose proof (visitAllChildren_sub fuel _ (builder_visitNode_spec fuel)
                (.∈ subnodes node) (.∈ subnodes node) (scopeCount (store bs)) sc sc bs bs node
                (Built_refl _ _ _ _ _) (le_n _) Hwf Hh) as H.
  apply returns_unit in H as (bs' & Hrun & _); [by exists bs'| |by left|done].
  intros c Hc x Hx. split; by eapply subnodes_child.
Qed.

(** X14. A variable declaration in a declaration list binds every identifier
    that its name declares: with kind [LexicalScope] when the list has a flag
    of [BlockScoped] ([let], [const]) and [FunctionScope] otherwise ([var]),
    [Immutable] when the list has the flag [Const] and [Mutable] otherwise,
    in the table of the current scope for [LexicalScope] and of the function
    scope it hoists to for [FunctionScope].  This is the state in which the
    children of the declaration are then visited, under the current scope;
    nothing else has changed by then but the map, which has the declaration
    for the current scope.  A variable declaration anywhere else (the
    variable of a catch clause) makes no binding of its own. *)
Theorem variableDeclaration_binds (fuel : nat) (list node name : Node)
    (scope T : Scope) (bs : BuildState) :
  isVariableDeclaration node = true →
  wellFormed list = true → node ∈ forEachChild list → height node ≤ S fuel →
  prop FName node = Some name →
  let scopeKind := if negb (Z.land (flags list) NodeFlags.BlockScoped =? 0)%Z
                   then LexicalScope else FunctionScope in
  let mutability := if negb (Z.land (flags list) NodeFlags.Const =? 0)%Z
                    then Immutable else Mutable in
  is_Some (functionScopeFrom scope) → storedIn scope scopeKind T →
  ∃ bs2 bs',
    FindScopes.visitNodeFuel (S fuel) (Some list) node scope bs = Ok (tt, bs')
    ∧ FindScopes.visitAllChildren (FindScopes.visitNodeFuel fuel) node scope bs2 = Ok (tt, bs')
    ∧ result bs2 = <[nid node := scope]> (result bs)
    ∧ (isVariableDeclarationList list = true →
         (∀ t, bindingLeaf name t →
            ∃ b, bindings (store bs2) T !! text t = Some b
                 ∧ declaredAs node scopeKind mutability (text t) b)
         ∧ (∀ n, (∀ t, bindingLeaf name t → text t ≠ n) →
              bindings (store bs2) T !! n = bindings (store bs) T !! n)
         ∧ (∀ other, scopeId other ≠ scopeId T →
              bindings (store bs2) other = bindings (store bs) other)
         ∧ scopeCount (store bs2) = scopeCount (store bs)
         ∧ childScopesOf (store bs2) = childScopesOf (store bs))
    ∧ (isVariableDeclarationList list = false → store bs2 = store bs).
Proof.
  intros Hnode Hwfl Hchild Hh Hname scopeKind mutability Hfs Hstored.
  assert (Hwf : wellFormed node = true) by by eapply wellFormed_child.
  assert (Hwfn : wellFormed name = true).
  { eapply wellFormed_child; [done|]. by eapply prop_child. }
  assert (isBlock node = false ∧ isImportClause node = false ∧ isFunctionLike node = false
          ∧ isClassLike node = false
          ∧ isForInStatement node || isForOfStatement node || isForStatement node = false)
    as (HB & HI & HF & HC & HL).
  { revert Hnode. unfold isVariableDeclaration, isBlock, isImportClause, isFunctionLike,
      isClassLike, isForInStatement, isForOfStatement, isForStatement.
    by destruct (kind node). }
  set (bs1 := mkBuildState (store bs) (<[nid node := scope]> (result bs))).
  assert (∃ bs2,
    (parentNode ← required (Some list);
     if isVariableDeclarationList parentNode
     then name ← required (prop FName node);
          onStore (FindScopes.visitBindingName name node scope
                     (if negb (Z.land (flags parentNode) NodeFlags.BlockScoped =? 0)%Z
                      then LexicalScope else FunctionScope)
                     (if negb (Z.land (flags parentNode) NodeFlags.Const =? 0)%Z
                      then Immutable else Mutable))
     else mret tt) bs1 = Ok (tt, bs2)
    ∧ result bs2 = result bs1
    ∧ (isVariableDeclarationList list = true →
         (∀ t, bindingLeaf name t →
            ∃ b, bindings (store bs2) T !! text t = Some b
                 ∧ declaredAs node scopeKind mutability (text t) b)
         ∧ (∀ n, (∀ t, bindingLeaf name t → text t ≠ n) →
              bindings (store bs2) T !! n = bindings (store bs) T !! n)
         ∧ (∀ other, scopeId other ≠ scopeId T →
              bindings (store bs2) other = bindings (store bs) other)
         ∧ scopeCount (store bs2) = scopeCount (store bs)
         ∧ childScopesOf (store bs2) = childScopesOf (store bs))
    ∧ (isVariableDeclarationList list = false → store bs2 = store bs))
    as (bs2 & Hprefix & Hr2 & Hlist & Hother).
  { unfold mbind at 1, M_bind, bind, required, ret. simpl.
    destruct (isVariableDeclarationList list).
    - rewrite Hname. unfold mbind, M_bind, bind, ret. simpl.
      pose proof (visitBindingName_declares node scopeKind mutability scope T Hstored
                    (height name) name (store bs) (le_n _) Hwfn) as Hspec.
      apply returns_Ok in Hspec as ([] & st2 & Hrun & (Hc & Hch & Hr & _ & Ho & Hn) & Hb).
      exists (mkBuildState st2 (result bs1)). unfold onStore. simpl.
      unfold FindScopes.visitBindingName. fold scopeKind mutability. rewrite Hrun.
      split; [done|]. split; [done|]. split; [|done]. intros _.
      split; [done|]. split; [|done].
      intros n Hnot. destruct (Hn n) as [?|[(t & Ht & Htext) _]]; [done|].
      by destruct (Hnot t Ht).
    - exists bs1. split; [done|]. split; [done|]. split; [done|]. done. }
  destruct (visitAllChildren_returns fuel node scope bs2 Hwf Hh Hfs) as (bs' & Hrest).
  exists bs2, bs'. split; [|split; [done|split; [by rewrite Hr2|done]]].
  rewrite builder_visitNodeFuel_S. unfold FindScopes.visitNodeBody.
  rewrite HB, HI, HF, HC, HL, Hnode.
  apply (seq_Ok _ _ bs bs1); [done|]. by apply (seq_Ok _ _ bs1 bs2).
Qed.

Lemma variableDeclaration_binds_witness :
  ∃ bs2 bs',
    FindScopes.visitNodeFuel 2 (Some var_list) var_decl blockScope nestedState = Ok (tt, bs')
    ∧ (∃ b, bindings (store bs2) functionScope !! "v" = Some b
            ∧ declaredAs var_decl FunctionScope Mutable "v" b)
    ∧ bindings (store bs2) blockScope !! "v" = None.
Proof.
  destruct (variableDeclaration_binds 1 var_list var_decl (ident 12 "v") blockScope
              functionScope nestedState)
    as (bs2 & bs' & Hrun & _ & _ & Hlist & _);
    [reflexivity | reflexivity | cbv; apply list_elem_of_here | vm_compute; lia
    | reflexivity | by exists functionScope | reflexivity |].
  destruct (Hlist eq_refl) as (Hleaves & _ & Hother & _).
  exists bs2, bs'. split; [exact Hrun|]. split.
  - apply (Hleaves (ident 12 "v")). by apply leaf_identifier.
  - rewrite (Hother blockScope); [reflexivity|discriminate].
Defined.

(** The children of a node, visited under [sc]: each is mapped to [sc], and
    stays so while its siblings are visited. *)
Lemma visitAllChildren_children fuel node sc bs :
  wellFormed node = true → height node ≤ S fuel → is_Some (functionScopeFrom sc) →
  NoDup (nodeIds node) →
  returns (FindScopes.visitAllChildren (FindScopes.visitNodeFuel fuel) node sc) bs
    (λ _ bs', Built (below node) (below node) (scopeCount (store bs)) sc bs bs'
              ∧ ∀ c, c ∈ forEachChild node → result bs' !! nid c = Some sc).
Proof.
  intros Hwf Hh Hfs Hnd. unfold FindScopes.visitAllChildren.
  eapply outcome_mono.
  - apply (outcome_forEach_each _
             (λ bs1, Built (below node) (below node) (scopeCount (store bs)) sc bs bs1)
             (λ c bs1, c ∈ forEachChild node → result bs1 !! nid c = Some sc));
      [apply Built_refl|].
    intros a bs1 Ha HI. eapply outcome_mono.
    + apply (builder_visitNode_spec fuel (Some node) a sc bs1); [|by split|done].
      pose proof (height_child _ _ Ha). lia.
    + intros [] bs2 [HB Hroot].
      assert (Ha2 : result bs2 !! nid a = Some sc).
      { apply Hroot. by eapply unique_child. }
      split; [|split; [done|]].
      * eapply Built_trans; [done|].
        eapply Built_weaken; [done| | | |by left]; [by exists a..|].
        destruct HI. lia.
      * intros b Hb Hbc.
        destruct (built_result _ _ _ _ _ _ HB (nid b)) as [->|(x & t & Hx & Heq & _)];
          [by apply Hb|].
        assert (b = a) as ->; [|done].
        eapply (unique_children node b a b x); eauto using subnodes_self.
  - intros [] bs' [HB H]. split; [done|]. intros c Hc. by apply H.
Qed.

(** X15. A block gets a fresh child scope of kind [LexicalScope] of the current
    scope, declared by the block.  The block itself stays mapped to the
    current scope; its children are visited under the block scope and are
    mapped to it.  When the block is the body of a catch clause with a
    variable, the identifiers that the variable's name declares are bound
    [Mutable] with kind [LexicalScope] in the block scope, for the catch
    clause; otherwise the table of the block scope is empty when the children
    are visited. *)
Theorem block_scope (fuel : nat) (parentNode node : Node) (scope : Scope)
    (bs : BuildState) :
  isBlock node = true →
  wellFormed parentNode = true → node ∈ forEachChild parentNode → height node ≤ S fuel →
  is_Some (functionScopeFrom scope) → scopeId scope < scopeCount (store bs) →
  let blockScope := mkScope (scopeCount (store bs)) LexicalScope node (Some scope) in
  ∃ bs2 bs',
    FindScopes.visitNodeFuel (S fuel) (Some parentNode) node scope bs = Ok (tt, bs')
    ∧ FindScopes.visitAllChildren (FindScopes.visitNodeFuel fuel) node blockScope bs2
      = Ok (tt, bs')
    ∧ result bs2 = <[nid node := scope]> (result bs)
    ∧ childScopes (store bs2) scope = childScopes (store bs) scope ++ [blockScope]
    ∧ scopeCount (store bs2) = S (scopeCount (store bs))
    ∧ (∀ other, scopeId other < scopeCount (store bs) →
         bindings (store bs2) other = bindings (store bs) other)
    ∧ (∀ variableDeclaration name,
         isCatchClause parentNode = true →
         prop FVariableDeclaration parentNode = Some variableDeclaration →
         prop FName variableDeclaration = Some name →
         ∀ t, bindingLeaf name t →
           ∃ b, bindings (store bs2) blockScope !! text t = Some b
                ∧ declaredAs parentNode LexicalScope Mutable (text t) b)
    ∧ (isCatchClause parentNode = false ∨ prop FVariableDeclaration parentNode = None →
       bindings (store bs2) blockScope = ∅)
    ∧ (NoDup (nodeIds node) →
       ∀ c, c ∈ forEachChild node → result bs' !! nid c = Some blockScope).
Proof.
  intros Hnode Hwfp Hchild Hh Hfs Hvalid blockScope.
  assert (Hwf : wellFormed node = true) by by eapply wellFormed_child.
  set (bs1 := mkBuildState (store bs) (<[nid node := scope]> (result bs))).
  set (st1 := mkStore (<[scopeCount (store bs) := ∅]> (bindingsOf (store bs)))
                (<[scopeId scope := childScopes (store bs) scope ++ [blockScope]]>
                   (<[scopeCount (store bs) := []]> (childScopesOf (store bs))))
                (<[scopeCount (store bs) := []]> (referencesOf (store bs)))
                (bindingReferencesOf (store bs)) (S (scopeCount (store bs)))
                (bindingCount (store bs))).
  assert (Hnew : onStore (newChildScope scope LexicalScope node) bs1
                 = Ok (blockScope, mkBuildState st1 (result bs1))).
  { unfold onStore, newChildScope, mbind, M_bind, bind, newScope, modify, mret, M_ret, ret.
    simpl. unfold st1, childScopes. simpl.
    by rewrite (lookup_total_insert_ne _ (scopeCount (store bs))) by lia. }
  assert (Hfsb : is_Some (functionScopeFrom blockScope)) by done.
  assert (Hempty : bindings st1 blockScope = ∅).
  { unfold bindings, st1. simpl. by rewrite lookup_total_insert_eq. }
  assert (∃ bs2,
    (if isCatchClause parentNode
     then match prop FVariableDeclaration parentNode with
          | Some variableDeclaration =>
              name ← required (prop FName variableDeclaration);
              onStore (FindScopes.visitBindingName name parentNode blockScope
                         LexicalScope Mutable)
          | None => mret tt
          end
     else mret tt) (mkBuildState st1 (result bs1)) = Ok (tt, bs2)
    ∧ result bs2 = result bs1
    ∧ childScopesOf (store bs2) = childScopesOf st1
    ∧ scopeCount (store bs2) = scopeCount st1
    ∧ (∀ other, scopeId other ≠ scopeId blockScope →
         bindings (store bs2) other = bindings st1 other)
    ∧ (∀ variableDeclaration name,
         isCatchClause parentNode = true →
         prop FVariableDeclaration parentNode = Some variableDeclaration →
         prop FName variableDeclaration = Some name →
         ∀ t, bindingLeaf name t →
           ∃ b, bindings (store bs2) blockScope !! text t = Some b
                ∧ declaredAs parentNode LexicalScope Mutable (text t) b)
    ∧ (isCatchClause parentNode = false ∨ prop FVariableDeclaration parentNode = None →
       bindings (store bs2) blockScope = ∅))
    as (bs2 & Hprefix & Hr2 & Hch2 & Hc2 & Ho2 & Hcatch & Hnone).
  { destruct (isCatchClause parentNode) eqn:Hcc.
    2: { eexists. split; [reflexivity|]. repeat split; try done. }
    destruct (prop FVariableDeclaration parentNode) as [vd|] eqn:Hvd.
    2: { eexists. split; [reflexivity|]. repeat split; try done. }
    assert (Hhas : hasName vd = true).
    { pose proof (wellFormed_node parentNode parentNode Hwfp (subnodes_self _)) as Hn.
      unfold wellFormedNode in Hn. kind_of Hcc. by rewrite Hvd in Hn. }
    apply defined_Some in Hhas as [nm Hnm]. rewrite Hnm.
    assert (Hwfn : wellFormed nm = true).
    { apply (wellFormed_child vd); [|by eapply prop_child].
      apply (wellFormed_child parentNode); [done|by eapply prop_child]. }
    pose proof (visitBindingName_declares parentNode LexicalScope Mutable blockScope
                  blockScope eq_refl (height nm) nm st1 (le_n _) Hwfn) as Hspec.
    apply returns_Ok in Hspec as ([] & st2 & Hrun & (Hc & Hch & Hr & _ & Ho & Hn) & Hb).
    exists (mkBuildState st2 (result bs1)).
    unfold mbind at 1, M_bind, bind, required, ret, onStore. simpl.
    unfold FindScopes.visitBindingName. rewrite Hrun.
    split; [done|]. split; [done|]. split; [done|]. split; [done|].
    split; [done|]. split.
    - intros vd' name' _ [= <-] Hname'. rewrite Hnm in Hname'. injection Hname' as <-.
      exact Hb.
    - intros [?|?]; done. }
  assert (Hrest : ∃ bs',
    FindScopes.visitAllChildren (FindScopes.visitNodeFuel fuel) node blockScope bs2
      = Ok (tt, bs')
    ∧ (NoDup (nodeIds node) →
       ∀ c, c ∈ forEachChild node → result bs' !! nid c = Some blockScope)).
  { destruct (visitAllChildren_returns fuel node blockScope bs2 Hwf Hh Hfsb) as (bs' & Hrun).
    exists bs'. split; [done|]. intros Hnd.
    destruct (returns_unit _ _ _ (visitAllChildren_children fuel node blockScope bs2
                                    Hwf Hh Hfsb Hnd)) as (bs'' & Hrun' & _ & Hall).
    rewrite Hrun in Hrun'. by injection Hrun' as <-. }
  destruct Hrest as (bs' & Hrest & Hmapped).
  exists bs2, bs'. split; [|split; [done|]].
  { rewrite builder_visitNodeFuel_S. unfold FindScopes.visitNodeBody. rewrite Hnode.
    apply (seq_Ok _ _ bs bs1); [done|].
    rewrite (bind_Ok _ _ _ _ _ Hnew). unfold mbind at 1, M_bind, bind, required, ret. simpl.
    by apply (seq_Ok _ _ _ bs2). }
  split; [by rewrite Hr2|]. split.
  { unfold childScopes. rewrite Hch2. unfold st1. simpl.
    by rewrite lookup_total_insert_eq. }
  split; [by rewrite Hc2|]. split; [|done].
  intros other Hother. rewrite Ho2 by (simpl; lia).
  unfold bindings, st1. simpl. apply lookup_total_insert_ne. lia.
Qed.

Lemma block_scope_witness :
  ∃ bs2 bs',
    FindScopes.visitNodeFuel 3 (Some catch_clause) catch_block outerScope rootState
      = Ok (tt, bs')
    ∧ (∃ b, bindings (store bs2) (mkScope 1 LexicalScope catch_block (Some outerScope)) !! "e"
            = Some b
            ∧ declaredAs catch_clause LexicalScope Mutable "e" b)
    ∧ childScopes (store bs2) outerScope = [mkScope 1 LexicalScope catch_block (Some outerScope)].
Proof.
  destruct (block_scope 2 catch_clause catch_block outerScope rootState)
    as (bs2 & bs' & Hrun & _ & _ & Hchildren & _ & _ & Hcatch & _);
    [reflexivity | reflexivity | cbv; apply list_elem_of_further, list_elem_of_here
    | vm_compute; lia | by exists outerScope | vm_compute; lia |].
  exists bs2, bs'. split; [exact Hrun|]. split; [|exact Hchildren].
  apply (Hcatch (tree 21 VariableDeclaration [(FName, catch_name)]) catch_name
           eq_refl eq_refl eq_refl catch_name).
  by apply leaf_identifier.
Defined.

Lemma required_Ok {S A B} (o : option A) (a : A) (k : A → M S B) s :
  o = Some a → (x ← required o; k x) s = k a s.
Proof. by intros ->. Qed.

Lemma onStore_Ok {A} (m : M Store A) bs a st' :
  m (store bs) = Ok (a, st') → onStore m bs = Ok (a, mkBuildState st' (result bs)).
Proof. unfold onStore. by intros ->. Qed.

Section Imports.
Variables (node : Node) (sc T : Scope).
Hypothesis Hfs : functionScopeFrom sc = Some T.

Lemma importsOnly_refl st : importsOnly (imported node) T st st.
Proof. repeat split; try done. intros n. by left. Qed.

Lemma importsOnly_trans st1 st2 st3 :
  importsOnly (imported node) T st1 st2 → importsOnly (imported node) T st2 st3 →
  importsOnly (imported node) T st1 st3.
Proof.
  intros (Hc1 & Hch1 & Hr1 & Ho1 & Hn1) (Hc2 & Hch2 & Hr2 & Ho2 & Hn2).
  split; [congruence|]. split; [congruence|]. split; [congruence|].
  split; [intros other Hne; rewrite Ho2, Ho1; done|].
  intros n. destruct (Hn2 n) as [Hsame|Hnew]; [|by right].
  rewrite Hsame. apply Hn1.
Qed.

Lemma importsOnly_bound st st' t :
  importsOnly (imported node) T st st' → importBound node T st t → importBound node T st' t.
Proof.
  intros (_ & _ & _ & _ & Hn) (t' & d & b & Himp & Htext & Hb & Has).
  destruct (Hn (text t)) as [Hsame|(t2 & d2 & b2 & Himp2 & Htext2 & Hb2 & Has2)].
  - exists t', d, b. by rewrite Hsame.
  - by exists t2, d2, b2.
Qed.

(** One [scope.addBinding] of an imported name. *)
Lemma import_declared st t d :
  imported node t d →
  ∃ st', (declaration ← newBinding d FunctionScope (text t) Immutable;
          addBinding sc (text t) declaration) st = Ok (tt, st')
         ∧ importsOnly (imported node) T st st' ∧ importBound node T st' t.
Proof.
  intros Himp.
  pose proof (declare_declares d FunctionScope Immutable sc T Hfs st t) as H.
  apply returns_unit in H as (st' & Hrun & (Hc & Hch & Hr & _ & Ho & Hn) & b & Hb & Has).
  exists st'. split; [exact Hrun|]. split.
  - split; [done|]. split; [done|]. split; [done|]. split; [done|].
    intros n. destruct (Hn n) as [Hsame|[(t' & -> & Htext) (b' & Hb' & Has')]]; [by left|].
    right. by exists t, d, b'.
  - by exists t, d, b.
Qed.
End Imports.

(** X16. An import clause binds every name it imports: the default import, the
    name of a namespace import and the name of every import specifier get an
    [Immutable] binding of kind [FunctionScope] in the function scope that the
    current scope hoists to, made for the clause, the namespace import and the
    specifier.  A text imported twice has the binding of one of the imports
    of that text.  Nothing else changes before the children of the clause
    are visited under the current scope: no scope is made, no other table and
    no other name is touched. *)
Theorem importClause_binds (fuel : nat) (parent : option Node) (node : Node)
    (scope T : Scope) (bs : BuildState) :
  isImportClause node = true → wellFormed node = true → height node ≤ S fuel →
  functionScopeFrom scope = Some T →
  ∃ bs2 bs',
    FindScopes.visitNodeFuel (S fuel) parent node scope bs = Ok (tt, bs')
    ∧ FindScopes.visitAllChildren (FindScopes.visitNodeFuel fuel) node scope bs2 = Ok (tt, bs')
    ∧ result bs2 = <[nid node := scope]> (result bs)
    ∧ importsOnly (imported node) T (store bs) (store bs2)
    ∧ ∀ t d, imported node t d → importBound node T (store bs2) t.
Proof.
  intros Hnode Hwf Hh Hfs.
  pose proof (wellFormed_node node node Hwf (subnodes_self _)) as Hshape.
  unfold wellFormedNode in Hshape.
  assert (HB : isBlock node = false).
  { unfold isImportClause, isBlock in *. by destruct (kind node). }
  assert (Hkind : kind node = ImportClause).
  { unfold isImportClause in Hnode. by destruct (kind node). }
  rewrite Hkind in Hshape.
  set (bs1 := mkBuildState (store bs) (<[nid node := scope]> (result bs))).
  (* the default import *)
  assert (∃ bs2,
    match prop FName node with
    | Some name =>
        onStore (declaration ← newBinding node FunctionScope (text name) Immutable;
                 addBinding scope (text name) declaration)
    | None => mret tt
    end bs1 = Ok (tt, bs2)
    ∧ result bs2 = result bs1
    ∧ importsOnly (imported node) T (store bs) (store bs2)
    ∧ ∀ t, prop FName node = Some t → importBound node T (store bs2) t)
    as (bs2 & Hrun2 & Hr2 & Honly2 & Hbound2).
  { destruct (prop FName node) as [name|] eqn:Hname.
    - destruct (import_declared node scope T Hfs (store bs) name node)
        as (st' & Hrun & Honly & Hb); [by left|].
      exists (mkBuildState st' (result bs1)). rewrite (onStore_Ok _ bs1 _ _ Hrun).
      split; [done|]. split; [done|]. split; [done|]. by intros t [= <-].
    - exists bs1. split; [done|]. split; [done|]. split; [apply importsOnly_refl|done]. }
  (* the named bindings *)
  assert (∃ bs3,
    match prop FNamedBindings node with
    | Some namedBindings =>
        if isNamespaceImport namedBindings then
          name ← required (prop FName namedBindings);
          onStore (declaration ← newBinding namedBindings FunctionScope (text name) Immutable;
                   addBinding scope (text name) declaration)
        else
          forEach (propAll FElements namedBindings)
            (λ el,
               name ← required (prop FName el);
               onStore (declaration ← newBinding el FunctionScope (text name) Immutable;
                        addBinding scope (text name) declaration))
    | None => mret tt
    end bs2 = Ok (tt, bs3)
    ∧ result bs3 = result bs2
    ∧ importsOnly (imported node) T (store bs) (store bs3)
    ∧ ∀ t d, imported node t d → importBound node T (store bs3) t)
    as (bs3 & Hrun3 & Hr3 & Honly3 & Hbound3).
  { destruct (prop FNamedBindings node) as [namedBindings|] eqn:Hnamed.
    2: { exists bs2. split; [done|]. split; [done|]. split; [done|].
         intros t d [[Ht _]|(nb & ? & _)]; [by apply Hbound2|congruence]. }
    destruct (isNamespaceImport namedBindings) eqn:Hns.
    - apply defined_Some in Hshape as [name Hname].
      assert (Himp : imported node name namedBindings).
      { right. exists namedBindings. by rewrite Hns. }
      destruct (import_declared node scope T Hfs (store bs2) name namedBindings Himp)
        as (st' & Hrun & Honly & Hb).
      exists (mkBuildState st' (result bs2)).
      rewrite (required_Ok _ name) by done. rewrite (onStore_Ok _ _ _ _ Hrun).
      split; [done|]. split; [done|].
      split; [by apply (importsOnly_trans _ _ _ (store bs2))|].
      intros t d [[Ht _]|(nb & Heq & Hnb)].
      2: rewrite Hnamed in Heq; injection Heq as <-.
      + apply (importsOnly_bound _ _ (store bs2)); [done|by apply Hbound2].
      + rewrite Hns in Hnb. destruct Hnb as [Ht _]. rewrite Hname in Ht.
        by injection Ht as <-.
    - apply returns_unit.
      eapply outcome_mono.
      + apply (outcome_forEach_each _
                 (λ bs', result bs' = result bs2
                         ∧ importsOnly (imported node) T (store bs) (store bs')
                         ∧ ∀ t, prop FName node = Some t → importBound node T (store bs') t)
                 (λ el bs', ∀ t, prop FName el = Some t → importBound node T (store bs') t));
          [done|].
        intros el bs' Hel (Hr' & Honly' & Hdefault).
        assert (Hhas : hasName el = true).
        { rewrite forallb_forall in Hshape. apply Hshape. by apply list_elem_of_In. }
        apply defined_Some in Hhas as [name Hname].
        assert (Himp : imported node name el).
        { right. exists namedBindings. by rewrite Hns. }
        destruct (import_declared node scope T Hfs (store bs') name el Himp)
          as (st' & Hrun & Hstep & Hb).
        unfold outcome. rewrite (required_Ok _ name) by done.
        rewrite (onStore_Ok _ _ _ _ Hrun).
        split; [|split].
        * split; [done|]. split; [by apply (importsOnly_trans _ _ _ (store bs'))|].
          intros t Ht. apply (importsOnly_bound _ _ (store bs')); [done|by apply Hdefault].
        * intros t Ht. rewrite Hname in Ht. by injection Ht as <-.
        * intros b Hbefore t Ht.
          apply (importsOnly_bound _ _ (store bs')); [done|by apply Hbefore].
      + intros [] bs3 [(Hr3 & Honly3 & Hdefault) Hall].
        split; [done|]. split; [done|].
        intros t d [[Ht _]|(nb & Heq & Hnb)]; [by apply Hdefault|].
        rewrite Hnamed in Heq. injection Heq as <-.
        rewrite Hns in Hnb. destruct Hnb as [Hd Ht]. by apply (Hall d). }
  destruct (visitAllChildren_returns fuel node scope bs3 Hwf Hh) as (bs' & Hrest); [by eauto|].
  exists bs3, bs'. split; [|split; [done|]].
  { rewrite builder_visitNodeFuel_S. unfold FindScopes.visitNodeBody. rewrite HB, Hnode.
    apply (seq_Ok _ _ bs bs1); [done|].
    apply (seq_Ok _ _ _ bs2); [done|]. by apply (seq_Ok _ _ _ bs3). }
  split; [by rewrite Hr3, Hr2|]. by split.
Qed.

Lemma importClause_binds_witness :
  ∃ bs2 bs',
    FindScopes.visitNodeFuel 4 None import_clause blockScope nestedState = Ok (tt, bs')
    ∧ importBound import_clause functionScope (store bs2) import_b
    ∧ bindings (store bs2) blockScope = bindings (store nestedState) blockScope.
Proof.
  destruct (importClause_binds 3 None import_clause blockScope functionScope nestedState)
    as (bs2 & bs' & Hrun & _ & _ & Honly & Hbound);
    [reflexivity | reflexivity | vm_compute; lia | reflexivity |].
  exists bs2, bs'. split; [exact Hrun|]. split.
  - apply (Hbound import_b import_specifier). right.
    eexists. split; [reflexivity|]. simpl. split; [|reflexivity].
    apply list_elem_of_here.
  - destruct Honly as (_ & _ & _ & Hother & _). by apply Hother.
Defined.

Section Parameters.
Variables (paramDecl : Node) (scope T : Scope).
Hypothesis Hfs : functionScopeFrom scope = Some T.

Let bound (st : Store) (t : Node) : Prop :=
  ∃ b, bindings st T !! text t = Some b ∧ declaredAs paramDecl FunctionScope Mutable (text t) b.

(** One element of a parameter's pattern. *)
Lemma parameter_element name el st0 st1 :
  wellFormed name = true → el ∈ propAll FElements name → hasName el = true →
  (∀ nm t, prop FName el = Some nm → bindingLeaf nm t → bindingLeaf name t) →
  declares paramDecl FunctionScope Mutable T (bindingLeaf name) st0 st1 →
  returns (FindScopes.visitBindingElement FindScopes.visitBindingName
             el paramDecl scope FunctionScope Mutable) st1
    (λ _ st2, declares paramDecl FunctionScope Mutable T (bindingLeaf name) st0 st2
              ∧ (∀ nm t, prop FName el = Some nm → bindingLeaf nm t → bound st2 t)
              ∧ ∀ x, bound st1 x → bound st2 x).
Proof.
  intros Hwf Hel Hname Hleaf H01. apply propAll_child in Hel.
  apply defined_Some in Hname as [nm Hnm].
  pose proof (prop_child _ _ _ Hnm) as Hnmc.
  unfold FindScopes.visitBindingElement. rewrite Hnm.
  apply outcome_bind, outcome_ret. eapply outcome_mono.
  - apply (visitBindingName_declares paramDecl FunctionScope Mutable scope T Hfs
             (height nm) nm st1 (le_n _)).
    apply (wellFormed_child el); [|done]. by apply (wellFormed_child name).
  - intros [] st2 [H12 Hb]. split; [|split].
    + eapply (declares_trans _ _ _ _ (bindingLeaf name) (bindingLeaf nm)); [done| |done..].
      intros t. by apply Hleaf.
    + intros nm' t [= <-]. apply Hb.
    + intros x. by apply (declares_bound _ _ _ _ (bindingLeaf nm) st1 st2).
Qed.

(** What [visitParameterDeclaration] does after the visit of the parameter. *)
Lemma parameter_name_declares name st :
  wellFormed name = true →
  isIdentifier name || isObjectBindingPattern name || isArrayBindingPattern name = true →
  returns
    (if isIdentifier name then
       declaration ← newBinding paramDecl FunctionScope (text name) Mutable;
       addBinding scope (text name) declaration
     else if isObjectBindingPattern name then
       forEach (propAll FElements name)
         (λ el, FindScopes.visitBindingElement FindScopes.visitBindingName el paramDecl scope
                  FunctionScope Mutable)
     else
       forEach (propAll FElements name)
         (λ el, FindScopes.visitArrayBindingElement FindScopes.visitBindingName el paramDecl
                  scope FunctionScope Mutable)) st
    (λ _ st', declares paramDecl FunctionScope Mutable T (bindingLeaf name) st st'
              ∧ ∀ t, bindingLeaf name t → bound st' t).
Proof.
  intros Hwf Hkind.
  destruct (isIdentifier name) eqn:Hid.
  { eapply outcome_mono;
      [apply (declare_declares paramDecl FunctionScope Mutable scope T Hfs st name)|].
    intros [] st' [Hd Hb]. split.
    - eapply (declares_trans _ _ _ _ _ _ _ st st); [| |apply declares_refl|done].
      + done.
      + intros t ->. by apply leaf_identifier.
    - intros t Ht. apply bindingLeaf_inv in Ht as [[_ ->]|(el & nm & Hk & _)]; [done|].
      exfalso. destruct Hk as [Hk|[Hk _]]; revert Hid Hk;
        unfold isIdentifier, isObjectBindingPattern, isArrayBindingPattern;
        by destruct (kind name). }
  destruct (isObjectBindingPattern name) eqn:Hobj.
  { eapply outcome_mono.
    - apply (outcome_forEach_each _
               (λ st', declares paramDecl FunctionScope Mutable T (bindingLeaf name) st st')
               (λ el st', ∀ nm t, prop FName el = Some nm → bindingLeaf nm t → bound st' t)).
      { apply declares_refl. }
      intros el st1 Hel H01. eapply outcome_mono.
      + apply (parameter_element name el st st1); [done|done| |by intros; eapply leaf_object|done].
        pose proof (wellFormed_node name name Hwf (subnodes_self _)) as Hn.
        unfold wellFormedNode in Hn. kind_of Hobj. by eapply forallb_elem_of.
      + intros [] st2 (H02 & Hel2 & Hkeep). split; [done|]. split; [done|].
        intros b Hb nm t Hnm Ht. apply Hkeep. by eapply Hb.
    - intros [] st' [Hd Hall]. split; [done|].
      intros t Ht. apply bindingLeaf_inv in Ht as [[Hid' _]|(el & nm & _ & Hel & Hnm & Ht)].
      + congruence.
      + by eapply Hall. }
  simpl in Hkind.
  eapply outcome_mono.
  - apply (outcome_forEach_each _
             (λ st', declares paramDecl FunctionScope Mutable T (bindingLeaf name) st st')
             (λ el st', isBindingElement el = true →
                        ∀ nm t, prop FName el = Some nm → bindingLeaf nm t → bound st' t)).
    { apply declares_refl. }
    intros el st1 Hel H01. unfold FindScopes.visitArrayBindingElement.
    destruct (isBindingElement el) eqn:Hbe.
    + eapply outcome_mono.
      * apply (parameter_element name el st st1); [done|done| |by intros; eapply leaf_array|done].
        assert (wellFormedNode el = true) as Hn.
        { apply (wellFormed_node name); [done|].
          eapply subnodes_child; [by eapply propAll_child|apply subnodes_self]. }
        unfold wellFormedNode in Hn. by kind_of Hbe.
      * intros [] st2 (H02 & Hel2 & Hkeep). split; [done|]. split; [done|].
        intros b Hb Hbb nm t Hnm Ht. apply Hkeep. by eapply Hb.
    + apply outcome_ret. split; [done|]. split; [done|]. done.
  - intros [] st' [Hd Hall]. split; [done|].
    intros t Ht. apply bindingLeaf_inv in Ht as [[Hid' _]|(el & nm & Hk & Hel & Hnm & Ht)].
    + congruence.
    + destruct Hk as [Hk|[_ Hbe]]; [congruence|]. by eapply Hall.
Qed.
End Parameters.

(** X17. [visitParameterDeclaration] first visits the parameter as a node, under
    the scope it is given, and then binds every identifier that the
    parameter's name declares (the name itself, or the leaves of a
    destructuring pattern) in the function scope that this scope hoists to,
    with a [Mutable] binding of kind [FunctionScope] made for the parameter.
    The bindings are made after the visit, so nothing that the parameter's
    default value declares takes their place.  The map, the scopes and every
    other table entry are as the visit of the parameter left them. *)
Theorem visitParameterDeclaration_binds (fuel : nat) (functionLike paramDecl name : Node)
    (scope T : Scope) (bs : BuildState) :
  wellFormed functionLike = true → paramDecl ∈ forEachChild functionLike →
  height paramDecl ≤ fuel → prop FName paramDecl = Some name →
  isIdentifier name || isObjectBindingPattern name || isArrayBindingPattern name = true →
  functionScopeFrom scope = Some T →
  ∃ bs1 bs',
    FindScopes.visitNodeFuel fuel (Some functionLike) paramDecl scope bs = Ok (tt, bs1)
    ∧ FindScopes.visitParameterDeclaration (FindScopes.visitNodeFuel fuel)
        functionLike paramDecl scope bs = Ok (tt, bs')
    ∧ result bs' = result bs1
    ∧ declares paramDecl FunctionScope Mutable T (bindingLeaf name) (store bs1) (store bs')
    ∧ ∀ t, bindingLeaf name t →
        ∃ b, bindings (store bs') T !! text t = Some b
             ∧ declaredAs paramDecl FunctionScope Mutable (text t) b.
Proof.
  intros Hwf Hchild Hh Hname Hkind Hfs.
  assert (Hwfn : wellFormed name = true).
  { apply (wellFormed_child paramDecl); [|by eapply prop_child].
    by apply (wellFormed_child functionLike). }
  pose proof (builder_visitNode_spec fuel (Some functionLike) paramDecl scope bs Hh) as Hvisit.
  apply returns_unit in Hvisit as (bs1 & Hrun1 & _); [|by split|by eauto].
  pose proof (parameter_name_declares paramDecl scope T Hfs name (store bs1) Hwfn Hkind) as Hdecl.
  apply returns_unit in Hdecl as (st' & Hrun2 & Hd & Hb).
  exists bs1, (mkBuildState st' (result bs1)).
  split; [done|]. split; [|by split].
  unfold FindScopes.visitParameterDeclaration.
  rewrite (bind_Ok _ _ _ _ _ Hrun1). rewrite (required_Ok _ name) by done.
  destruct (isIdentifier name); [by apply onStore_Ok|].
  destruct (isObjectBindingPattern name); by apply onStore_Ok.
Qed.

Lemma visitParameterDeclaration_binds_witness :
  ∃ bs',
    FindScopes.visitParameterDeclaration (FindScopes.visitNodeFuel 6)
      function_f parameter_of_f functionScope nestedState = Ok (tt, bs')
    ∧ (∃ b, bindings (store bs') functionScope !! "c" = Some b
            ∧ declaredAs parameter_of_f FunctionScope Mutable "c" b).
Proof.
  destruct (visitParameterDeclaration_binds 6 function_f parameter_of_f pattern_of_f
              functionScope functionScope nestedState)
    as (bs1 & bs' & _ & Hrun & _ & _ & Hbound);
    [reflexivity | cbv; apply list_elem_of_further, list_elem_of_here | vm_compute; lia
    | reflexivity | reflexivity | reflexivity |].
  exists bs'. split; [exact Hrun|].
  apply (Hbound c_of_f).
  eapply leaf_object;
    [reflexivity | cbv; apply list_elem_of_further, list_elem_of_here | reflexivity |].
  eapply leaf_array;
    [reflexivity | cbv; apply list_elem_of_here | reflexivity | reflexivity |].
  by apply leaf_identifier.
Defined.

(** ** The scope of a function *)

Lemma onStore_result {A} (m : M Store A) bs a bs' :
  onStore m bs = Ok (a, bs') → result bs' = result bs.
Proof.
  unfold onStore. destruct (m (store bs)) as [[a' st']| |]; [|done..].
  by intros [= _ <-].
Qed.

(** [visitParameterDeclaration] maps nothing after the visit of the parameter. *)
Lemma visitParameterDeclaration_result visitNode functionLike paramDecl sc bs bs' :
  FindScopes.visitParameterDeclaration visitNode functionLike paramDecl sc bs = Ok (tt, bs') →
  ∃ bs1, visitNode (Some functionLike) paramDecl sc bs = Ok (tt, bs1)
         ∧ result bs' = result bs1.
Proof.
  unfold FindScopes.visitParameterDeclaration. intros H.
  apply bind_Ok_inv in H as ([] & bs1 & Hvisit & H). exists bs1. split; [done|].
  apply bind_Ok_inv in H as (name & bs2 & Hreq & H).
  assert (bs2 = bs1) as ->.
  { unfold required in Hreq. destruct (prop FName paramDecl); [|done]. by injection Hreq. }
  destruct (isIdentifier name); [by eapply onStore_result|].
  destruct (isObjectBindingPattern name); by eapply onStore_result.
Qed.

(** What is mapped below [node] leaves the entry of [node]. *)
Lemma Built_keeps_root node D base s bs bs' :
  NoDup (nodeIds node) → Built (below node) D base s bs bs' →
  result bs' !! nid node = result bs !! nid node.
Proof.
  intros Hnd HB.
  destruct (built_result _ _ _ _ _ _ HB (nid node)) as [?|(x & t & (c & Hc & Hx) & Heq & _)];
    [done|].
  by destruct (unique_child_nid node c x Hnd Hc Hx).
Qed.

(** Scopes stay in the list of child scopes they were appended to. *)
Lemma Built_keeps_child N D base s bs bs' this c :
  Built N D base s bs bs' → scopeId this < scopeCount (store bs) →
  c ∈ childScopes (store bs) this → c ∈ childScopes (store bs') this.
Proof.
  intros HB Hthis Hc. unfold childScopes in *.
  destruct (built_children_old _ _ _ _ _ _ HB _ Hthis) as (new & -> & _).
  apply elem_of_app. by left.
Qed.

Section FunctionScope.
Variables (fuel : nat) (node : Node) (functionScope : Scope).
Hypothesis Hwf : wellFormed node = true.
Hypothesis Hfl : isFunctionLike node = true.
Hypothesis Hh : height node ≤ S fuel.
Hypothesis Hfs : is_Some (functionScopeFrom functionScope).
Hypothesis Hnd : NoDup (nodeIds node).

(** The nodes that may declare a scope while the function is visited: the
    nodes of its tree, the block of its body apart. *)
Let apart (x : Node) : Prop :=
  x ∈ subnodes node
  ∧ ∀ body, prop FBody node = Some body → isBlock body = true → x ≠ body.

(** The parameters, visited under the function scope. *)
Lemma parameters_mapped bs :
  returns
    (forEach (propAll FParameters node)
       (λ p, FindScopes.visitParameterDeclaration (FindScopes.visitNodeFuel fuel)
               node p functionScope)) bs
    (λ _ bs', Built (below node) apart (scopeCount (store bs)) functionScope bs bs'
              ∧ ∀ p, p ∈ propAll FParameters node → result bs' !! nid p = Some functionScope).
Proof.
  pose proof (builder_visitNode_spec fuel) as IH.
  eapply outcome_mono.
  - apply (outcome_forEach_each _
             (λ bs1, Built (below node) apart (scopeCount (store bs))
                       functionScope bs bs1)
             (λ p bs1, p ∈ propAll FParameters node →
                       result bs1 !! nid p = Some functionScope));
      [apply Built_refl|].
    intros a bs1 Ha HI. pose proof (propAll_child _ _ _ Ha) as Hac.
    assert (Hha : height a ≤ fuel).
    { pose proof (height_child _ _ Hac). lia. }
    assert (Hname : hasName a = true).
    { pose proof (wellFormed_node _ _ Hwf (subnodes_self _)) as Hn.
      unfold wellFormedNode in Hn. rewrite Hfl in Hn.
      kind_of Hfl; by eapply forallb_elem_of. }
    pose proof (visitParameterDeclaration_sub fuel _ IH (.∈ subnodes a) (.∈ subnodes a)
                  (scopeCount (store bs1)) functionScope functionScope bs1 bs1 node a
                  (Built_refl _ _ _ _ _) (le_n _) Hwf Hac Hname Hha (scopeUnder_refl _ _) Hfs
                  (λ x Hx, conj Hx Hx)) as Hwhole.
    apply returns_unit in Hwhole as (bs2 & Hrun & HB).
    unfold outcome. rewrite Hrun.
    apply visitParameterDeclaration_result in Hrun as (bsv & Hvisit & Hres).
    pose proof (IH (Some node) a functionScope bs1 Hha (conj Hwf Hac) Hfs) as Hroot.
    apply returns_unit in Hroot as (bsv' & Hvisit' & _ & Hroot).
    rewrite Hvisit in Hvisit'. injection Hvisit' as <-.
    assert (Ha2 : result bs2 !! nid a = Some functionScope).
    { rewrite Hres. apply Hroot. by eapply unique_child. }
    split; [|split; [done|]].
    + eapply Built_trans; [done|].
      eapply Built_weaken; [done| | | |by left]; [by exists a| |destruct HI; lia].
      intros x Hx. split; [by eapply subnodes_child|]. intros body Hb _ Heq. subst x.
      apply propAll_lookup in Ha as [i Hi]. apply prop_lookup in Hb as [j Hj].
      by destruct (unique_fields node i j FParameters FBody a body body body Hnd Hi Hj
                     ltac:(done) Hx (subnodes_self _)).
    + intros b Hb Hbp.
      destruct (built_result _ _ _ _ _ _ HB (nid b)) as [->|(x & t & Hx & Heq & _)];
        [by apply Hb|].
      assert (b = a) as ->; [|done].
      eapply (unique_children node b a b x); eauto using subnodes_self, propAll_child.
  - intros [] bs' [HB H]. split; [done|]. intros p Hp. by apply H.
Qed.

(** The body, visited under the function scope. *)
Lemma body_mapped bs :
  returns
    (if isConstructorDeclaration node || isMethodDeclaration node
        || isFunctionDeclaration node || isArrowFunction node
        || isFunctionExpression node || isGetAccessorDeclaration node
        || isSetAccessorDeclaration node
     then
       match prop FBody node with
       | None => mret tt
       | Some body =>
           if isBlock body then
             resultSet body functionScope;;
             FindScopes.visitAllChildren (FindScopes.visitNodeFuel fuel) body functionScope
           else FindScopes.visitNodeFuel fuel (Some node) body functionScope
       end
     else mret tt) bs
    (λ _ bs', Built (below node) apart (scopeCount (store bs)) functionScope bs bs'
              ∧ (∀ k, result bs' !! k = result bs !! k
                      ∨ ∃ body x, prop FBody node = Some body ∧ x ∈ subnodes body ∧ k = nid x)
              ∧ ∀ body, hasBody node = true → prop FBody node = Some body →
                  result bs' !! nid body = Some functionScope
                  ∧ (isBlock body = true →
                     ∀ c, c ∈ forEachChild body → result bs' !! nid c = Some functionScope)).
Proof.
  pose proof (builder_visitNode_spec fuel) as IH.
  change (isConstructorDeclaration node || isMethodDeclaration node
          || isFunctionDeclaration node || isArrowFunction node
          || isFunctionExpression node || isGetAccessorDeclaration node
          || isSetAccessorDeclaration node) with (hasBody node).
  destruct (hasBody node) eqn:Hhas.
  2: { apply outcome_ret. split; [apply Built_refl|]. split; [by left|done]. }
  destruct (prop FBody node) as [body|] eqn:Hbody.
  2: { apply outcome_ret. split; [apply Built_refl|]. split; [by left|done]. }
  pose proof (prop_child _ _ _ Hbody) as Hbc.
  assert (Hhb : height body ≤ fuel).
  { pose proof (height_child _ _ Hbc). lia. }
  assert (Hwfb : wellFormed body = true) by by eapply wellFormed_child.
  assert (Hndb : NoDup (nodeIds body)) by by eapply unique_child.
  destruct (isBlock body) eqn:Hblock.
  - apply outcome_bind. eapply outcome_mono.
    { apply (resultSet_returns (below node) apart (scopeCount (store bs))
               functionScope bs body functionScope); [|by left].
      exists body. split; [done|apply subnodes_self]. }
    intros [] bs1 (B1 & Hs1 & Hr1). eapply outcome_mono.
    { apply (visitAllChildren_children fuel body functionScope bs1); [done|lia|done..]. }
    intros [] bs2 (B2 & Hchildren).
    assert (Hsub : ∀ x, below body x → below node x).
    { intros x (c & Hc & Hx). exists body. split; [done|]. by eapply subnodes_child. }
    split; [|split].
    + eapply Built_trans; [done|].
      eapply Built_weaken; [done|done| | |by left]; [|rewrite Hs1; lia].
      intros x (c & Hc & Hx). split.
      * eapply subnodes_child; [done|]. by eapply subnodes_child.
      * intros body' Hb' _ Heq. subst x. try rewrite Hbody in Hb'. injection Hb' as <-.
        by destruct (unique_child_nid body c body Hndb Hc Hx).
    + intros k. destruct (built_result _ _ _ _ _ _ B2 k) as [->|(x & t & (c & Hc & Hx) & -> & _)].
      * rewrite Hr1. destruct (decide (k = nid body)) as [->|Hne].
        -- right. exists body, body. split; [done|]. split; [apply subnodes_self|done].
        -- left. by rewrite lookup_insert_ne.
      * right. exists body, x. split; [done|]. split; [by eapply subnodes_child|done].
    + intros body' _ [= <-]. split; [|by intros _].
      rewrite (Built_keeps_root body _ _ _ _ _ Hndb B2), Hr1. apply lookup_insert_eq.
  - eapply outcome_mono.
    { apply (IH (Some node) body functionScope bs Hhb (conj Hwf Hbc) Hfs). }
    intros [] bs1 (B1 & Hroot). split; [|split].
    + eapply Built_weaken; [done| | |done|by left]; [by exists body|].
      intros x Hx. split; [by eapply subnodes_child|].
      intros body' Hb' Hblock'. try rewrite Hbody in Hb'. injection Hb' as <-. congruence.
    + intros k. destruct (built_result _ _ _ _ _ _ B1 k) as [->|(x & t & Hx & -> & _)];
        [by left|].
      right. by exists body, x.
    + intros body' _ [= <-]. split; [by apply Hroot|]. by rewrite Hblock.
Qed.
End FunctionScope.

(** X18. A function-like node stays mapped to the scope it is met in, and gets a
    fresh child scope of kind [FunctionScope] of that scope, declared by the
    node.  Its parameters are mapped to the function scope.  When the node is a
    function with a body (a function declaration or expression, an arrow
    function, a method, a constructor or an accessor), the body is mapped to
    the function scope as well, and when the body is a block so are the
    children of the block: the block of a function body gets no scope of its
    own, its statements live in the scope of the parameters: every scope
    made during the visit has been appended to the child scopes of its
    parent and is declared by another node than that block. *)
Theorem functionLike_scope (fuel : nat) (parent : option Node) (node : Node) (scope : Scope)
    (bs : BuildState) :
  isFunctionLike node = true → wellFormed node = true → height node ≤ S fuel →
  is_Some (functionScopeFrom scope) → scopeId scope < scopeCount (store bs) →
  NoDup (nodeIds node) →
  ∃ bs' functionScope,
    FindScopes.visitNodeFuel (S fuel) parent node scope bs = Ok (tt, bs')
    ∧ scopeKind functionScope = FunctionScope ∧ declaratingNode functionScope = node
    ∧ parentScope functionScope = Some scope
    ∧ scopeCount (store bs) ≤ scopeId functionScope
    ∧ functionScope ∈ childScopes (store bs') scope
    ∧ result bs' !! nid node = Some scope
    ∧ (∀ p, p ∈ propAll FParameters node → result bs' !! nid p = Some functionScope)
    ∧ (∀ body, hasBody node = true → prop FBody node = Some body →
         result bs' !! nid body = Some functionScope
         ∧ (isBlock body = true →
            ∀ c, c ∈ forEachChild body → result bs' !! nid c = Some functionScope))
    ∧ ∀ body, prop FBody node = Some body → isBlock body = true →
        begun (λ t, declaratingNode t ≠ body) (store bs) (store bs').
Proof.
  intros Hfl Hwf Hh Hfs Hvalid Hnd.
  pose proof (builder_visitNode_spec fuel) as IH.
  assert (isBlock node = false ∧ isImportClause node = false) as (HB & HI).
  { unfold isFunctionLike, isBlock, isImportClause in *. by destruct (kind node). }
  assert (Hhc : ∀ c, c ∈ forEachChild node → height c ≤ fuel).
  { intros c Hc. pose proof (height_child _ _ Hc). lia. }
  set (N := below node).
  set (D := λ x, x ∈ subnodes node
                 ∧ ∀ body, prop FBody node = Some body → isBlock body = true → x ≠ body).
  assert (HN : ∀ c, c ∈ forEachChild node → ∀ x, x ∈ subnodes c → N x).
  { intros c Hc x Hx. by exists c. }
  assert (HD : ∀ f c, f ≠ FBody → c ∈ propAll f node ∨ prop f node = Some c →
                ∀ x, x ∈ subnodes c → D x).
  { intros f c Hf Hc x Hx.
    assert (Hcc : c ∈ forEachChild node).
    { destruct Hc as [Hc|Hc]; [by eapply propAll_child|by eapply prop_child]. }
    assert (∃ i, children node !! i = Some (f, c)) as [i Hi].
    { destruct Hc as [Hc|Hc]; [by apply propAll_lookup|by apply prop_lookup]. }
    split.
    - by eapply subnodes_child.
    - intros body Hb _ Heq. subst x. apply prop_lookup in Hb as [j Hj].
      by destruct (unique_fields node i j f FBody c body body body Hnd Hi Hj Hf Hx
                     (subnodes_self _)). }
  cut (returns (FindScopes.visitNodeFuel (S fuel) parent node scope) bs
         (λ _ bs', ∃ functionScope,
            scopeKind functionScope = FunctionScope ∧ declaratingNode functionScope = node
            ∧ parentScope functionScope = Some scope
            ∧ scopeCount (store bs) ≤ scopeId functionScope
            ∧ functionScope ∈ childScopes (store bs') scope
            ∧ result bs' !! nid node = Some scope
            ∧ (∀ p, p ∈ propAll FParameters node → result bs' !! nid p = Some functionScope)
            ∧ (∀ body, hasBody node = true → prop FBody node = Some body →
                 result bs' !! nid body = Some functionScope
                 ∧ (isBlock body = true →
                    ∀ c, c ∈ forEachChild body → result bs' !! nid c = Some functionScope))
            ∧ ∀ body, prop FBody node = Some body → isBlock body = true →
                scopesAdded (λ t, declaratingNode t ≠ body) (store bs) (store bs'))).
  { intros ([] & bs' & Hrun & fs & H1 & H2 & H3 & H4 & H5 & H6 & H7 & H8 & Hadded)%returns_Ok.
    exists bs', fs. split_and!; try done. intros body Hb Hblock.
    pose proof (builder_begun (S fuel) parent node scope bs Hvalid) as Hbegun.
    unfold wp in Hbegun. rewrite Hrun in Hbegun.
    eapply begun_mono; [|apply begun_and; [exact Hbegun|by apply Hadded]].
    by intros t [_ ?]. }
  rewrite builder_visitNodeFuel_S. unfold FindScopes.visitNodeBody.
  rewrite HB, HI, Hfl.
  apply outcome_bind. unfold resultSet at 1. apply outcome_modify.
  set (bs1 := mkBuildState (store bs) (<[nid node := scope]> (result bs))).
  set (base := scopeCount (store bs)).
  unfold FindScopes.visitFunctionLike.
  (* what is done under the current scope *)
  apply outcome_bind. eapply outcome_mono.
  { apply (addAllChildren_returns N D base scope bs1 node scope); [|by left].
    intros x Hx. apply (HN x Hx), subnodes_self. }
  intros [] bs2 (B12 & _).
  apply outcome_bind. eapply outcome_mono.
  { unfold FindScopes.visitOptionalNodes.
    eapply (visitAll_sub fuel _ IH N D base scope scope bs1 bs2 node);
      [done|done|done| |by left|done].
    intros c Hc. pose proof (propAll_child _ _ _ Hc) as Hcc.
    split; [done|]. split; [by apply Hhc|]. intros x Hx.
    split; [by apply (HN c)|]. apply (HD FTypeParameters c); [done|by left|done]. }
  intros [] bs3 B13.
  apply outcome_bind.
  apply (outcome_mono _ _ _ (λ _ bs', Built N D base scope bs1 bs')).
  { unfold FindScopes.visitOptionalNode.
    destruct (prop FType node) as [ty|] eqn:Hty; [|apply outcome_ret; exact B13].
    pose proof (prop_child _ _ _ Hty) as Htc.
    eapply (visit_sub fuel _ IH N D base scope scope bs1 bs3 node ty);
      [done|done|done|done|by apply Hhc|by left|done|].
    intros x Hx. split; [by apply (HN ty)|]. apply (HD FType ty); [done|by right|done]. }
  intros [] bs4 B14.
  apply outcome_bind.
  apply (outcome_mono _ _ _ (λ _ bs', Built N D base scope bs1 bs')).
  { destruct (prop FName node) as [name|] eqn:Hname; [|apply outcome_ret; exact B14].
    pose proof (prop_child _ _ _ Hname) as Hnc.
    apply resultSet_sub; [done| |by left|].
    { apply (HN name Hnc), subnodes_self. }
    intros bs5 B15. apply seq_sub.
    { eapply outcome_mono.
      { apply (addAllChildren_returns N D base scope bs5 name scope); [|by left].
        intros x Hx. apply (HN name Hnc). eapply subnodes_child; [done|apply subnodes_self]. }
      intros [] bs6 (B & _). by eapply Built_trans. }
    intros bs6 B16. destruct (_ && _); [|by apply outcome_ret].
    apply store_sub; [done|]. apply declare_storeBuilt; [done|]. left.
    split; [by left|]. exists name. split; [|done]. apply (HN name Hnc), subnodes_self. }
  intros [] bs5 B15.
  assert (Hbase5 : base ≤ scopeCount (store bs5)) by (destruct B15; simpl in *; lia).
  (* the function scope *)
  apply outcome_bind. eapply outcome_mono.
  { apply (newChildScope_returns N D base scope bs5 scope FunctionScope node); [|done].
    split; [apply subnodes_self|]. intros body Hb _ Heq.
    apply prop_child in Hb. rewrite <- Heq in Hb.
    by destruct (unique_child_nid node node node Hnd Hb (subnodes_self _)). }
  intros functionScope bs6 (Hscope & B56 & Hr6 & Hc6 & _ & _ & Hch6).
  assert (Hfsf : is_Some (functionScopeFrom functionScope)) by (by subst functionScope).
  apply outcome_bind. eapply outcome_mono.
  { apply (parameters_mapped fuel node functionScope Hwf Hfl Hh Hfsf Hnd bs6). }
  intros [] bs7 (B67 & Hparams).
  eapply outcome_mono.
  { apply (body_mapped fuel node functionScope Hwf Hh Hfsf Hnd bs7). }
  intros [] bs8 (B78 & Hframe & Hbody).
  exists functionScope.
  split; [by subst functionScope|]. split; [by subst functionScope|].
  split; [by subst functionScope|]. split; [by subst functionScope|].
  split; [|split; [|split; [|split; [done|]]]].
  - eapply (Built_keeps_child _ _ _ _ bs7 bs8); [exact B78|destruct B67; simpl in *; lia|].
    eapply (Built_keeps_child _ _ _ _ bs6 bs7); [exact B67|simpl in *; lia|].
    unfold childScopes. rewrite Hch6, lookup_total_insert_eq.
    apply elem_of_app. right. by apply list_elem_of_singleton.
  - rewrite (Built_keeps_root node _ _ _ _ _ Hnd B78).
    rewrite (Built_keeps_root node _ _ _ _ _ Hnd B67). rewrite Hr6.
    rewrite (Built_keeps_root node _ _ _ _ _ Hnd B15). apply lookup_insert_eq.
  - intros p Hp.
    destruct (Hframe (nid p)) as [->|(body & x & Hb & Hx & Heq)]; [by apply Hparams|].
    apply propAll_lookup in Hp as [i Hi]. apply prop_lookup in Hb as [j Hj].
    by destruct (unique_fields node i j FParameters FBody p body p x Hnd Hi Hj ltac:(done)
                   (subnodes_self _) Hx Heq).
  - intros body Hb Hblock.
    assert (HP : ∀ t, D (declaratingNode t) → declaratingNode t ≠ body).
    { intros t [_ Ht]. by apply Ht. }
    change (store bs) with (store bs1).
    eapply scopesAdded_trans; [|eapply scopesAdded_trans; [|eapply scopesAdded_trans]].
    + eapply Built_scopesAdded; [exact B15|]. intros t Ht _. by apply HP.
    + eapply Built_scopesAdded; [exact B56|]. intros t Ht _. by apply HP.
    + eapply Built_scopesAdded; [exact B67|]. intros t Ht _. by apply HP.
    + eapply Built_scopesAdded; [exact B78|]. intros t Ht _. by apply HP.
Qed.

Lemma functionLike_scope_witness :
  ∃ bs' functionScope,
    FindScopes.visitNodeFuel 7 (Some f_with_pattern) function_f (rootOf f_with_pattern)
      rootState = Ok (tt, bs')
    ∧ scopeKind functionScope = FunctionScope
    ∧ result bs' !! nid parameter_of_f = Some functionScope
    ∧ result bs' !! 12 = Some functionScope.
Proof.
  destruct (functionLike_scope 6 (Some f_with_pattern) function_f (rootOf f_with_pattern)
              rootState)
    as (bs' & fs & Hrun & Hkind & _ & _ & _ & _ & _ & Hparams & Hbody & _);
    [reflexivity | reflexivity | vm_compute; lia | by exists (rootOf f_with_pattern)
    | vm_compute; lia | by_decision |].
  exists bs', fs. split; [exact Hrun|]. split; [exact Hkind|]. split.
  - apply Hparams. cbv. apply list_elem_of_here.
  - by destruct (Hbody (leaf 12 Block) eq_refl eq_refl).
Defined.

(** ** The shapes of references *)

(** The resolver changes the store only by the calls of [addReference] that
    [called] describes. *)
Lemma resolver_calls scopesMap (I : Store → Prop) :
  (∀ scope node w i,
     isIdentifier node = true → called scopesMap scope node w i →
     triple I (addReference scope node w i) (λ _, I)) →
  ∀ fuel v c init,
    triple I (AssignReferences.visitNodeFuel scopesMap fuel v c init) (λ _, I).
Proof.
  intros Hadd. induction fuel as [|fuel IH]; intros v c init; [done|].
  rewrite resolver_visitNodeFuel_S. unfold AssignReferences.visitNodeBody.
  destruct v as [|node|nodes].
  - by apply triple_ret.
  - destruct (isTypeNode node); [by apply triple_ret|].
    destruct (isIdentifier node && c) eqn:HIdent.
    { apply andb_true_iff in HIdent as [Hid _].
      eapply triple_seq; [apply getScope_triple|]. intros scope Hscope. simpl in Hscope.
      destruct (String.eqb _ _) eqn:Htext; [by apply triple_ret|].
      apply String.eqb_neq in Htext.
      destruct init; (apply Hadd; [done|]); left; eauto. }
    destruct (isVariableDeclaration node).
    { apply triple_then; [|intros []; apply IH].
      destruct (prop FInitializer node); [apply IH|by apply triple_ret]. }
    destruct (isExpressionStatement node); [apply IH|].
    destruct (isBinaryExpression node && _) eqn:Hassign.
    { apply andb_true_iff in Hassign as [Hbin Hop].
      destruct (prop FOperatorToken node) as [operatorToken|] eqn:Htoken; [|done].
      eapply triple_seq; [apply triple_required|]. intros left Hleft.
      apply triple_then; [|intros []; apply IH].
      destruct (isIdentifier left) eqn:Hid; [|apply IH].
      eapply triple_seq; [apply getScope_triple|]. intros scope Hscope. simpl in Hscope.
      apply Hadd; [done|]. right. split; [done|]. exists node, operatorToken.
      done. }
    repeat lazymatch goal with
    | |- triple _ (if ?b then _ else _) _ => destruct b
    | |- triple _ (forEach _ _) _ => apply triple_forEach; intros ? ?
    | |- triple _ (required _ ≫= _) _ =>
        eapply triple_seq; [apply triple_required|intros ? ?]
    | |- triple _ (_ ≫= _) _ => apply triple_then; [|intros []]
    | |- triple _ (AssignReferences.visitNodeFuel _ _ _ _ _) _ => apply IH
    end.
  - apply triple_forEach. intros n Hn. apply IH.
Qed.

Lemma addReference_shaped scopesMap st0 scope node w i :
  isIdentifier node = true → called scopesMap scope node w i →
  triple (referencesShaped scopesMap st0) (addReference scope node w i)
    (λ _, referencesShaped scopesMap st0).
Proof.
  intros Hid Hcalled st1 Hrefs1.
  destruct (addReference_effect scope node w i st1) as (st2 & Hrun & Hr2 & _).
  rewrite Hrun. intros k. destruct (Hrefs1 k) as (new & Hnew & Hall).
  rewrite Hr2. destruct (decide (scopeId scope = k)) as [<-|Hne].
  - exists (new ++ [mkReference node (getBinding st1 scope (text node)) scope w i]).
    rewrite lookup_total_insert_eq. unfold references. rewrite Hnew, <- app_assoc.
    split; [done|]. apply Forall_app. split; [done|]. by apply Forall_singleton.
  - exists new. by rewrite lookup_total_insert_ne.
Qed.

(** X19. When pass 2 returns, every reference it has added to the list of a
    scope is of one of two shapes.  Either its identifier has a text and the
    scope it was met in is the scope that the map holds for the identifier
    itself, and it has a write expression exactly when it is an initializer.
    Or its identifier is the left operand of an assignment with [=], its
    write expression is the right operand, it is no initializer, and the scope
    it was met in is the scope that the map holds for the assignment.  So an
    initializer always has a write expression, and an identifier without
    text is recorded only as the target of an assignment. *)
Theorem assignReferences_shapes (scopesMap : gmap nat Scope) (sourceFile : Node)
    (st st' : Store) :
  assignReferences scopesMap sourceFile st = Ok (tt, st') →
  referencesShaped scopesMap st st'
  ∧ ((∀ s, getReferences st s = []) →
     ∀ s r, r ∈ getReferences st' s →
       shaped scopesMap r
       ∧ (isInitializer r = true → is_Some (writeExpr r))
       ∧ (text (identifier r) = "" → isInitializer r = false ∧
          ∃ assignment, isBinaryExpression assignment = true
                        ∧ prop FLeft assignment = Some (identifier r))).
Proof.
  intros Hrun.
  assert (Hrefl : referencesShaped scopesMap st st).
  { intros i. exists []. by rewrite app_nil_r. }
  pose proof (resolver_calls scopesMap (referencesShaped scopesMap st)
                (addReference_shaped scopesMap st) (3 * height sourceFile + 2)
                (One sourceFile) false None st Hrefl) as Hkeep.
  unfold assignReferences, AssignReferences.visitNode in Hrun. rewrite Hrun in Hkeep.
  split; [done|]. intros Hempty s r Hr.
  destruct (Hkeep (scopeId s)) as (new & Hnew & Hall).
  unfold getReferences, references in *. rewrite Hnew, Hempty in Hr.
  rewrite Forall_forall in Hall. pose proof (Hall r Hr) as Hshaped.
  split; [done|]. destruct Hshaped as [_ [(Htext & _ & Hw)|(Hi & a & op & Ha & _ & _ & Hl & _)]].
  - split; [intros Hi; by rewrite Hi in Hw|]. by intros.
  - split; [by rewrite Hi|]. intros _. split; [done|]. by exists a.
Qed.

Lemma assignReferences_shapes_witness :
  Forall (shaped (built x_assign_y).1)
    (getReferences (analysed x_assign_y).2 (rootOf x_assign_y)).
Proof.
  destruct (assignReferences_shapes (built x_assign_y).1 x_assign_y (built x_assign_y).2
              (analysed x_assign_y).2) as [_ Hall]; [vm_compute; reflexivity|].
  assert (Hempty : ∀ s, getReferences (built x_assign_y).2 s = []).
  { intros s. unfold getReferences, references.
    assert (Hrefs : referencesOf (built x_assign_y).2 = <[0 := []]> ∅)
      by (vm_compute; reflexivity).
    rewrite Hrefs.
    destruct (decide (scopeId s = 0)) as [->|H0];
      [by rewrite lookup_total_insert_eq|rewrite lookup_total_insert_ne by done].
    by rewrite lookup_total_empty. }
  apply Forall_forall. intros r Hr.
  by destruct (Hall Hempty (rootOf x_assign_y) r Hr) as [Hshaped _].
Defined.

(** ** When the construction succeeds *)

Section NoThrow.
Context {S : Type}.

Lemma noThrow_ret {A} (a : A) : noThrow (mret a : M S A).
Proof. by intros s. Qed.

Lemma noThrow_bind {A B} (m : M S A) (k : A → M S B) :
  noThrow m → (∀ a, noThrow (k a)) → noThrow (m ≫= k).
Proof.
  intros Hm Hk s. specialize (Hm s). unfold mbind, M_bind, bind.
  destruct (m s) as [[a s']| |]; [apply Hk|done..].
Qed.

Lemma noThrow_required {A B} (o : option A) (k : A → M S B) :
  is_Some o → (∀ a, o = Some a → noThrow (k a)) → noThrow (required o ≫= k).
Proof. intros [a ->] Hk s. by apply Hk. Qed.

Lemma noThrow_forEach {A} (l : list A) (f : A → M S unit) :
  (∀ a, a ∈ l → noThrow (f a)) → noThrow (forEach l f).
Proof.
  induction l as [|a l IH]; intros Hf; simpl; [apply noThrow_ret|].
  apply noThrow_bind; [apply Hf; by left|]. intros []. apply IH.
  intros b Hb. apply Hf. by right.
Qed.
End NoThrow.

Lemma noThrow_addReference scope node w i : noThrow (addReference scope node w i).
Proof.
  intros st. destruct (addReference_effect scope node w i st) as (st' & Hrun & _).
  by rewrite Hrun.
Qed.

Lemma noThrow_getScope {B} scopesMap node (k : Scope → M Store B) :
  is_Some (scopesMap !! nid node) → (∀ scope, noThrow (k scope)) →
  noThrow (AssignReferences.getScope scopesMap node ≫= k).
Proof.
  intros [scope Hscope] Hk st. unfold mbind, M_bind, bind, AssignReferences.getScope.
  rewrite Hscope. apply Hk.
Qed.

(** The resolver throws only when the map lacks a node or a mandatory
    property is missing. *)
Lemma resolver_noThrow scopesMap root :
  (∀ x, x ∈ subnodes root → is_Some (scopesMap !! nid x)) → resolvable root = true →
  ∀ fuel v c init,
    within root v → noThrow (AssignReferences.visitNodeFuel scopesMap fuel v c init).
Proof.
  intros Hmapped Hres. induction fuel as [|fuel IH]; intros v c init Hv; [by intros st|].
  rewrite resolver_visitNodeFuel_S. unfold AssignReferences.visitNodeBody.
  destruct v as [|node|nodes].
  - apply noThrow_ret.
  - simpl in Hv.
    assert (Hchild : ∀ x, x ∈ forEachChild node → x ∈ subnodes root).
    { intros x Hx. apply (subnodes_trans root node x); [done|].
      eapply subnodes_child; [done|apply subnodes_self]. }
    assert (Hopt : ∀ f, within root (optional (prop f node))).
    { intros f. destruct (prop f node) as [x|] eqn:Hx; [|done].
      simpl. by eapply Hchild, prop_child. }
    assert (Hmany : ∀ f, within root (Many (propAll f node))).
    { intros f x Hx. by eapply Hchild, propAll_child. }
    assert (Hnode : resolvableNode node = true).
    { unfold resolvable in Hres. rewrite forallb_forall in Hres.
      apply Hres. by apply list_elem_of_In. }
    apply andb_true_iff in Hnode as [Hleft Hbody].
    destruct (isTypeNode node); [apply noThrow_ret|].
    destruct (isIdentifier node && c).
    { apply noThrow_getScope; [by apply Hmapped|]. intros scope.
      destruct (String.eqb _ _); [apply noThrow_ret|].
      destruct init; apply noThrow_addReference. }
    destruct (isVariableDeclaration node).
    { apply noThrow_bind; [|intros []; apply IH, Hopt].
      destruct (prop FInitializer node) as [x|] eqn:Hx; [|apply noThrow_ret].
      apply IH. simpl. by eapply Hchild, prop_child. }
    destruct (isExpressionStatement node); [apply IH, Hopt|].
    destruct (isBinaryExpression node && _).
    { apply noThrow_required; [by apply defined_Some in Hleft as [x ->]|].
      intros left Hl. apply noThrow_bind; [|intros []; apply IH, Hopt].
      destruct (isIdentifier left).
      - apply noThrow_getScope; [by apply Hmapped|]. intros scope.
        apply noThrow_addReference.
      - apply IH. simpl. by eapply Hchild, prop_child. }
    clear Hleft.
    repeat lazymatch goal with
    | |- noThrow (if isArrowFunction node then _ else _) =>
        destruct (isArrowFunction node)
    | |- noThrow (if ?b then _ else _) => destruct b
    | |- noThrow (forEach _ _) => apply noThrow_forEach; intros ? ?
    | |- noThrow (required _ ≫= _) =>
        apply noThrow_required; [by apply defined_Some in Hbody as [? ->]|intros ? ?]
    | |- noThrow (_ ≫= _) => apply noThrow_bind; [|intros []]
    | |- noThrow (AssignReferences.visitNodeFuel _ _ (optional _) _ _) => apply IH, Hopt
    | |- noThrow (AssignReferences.visitNodeFuel _ _ (Many _) _ _) => apply IH, Hmany
    | |- noThrow (AssignReferences.visitNodeFuel _ _ (One node) _ _) => by apply IH
    | |- noThrow (AssignReferences.visitNodeFuel _ _ (One _) _ _) =>
        apply IH; simpl; first [by apply Hchild | by eapply Hchild, prop_child]
    end.
  - apply noThrow_forEach. intros n Hn. apply IH. by apply Hv.
Qed.

Lemma assignReferences_total scopesMap sourceFile st :
  NoDup (nodeIds sourceFile) → resolvable sourceFile = true →
  (∀ x, x ∈ subnodes sourceFile → is_Some (scopesMap !! nid x)) →
  ∃ st', assignReferences scopesMap sourceFile st = Ok (tt, st').
Proof.
  intros Hnd Hres Hmapped.
  pose proof (resolver_visitNode_spec scopesMap (3 * height sourceFile + 2)
                (One sourceFile) false None st) as Hspec.
  pose proof (resolver_noThrow scopesMap sourceFile Hmapped Hres (3 * height sourceFile + 2)
                (One sourceFile) false None (subnodes_self _) st) as Hsafe.
  unfold mayThrow, outcome in Hspec.
  unfold assignReferences, AssignReferences.visitNode.
  destruct (AssignReferences.visitNodeFuel _ _ _ _ _ st) as [[[] st1]|e|].
  - by exists st1.
  - done.
  - exfalso. apply Hspec; [unfold weight; lia|done].
Qed.

(** X20. Pass 2 returns whenever the map it is given has a scope for every node
    of the source file, the nodes are distinct, and assignments and arrow
    functions have the operand and the body that their types make mandatory:
    ['Scope not found'] is thrown only for a node that the map lacks.  So on a
    source file in which pass 1 reaches every node, the construction of the
    container succeeds: neither pass throws. *)
Theorem container_constructed (sourceFile : Node) (st : Store) :
  NoDup (nodeIds sourceFile) → resolvable sourceFile = true →
  (∀ scopesMap st1,
     (∀ x, x ∈ subnodes sourceFile → is_Some (scopesMap !! nid x)) →
     ∃ st', assignReferences scopesMap sourceFile st1 = Ok (tt, st'))
  ∧ (wellFormed sourceFile = true → kind sourceFile = SourceFile →
     covered sourceFile = true →
     ∃ scopes st1 st',
       findScopes sourceFile st = Ok (scopes, st1)
       ∧ assignReferences scopes sourceFile st1 = Ok (tt, st')
       ∧ newSourceFileScopesContainer sourceFile st = Ok (mkContainer scopes, st')).
Proof.
  intros Hnd Hres. split.
  - intros scopesMap st1. by apply assignReferences_total.
  - intros Hwf Hkind Hcov.
    destruct (findScopes_spec sourceFile st Hwf Hkind) as (scopes & st1 & Hfind & _).
    pose proof (findScopes_covers sourceFile st scopes st1 Hcov Hnd Hfind) as Hall.
    destruct (assignReferences_total scopes sourceFile st1 Hnd Hres Hall) as (st' & Hrun).
    exists scopes, st1, st'. split; [done|]. split; [done|].
    unfold newSourceFileScopesContainer.
    rewrite (bind_Ok _ _ _ _ _ Hfind). by rewrite (bind_Ok _ _ _ _ _ Hrun).
Qed.

Lemma container_constructed_witness :
  ∃ scopes st',
    newSourceFileScopesContainer f_with_pattern emptyStore = Ok (mkContainer scopes, st').
Proof.
  destruct (container_constructed f_with_pattern emptyStore) as [_ H];
    [by_decision | reflexivity |].
  destruct (H eq_refl eq_refl eq_refl) as (scopes & st1 & st' & _ & _ & Hrun).
  by exists scopes, st'.
Defined.

(** ** Bindings and the references to them *)

Lemma tablesKeyed_empty : tablesKeyed emptyStore.
Proof.
  split; intros i n b; simpl; rewrite lookup_total_empty; intros; by simplify_map_eq.
Qed.

Lemma tablesKeyed_newScope st :
  tablesKeyed st →
  tablesKeyed (mkStore (<[scopeCount st := ∅]> (bindingsOf st))
                 (<[scopeCount st := []]> (childScopesOf st))
                 (<[scopeCount st := []]> (referencesOf st))
                 (bindingReferencesOf st) (S (scopeCount st)) (bindingCount st)).
Proof.
  intros [Hkey Hinj].
  assert (Hold : ∀ i n b,
    (<[scopeCount st := ∅]> (bindingsOf st) !!! i) !! n = Some b →
    (bindingsOf st !!! i) !! n = Some b).
  { intros i n b. destruct (decide (i = scopeCount st)) as [->|Hne].
    - by rewrite lookup_total_insert_eq, lookup_empty.
    - by rewrite lookup_total_insert_ne. }
  split; simpl.
  - intros i n b Hb. by eapply Hkey, Hold.
  - intros i n b i' n' b' Hb Hb'. by eapply Hinj; eapply Hold.
Qed.

Lemma tablesKeyed_declare dn k name mut sc st :
  wp (newBinding dn k name mut ≫= λ d, addBinding sc name d)
     (λ _ st', tablesKeyed st → tablesKeyed st') st.
Proof.
  set (b0 := mkBinding (bindingCount st) dn k name mut).
  assert (Hset : ∀ T, tablesKeyed st →
    tablesKeyed (setBinding T name b0
       (mkStore (bindingsOf st) (childScopesOf st) (referencesOf st)
          (<[bindingCount st := []]> (bindingReferencesOf st))
          (scopeCount st) (S (bindingCount st))))).
  { intros T [Hkey Hinj].
    assert (Hcases : ∀ i n b,
      (<[scopeId T := <[name := b0]> (bindingsOf st !!! scopeId T)]> (bindingsOf st) !!! i)
        !! n = Some b →
      (i = scopeId T ∧ n = name ∧ b = b0)
      ∨ ((i ≠ scopeId T ∨ n ≠ name) ∧ (bindingsOf st !!! i) !! n = Some b)).
    { intros i n b. destruct (decide (i = scopeId T)) as [->|Hne].
      - rewrite lookup_total_insert_eq. destruct (decide (n = name)) as [->|Hn].
        + rewrite lookup_insert_eq. intros [= <-]. by left.
        + rewrite lookup_insert_ne by done. intros Hb. right. auto.
      - rewrite lookup_total_insert_ne by done. intros Hb. right. auto. }
    split; unfold setBinding, bindings; simpl.
    - intros i n b [(-> & -> & ->)|[_ Hb]]%Hcases; simpl; [split; [done|lia]|].
      destruct (Hkey i n b Hb). split; [done|lia].
    - intros i n b i' n' b' [(-> & -> & ->)|[Hne Hb]]%Hcases
        [(-> & -> & ->)|[Hne' Hb']]%Hcases Hid; simpl in *.
      + done.
      + destruct (Hkey i' n' b' Hb'). lia.
      + destruct (Hkey i n b Hb). lia.
      + by eapply Hinj. }
  unfold wp, mbind, M_bind, bind, newBinding, addBinding. simpl.
  destruct k; simpl; [apply Hset|].
  destruct (functionScopeFrom sc); simpl; [apply Hset|done].
Qed.

Lemma builder_tablesKeyed fuel p node s bs :
  wp (FindScopes.visitNodeFuel fuel p node s)
     (λ _ bs', tablesKeyed (store bs) → tablesKeyed (store bs')) bs.
Proof.
  apply (builder_guaranteed (λ bs bs', tablesKeyed (store bs) → tablesKeyed (store bs'))
           (λ _ _, True) (λ st st', tablesKeyed st → tablesKeyed st'))
    with (X := [s]).
  - by intros st.
  - intros st1 st2 st3 H12 H23 H1. auto.
  - apply tablesKeyed_declare.
  - by intros bs1.
  - intros bs1 bs2 bs3 H12 H23 H1. auto.
  - done.
  - by intros bs1 n s1 _.
  - by intros bs1 st' H.
  - intros bs1 s1 k n c bs' _ _ Hrun. split; [|done].
    unfold onStore, newChildScope, mbind, M_bind, bind, newScope, modify, mret, M_ret, ret in Hrun.
    simpl in Hrun. injection Hrun as <- <-. simpl.
    intros H%tablesKeyed_newScope. by destruct H.
  - apply list_elem_of_here.
  - by apply Forall_singleton.
Qed.

Lemma findScopes_tablesKeyed sourceFile st scopes st' :
  findScopes sourceFile st = Ok (scopes, st') → tablesKeyed st → tablesKeyed st'.
Proof.
  intros Hrun Hst. unfold findScopes in Hrun.
  unfold mbind, M_bind, bind, onStore, newScope in Hrun. simpl in Hrun.
  match type of Hrun with
  | match FindScopes.visitNode ?p ?n ?s ?bs with _ => _ end = _ =>
      pose proof (builder_tablesKeyed (height sourceFile) p n s bs) as H;
      unfold wp in H; unfold FindScopes.visitNode in Hrun;
      destruct (FindScopes.visitNodeFuel (height sourceFile) p n s bs) as [[[] bs']|e|];
        [|done..]
  end.
  injection Hrun as <- <-. apply H. simpl.
  by apply tablesKeyed_newScope.
Qed.

Lemma findScopes_noReference sourceFile st scopes st' :
  findScopes sourceFile st = Ok (scopes, st') → noReferenceRecorded st st'.
Proof.
  intros Hrun. unfold findScopes in Hrun.
  unfold mbind, M_bind, bind, onStore, newScope in Hrun. simpl in Hrun.
  match type of Hrun with
  | match FindScopes.visitNode ?p ?n ?s ?bs with _ => _ end = _ =>
      pose proof (builder_noReference (height sourceFile) p n s bs) as H;
      unfold wp in H; unfold FindScopes.visitNode in Hrun;
      destruct (FindScopes.visitNodeFuel (height sourceFile) p n s bs) as [[[] bs']|e|];
        [|done..]
  end.
  injection Hrun as <- <-. simpl in H.
  eapply noReferenceRecorded_trans; [|exact H].
  apply noReferenceRecorded_newScope.
Qed.

(** What [getBinding] finds is in the table of the scope it returns. *)
Lemma getBinding_found st S n b T :
  getBinding st S n = Some (b, T) → bindings st T !! n = Some b.
Proof.
  induction S as [S IH] using Scope_chain_ind. destruct S as [i k nd p]. simpl in *.
  destruct (bindings st (mkScope i k nd p) !! n) as [d|] eqn:Hd; [by intros [= <- <-]|].
  destruct p as [parent|]; [|done]. by apply IH.
Qed.

Lemma addReference_tablesKeyed scope node w i :
  triple tablesKeyed (addReference scope node w i) (λ _, tablesKeyed).
Proof.
  intros st Hst.
  destruct (addReference_effect scope node w i st) as (st' & Hrun & _ & _ & Hb & _ & _ & Hc).
  rewrite Hrun. unfold tablesKeyed. by rewrite Hb, Hc.
Qed.

(** X21. When the construction of the container succeeds, every table of a
    scope holds its bindings under their own identifiers, and no binding is
    in two places.  A reference that refers to a binding and a scope names
    an identifier with the text of the binding's identifier; the binding is
    what the table of that scope holds under this text, and the reference is
    in the list of the binding.  Conversely, every reference in the list of a
    binding that a table holds names an identifier with the text the binding
    is stored under, refers to this very binding, in the scope of this table,
    and is in the list of references of the scope it was met in. *)
Theorem references_of_bindings (sourceFile : Node) (this : SourceFileScopesContainer)
    (st' : Store) :
  newSourceFileScopesContainer sourceFile emptyStore = Ok (this, st') →
  tablesKeyed st'
  ∧ (∀ s r b T, r ∈ getReferences st' s → referenceTo r = Some (b, T) →
       bindings st' T !! text (identifier r) = Some b
       ∧ bindingIdentifier b = text (identifier r)
       ∧ r ∈ bindingReferences st' b)
  ∧ (∀ T n b r, bindings st' T !! n = Some b → r ∈ bindingReferences st' b →
       text (identifier r) = n
       ∧ (∃ T', referenceTo r = Some (b, T') ∧ scopeId T' = scopeId T)
       ∧ r ∈ getReferences st' (referencedFromScope r)).
Proof.
  intros Hrun. unfold newSourceFileScopesContainer in Hrun.
  apply bind_Ok_inv in Hrun as (scopes & st1 & Hfind & Hrun).
  apply bind_Ok_inv in Hrun as ([] & st2 & Hassign & Hrun). injection Hrun as <- <-.
  pose proof (findScopes_tablesKeyed _ _ _ _ Hfind tablesKeyed_empty) as Hkeyed1.
  pose proof (findScopes_noReference _ _ _ _ Hfind) as (_ & _ & Hr & Hn & Hbr & Hbn).
  assert (Hnone : ∀ i, referencesOf st1 !!! i = []).
  { intros i. destruct (decide (i < scopeCount st1)).
    - apply Hn; simpl; lia.
    - rewrite Hr by (simpl; lia). simpl. by rewrite lookup_total_empty. }
  assert (Hbnone : ∀ j, bindingReferencesOf st1 !!! j = []).
  { intros j. destruct (decide (j < bindingCount st1)).
    - apply Hbn; simpl; lia.
    - rewrite Hbr by (simpl; lia). simpl. by rewrite lookup_total_empty. }
  unfold assignReferences, AssignReferences.visitNode in Hassign.
  pose proof (resolver_keeps scopes tablesKeyed
                (λ scope node w i _ _, addReference_tablesKeyed scope node w i)
                (3 * height sourceFile + 2) (One sourceFile) false None st1 Hkeyed1) as Hkeyed.
  pose proof (resolver_keeps scopes (referencesLinked scopes st1)
                (addReference_linked scopes st1) (3 * height sourceFile + 2)
                (One sourceFile) false None st1 (referencesLinked_refl _ _)) as Hlinked.
  rewrite Hassign in Hkeyed, Hlinked. destruct Hlinked as (_ & Hrefs & Hbrefs).
  assert (Hscope : ∀ s r b T, r ∈ getReferences st2 s → referenceTo r = Some (b, T) →
    bindings st2 T !! text (identifier r) = Some b
    ∧ bindingIdentifier b = text (identifier r)
    ∧ r ∈ bindingReferences st2 b).
  { intros s r b T Hin Hto. destruct (Hrefs (scopeId s)) as (new & Hnew & Hall).
    unfold getReferences, references in Hin. rewrite Hnew, Hnone in Hin.
    rewrite Forall_forall in Hall. destruct (Hall r Hin) as (_ & _ & _ & Hget & Hlist).
    rewrite Hto in Hget, Hlist. symmetry in Hget. apply getBinding_found in Hget.
    split; [done|]. split; [|done].
    destruct Hkeyed as [Hkey _]. by destruct (Hkey _ _ _ Hget). }
  split; [done|]. split; [done|].
  intros T n b r Hb Hin. destruct (Hbrefs (bindingId b)) as (new & Hnew & Hall).
  unfold bindingReferences in Hin. rewrite Hnew, Hbnone in Hin.
  rewrite Forall_forall in Hall. destruct (Hall r Hin) as ((b' & T' & Hto & Hid) & Hmet).
  destruct (Hscope (referencedFromScope r) r b' T' Hmet Hto) as (Hb' & _ & _).
  destruct Hkeyed as [_ Hinj].
  destruct (Hinj _ _ _ _ _ _ Hb' Hb Hid) as [Hscopes Htext].
  assert (b' = b) as ->.
  { unfold bindings in Hb', Hb. rewrite Hscopes, Htext in Hb'. congruence. }
  split; [done|]. split; [by exists T'|done].
Qed.

Lemma references_of_bindings_witness :
  ∃ b, bindings (analysed for_let_i).2 (mkScope 1 LexicalScope capture_loop None) !! "i" = Some b
       ∧ Forall (λ r, text (identifier r) = "i") (bindingReferences (analysed for_let_i).2 b).
Proof.
  destruct (references_of_bindings for_let_i (analysed for_let_i).1 (analysed for_let_i).2)
    as (_ & _ & H); [vm_compute; reflexivity|].
  assert (Hb : ∃ b, bindings (analysed for_let_i).2 (mkScope 1 LexicalScope capture_loop None)
                      !! "i" = Some b)
    by (vm_compute; eauto).
  destruct Hb as [b Hb]. exists b. split; [exact Hb|].
  apply Forall_forall. intros r Hr. by destruct (H _ _ _ r Hb Hr).
Defined.

(** ** Every identifier is recorded once *)

Lemma triple_post {S A} (P : S → Prop) (m : M S A) (Q Q' : A → S → Prop) :
  triple P m Q' → (∀ a s, Q' a s → Q a s) → triple P m Q.
Proof. intros Hm HQ. by eapply triple_conseq. Qed.

Lemma recordedOnce_refl P st : recordedOnce P st st.
Proof.
  exists (λ _, []). split; [intros i; by rewrite app_nil_r|].
  split; [by intros i r ?%elem_of_nil|]. by intros i j p q r r' ?.
Qed.

Lemma recordedOnce_mono (P Q : Node → Prop) st0 st :
  (∀ x, P x → Q x) → recordedOnce P st0 st → recordedOnce Q st0 st.
Proof.
  intros HPQ (news & Hnew & HP & Hone). exists news. split; [done|]. split; [|done].
  intros i r Hr. by eapply HPQ, HP.
Qed.

Lemma recordedOnce_step (A B : Node → Prop) st0 st1 st2 :
  recordedOnce A st0 st1 → recordedOnce B st1 st2 →
  (∀ x y, A x → B y → nid x ≠ nid y) →
  recordedOnce (λ x, A x ∨ B x) st0 st2.
Proof.
  intros (n1 & Hnew1 & HA & Hone1) (n2 & Hnew2 & HB & Hone2) Hdis.
  exists (λ i, n1 i ++ n2 i). split; [|split].
  - intros i. by rewrite Hnew2, Hnew1, app_assoc.
  - intros i r [Hr|Hr]%elem_of_app; [left; by eapply HA|right; by eapply HB].
  - intros i j p q r r' [Hr|[Hp Hr]]%lookup_app_Some [Hr'|[Hq Hr']]%lookup_app_Some Heq.
    + by eapply Hone1.
    + exfalso. eapply (Hdis (identifier r) (identifier r')); [| |done].
      * eapply HA, list_elem_of_lookup_2, Hr.
      * eapply HB, list_elem_of_lookup_2, Hr'.
    + exfalso. eapply (Hdis (identifier r') (identifier r)); [| |done].
      * eapply HA, list_elem_of_lookup_2, Hr'.
      * eapply HB, list_elem_of_lookup_2, Hr.
    + destruct (Hone2 _ _ _ _ _ _ Hr Hr' Heq) as [-> Hpq]. split; [done|]. lia.
Qed.

(** A step that records once for itself, after steps that recorded
    elsewhere. *)
Lemma once_frame (A B : Node → Prop) st0 (m : M Store unit) :
  (∀ st, triple (λ s, s = st) m (λ _ st', recordedOnce B st st')) →
  (∀ x y, A x → B y → nid x ≠ nid y) →
  triple (recordedOnce A st0) m (λ _, recordedOnce (λ x, A x ∨ B x) st0).
Proof.
  intros Hm Hdis st HA. specialize (Hm st st eq_refl).
  destruct (m st) as [[[] st']| |]; [|done..]. by eapply recordedOnce_step.
Qed.

Lemma addReference_once scope node w i st :
  triple (λ s, s = st) (addReference scope node w i)
    (λ _ st', recordedOnce (λ x, x = node) st st').
Proof.
  intros s ->. destruct (addReference_effect scope node w i st) as (st' & Hrun & Hr & _).
  rewrite Hrun.
  set (r := mkReference node (getBinding st scope (text node)) scope w i) in *.
  exists (λ k, if decide (k = scopeId scope) then [r] else []). split; [|split].
  - intros k. rewrite Hr. destruct (decide (k = scopeId scope)) as [->|Hne].
    + by rewrite lookup_total_insert_eq.
    + rewrite lookup_total_insert_ne by done. by rewrite app_nil_r.
  - intros k x. destruct (decide (k = scopeId scope)); [|by intros ?%elem_of_nil].
    by intros ->%list_elem_of_singleton.
  - intros k j p q x y. destruct (decide (k = scopeId scope)) as [->|]; [|done].
    destruct (decide (j = scopeId scope)) as [->|]; [|done].
    destruct p as [|p]; [|done]. destruct q as [|q]; [|done]. done.
Qed.

Lemma join_sublist_elem {A} (l1 l2 : list (list A)) x :
  l1 `sublist_of` l2 → x ∈ mjoin l1 → x ∈ mjoin l2.
Proof.
  intros Hsub (l & Hx & Hl)%list_elem_of_join. apply list_elem_of_join. exists l.
  split; [done|]. by eapply sublist_subseteq.
Qed.

Lemma NoDup_join_sublist {A} (l1 l2 : list (list A)) :
  l1 `sublist_of` l2 → NoDup (mjoin l2) → NoDup (mjoin l1).
Proof.
  induction 1 as [|x l1 l2 Hsub IH|x l1 l2 Hsub IH]; simpl; [done| |].
  - intros (Hx & Hdis & Hl)%NoDup_app. apply NoDup_app. split; [done|].
    split; [|by apply IH]. intros e He Hin. apply (Hdis e He). by eapply join_sublist_elem.
  - intros (_ & _ & Hl)%NoDup_app. by apply IH.
Qed.

Lemma propAll_sublist f node : propAll f node `sublist_of` forEachChild node.
Proof. unfold propAll, forEachChild. apply fmap_sublist, sublist_filter. Qed.

Lemma inFields_subnodes node fs x : inFields node fs x → x ∈ subnodes node.
Proof.
  intros (f & c & _ & Hc & Hx). eapply subnodes_child; [|done].
  unfold forEachChild. apply list_elem_of_fmap. by exists (f, c).
Qed.

Lemma inFields_disjoint node fs f x y :
  NoDup (nodeIds node) → f ∉ fs → inFields node fs x → inFields node [f] y → nid x ≠ nid y.
Proof.
  intros Hnd Hf (g & c & Hg & Hc & Hx) (f' & c' & ->%list_elem_of_singleton & Hc' & Hy).
  apply list_elem_of_lookup_1 in Hc as [i Hi]. apply list_elem_of_lookup_1 in Hc' as [j Hj].
  eapply (unique_fields node i j g f c c' x y); try done. by intros ->.
Qed.

Lemma inFields_cons node fs f x :
  inFields node fs x ∨ inFields node [f] x → inFields node (f :: fs) x.
Proof.
  intros [(g & c & Hg & H)|(g & c & ->%list_elem_of_singleton & H)].
  - exists g, c. split; [by right|done].
  - exists f, c. split; [by left|done].
Qed.

Lemma inside_prop f node child x :
  prop f node = Some child → x ∈ subnodes child → inFields node [f] x.
Proof.
  intros [i Hi]%prop_lookup Hx. exists f, child. split; [by left|]. split; [|done].
  by eapply list_elem_of_lookup_2.
Qed.

Lemma inside_propAll f node x : inside (Many (propAll f node)) x → inFields node [f] x.
Proof.
  intros (c & [i Hi]%propAll_lookup & Hx). exists f, c. split; [by left|]. split; [|done].
  by eapply list_elem_of_lookup_2.
Qed.

Lemma distinct_propAll f node :
  NoDup (nodeIds node) → distinctNodes (Many (propAll f node)).
Proof.
  rewrite nodeIds_unfold. intros [_ Hnd]%NoDup_cons. simpl.
  eapply NoDup_join_sublist; [|done]. apply fmap_sublist, propAll_sublist.
Qed.

Section OnceStep.
Variable visitNode : Visitable → bool → option Node → M Store unit.
Hypothesis IH : onceSpec visitNode.

(** The nodes of a list, one after the other. *)
Lemma once_forEach (l : list Node) c st :
  NoDup (mjoin (nodeIds <$> l)) →
  triple (λ s, s = st) (forEach l (λ n, visitNode (One n) c None))
    (λ _ st', recordedOnce (inside (Many l)) st st').
Proof.
  revert st. induction l as [|a l IHl]; intros st Hnd; simpl.
  { apply triple_ret. intros s ->. apply recordedOnce_refl. }
  simpl in Hnd. apply NoDup_app in Hnd as (Ha & Hdis & Hl).
  eapply triple_bind; [by apply (IH (One a) c None st)|]. intros [] st1 H1.
  pose proof (IHl st1 Hl st1 eq_refl) as H2.
  destruct (forEach l _ st1) as [[[] st2]| |]; [|done..].
  eapply recordedOnce_mono; [|eapply recordedOnce_step; [exact H1|exact H2|]].
  - intros x [Hx|(n & Hn & Hx)]; [exists a; split; [by left|done]|].
    exists n. split; [by right|done].
  - intros x y Hx (n & Hn & Hy) Heq. apply (Hdis (nid x)).
    + unfold nodeIds. by apply list_elem_of_fmap_2.
    + rewrite Heq. apply list_elem_of_join. exists (nodeIds n).
      split; [unfold nodeIds; by apply list_elem_of_fmap_2|by apply list_elem_of_fmap_2].
Qed.

Section Node.
Variables (node : Node) (st0 : Store).
Hypothesis Hnd : NoDup (nodeIds node).

Lemma once_one fs f child c i :
  prop f node = Some child → f ∉ fs →
  triple (recordedOnce (inFields node fs) st0) (visitNode (One child) c i)
    (λ _, recordedOnce (inFields node (f :: fs)) st0).
Proof.
  intros Hchild Hf. eapply triple_conseq.
  - apply (once_frame (inFields node fs) (inside (One child))).
    + intros st. apply IH. simpl. eapply unique_child; [done|]. by eapply prop_child.
    + intros x y Hx Hy. eapply inFields_disjoint; [done..|]. by eapply inside_prop.
  - done.
  - intros [] st. apply recordedOnce_mono. intros x [Hx|Hx]; apply inFields_cons; [by left|].
    right. by eapply inside_prop.
Qed.

Lemma once_optional fs f c i :
  f ∉ fs →
  triple (recordedOnce (inFields node fs) st0) (visitNode (optional (prop f node)) c i)
    (λ _, recordedOnce (inFields node (f :: fs)) st0).
Proof.
  intros Hf. destruct (prop f node) as [child|] eqn:Hchild; simpl; [by apply once_one|].
  eapply triple_conseq.
  - apply (once_frame (inFields node fs) (inside Undefined)); [|done].
    intros st. by apply IH.
  - done.
  - intros [] st. apply recordedOnce_mono. intros x [Hx|[]]. apply inFields_cons. by left.
Qed.

Lemma once_many fs f c i :
  f ∉ fs →
  triple (recordedOnce (inFields node fs) st0) (visitNode (Many (propAll f node)) c i)
    (λ _, recordedOnce (inFields node (f :: fs)) st0).
Proof.
  intros Hf. eapply triple_conseq.
  - apply (once_frame (inFields node fs) (inside (Many (propAll f node)))).
    + intros st. apply IH. by apply distinct_propAll.
    + intros x y Hx Hy. eapply inFields_disjoint; [done..|]. by apply inside_propAll.
  - done.
  - intros [] st. apply recordedOnce_mono. intros x [Hx|Hx]; apply inFields_cons; [by left|].
    right. by apply inside_propAll.
Qed.

Lemma once_add fs f child scope w i :
  prop f node = Some child → f ∉ fs →
  triple (recordedOnce (inFields node fs) st0) (addReference scope child w i)
    (λ _, recordedOnce (inFields node (f :: fs)) st0).
Proof.
  intros Hchild Hf. eapply triple_conseq.
  - apply (once_frame (inFields node fs) (λ x, x = child)).
    + intros st. apply addReference_once.
    + intros x y Hx ->. eapply inFields_disjoint; [done..|].
      eapply inside_prop; [done|apply subnodes_self].
  - done.
  - intros [] st. apply recordedOnce_mono. intros x [Hx| ->]; apply inFields_cons; [by left|].
    right. eapply inside_prop; [done|apply subnodes_self].
Qed.

Lemma once_self c i :
  triple (recordedOnce (inFields node []) st0) (visitNode (One node) c i)
    (λ _, recordedOnce (inside (One node)) st0).
Proof.
  eapply triple_conseq.
  - apply (once_frame (inFields node []) (inside (One node))).
    + intros st. by apply IH.
    + by intros x y (f & ? & ?%elem_of_nil & _).
  - done.
  - intros [] st. apply recordedOnce_mono. intros x [Hx|Hx]; [|done].
    by eapply inFields_subnodes.
Qed.

Lemma once_children c :
  triple (recordedOnce (inFields node []) st0)
    (forEach (forEachChild node) (λ child, visitNode (One child) c None))
    (λ _, recordedOnce (inside (One node)) st0).
Proof.
  eapply triple_conseq.
  - apply (once_frame (inFields node []) (inside (Many (forEachChild node)))).
    + intros st. apply once_forEach. revert Hnd. rewrite nodeIds_unfold.
      by intros [_ H]%NoDup_cons.
    + by intros x y (f & ? & ?%elem_of_nil & _).
  - done.
  - intros [] st. apply recordedOnce_mono. intros x [Hx|(n & Hn & Hx)].
    + by eapply inFields_subnodes.
    + simpl. by eapply subnodes_child.
Qed.

Lemma once_add_self scope w i :
  triple (recordedOnce (inFields node []) st0) (addReference scope node w i)
    (λ _, recordedOnce (inside (One node)) st0).
Proof.
  eapply triple_conseq.
  - apply (once_frame (inFields node []) (λ x, x = node)).
    + intros st. apply addReference_once.
    + by intros x y (f & ? & ?%elem_of_nil & _).
  - done.
  - intros [] st. apply recordedOnce_mono. intros x [Hx| ->]; [|apply subnodes_self].
    by eapply inFields_subnodes.
Qed.

Lemma once_skip fs f st :
  recordedOnce (inFields node fs) st0 st → recordedOnce (inFields node (f :: fs)) st0 st.
Proof. apply recordedOnce_mono. intros x Hx. apply inFields_cons. by left. Qed.

Lemma once_done fs st :
  recordedOnce (inFields node fs) st0 st → recordedOnce (inside (One node)) st0 st.
Proof. apply recordedOnce_mono. intros x. apply inFields_subnodes. Qed.
End Node.
End OnceStep.

Ltac other_field :=
  let H := fresh in
  intros H; repeat (apply elem_of_cons in H as [H|H]; [discriminate H|]);
  by apply elem_of_nil in H.

Theorem visitNodeBody_once scopesMap visitNode :
  onceSpec visitNode → onceSpec (AssignReferences.visitNodeBody scopesMap visitNode).
Proof.
  intros IH v c init st Hv. unfold AssignReferences.visitNodeBody.
  destruct v as [|node|nodes]; simpl in Hv.
  - apply triple_ret. intros s ->. apply recordedOnce_refl.
  - apply (triple_conseq _ (recordedOnce (inFields node []) st) _ _
             (λ _, recordedOnce (inside (One node)) st));
      [|intros s ->; apply recordedOnce_refl|done].
    destruct (isTypeNode node); [apply triple_ret; intros s; by apply once_done|].
    destruct (isIdentifier node && c).
    { eapply triple_seq; [apply getScope_triple|]. intros scope _.
      destruct (String.eqb _ _); [apply triple_ret; intros s; by apply once_done|].
      destruct init; by apply once_add_self. }
    destruct (isVariableDeclaration node).
    { apply (triple_bind _ (λ _, recordedOnce (inFields node [FInitializer]) st)).
      - destruct (prop FInitializer node) as [i|] eqn:Hi.
        + apply (once_one visitNode IH node st Hv [] FInitializer); [done|other_field].
        + apply triple_ret. intros s. apply once_skip.
      - intros []. eapply triple_post;
          [apply (once_optional visitNode IH node st Hv); other_field|].
        intros [] s. by apply once_done. }
    destruct (isExpressionStatement node).
    { eapply triple_post;
        [apply (once_optional visitNode IH node st Hv); other_field|].
      intros [] s. by apply once_done. }
    destruct (isBinaryExpression node && _).
    { eapply triple_seq; [apply triple_required|]. intros left Hleft.
      apply (triple_bind _ (λ _, recordedOnce (inFields node [FLeft]) st)).
      - destruct (isIdentifier left).
        + eapply triple_seq; [apply getScope_triple|]. intros scope _.
          apply (once_add node st Hv [] FLeft); [done|other_field].
        + apply (once_one visitNode IH node st Hv [] FLeft); [done|other_field].
      - intros []. eapply triple_post;
          [apply (once_optional visitNode IH node st Hv); other_field|].
        intros [] s. by apply once_done. }
    repeat lazymatch goal with
    | |- triple _ (if ?b then _ else _) _ => destruct b
    | |- triple _ (mret tt) _ => apply triple_ret; intros ?; by apply once_done
    | |- triple _ (visitNode (optional (prop _ node)) _ _ ≫= _) _ =>
        eapply triple_bind;
          [apply (once_optional visitNode IH node st Hv); other_field|intros []]
    | |- triple _ (visitNode (Many (propAll _ node)) _ _ ≫= _) _ =>
        eapply triple_bind;
          [apply (once_many visitNode IH node st Hv); other_field|intros []]
    | |- triple _ (required (prop _ node) ≫= _) _ =>
        eapply triple_seq; [apply triple_required|intros ? ?; cbv beta in *]
    | |- triple _ (visitNode (optional (prop _ node)) _ _) _ =>
        eapply triple_post;
          [apply (once_optional visitNode IH node st Hv); other_field
          |intros [] ?; by apply once_done]
    | |- triple _ (visitNode (Many (propAll _ node)) _ _) _ =>
        eapply triple_post;
          [apply (once_many visitNode IH node st Hv); other_field
          |intros [] ?; by apply once_done]
    | |- triple _ (visitNode (One node) _ _) _ => by apply once_self
    | |- triple _ (visitNode (One _) _ _) _ =>
        eapply triple_post;
          [eapply (once_one visitNode IH node st Hv); [eassumption|other_field]
          |intros [] ?; by apply once_done]
    | |- triple _ (forEach (forEachChild node) _) _ => by apply once_children
    end.
  - by apply once_forEach.
Qed.

Lemma resolver_once scopesMap fuel :
  onceSpec (AssignReferences.visitNodeFuel scopesMap fuel).
Proof.
  induction fuel as [|fuel IH]; [by intros v c init st _ s _|].
  rewrite resolver_visitNodeFuel_S. by apply visitNodeBody_once.
Qed.

(** X22. Pass 2 over a source file of distinct nodes records no node twice:
    among the references it has added to the lists of all scopes, no two
    name the same node, and every one names a node of the source file.
    Starting from lists that are empty, as pass 1 leaves them, two entries of
    the lists of references that name the same node are the same entry of the
    same list. *)
Theorem assignReferences_once (scopesMap : gmap nat Scope) (sourceFile : Node)
    (st st' : Store) :
  NoDup (nodeIds sourceFile) →
  assignReferences scopesMap sourceFile st = Ok (tt, st') →
  recordedOnce (.∈ subnodes sourceFile) st st'
  ∧ ((∀ s, getReferences st s = []) →
     ∀ s s' p q r r',
       getReferences st' s !! p = Some r → getReferences st' s' !! q = Some r' →
       nid (identifier r) = nid (identifier r') →
       scopeId s = scopeId s' ∧ p = q).
Proof.
  intros Hnd Hrun.
  pose proof (resolver_once scopesMap (3 * height sourceFile + 2) (One sourceFile) false None
                st Hnd st eq_refl) as Honce.
  unfold assignReferences, AssignReferences.visitNode in Hrun. rewrite Hrun in Honce.
  split; [done|]. intros Hempty s s' p q r r' Hr Hr' Heq.
  destruct Honce as (news & Hnew & _ & Hone).
  unfold getReferences, references in *.
  rewrite Hnew, Hempty in Hr. rewrite Hnew, Hempty in Hr'.
  by eapply Hone.
Qed.

Lemma assignReferences_once_witness :
  recordedOnce (.∈ subnodes for_let_i) (built for_let_i).2 (analysed for_let_i).2.
Proof.
  destruct (assignReferences_once (built for_let_i).1 for_let_i (built for_let_i).2
              (analysed for_let_i).2) as [H _]; [by_decision|vm_compute; reflexivity|].
  exact H.
Defined.

(** ** Scopes follow the tree *)

Lemma below_subnodes node x : below node x → x ∈ subnodes node.
Proof. intros (c & Hc & Hx). by eapply subnodes_child. Qed.

Lemma child_below node p c : p ∈ subnodes node → c ∈ forEachChild p → below node c.
Proof.
  intros [->|(c0 & Hc0 & Hp)]%subnodes_inv Hc.
  - exists c. split; [done|apply subnodes_self].
  - exists c0. split; [done|]. apply (subnodes_trans c0 p c); [done|].
    eapply subnodes_child; [done|apply subnodes_self].
Qed.

Lemma below_nid node x : NoDup (nodeIds node) → below node x → nid x ≠ nid node.
Proof. intros Hnd (c & Hc & Hx). by eapply unique_child_nid. Qed.

Lemma nestedIn_ext node m m' :
  (∀ x, x ∈ subnodes node → m' !! nid x = m !! nid x) → nestedIn node m → nestedIn node m'.
Proof.
  intros Hext Hn p c sp sc Hp Hc Hsp Hsc. apply (Hn p c); [done..| |].
  - by rewrite <- Hext.
  - rewrite <- Hext; [done|]. by eapply below_subnodes, child_below.
Qed.

Lemma freshBelow_ext node m m' :
  (∀ x, below node x → m' !! nid x = m !! nid x) → freshBelow node m → freshBelow node m'.
Proof. intros Hext Hf x Hx. rewrite Hext by done. by apply Hf. Qed.

Lemma nestedIn_fresh node m : freshBelow node m → nestedIn node m.
Proof.
  intros Hf p c sp sc Hp Hc _ Hsc. rewrite (Hf c) in Hsc; [done|]. by eapply child_below.
Qed.

Lemma freshBelow_set node m t :
  NoDup (nodeIds node) → freshBelow node m → freshBelow node (<[nid node := t]> m).
Proof.
  intros Hnd Hf x Hx. rewrite lookup_insert_ne; [by apply Hf|].
  intros Heq. by eapply below_nid.
Qed.

Lemma freshBelow_child node c m : c ∈ forEachChild node → freshBelow node m → freshBelow c m.
Proof.
  intros Hc Hf x (c0 & Hc0 & Hx). apply Hf. exists c. split; [done|].
  by eapply subnodes_child.
Qed.

Lemma children_field node f c : (f, c) ∈ children node → c ∈ forEachChild node.
Proof. intros H. unfold forEachChild. apply list_elem_of_fmap. by exists (f, c). Qed.

Lemma children_cases node f c f' c' :
  NoDup (nodeIds node) → (f, c) ∈ children node → (f', c') ∈ children node →
  (f' = f ∧ c' = c) ∨ (∀ x y, x ∈ subnodes c → y ∈ subnodes c' → nid x ≠ nid y).
Proof.
  intros Hnd [i Hi]%list_elem_of_lookup_1 [j Hj]%list_elem_of_lookup_1.
  destruct (decide (i = j)) as [->|Hne].
  - left. rewrite Hi in Hj. by injection Hj as <- <-.
  - right. intros x y Hx Hy Heq. apply Hne.
    eapply (unique_siblings node i j c c' x y); eauto using children_forEachChild.
Qed.

Lemma sameOutside_refl node m : sameOutside node m m.
Proof. by intros k _. Qed.

Lemma sameOutside_trans node m1 m2 m3 :
  sameOutside node m1 m2 → sameOutside node m2 m3 → sameOutside node m1 m3.
Proof. intros H12 H23 k Hk. by rewrite H23, H12. Qed.

Lemma sameOutside_child node c m m' :
  c ∈ forEachChild node → sameOutside c m m' → sameOutside node m m'.
Proof.
  intros Hc H k Hk. apply H. intros x Hx. apply Hk. by eapply subnodes_child.
Qed.

(** The map changes at one node; the store changes. *)
Lemma triple_resultSet (P : BuildState → Prop) node s (Q : unit → BuildState → Prop) :
  (∀ bs, P bs → Q tt (mkBuildState (store bs) (<[nid node := s]> (result bs)))) →
  triple P (resultSet node s) Q.
Proof. intros H. unfold resultSet. by apply triple_modify. Qed.

Lemma triple_store {A} (P : gmap nat Scope → Prop) (m : M Store A) :
  triple (λ bs, P (result bs)) (onStore m) (λ _ bs, P (result bs)).
Proof.
  intros bs Hbs. unfold onStore. by destruct (m (store bs)) as [[a st']| |].
Qed.

Lemma triple_newChildScope (P : gmap nat Scope → Prop) s k node :
  triple (λ bs, P (result bs)) (onStore (newChildScope s k node))
    (λ c bs, related s c ∧ P (result bs)).
Proof.
  intros bs Hbs.
  unfold onStore, newChildScope, mbind, M_bind, bind, newScope, modify, mret, M_ret, ret.
  simpl. split; [by right|done].
Qed.

Section Stage.
Variables (node : Node) (s : Scope) (m0 : gmap nat Scope).
Hypothesis Hnd : NoDup (nodeIds node).

Lemma stage_start : freshBelow node m0 → stage node s m0 [] (<[nid node := s]> m0).
Proof.
  intros Hf. pose proof (freshBelow_set node m0 s Hnd Hf) as Hf'.
  split; [apply lookup_insert_eq|]. split.
  - intros k Hk. apply lookup_insert_ne. apply Hk, subnodes_self.
  - intros f c Hc%children_field. split; [|split].
    + intros t. rewrite Hf'; [done|]. exists c. split; [done|apply subnodes_self].
    + by apply nestedIn_fresh, (freshBelow_child node).
    + intros _. by apply (freshBelow_child node).
Qed.

Lemma stage_done V m : stage node s m0 V m → visited node s m0 m.
Proof.
  intros (Hroot & Hout & Hch). split; [done|]. split; [|done].
  intros p c sp sc [->|(c0 & Hc0 & Hp)]%subnodes_inv Hc Hsp Hsc.
  - rewrite Hroot in Hsp. injection Hsp as <-.
    unfold forEachChild in Hc. apply list_elem_of_fmap in Hc as ([f c'] & -> & Hc).
    destruct (Hch f c' Hc) as (H1 & _). by apply H1.
  - unfold forEachChild in Hc0. apply list_elem_of_fmap in Hc0 as ([f c'] & -> & Hc0).
    destruct (Hch f c' Hc0) as (_ & H2 & _). by apply (H2 p c).
Qed.

Lemma stage_skip V f m : stage node s m0 V m → stage node s m0 (f :: V) m.
Proof.
  intros (Hroot & Hout & Hch). split; [done|]. split; [done|].
  intros f' c Hc. destruct (Hch f' c Hc) as (H1 & H2 & H3). split; [done|]. split; [done|].
  intros Hf'. apply H3. intros Hin. apply Hf'. by right.
Qed.

(** What holds of a child holds as long as its subtree is left alone. *)
Lemma child_ext (c : Node) (m m' : gmap nat Scope) :
  (∀ y, y ∈ subnodes c → m' !! nid y = m !! nid y) →
  ((∀ t, m !! nid c = Some t → related s t) → ∀ t, m' !! nid c = Some t → related s t)
  ∧ (nestedIn c m → nestedIn c m')
  ∧ (freshBelow c m → freshBelow c m').
Proof.
  intros Hext. split; [|split].
  - intros H t. rewrite Hext by apply subnodes_self. apply H.
  - by apply nestedIn_ext.
  - apply freshBelow_ext. intros y Hy. by apply Hext, below_subnodes.
Qed.

Lemma stage_set V m f c t :
  (f, c) ∈ children node → f ∉ V → related s t →
  stage node s m0 V m → stage node s m0 V (<[nid c := t]> m).
Proof.
  intros Hc Hf Hrel (Hroot & Hout & Hch).
  pose proof (children_field _ _ _ Hc) as Hcc.
  assert (Hndc : NoDup (nodeIds c)) by by eapply unique_child.
  split; [|split].
  - rewrite lookup_insert_ne; [done|]. eapply unique_child_nid; [done..|apply subnodes_self].
  - intros k Hk. rewrite lookup_insert_ne; [by apply Hout|].
    apply Hk. eapply subnodes_child; [done|apply subnodes_self].
  - intros f' c' Hc'. destruct (Hch f' c' Hc') as (H1 & H2 & H3).
    destruct (children_cases node f c f' c' Hnd Hc Hc') as [[-> ->]|Hdis].
    + pose proof (freshBelow_set c m t Hndc (H3 Hf)) as Hfresh. split; [|split].
      * intros t'. rewrite lookup_insert_eq. by intros [= <-].
      * by apply nestedIn_fresh.
      * done.
    + destruct (child_ext c' m (<[nid c := t]> m)) as (E1 & E2 & E3).
      { intros y Hy. apply lookup_insert_ne. apply Hdis; [apply subnodes_self|done]. }
      auto.
Qed.

Lemma staging_start V F l m :
  (∀ c, c ∈ l → ∃ f, (f ∉ V) ∧ (f, c) ∈ children node) →
  stage node s m0 V m → staging node s m0 V F l m.
Proof.
  intros Hl (Hroot & Hout & Hch). split; [done|]. split; [done|].
  intros f c Hc. destruct (Hch f c Hc) as (H1 & H2 & H3).
  split; [done|]. split; [done|]. split.
  - intros Hf. apply H3. intros Hin. apply Hf, elem_of_app. by right.
  - intros (f' & Hf' & Hc')%Hl. destruct (Hch f' c Hc') as (_ & _ & H3'). by apply H3'.
Qed.

Lemma staging_end V F m : staging node s m0 V F [] m → stage node s m0 (F ++ V) m.
Proof.
  intros (Hroot & Hout & Hch). split; [done|]. split; [done|].
  intros f c Hc. destruct (Hch f c Hc) as (H1 & H2 & H3 & _). done.
Qed.

Lemma staging_step V F f t a l (g : M BuildState unit) :
  related s t → (f, a) ∈ children node → f ∈ F → NoDup (mjoin (nodeIds <$> (a :: l))) →
  visitLike a t g →
  triple (λ bs, staging node s m0 V F (a :: l) (result bs)) g
    (λ _ bs, staging node s m0 V F l (result bs)).
Proof.
  intros Hrel Ha HfF Hl Hg bs0 (Hroot & Hout & Hch).
  pose proof (children_field _ _ _ Ha) as Hac.
  destruct (Hch f a Ha) as (_ & _ & _ & Hfresh).
  specialize (Hg bs0 (Hfresh ltac:(by left)) bs0 eq_refl).
  destruct (g bs0) as [[[] bs1]| |]; [|done..]. destruct Hg as (Ha1 & Ha2 & Ha3).
  split; [|split].
  - rewrite Ha3; [done|]. intros x Hx. by eapply unique_child_nid.
  - eapply sameOutside_trans; [done|]. by eapply sameOutside_child.
  - intros f' c Hc. destruct (Hch f' c Hc) as (H1 & H2 & H3 & H4).
    destruct (children_cases node f a f' c Hnd Ha Hc) as [[-> ->]|Hdis].
    + split; [|split; [done|split]].
      * intros t'. rewrite Ha1. by intros [= <-].
      * intros Hf. destruct Hf. apply elem_of_app. by left.
      * intros Hin. exfalso. simpl in Hl. apply NoDup_app in Hl as (_ & Hl & _).
        apply (Hl (nid a)).
        -- unfold nodeIds. apply list_elem_of_fmap_2, subnodes_self.
        -- apply list_elem_of_join. exists (nodeIds a). split.
           ++ unfold nodeIds. apply list_elem_of_fmap_2, subnodes_self.
           ++ by apply list_elem_of_fmap_2.
    + destruct (child_ext c (result bs0) (result bs1)) as (E1 & E2 & E3).
      { intros y Hy. apply Ha3. intros x Hx. by apply Hdis. }
      split; [auto|]. split; [auto|]. split; [auto|].
      intros Hin. apply E3, H4. by right.
Qed.

(** A child, or what stands for its visit. *)
Lemma stage_visit V f t c (g : M BuildState unit) :
  (f, c) ∈ children node → f ∉ V → related s t → visitLike c t g →
  triple (λ bs, stage node s m0 V (result bs)) g (λ _ bs, stage node s m0 (f :: V) (result bs)).
Proof.
  intros Hc Hf Hrel Hg. eapply triple_conseq.
  - apply (staging_step V [f] f t c [] g); [done|done|by left| |done].
    simpl. rewrite app_nil_r. eapply unique_child; [done|]. by eapply children_field.
  - intros bs. apply staging_start.
    intros c' ->%list_elem_of_singleton. by exists f.
  - intros [] bs. apply (staging_end V [f]).
Qed.

(** The children of a list, one after the other. *)
Lemma staging_forEach V F t (g : Node → M BuildState unit) l :
  related s t → (∀ c, c ∈ l → ∃ f, f ∈ F ∧ (f, c) ∈ children node) →
  NoDup (mjoin (nodeIds <$> l)) → (∀ c, c ∈ l → visitLike c t (g c)) →
  triple (λ bs, staging node s m0 V F l (result bs)) (forEach l g)
    (λ _ bs, staging node s m0 V F [] (result bs)).
Proof.
  intros Hrel. induction l as [|a l IH]; intros Hl Hnod Hg; simpl.
  { by apply triple_ret. }
  destruct (Hl a) as (f & Hf & Ha); [by left|].
  eapply triple_bind.
  - apply (staging_step V F f t a l (g a)); [done..|]. apply Hg. by left.
  - intros []. apply IH.
    + intros c Hc. apply Hl. by right.
    + simpl in Hnod. by apply NoDup_app in Hnod as (_ & _ & ?).
    + intros c Hc. apply Hg. by right.
Qed.

Lemma stage_list V f t (g : Node → M BuildState unit) :
  f ∉ V → related s t → (∀ c, c ∈ propAll f node → visitLike c t (g c)) →
  triple (λ bs, stage node s m0 V (result bs)) (forEach (propAll f node) g)
    (λ _ bs, stage node s m0 (f :: V) (result bs)).
Proof.
  intros Hf Hrel Hg.
  assert (Hl : ∀ c, c ∈ propAll f node → (f, c) ∈ children node).
  { intros c [i Hi]%propAll_lookup. by eapply list_elem_of_lookup_2. }
  eapply triple_conseq.
  - apply (staging_forEach V [f] t g (propAll f node)); [done| | |done].
    + intros c Hc. exists f. split; [by left|by apply Hl].
    + by apply (distinct_propAll f node).
  - intros bs. apply staging_start.
    intros c Hc. exists f. split; [done|by apply Hl].
  - intros [] bs. apply (staging_end V [f]).
Qed.

Lemma stage_all t (g : Node → M BuildState unit) :
  related s t → (∀ c, c ∈ forEachChild node → visitLike c t (g c)) →
  triple (λ bs, stage node s m0 [] (result bs)) (forEach (forEachChild node) g)
    (λ _ bs, visited node s m0 (result bs)).
Proof.
  intros Hrel Hg.
  assert (Hl : ∀ c, c ∈ forEachChild node →
                ∃ f, f ∈ (children node).*1 ∧ (f, c) ∈ children node).
  { intros c Hc. unfold forEachChild in Hc.
    apply list_elem_of_fmap in Hc as ([f c'] & -> & Hc). exists f. split; [|done].
    apply list_elem_of_fmap. by exists (f, c'). }
  eapply triple_conseq.
  - apply (staging_forEach [] (children node).*1 t g (forEachChild node)); [done|done| |done].
    revert Hnd. rewrite nodeIds_unfold. by intros [_ H]%NoDup_cons.
  - intros bs. apply staging_start.
    intros c (f & _ & Hc)%Hl. exists f. split; [by intros ?%elem_of_nil|done].
  - intros [] bs H%staging_end. by eapply stage_done.
Qed.

Lemma stage_addAll :
  triple (λ bs, stage node s m0 [] (result bs)) (FindScopes.addAllChildren node s)
    (λ _ bs, stage node s m0 [] (result bs)).
Proof.
  unfold FindScopes.addAllChildren. apply triple_forEach. intros c Hc.
  apply triple_resultSet. intros bs Hbs. simpl.
  unfold forEachChild in Hc. apply list_elem_of_fmap in Hc as ([f c'] & -> & Hc).
  apply (stage_set [] _ f); [done|by intros ?%elem_of_nil|by left|done].
Qed.
End Stage.

Section NestStep.
Variable visitNode : option Node → Node → Scope → M BuildState unit.
Hypothesis IH : nestSpec visitNode.

(** A node that is mapped, and whose children are visited. *)
Lemma visitLike_children c t t' :
  NoDup (nodeIds c) → related t t' →
  visitLike c t (resultSet c t;; FindScopes.visitAllChildren visitNode c t').
Proof.
  intros Hnd Hrel bs0 Hf.
  apply (triple_bind _ (λ _ bs, stage c t (result bs0) [] (result bs))).
  - apply triple_resultSet. intros bs ->. simpl. by apply stage_start.
  - intros []. unfold FindScopes.visitAllChildren.
    apply (stage_all c t (result bs0) Hnd t'); [done|].
    intros ch Hch. apply IH. by eapply unique_child.
Qed.

Lemma visitLike_parameter functionLike c t :
  NoDup (nodeIds c) →
  visitLike c t (FindScopes.visitParameterDeclaration visitNode functionLike c t).
Proof.
  intros Hnd bs0 Hf. unfold FindScopes.visitParameterDeclaration.
  eapply triple_bind; [by apply (IH (Some functionLike) c t Hnd bs0)|]. intros [].
  eapply triple_seq; [apply triple_required|]. intros name _.
  destruct (isIdentifier name); [apply (triple_store (visited c t (result bs0)))|].
  destruct (isObjectBindingPattern name); apply (triple_store (visited c t (result bs0))).
Qed.

(** The name of a function: it is mapped, and so are its children. *)
Lemma visitLike_name name s (b : bool) (m : M Store unit) :
  NoDup (nodeIds name) →
  visitLike name s
    (resultSet name s;; FindScopes.addAllChildren name s;;
     if b then onStore m else mret tt).
Proof.
  intros Hnd bs0 Hf.
  apply (triple_bind _ (λ _ bs, stage name s (result bs0) [] (result bs))).
  { apply triple_resultSet. intros bs ->. simpl. by apply stage_start. }
  intros []. eapply triple_then; [by apply stage_addAll|]. intros [].
  destruct b.
  - eapply triple_post; [apply (triple_store (stage name s (result bs0) []))|].
    intros [] bs. apply stage_done.
  - apply triple_ret. intros bs. apply stage_done.
Qed.

Section Node.
Variables (node : Node) (s : Scope) (m0 : gmap nat Scope).
Hypothesis Hnd : NoDup (nodeIds node).

Lemma stage_child V f t c :
  prop f node = Some c → f ∉ V → related s t →
  triple (λ bs, stage node s m0 V (result bs)) (visitNode (Some node) c t)
    (λ _ bs, stage node s m0 (f :: V) (result bs)).
Proof.
  intros Hc Hf Hrel. pose proof Hc as [i Hi]%prop_lookup.
  apply (stage_visit node s m0 Hnd V f t c); [by eapply list_elem_of_lookup_2|done..|].
  apply IH. eapply unique_child; [done|]. by eapply prop_child.
Qed.

Lemma stage_optional V f t :
  f ∉ V → related s t →
  triple (λ bs, stage node s m0 V (result bs))
    (match prop f node with
     | Some c => visitNode (Some node) c t
     | None => mret tt
     end)
    (λ _ bs, stage node s m0 (f :: V) (result bs)).
Proof.
  intros Hf Hrel. destruct (prop f node) as [c|] eqn:Hc; [by apply stage_child|].
  apply triple_ret. intros bs. apply stage_skip.
Qed.

(** A body or a statement: a block is mapped and its children are visited,
    anything else is visited. *)
Lemma stage_body V f t c :
  prop f node = Some c → f ∉ V → related s t →
  triple (λ bs, stage node s m0 V (result bs))
    (if isBlock c
     then resultSet c t;; FindScopes.visitAllChildren visitNode c t
     else visitNode (Some node) c t)
    (λ _ bs, visited node s m0 (result bs)).
Proof.
  intros Hc Hf Hrel. pose proof Hc as [i Hi]%prop_lookup.
  assert (Hndc : NoDup (nodeIds c)).
  { eapply unique_child; [done|]. by eapply prop_child. }
  apply (triple_post _ _ _ (λ _ bs, stage node s m0 (f :: V) (result bs)));
    [|intros [] bs; apply stage_done].
  destruct (isBlock c).
  - apply (stage_visit node s m0 Hnd V f t c); [by eapply list_elem_of_lookup_2|done..|].
    apply visitLike_children; [done|by left].
  - by apply stage_child.
Qed.

Lemma stage_children t :
  related s t →
  triple (λ bs, stage node s m0 [] (result bs)) (FindScopes.visitAllChildren visitNode node t)
    (λ _ bs, visited node s m0 (result bs)).
Proof.
  intros Hrel. unfold FindScopes.visitAllChildren.
  apply (stage_all node s m0 Hnd t); [done|].
  intros c Hc. apply IH. by eapply unique_child.
Qed.
End Node.

Theorem visitNodeBody_nested : nestSpec (FindScopes.visitNodeBody visitNode).
Proof.
  intros parent node s Hnd bs0 Hfresh. unfold FindScopes.visitNodeBody.
  set (m0 := result bs0).
  apply (triple_bind _ (λ _ bs, stage node s m0 [] (result bs))).
  { apply triple_resultSet. intros bs ->. simpl. by apply stage_start. }
  intros [].
  assert (Hstore : ∀ V (m : M Store unit),
    triple (λ bs, stage node s m0 V (result bs)) (onStore m)
      (λ _ bs, stage node s m0 V (result bs))).
  { intros V m. apply (triple_store (stage node s m0 V)). }
  assert (Hnew : ∀ V k n,
    triple (λ bs, stage node s m0 V (result bs)) (onStore (newChildScope s k n))
      (λ c bs, related s c ∧ stage node s m0 V (result bs))).
  { intros V k n. apply (triple_newChildScope (stage node s m0 V)). }
  destruct (isBlock node).
  { eapply triple_seq; [apply Hnew|]. intros blockScope Hrel.
    eapply triple_seq; [apply triple_required|]. intros parentNode _.
    eapply triple_then; [|intros []; by apply stage_children].
    destruct (isCatchClause parentNode); [|by apply triple_ret].
    destruct (prop FVariableDeclaration parentNode); [|by apply triple_ret].
    eapply triple_seq; [apply triple_required|]. intros name _. apply Hstore. }
  destruct (isImportClause node).
  { eapply triple_then.
    { destruct (prop FName node); [apply Hstore|by apply triple_ret]. }
    intros []. eapply triple_then; [|intros []; apply stage_children; [done|by left]].
    destruct (prop FNamedBindings node) as [namedBindings|]; [|by apply triple_ret].
    destruct (isNamespaceImport namedBindings).
    - eapply triple_seq; [apply triple_required|]. intros name _. apply Hstore.
    - apply triple_forEach. intros el _.
      eapply triple_seq; [apply triple_required|]. intros name _. apply Hstore. }
  destruct (isFunctionLike node).
  { unfold FindScopes.visitFunctionLike.
    eapply triple_then; [by apply stage_addAll|]. intros [].
    eapply triple_bind.
    { unfold FindScopes.visitOptionalNodes.
      apply (stage_list node s m0 Hnd [] FTypeParameters s); [other_field|by left|].
      intros c Hc%propAll_child. apply IH. by eapply unique_child. }
    intros []. eapply triple_bind.
    { unfold FindScopes.visitOptionalNode. apply stage_optional; [done|other_field|by left]. }
    intros [].
    apply (triple_bind _
             (λ _ bs, stage node s m0 [FName; FType; FTypeParameters] (result bs))).
    { destruct (prop FName node) as [name|] eqn:Hname.
      - pose proof Hname as [i Hi]%prop_lookup.
        apply (stage_visit node s m0 Hnd _ FName s name);
          [by eapply list_elem_of_lookup_2|other_field|by left|].
        apply visitLike_name. eapply unique_child; [done|]. by eapply prop_child.
      - apply triple_ret. intros bs. apply stage_skip. }
    intros []. eapply triple_seq; [apply Hnew|]. intros functionScope Hrel.
    eapply triple_bind.
    { apply (stage_list node s m0 Hnd _ FParameters functionScope); [other_field|done|].
      intros c Hc%propAll_child. apply visitLike_parameter. by eapply unique_child. }
    intros [].
    destruct (_ || _); [|apply triple_ret; intros bs; by apply stage_done].
    destruct (prop FBody node) as [body|] eqn:Hbody;
      [|apply triple_ret; intros bs; by apply stage_done].
    apply (stage_body node s m0 Hnd _ FBody); [done|other_field|done]. }
  destruct (isClassLike node).
  { eapply triple_then.
    { destruct (prop FName node); [apply Hstore|by apply triple_ret]. }
    intros []. eapply triple_seq; [apply Hnew|]. intros classScope Hrel.
    eapply triple_then; [apply Hstore|]. intros []. by apply stage_children. }
  destruct (isForInStatement node || isForOfStatement node || isForStatement node).
  { eapply triple_then; [by apply stage_addAll|]. intros [].
    eapply triple_seq; [apply Hnew|]. intros forScope Hrel.
    eapply triple_bind; [apply stage_optional; [done|other_field|done]|]. intros [].
    destruct (isForStatement node).
    - eapply triple_bind.
      { eapply triple_bind; [apply stage_optional; [done|other_field|done]|]. intros [].
        apply stage_optional; [done|other_field|done]. }
      intros []. eapply triple_seq; [apply triple_required|]. intros statement Hst.
      apply (stage_body node s m0 Hnd _ FStatement); [done|other_field|done].
    - eapply triple_bind.
      { eapply triple_seq; [apply triple_required|]. intros expression Hexpr.
        apply (stage_child node s m0 Hnd _ FExpression); [done|other_field|by left]. }
      intros []. eapply triple_seq; [apply triple_required|]. intros statement Hst.
      apply (stage_body node s m0 Hnd _ FStatement); [done|other_field|done]. }
  eapply triple_then; [|intros []; apply stage_children; [done|by left]].
  destruct (isVariableDeclaration node); [|by apply triple_ret].
  eapply triple_seq; [apply triple_required|]. intros parentNode _.
  destruct (isVariableDeclarationList parentNode); [|by apply triple_ret].
  cbv zeta. eapply triple_seq; [apply triple_required|]. intros name _. apply Hstore.
Qed.
End NestStep.

Lemma builder_nested fuel : nestSpec (FindScopes.visitNodeFuel fuel).
Proof.
  induction fuel as [|fuel IH]; [by intros parent node s _ bs0 _ bs _|].
  rewrite builder_visitNodeFuel_S. by apply visitNodeBody_nested.
Qed.

(** X23. The scopes follow the tree.  When [findScopes] returns for a source file
    of distinct nodes, a node and a child of it that both have a scope in the
    map are in the same scope, or the child is in a child scope of the scope
    of its parent: going down the tree by one node never skips a scope and
    never leaves one.  The same holds of what [getScopeForNode] returns when
    the construction of the container succeeds. *)
Theorem findScopes_nested (sourceFile : Node) (st : Store) :
  NoDup (nodeIds sourceFile) →
  (∀ scopes st',
     findScopes sourceFile st = Ok (scopes, st') →
     ∀ p c sp sc, p ∈ subnodes sourceFile → c ∈ forEachChild p →
       scopes !! nid p = Some sp → scopes !! nid c = Some sc →
       sc = sp ∨ parentScope sc = Some sp)
  ∧ (∀ this st',
       newSourceFileScopesContainer sourceFile st = Ok (this, st') →
       ∀ p c sp sc, p ∈ subnodes sourceFile → c ∈ forEachChild p →
         getScopeForNode this p = Ok sp → getScopeForNode this c = Ok sc →
         sc = sp ∨ parentScope sc = Some sp).
Proof.
  intros Hnd.
  assert (Hfind : ∀ scopes st',
    findScopes sourceFile st = Ok (scopes, st') → nestedIn sourceFile scopes).
  { intros scopes st' Hrun. unfold findScopes in Hrun.
    unfold mbind, M_bind, bind, onStore, newScope in Hrun. simpl in Hrun.
    match type of Hrun with
    | match FindScopes.visitNode ?p ?n ?s ?bs with _ => _ end = _ =>
        pose proof (builder_nested (height sourceFile) p n s Hnd bs) as H;
        unfold FindScopes.visitNode in Hrun
    end.
    specialize (H ltac:(by intros x _; apply lookup_empty) _ eq_refl).
    destruct (FindScopes.visitNodeFuel _ _ _ _ _) as [[[] bs']|e|]; [|done..].
    injection Hrun as <- <-. by destruct H as (_ & H & _). }
  split.
  - intros scopes st' Hrun p c sp sc Hp Hc Hsp Hsc. by apply (Hfind scopes st' Hrun p c).
  - intros this st' Hrun p c sp sc Hp Hc Hsp Hsc.
    unfold newSourceFileScopesContainer in Hrun.
    apply bind_Ok_inv in Hrun as (scopes & st1 & Hrun1 & Hrun).
    apply bind_Ok_inv in Hrun as ([] & st2 & _ & Hrun). injection Hrun as <- <-.
    unfold getScopeForNode in Hsp, Hsc. simpl in Hsp, Hsc.
    destruct (scopes !! nid p) as [sp'|] eqn:Hp'; [|done]. injection Hsp as ->.
    destruct (scopes !! nid c) as [sc'|] eqn:Hc'; [|done]. injection Hsc as ->.
    by apply (Hfind scopes st1 Hrun1 p c).
Qed.

Lemma findScopes_nested_witness :
  ∃ sp sc,
    (built for_let_i).1 !! nid capture_loop = Some sp
    ∧ (built for_let_i).1 !! nid body_of_loop = Some sc
    ∧ (sc = sp ∨ parentScope sc = Some sp).
Proof.
  destruct (findScopes_nested for_let_i emptyStore) as [H _]; [by_decision|].
  assert (Hp : ∃ sp, (built for_let_i).1 !! nid capture_loop = Some sp)
    by (vm_compute; eauto).
  assert (Hc : ∃ sc, (built for_let_i).1 !! nid body_of_loop = Some sc)
    by (vm_compute; eauto).
  destruct Hp as [sp Hp]. destruct Hc as [sc Hc]. exists sp, sc.
  split; [exact Hp|]. split; [exact Hc|].
  apply (H (built for_let_i).1 (built for_let_i).2 ltac:(vm_compute; reflexivity)
           capture_loop body_of_loop sp sc); [| |exact Hp|exact Hc].
  - cbv. apply list_elem_of_further, list_elem_of_here.
  - cbv. apply list_elem_of_further, list_elem_of_further, list_elem_of_here.
Defined.

(** ** Where scopes begin *)

(** X24. Only blocks, function-like nodes, class-like nodes and loops begin a
    scope.  Whatever node is visited, under a scope of the store, every scope
    made during the visit is declared by a block, a function-like node, a
    class-like node or a loop of the tree of the node, and has been appended
    to the child scopes of its parent, an older scope.  A node of any other
    kind is mapped to the scope it is visited under, and so is every one of
    its children, whatever the children are (a child that is a block is
    mapped to the scope the block is met in, a function to the scope that
    gets its name); the node itself declares no scope: the scopes made are
    declared by nodes below it. *)
Theorem scope_of_children (fuel : nat) (parent : option Node) (node : Node) (scope : Scope)
    (bs : BuildState) :
  visitable parent node → height node ≤ S fuel →
  is_Some (functionScopeFrom scope) → scopeId scope < scopeCount (store bs) →
  NoDup (nodeIds node) →
  ∃ bs',
    FindScopes.visitNodeFuel (S fuel) parent node scope bs = Ok (tt, bs')
    ∧ begun (λ t, makesScope (declaratingNode t) = true ∧ declaratingNode t ∈ subnodes node)
        (store bs) (store bs')
    ∧ (makesScope node = false →
         result bs' !! nid node = Some scope
         ∧ (∀ c, c ∈ forEachChild node → result bs' !! nid c = Some scope)
         ∧ begun (λ t, below node (declaratingNode t)) (store bs) (store bs')).
Proof.
  intros Hvis Hh Hfs Hvalid Hnd.
  pose proof (visitable_wellFormed _ _ Hvis) as Hwf.
  pose proof (builder_visitNode_spec (S fuel) parent node scope bs Hh Hvis Hfs) as Hspec.
  apply returns_unit in Hspec as (bs' & Hrun & HBuilt & Hroot).
  pose proof (visit_begun _ _ _ _ _ _ _ _ _ _ Hvalid Hrun HBuilt) as Hbegun.
  exists bs'. split; [done|]. split; [done|]. intros Hkind.
  split; [by apply Hroot|]. split.
  - assert (∃ bs2, FindScopes.visitAllChildren (FindScopes.visitNodeFuel fuel) node scope bs2
                   = Ok (tt, bs')) as (bs2 & Hchildren).
    { unfold makesScope in Hkind.
      repeat (apply orb_false_iff in Hkind as [Hkind ?]).
      rewrite builder_visitNodeFuel_S in Hrun. unfold FindScopes.visitNodeBody in Hrun.
      apply bind_Ok_inv in Hrun as ([] & bs1 & _ & Hrun).
      rewrite Hkind in Hrun.
      destruct (isImportClause node).
      - apply bind_Ok_inv in Hrun as ([] & bsA & _ & Hrun).
        apply bind_Ok_inv in Hrun as ([] & bsB & _ & Hrun). by exists bsB.
      - repeat match goal with H : _ = false |- _ => rewrite H in Hrun; clear H end.
        simpl in Hrun. apply bind_Ok_inv in Hrun as ([] & bsA & _ & Hrun). by exists bsA. }
    pose proof (visitAllChildren_children fuel node scope bs2 Hwf Hh Hfs Hnd) as Hall.
    unfold returns, outcome in Hall. rewrite Hchildren in Hall. by destruct Hall.
  - eapply begun_mono; [|exact Hbegun]. intros t [Hmakes Hsub].
    apply subnodes_inv in Hsub as [Heq|(c & Hc & Hsub)]; [|by exists c].
    rewrite Heq in Hmakes. congruence.
Qed.

Lemma scope_of_children_witness :
  ∃ bs',
    FindScopes.visitNodeFuel 5 None x_assign_y outerScope rootState = Ok (tt, bs')
    ∧ Forall (λ c, result bs' !! nid c = Some outerScope) (forEachChild x_assign_y)
    ∧ begun (λ t, below x_assign_y (declaratingNode t)) (store rootState) (store bs').
Proof.
  destruct (scope_of_children 4 None x_assign_y outerScope rootState)
    as (bs' & Hrun & _ & H);
    [by repeat split | vm_compute; lia | by exists outerScope | vm_compute; lia
    | by_decision |].
  destruct (H eq_refl) as (_ & Hchildren & Hbegun).
  exists bs'. split; [exact Hrun|]. split; [by apply Forall_forall|exact Hbegun].
Defined.

Section LoopScope.
Variables (fuel : nat) (node : Node) (t : Scope).
Hypothesis Hwf : wellFormed node = true.
Hypothesis Hh : height node ≤ S fuel.
Hypothesis Hfs : is_Some (functionScopeFrom t).
Hypothesis Hnd : NoDup (nodeIds node).

(** The nodes that may declare a scope while the loop is visited: the nodes
    of its tree, the block of its statement apart. *)
Let apart (x : Node) : Prop :=
  x ∈ subnodes node
  ∧ ∀ statement, prop FStatement node = Some statement → isBlock statement = true →
      x ≠ statement.

(** What a step on the child in the property [f] leaves to the others. *)
Let step (f : Field) (bs bs' : BuildState) : Prop :=
  Built (below node) apart (scopeCount (store bs)) t bs bs'
  ∧ (∀ k, result bs' !! k = result bs !! k
          ∨ ∃ c x, prop f node = Some c ∧ x ∈ subnodes c ∧ k = nid x).

Lemma step_keeps f g bs bs' :
  step f bs bs' → g ≠ f →
  (∀ c, prop g node = Some c → result bs !! nid c = Some t) →
  ∀ c, prop g node = Some c → result bs' !! nid c = Some t.
Proof.
  intros [_ Hframe] Hne Hbefore c Hc.
  destruct (Hframe (nid c)) as [->|(c' & x & Hc' & Hx & Heq)]; [by apply Hbefore|].
  by destruct (unique_props node g f c c' c x Hnd Hc Hc' Hne (subnodes_self _) Hx).
Qed.

(** An optional child, visited under [t]. *)
Lemma optional_child_mapped f bs :
  f ≠ FStatement →
  returns
    (match prop f node with
     | Some c => FindScopes.visitNodeFuel fuel (Some node) c t
     | None => mret tt
     end) bs
    (λ _ bs', step f bs bs' ∧ ∀ c, prop f node = Some c → result bs' !! nid c = Some t).
Proof.
  intros Hf. destruct (prop f node) as [c|] eqn:Hc.
  2: { apply outcome_ret. split; [|done]. split; [apply Built_refl|by left]. }
  pose proof (prop_child _ _ _ Hc) as Hcc.
  assert (Hhc : height c ≤ fuel).
  { pose proof (height_child _ _ Hcc). lia. }
  eapply outcome_mono.
  { apply (builder_visitNode_spec fuel (Some node) c t bs Hhc (conj Hwf Hcc) Hfs). }
  intros [] bs1 (B1 & Hroot). split; [split|].
  - eapply Built_weaken; [done| | |done|by left]; [by exists c|].
    intros x Hx. split; [by eapply subnodes_child|]. intros st Hst _ Heq. subst x.
    by destruct (unique_props node f FStatement c st st st Hnd Hc Hst Hf Hx (subnodes_self _)).
  - intros k. destruct (built_result _ _ _ _ _ _ B1 k) as [->|(x & t' & Hx & -> & _)];
      [by left|].
    right. by exists c, x.
  - intros c' [= <-]. apply Hroot. by eapply unique_child.
Qed.

(** The statement of a loop: a block is mapped and its children are
    visited, anything else is visited. *)
Lemma statement_mapped c bs :
  prop FStatement node = Some c →
  returns
    (if isBlock c then
       resultSet c t;;
       FindScopes.visitAllChildren (FindScopes.visitNodeFuel fuel) c t
     else FindScopes.visitNodeFuel fuel (Some node) c t) bs
    (λ _ bs', step FStatement bs bs'
              ∧ result bs' !! nid c = Some t
              ∧ (isBlock c = true →
                 ∀ x, x ∈ forEachChild c → result bs' !! nid x = Some t)).
Proof.
  intros Hc. pose proof (prop_child _ _ _ Hc) as Hcc.
  assert (Hhc : height c ≤ fuel).
  { pose proof (height_child _ _ Hcc). lia. }
  assert (Hwfc : wellFormed c = true) by by eapply wellFormed_child.
  assert (Hndc : NoDup (nodeIds c)) by by eapply unique_child.
  destruct (isBlock c) eqn:Hblock.
  - apply outcome_bind. eapply outcome_mono.
    { apply (resultSet_returns (below node) apart (scopeCount (store bs))
               t bs c t); [|by left].
      exists c. split; [done|apply subnodes_self]. }
    intros [] bs1 (B1 & Hs1 & Hr1). eapply outcome_mono.
    { apply (visitAllChildren_children fuel c t bs1); [done|lia|done..]. }
    intros [] bs2 (B2 & Hchildren).
    assert (Hsub : ∀ x, below c x → below node x).
    { intros x (c0 & Hc0 & Hx). exists c. split; [done|]. by eapply subnodes_child. }
    split; [split|split].
    + eapply Built_trans; [done|].
      eapply Built_weaken; [done|done| | |by left]; [|rewrite Hs1; lia].
      intros x (c0 & Hc0 & Hx). split.
      * eapply subnodes_child; [done|]. by eapply subnodes_child.
      * intros st Hst _ Heq. subst x. rewrite Hc in Hst. injection Hst as <-.
        by destruct (unique_child_nid c c0 c Hndc Hc0 Hx).
    + intros k.
      destruct (built_result _ _ _ _ _ _ B2 k) as [->|(x & t' & (c0 & Hc0 & Hx) & -> & _)].
      * rewrite Hr1. destruct (decide (k = nid c)) as [->|Hne].
        -- right. exists c, c. split; [done|]. split; [apply subnodes_self|done].
        -- left. by rewrite lookup_insert_ne.
      * right. exists c, x. split; [done|]. split; [by eapply subnodes_child|done].
    + rewrite (Built_keeps_root c _ _ _ _ _ Hndc B2), Hr1. apply lookup_insert_eq.
    + by intros _.
  - eapply outcome_mono.
    { apply (builder_visitNode_spec fuel (Some node) c t bs Hhc (conj Hwf Hcc) Hfs). }
    intros [] bs1 (B1 & Hroot). split; [split|split].
    + eapply Built_weaken; [done| | |done|by left]; [by exists c|].
      intros x Hx. split; [by eapply subnodes_child|].
      intros st Hst Hblock'. rewrite Hc in Hst. injection Hst as <-. congruence.
    + intros k. destruct (built_result _ _ _ _ _ _ B1 k) as [->|(x & t' & Hx & -> & _)];
        [by left|].
      right. by exists c, x.
    + by apply Hroot.
    + done.
Qed.
End LoopScope.

(** X25. A [for] statement stays mapped to the scope it is met in and gets a
    fresh child scope of kind [LexicalScope] of that scope, declared by the
    statement.  Its initializer, its condition, its incrementor and its
    statement are mapped to the loop scope, and when the statement is a block
    so are the children of the block: the block of a loop body gets no scope
    of its own, every scope made during the visit has been appended to the
    child scopes of its parent and is declared by another node than that
    block. *)
Theorem forStatement_scope (fuel : nat) (parent : option Node) (node : Node) (scope : Scope)
    (bs : BuildState) :
  isForStatement node = true → wellFormed node = true → height node ≤ S fuel →
  is_Some (functionScopeFrom scope) → scopeId scope < scopeCount (store bs) →
  NoDup (nodeIds node) →
  let forScope := mkScope (scopeCount (store bs)) LexicalScope node (Some scope) in
  ∃ bs',
    FindScopes.visitNodeFuel (S fuel) parent node scope bs = Ok (tt, bs')
    ∧ forScope ∈ childScopes (store bs') scope
    ∧ result bs' !! nid node = Some scope
    ∧ (∀ f c, f = FInitializer ∨ f = FCondition ∨ f = FIncrementor ∨ f = FStatement →
         prop f node = Some c → result bs' !! nid c = Some forScope)
    ∧ ∀ statement, prop FStatement node = Some statement → isBlock statement = true →
        (∀ c, c ∈ forEachChild statement → result bs' !! nid c = Some forScope)
        ∧ begun (λ t, declaratingNode t ≠ statement) (store bs) (store bs').
Proof.
  intros Hfor Hwf Hh Hfs Hvalid Hnd forScope.
  assert (isBlock node = false ∧ isImportClause node = false ∧ isFunctionLike node = false
          ∧ isClassLike node = false) as (HB & HI & HF & HC).
  { unfold isForStatement, isBlock, isImportClause, isFunctionLike, isClassLike in *.
    by destruct (kind node). }
  assert (Hstatement : is_Some (prop FStatement node)).
  { pose proof (wellFormed_node _ _ Hwf (subnodes_self _)) as Hn.
    unfold wellFormedNode in Hn. kind_of Hfor. by apply defined_Some in Hn as [c ->]. }
  destruct Hstatement as [statement Hst].
  assert (Hfsf : is_Some (functionScopeFrom forScope)) by (by apply functionScopeFrom_child).
  set (D := λ x, x ∈ subnodes node
                 ∧ ∀ st, prop FStatement node = Some st → isBlock st = true → x ≠ st).
  cut (returns (FindScopes.visitNodeFuel (S fuel) parent node scope) bs
         (λ _ bs',
            forScope ∈ childScopes (store bs') scope
            ∧ result bs' !! nid node = Some scope
            ∧ (∀ f c, f = FInitializer ∨ f = FCondition ∨ f = FIncrementor ∨ f = FStatement →
                 prop f node = Some c → result bs' !! nid c = Some forScope)
            ∧ (∀ c, isBlock statement = true → c ∈ forEachChild statement →
                 result bs' !! nid c = Some forScope)
            ∧ scopesAdded (λ t, D (declaratingNode t)) (store bs) (store bs'))).
  { intros ([] & bs' & Hrun & H1 & H2 & H3 & H4 & Hadded)%returns_Ok.
    exists bs'. split_and!; try done. intros statement' Hst' Hblock.
    rewrite Hst in Hst'. injection Hst' as <-. split; [intros c; by apply H4|].
    pose proof (builder_begun (S fuel) parent node scope bs Hvalid) as Hbegun.
    unfold wp in Hbegun. rewrite Hrun in Hbegun.
    eapply begun_mono; [|apply begun_and; [exact Hbegun|exact Hadded]].
    intros t [_ [_ Ht]]. by apply Ht. }
  rewrite builder_visitNodeFuel_S. unfold FindScopes.visitNodeBody.
  rewrite HB, HI, HF, HC, Hfor, !orb_true_r.
  apply outcome_bind. unfold resultSet at 1. apply outcome_modify.
  set (bs1 := mkBuildState (store bs) (<[nid node := scope]> (result bs))).
  apply outcome_bind. eapply outcome_mono.
  { apply (addAllChildren_returns (below node) D (scopeCount (store bs)) scope
             bs1 node scope); [|by left].
    intros x Hx. exists x. split; [done|apply subnodes_self]. }
  intros [] bs2 (B12 & Hs2 & _).
  apply outcome_bind. eapply outcome_mono.
  { apply (newChildScope_returns (below node) D (scopeCount (store bs))
             scope bs2 scope LexicalScope node); [|rewrite Hs2; simpl; lia].
    split; [apply subnodes_self|]. intros st Hst' _ Heq.
    apply prop_child in Hst'. rewrite <- Heq in Hst'.
    by destruct (unique_child_nid node node node Hnd Hst' (subnodes_self _)). }
  intros c bs3 (Hc & B23 & Hr3 & Hc3 & _ & _ & Hch3).
  assert (c = forScope) as -> by (by rewrite Hc, Hs2).
  apply outcome_bind. eapply outcome_mono.
  { by apply (optional_child_mapped fuel node forScope Hwf Hh Hfsf Hnd FInitializer bs3). }
  intros [] bs4 (S34 & Hinit).
  apply outcome_bind. apply outcome_bind. eapply outcome_mono.
  { by apply (optional_child_mapped fuel node forScope Hwf Hh Hfsf Hnd FCondition bs4). }
  intros [] bs5 (S45 & Hcond). eapply outcome_mono.
  { by apply (optional_child_mapped fuel node forScope Hwf Hh Hfsf Hnd FIncrementor bs5). }
  intros [] bs6 (S56 & Hincr).
  rewrite Hst. apply outcome_bind, outcome_ret. eapply outcome_mono.
  { apply (statement_mapped fuel node forScope Hwf Hh Hfsf Hnd statement bs6 Hst). }
  intros [] bs7 (S67 & Hstmt & Hblock).
  pose proof (built_count _ _ _ _ _ _ (proj1 S34)).
  pose proof (built_count _ _ _ _ _ _ (proj1 S45)).
  pose proof (built_count _ _ _ _ _ _ (proj1 S56)).
  simpl in Hc3. rewrite Hs2 in Hc3. simpl in Hc3.
  split; [|split; [|split; [|split]]].
  - eapply (Built_keeps_child _ _ _ _ bs6 bs7); [exact (proj1 S67)|lia|].
    eapply (Built_keeps_child _ _ _ _ bs5 bs6); [exact (proj1 S56)|lia|].
    eapply (Built_keeps_child _ _ _ _ bs4 bs5); [exact (proj1 S45)|lia|].
    eapply (Built_keeps_child _ _ _ _ bs3 bs4); [exact (proj1 S34)|lia|].
    unfold childScopes. rewrite Hch3, lookup_total_insert_eq.
    apply elem_of_app. right. by apply list_elem_of_singleton.
  - rewrite (Built_keeps_root node _ _ _ _ _ Hnd (proj1 S67)).
    rewrite (Built_keeps_root node _ _ _ _ _ Hnd (proj1 S56)).
    rewrite (Built_keeps_root node _ _ _ _ _ Hnd (proj1 S45)).
    rewrite (Built_keeps_root node _ _ _ _ _ Hnd (proj1 S34)). rewrite Hr3.
    rewrite (Built_keeps_root node _ _ _ _ _ Hnd B12). apply lookup_insert_eq.
  - intros f x [-> | [-> | [-> | ->]]] Hx.
    + eapply (step_keeps node forScope Hnd FStatement FInitializer);
        [exact S67|discriminate| |done].
      eapply (step_keeps node forScope Hnd FIncrementor FInitializer);
        [exact S56|discriminate|].
      eapply (step_keeps node forScope Hnd FCondition FInitializer);
        [exact S45|discriminate|done].
    + eapply (step_keeps node forScope Hnd FStatement FCondition);
        [exact S67|discriminate| |done].
      eapply (step_keeps node forScope Hnd FIncrementor FCondition);
        [exact S56|discriminate|done].
    + eapply (step_keeps node forScope Hnd FStatement FIncrementor);
        [exact S67|discriminate|done|done].
    + rewrite Hst in Hx. by injection Hx as <-.
  - intros c Hb. by apply Hblock.
  - change (store bs) with (store bs1). rewrite <- Hs2.
    assert (HP : ∀ bsa bsb base s, Built (below node) D base s bsa bsb →
              scopesAdded (λ t, D (declaratingNode t)) (store bsa) (store bsb)).
    { intros bsa bsb base s HBuilt. eapply Built_scopesAdded; [exact HBuilt|].
      by intros t0 Ht _. }
    eapply scopesAdded_trans; [exact (HP _ _ _ _ B23)|].
    eapply scopesAdded_trans; [exact (HP _ _ _ _ (proj1 S34))|].
    eapply scopesAdded_trans; [exact (HP _ _ _ _ (proj1 S45))|].
    eapply scopesAdded_trans; [exact (HP _ _ _ _ (proj1 S56))|].
    exact (HP _ _ _ _ (proj1 S67)).
Qed.

Lemma forStatement_scope_witness :
  ∃ bs',
    FindScopes.visitNodeFuel 5 None for_i_loop outerScope rootState = Ok (tt, bs')
    ∧ result bs' !! nid (ident 53 "i") = Some (mkScope 1 LexicalScope for_i_loop (Some outerScope))
    ∧ result bs' !! nid for_i_body = Some (mkScope 1 LexicalScope for_i_loop (Some outerScope)).
Proof.
  destruct (forStatement_scope 4 None for_i_loop outerScope rootState)
    as (bs' & Hrun & _ & _ & Hprops & _);
    [reflexivity | reflexivity | vm_compute; lia | by exists outerScope | vm_compute; lia
    | by_decision |].
  exists bs'. split; [exact Hrun|]. split.
  - apply (Hprops FCondition); [auto|reflexivity].
  - apply (Hprops FStatement); [auto|reflexivity].
Defined.

(** ** Names are no references *)

Lemma height_subnodes node x : x ∈ subnodes node → height x ≤ height node.
Proof.
  remember (height node) as h eqn:Hh. revert node Hh x.
  induction h as [h IH] using lt_wf_ind. intros node -> x.
  intros [->|(c & Hc & Hx)]%subnodes_inv; [done|].
  pose proof (height_child _ _ Hc) as Hlt.
  pose proof (IH (height c) Hlt c eq_refl x Hx). lia.
Qed.

Lemma unique_subtree root node : NoDup (nodeIds root) → node ∈ subnodes root → NoDup (nodeIds node).
Proof.
  remember (height root) as h eqn:Hh. revert root Hh node.
  induction h as [h IH] using lt_wf_ind. intros root -> node Hnd.
  intros [->|(c & Hc & Hx)]%subnodes_inv; [done|].
  apply (IH (height c) (height_child _ _ Hc) c eq_refl); [|done]. by eapply unique_child.
Qed.

(** In a tree of distinct nodes a node has one parent. *)
Lemma unique_parent root p x y :
  NoDup (nodeIds root) → p ∈ subnodes root → x ∈ subnodes root →
  y ∈ forEachChild p → y ∈ forEachChild x → p = x.
Proof.
  remember (height root) as h eqn:Hh. revert root Hh p x y.
  induction h as [h IH] using lt_wf_ind. intros root -> p x y Hnd Hp Hx Hyp Hyx.
  assert (Hchild : ∀ a c, c ∈ forEachChild root → a ∈ subnodes c →
                    y ∈ forEachChild root → y ∈ forEachChild a → False).
  { intros a c Hc Ha Hyr Hya.
    assert (y ∈ subnodes c) as Hyc.
    { apply (subnodes_trans c a y); [done|]. eapply subnodes_child; [done|apply subnodes_self]. }
    assert (y = c) as ->.
    { eapply (unique_children root y c y y); eauto using subnodes_self. }
    pose proof (height_child _ _ Hya). pose proof (height_subnodes _ _ Ha). lia. }
  apply subnodes_inv in Hp as [->|(c1 & Hc1 & Hp)];
    apply subnodes_inv in Hx as [->|(c2 & Hc2 & Hx)].
  - done.
  - by destruct (Hchild x c2).
  - by destruct (Hchild p c1).
  - assert (c1 = c2) as <-.
    { eapply (unique_children root c1 c2 y y); [done..| | |done].
      - apply (subnodes_trans c1 p y); [done|].
        eapply subnodes_child; [done|apply subnodes_self].
      - apply (subnodes_trans c2 x y); [done|].
        eapply subnodes_child; [done|apply subnodes_self]. }
    apply (IH (height c1) (height_child _ _ Hc1) c1 eq_refl p x y); [|done..].
    by eapply unique_child.
Qed.

Section Names.
Variables (root node : Node).
Hypothesis Hnd : NoDup (nodeIds root).
Hypothesis Hnode : node ∈ subnodes root.

(** A child is a name only of its parent, and in the property [name]. *)
Lemma field_not_name f y :
  (f, y) ∈ children node → holdsName node = false ∨ f ≠ FName → ¬ nameIn root y.
Proof.
  intros Hy Hwhy (p & Hp & Hhold & Hname).
  assert (p = node) as ->.
  { eapply (unique_parent root p node y); [done..|by eapply prop_child|].
    by eapply children_field. }
  destruct Hwhy as [Hno|Hf]; [congruence|].
  apply list_elem_of_lookup_1 in Hy as [i Hi]. apply prop_lookup in Hname as [j Hj].
  by destruct (unique_fields node i j f FName y y y y (unique_subtree _ _ Hnd Hnode) Hi Hj Hf
                 (subnodes_self _) (subnodes_self _)).
Qed.

Lemma prop_not_name f y :
  prop f node = Some y → holdsName node = false ∨ f ≠ FName → ¬ nameIn root y.
Proof.
  intros [i Hi]%prop_lookup. apply field_not_name. by eapply list_elem_of_lookup_2.
Qed.

Lemma propAll_not_name f y :
  y ∈ propAll f node → holdsName node = false ∨ f ≠ FName → ¬ nameIn root y.
Proof.
  intros [i Hi]%propAll_lookup. apply field_not_name. by eapply list_elem_of_lookup_2.
Qed.

Lemma child_not_name y :
  y ∈ forEachChild node → holdsName node = false → ¬ nameIn root y.
Proof.
  intros Hy Hno. unfold forEachChild in Hy.
  apply list_elem_of_fmap in Hy as ([f y'] & -> & Hy). apply (field_not_name f); [done|by left].
Qed.

Lemma within_prop f : within root (optional (prop f node)).
Proof.
  destruct (prop f node) as [y|] eqn:Hy; [|done]. simpl.
  apply (subnodes_trans root node y); [done|].
  eapply subnodes_child; [by eapply prop_child|apply subnodes_self].
Qed.

Lemma within_propAll f : within root (Many (propAll f node)).
Proof.
  intros y Hy%propAll_child. apply (subnodes_trans root node y); [done|].
  eapply subnodes_child; [done|apply subnodes_self].
Qed.

Lemma within_child y : y ∈ forEachChild node → within root (One y).
Proof.
  intros Hy. simpl. apply (subnodes_trans root node y); [done|].
  eapply subnodes_child; [done|apply subnodes_self].
Qed.
End Names.

Lemma addReference_names (P : Node → Prop) st0 scope node w i :
  P node → triple (recorded P st0) (addReference scope node w i) (λ _, recorded P st0).
Proof.
  intros HP st Hst.
  pose proof (addReference_recorded P (λ _, True) scope node w i st HP) as H.
  unfold outcome in H. destruct (addReference scope node w i st) as [[[] st']| |]; [|done..].
  by eapply recorded_trans.
Qed.

Lemma holdsName_others node :
  isPropertyAccessExpression node = false → isJsxAttribute node = false →
  isPropertyAssignment node = false → holdsName node = false.
Proof. unfold holdsName. by intros -> -> ->. Qed.

Lemma holdsName_variableDeclaration node :
  isVariableDeclaration node = true → holdsName node = false.
Proof.
  unfold holdsName, isVariableDeclaration, isPropertyAccessExpression, isJsxAttribute,
    isPropertyAssignment.
  by destruct (kind node).
Qed.

Section NamesStep.
Variables (root : Node) (st0 : Store).
Variable visitNode : Visitable → bool → option Node → M Store unit.
Hypothesis IH : namesSpec root st0 visitNode.
Hypothesis Hnd : NoDup (nodeIds root).
Variable node : Node.
Hypothesis Hnode : node ∈ subnodes root.

Lemma names_one f child c i :
  prop f node = Some child → (c = true → holdsName node = false ∨ f ≠ FName) →
  triple (recorded (λ x, ¬ nameIn root x) st0) (visitNode (One child) c i)
    (λ _, recorded (λ x, ¬ nameIn root x) st0).
Proof.
  intros Hchild Hc. apply IH.
  - pose proof (within_prop root node Hnode f) as H. by rewrite Hchild in H.
  - intros Htrue x ->. eapply prop_not_name; eauto.
Qed.

Lemma names_optional f c i :
  (c = true → holdsName node = false ∨ f ≠ FName) →
  triple (recorded (λ x, ¬ nameIn root x) st0) (visitNode (optional (prop f node)) c i)
    (λ _, recorded (λ x, ¬ nameIn root x) st0).
Proof.
  intros Hc. destruct (prop f node) as [child|] eqn:Hchild; [by eapply names_one|].
  by apply IH.
Qed.

Lemma names_many f c i :
  (c = true → holdsName node = false ∨ f ≠ FName) →
  triple (recorded (λ x, ¬ nameIn root x) st0) (visitNode (Many (propAll f node)) c i)
    (λ _, recorded (λ x, ¬ nameIn root x) st0).
Proof.
  intros Hc. apply IH; [by apply within_propAll|].
  intros Htrue x Hx. eapply propAll_not_name; eauto.
Qed.

Lemma names_add f child scope w i :
  prop f node = Some child → holdsName node = false ∨ f ≠ FName →
  triple (recorded (λ x, ¬ nameIn root x) st0) (addReference scope child w i)
    (λ _, recorded (λ x, ¬ nameIn root x) st0).
Proof. intros Hchild Hf. apply addReference_names. eapply prop_not_name; eauto. Qed.

Lemma names_self i :
  triple (recorded (λ x, ¬ nameIn root x) st0) (visitNode (One node) false i)
    (λ _, recorded (λ x, ¬ nameIn root x) st0).
Proof. by apply IH. Qed.

Lemma names_children c :
  holdsName node = false →
  triple (recorded (λ x, ¬ nameIn root x) st0)
    (forEach (forEachChild node) (λ child, visitNode (One child) c None))
    (λ _, recorded (λ x, ¬ nameIn root x) st0).
Proof.
  intros Hno. apply triple_forEach. intros child Hchild. apply IH.
  - by eapply within_child.
  - intros _ x ->. by eapply child_not_name.
Qed.
End NamesStep.

Ltac other_name :=
  let H := fresh in intros H; first [discriminate H|by right].

Theorem visitNodeBody_names root st0 scopesMap visitNode :
  NoDup (nodeIds root) →
  namesSpec root st0 visitNode →
  namesSpec root st0 (AssignReferences.visitNodeBody scopesMap visitNode).
Proof.
  intros Hnd IH v c init Hv Hc. unfold AssignReferences.visitNodeBody.
  destruct v as [|node|nodes]; simpl in Hv.
  - by apply triple_ret.
  - destruct (isTypeNode node); [by apply triple_ret|].
    destruct (isIdentifier node && c) eqn:Hid.
    { apply andb_prop in Hid as [_ ->].
      eapply triple_seq; [apply getScope_triple|]. intros scope _.
      destruct (String.eqb _ _); [by apply triple_ret|].
      destruct init; apply addReference_names; by apply Hc. }
    destruct (isVariableDeclaration node) eqn:Hvd.
    { apply holdsName_variableDeclaration in Hvd.
      apply triple_then.
      - destruct (prop FInitializer node) as [i|] eqn:Hi; [|by apply triple_ret].
        apply (names_one root st0 visitNode IH Hnd node Hv FInitializer); [done|other_name].
      - intros []. apply (names_optional root st0 visitNode IH Hnd node Hv). by left. }
    destruct (isExpressionStatement node).
    { apply (names_optional root st0 visitNode IH Hnd node Hv). other_name. }
    destruct (isBinaryExpression node && _).
    { eapply triple_seq; [apply triple_required|]. intros left Hleft.
      apply triple_then.
      - destruct (isIdentifier left).
        + eapply triple_seq; [apply getScope_triple|]. intros scope _.
          apply (names_add root st0 Hnd node Hv FLeft); [done|by right].
        + apply (names_one root st0 visitNode IH Hnd node Hv FLeft); [done|other_name].
      - intros []. apply (names_optional root st0 visitNode IH Hnd node Hv). other_name. }
    repeat lazymatch goal with
    | |- triple _ (if ?b then _ else _) _ => destruct b eqn:?
    | |- triple _ (mret tt) _ => by apply triple_ret
    | |- triple _ (visitNode (optional (prop _ node)) _ _ ≫= _) _ =>
        apply triple_then;
          [apply (names_optional root st0 visitNode IH Hnd node Hv); other_name|intros []]
    | |- triple _ (visitNode (Many (propAll _ node)) _ _ ≫= _) _ =>
        apply triple_then;
          [apply (names_many root st0 visitNode IH Hnd node Hv); other_name|intros []]
    | |- triple _ (required (prop _ node) ≫= _) _ =>
        eapply triple_seq; [apply triple_required|intros ? ?; cbv beta in *]
    | |- triple _ (visitNode (optional (prop _ node)) _ _) _ =>
        apply (names_optional root st0 visitNode IH Hnd node Hv); other_name
    | |- triple _ (visitNode (Many (propAll _ node)) _ _) _ =>
        apply (names_many root st0 visitNode IH Hnd node Hv); other_name
    | |- triple _ (visitNode (One node) false _) _ => by apply (names_self root st0 visitNode IH node Hv)
    | |- triple _ (visitNode (One _) _ _) _ =>
        eapply (names_one root st0 visitNode IH Hnd node Hv); [eassumption|other_name]
    | |- triple _ (forEach (forEachChild node) _) _ =>
        apply (names_children root st0 visitNode IH Hnd node Hv); by apply holdsName_others
    end.
  - apply triple_forEach. intros n Hn. apply IH; [by apply Hv|].
    intros Htrue x ->. by apply Hc.
Qed.

Lemma resolver_names root st0 scopesMap fuel :
  NoDup (nodeIds root) →
  namesSpec root st0 (AssignReferences.visitNodeFuel scopesMap fuel).
Proof.
  intros Hnd. induction fuel as [|fuel IH]; [by intros v c init _ _ s _|].
  rewrite resolver_visitNodeFuel_S. by apply visitNodeBody_names.
Qed.

(** X26. Pass 2 over a source file of distinct nodes records no name as a
    reference: no reference it adds names a node that is the [name] of a
    property access [e.name], of a JSX attribute or of a property [name: e] of
    an object literal of the source file.  Starting from lists that are empty,
    as pass 1 leaves them, no reference of any scope names such a node. *)
Theorem assignReferences_skips_names (scopesMap : gmap nat Scope) (sourceFile : Node)
    (st st' : Store) :
  NoDup (nodeIds sourceFile) →
  assignReferences scopesMap sourceFile st = Ok (tt, st') →
  recorded (λ x, ¬ nameIn sourceFile x) st st'
  ∧ ((∀ s, getReferences st s = []) →
     ∀ s r, r ∈ getReferences st' s → ¬ nameIn sourceFile (identifier r)).
Proof.
  intros Hnd Hrun.
  pose proof (resolver_names sourceFile st scopesMap (3 * height sourceFile + 2) Hnd
                (One sourceFile) false None (subnodes_self _) ltac:(done)
                st (recorded_refl _ _)) as Hnames.
  unfold assignReferences, AssignReferences.visitNode in Hrun. rewrite Hrun in Hnames.
  split; [done|]. intros Hempty s r Hr.
  destruct Hnames as (_ & _ & _ & _ & Hnew).
  destruct (Hnew (scopeId s)) as (new & Heq & Hall).
  unfold getReferences, references in *. rewrite Heq, Hempty in Hr.
  by apply (proj1 (Forall_forall _ _) Hall r).
Qed.

Lemma assignReferences_skips_names_witness :
  recorded (λ x, ¬ nameIn access_a_b x) (built access_a_b).2 (analysed access_a_b).2.
Proof.
  destruct (assignReferences_skips_names (built access_a_b).1 access_a_b (built access_a_b).2
              (analysed access_a_b).2) as [H _]; [by_decision|vm_compute; reflexivity|].
  exact H.
Defined.
